(** * graph-visualizer: the graph parser, Dijkstra and Prim, embedded in Rocq

    The development follows the JavaScript sources
    [src/graphParser.js], [src/algorithms.js] and [src/calculators.js],
    and the function [calculate] of [src/main.js].

    - JavaScript numbers are IEEE-754 binary64 values; they are modelled by
      [spec_float] with precision 53 and exponent bound 1024, so rounding,
      infinities, signed zeros and NaN behave as in the engine.
    - JavaScript strings are modelled by [string], one [ascii] per code unit
      (code units 0..255).
    - Plain objects used as dictionaries ([adjacency], [edgeKeyToId], [dist],
      [prev]) are insertion-ordered association lists below a prototype that
      carries the property names of [Object.prototype]. *)

From Stdlib Require Import ZArith List Bool Ascii String Lia Arith PeanoNat.
From Stdlib Require Import Permutation FinFun Sorted.
From Stdlib Require Import Floats.SpecFloat.
Import ListNotations.

#[local] Set Warnings "-register-all".

Local Open Scope string_scope.
Local Open Scope Z_scope.

(** ** Characters and strings *)

Module JSString.

Definition code (c : ascii) : Z := Z.of_N (N_of_ascii c).

Definition char_of_code (z : Z) : ascii := ascii_of_N (Z.to_N z).

(** The line feed, U+000A. *)
Definition nl : string := String (char_of_code 10) EmptyString.

(** WhiteSpace and LineTerminator code units below 256: what [trim] strips
    and what [\s] matches. *)
Definition is_ws (c : ascii) : bool :=
  let n := code c in
  ((9 <=? n) && (n <=? 13)) || (n =? 32) || (n =? 160).

Definition is_digit (c : ascii) : bool :=
  let n := code c in (48 <=? n) && (n <=? 57).

(** Value of a digit in a radix up to 36, case-insensitive. *)
Definition digit_val (c : ascii) : option Z :=
  let n := code c in
  if (48 <=? n) && (n <=? 57) then Some (n - 48)
  else if (97 <=? n) && (n <=? 122) then Some (n - 87)
  else if (65 <=? n) && (n <=? 90) then Some (n - 55)
  else None.

Definition is_radix_digit (r : Z) (c : ascii) : bool :=
  match digit_val c with
  | Some d => d <? r
  | None => false
  end.

Definition chars : string -> list ascii := list_ascii_of_string.
Definition of_chars : list ascii -> string := string_of_list_ascii.

Fixpoint drop_ws (l : list ascii) : list ascii :=
  match l with
  | c :: r => if is_ws c then drop_ws r else l
  | [] => []
  end.

Definition trimStart (s : string) : string := of_chars (drop_ws (chars s)).

(** [String.prototype.trim] *)
Definition trim (s : string) : string :=
  of_chars (rev (drop_ws (rev (drop_ws (chars s))))).

Definition is_empty (s : string) : bool :=
  match s with EmptyString => true | _ => false end.

(** [s.split(c)] for a one-character separator: always at least one piece. *)
Fixpoint split_chars (sep : ascii) (l : list ascii) (cur : list ascii)
  : list (list ascii) :=
  match l with
  | [] => [rev cur]
  | c :: r =>
      if Ascii.eqb c sep then rev cur :: split_chars sep r []
      else split_chars sep r (c :: cur)
  end.

Definition split_on (sep : ascii) (s : string) : list string :=
  map of_chars (split_chars sep (chars s) []).

(** [s.split(/\s+/)]: maximal runs of white space separate the pieces; a
    leading run yields a leading empty piece, a trailing run a trailing one. *)
Fixpoint split_ws_chars (l : list ascii) (cur : list ascii) (in_ws : bool)
  : list (list ascii) :=
  match l with
  | [] => [rev cur]
  | c :: r =>
      if is_ws c then
        if in_ws then split_ws_chars r cur true
        else rev cur :: split_ws_chars r [] true
      else split_ws_chars r (c :: cur) false
  end.

Definition split_ws (s : string) : list string :=
  match s with
  | EmptyString => [EmptyString]
  | _ => map of_chars (split_ws_chars (chars s) [] false)
  end.

(** [.filter(Boolean)] on an array of strings: the empty string is falsy. *)
Definition filter_nonempty (l : list string) : list string :=
  filter (fun s => negb (is_empty s)) l.

Fixpoint contains_char (c : ascii) (s : string) : bool :=
  match s with
  | EmptyString => false
  | String d r => Ascii.eqb c d || contains_char c r
  end.

Fixpoint starts_with (p s : string) : bool :=
  match p, s with
  | EmptyString, _ => true
  | String a p', String b s' => Ascii.eqb a b && starts_with p' s'
  | _, EmptyString => false
  end.

Fixpoint drop (n : nat) (s : string) : string :=
  match n, s with
  | O, _ => s
  | S k, String _ r => drop k r
  | S _, EmptyString => EmptyString
  end.

(** Code-unit order, the order of [<] on strings and of [Array.prototype.sort]
    without a comparator. *)
Fixpoint ltb (a b : string) : bool :=
  match a, b with
  | EmptyString, EmptyString => false
  | EmptyString, String _ _ => true
  | String _ _, EmptyString => false
  | String x a', String y b' =>
      if code x <? code y then true
      else if code y <? code x then false
      else ltb a' b'
  end.

Definition lower (c : ascii) : ascii :=
  let n := code c in
  if (65 <=? n) && (n <=? 90) then char_of_code (n + 32) else c.

End JSString.

(** ** Numbers: IEEE-754 binary64 *)

Module JSNumber.
Import JSString.

Definition number := spec_float.

Definition prec : Z := 53.
Definition emax : Z := 1024.

Definition NaN : number := S754_nan.
Definition Infinity : number := S754_infinity false.
Definition pzero : number := S754_zero false.

(** The Number value of a mathematical integer (round to nearest, ties to
    even). *)
Definition of_Z (z : Z) : number := binary_normalize prec emax z 0 false.

Definition one : number := of_Z 1.

(** The Number value of [(-1)^neg * m * 10^e], correctly rounded. *)
Definition of_decimal (neg : bool) (m : Z) (e : Z) : number :=
  match m with
  | Zpos p =>
      if 0 <=? e then binary_normalize prec emax
                        (if neg then - (m * 10 ^ e) else m * 10 ^ e) 0 neg
      else
        let '(q, e', l) :=
          SFdiv_core_binary prec emax (Zpos p) 0 (10 ^ (- e)) 0 in
        binary_round_aux prec emax neg q e' l
  | _ => S754_zero neg
  end.

Definition add : number -> number -> number := SFadd prec emax.
Definition sub : number -> number -> number := SFsub prec emax.
Definition mul : number -> number -> number := SFmul prec emax.
Definition neg : number -> number := SFopp.

(** [x < y], [x > y], [x <= y]: all false when an operand is NaN. *)
Definition lt (x y : number) : bool := SFltb x y.
Definition gt (x y : number) : bool := SFltb y x.
Definition le (x y : number) : bool := SFleb x y.

(** [x === y] on numbers. *)
Definition eqb (x y : number) : bool := SFeqb x y.

(** [Number.isFinite] on a number. *)
Definition isFinite (x : number) : bool :=
  match x with
  | S754_zero _ | S754_finite _ _ _ => true
  | _ => false
  end.

Definition isNaN (x : number) : bool :=
  match x with S754_nan => true | _ => false end.

(** [Math.trunc] *)
Definition trunc (x : number) : number :=
  match x with
  | S754_finite s m e =>
      if 0 <=? e then x
      else
        let q := Z.shiftr (Zpos m) (- e) in
        binary_normalize prec emax (if s then - q else q) 0 s
  | _ => x
  end.

(** *** Reading numerals *)

(** Longest prefix of radix-[r] digits: its value, its length, the rest. *)
Fixpoint take_digits (r : Z) (l : list ascii) (acc : Z) (n : Z)
  : Z * Z * list ascii :=
  match l with
  | c :: l' =>
      match digit_val c with
      | Some d => if d <? r then take_digits r l' (acc * r + d) (n + 1)
                  else (acc, n, l)
      | None => (acc, n, l)
      end
  | [] => (acc, n, l)
  end.

Definition is_char (z : Z) (c : ascii) : bool := code c =? z.

(** [ExponentPart] of a decimal literal, which must end the literal. *)
Definition read_exponent (l : list ascii) : option Z :=
  match l with
  | [] => Some 0
  | c :: r =>
      if is_char 101 c || is_char 69 c then
        let '(sg, r') :=
          match r with
          | d :: r'' =>
              if is_char 45 d then (true, r'')
              else if is_char 43 d then (false, r'')
              else (false, r)
          | [] => (false, r)
          end in
        let '(v, n, rest) := take_digits 10 r' 0 0 in
        match rest with
        | [] => if 0 <? n then Some (if sg then - v else v) else None
        | _ => None
        end
      else None
  end.

(** [StrUnsignedDecimalLiteral] without [Infinity]: mantissa and exponent. *)
Definition read_decimal (l : list ascii) : option (Z * Z) :=
  let '(ip, ni, r1) := take_digits 10 l 0 0 in
  let '(m, nf, r2) :=
    match r1 with
    | c :: r1' => if is_char 46 c then take_digits 10 r1' ip 0
                  else (ip, 0, r1)
    | [] => (ip, 0, r1)
    end in
  if 0 <? ni + nf then
    match read_exponent r2 with
    | Some e => Some (m, e - nf)
    | None => None
    end
  else None.

(** [0x], [0o], [0b] literals (either case), no sign allowed. *)
Definition read_prefixed (l : list ascii) : option (option Z) :=
  match l with
  | z :: p :: r =>
      if is_char 48 z then
        let radix :=
          let q := code (lower p) in
          if q =? 120 then Some 16
          else if q =? 111 then Some 8
          else if q =? 98 then Some 2
          else None in
        match radix with
        | Some rd =>
            let '(v, n, rest) := take_digits rd r 0 0 in
            match rest with
            | [] => if 0 <? n then Some (Some v) else Some None
            | _ => Some None
            end
        | None => None
        end
      else None
  | _ => None
  end.

(** [Number(s)] for a string [s] (StringToNumber). *)
Definition of_string (s : string) : number :=
  let t := chars (trim s) in
  match t with
  | [] => pzero
  | c :: r =>
      match read_prefixed t with
      | Some (Some v) => of_Z v
      | Some None => NaN
      | None =>
          let '(sg, body) :=
            if is_char 45 c then (true, r)
            else if is_char 43 c then (false, r)
            else (false, t) in
          if String.eqb (of_chars body) "Infinity" then S754_infinity sg
          else
            match read_decimal body with
            | Some (m, e) => of_decimal sg m e
            | None => NaN
            end
      end
  end.

(** [parseInt(s, radix)] for a radix between 2 and 36. *)
Definition parseInt (s : string) (radix : Z) : number :=
  let t := drop_ws (chars s) in
  let '(sg, t1) :=
    match t with
    | c :: r => if is_char 45 c then (true, r)
                else if is_char 43 c then (false, r)
                else (false, t)
    | [] => (false, t)
    end in
  let t2 :=
    if radix =? 16 then
      match t1 with
      | z :: x :: r =>
          if is_char 48 z && (is_char 120 x || is_char 88 x) then r else t1
      | _ => t1
      end
    else t1 in
  let '(v, n, _) := take_digits radix t2 0 0 in
  if 0 <? n then
    binary_normalize prec emax (if sg then - v else v) 0 sg
  else NaN.

(** *** Printing numbers: [Number::toString] in radix 10 *)

Fixpoint digits_fuel (fuel : nat) (z : Z) (acc : list ascii) : list ascii :=
  match fuel with
  | O => acc
  | S f =>
      let acc' := char_of_code (48 + z mod 10) :: acc in
      if z <? 10 then acc' else digits_fuel f (z / 10) acc'
  end.

(** Decimal digits of a non-negative integer. *)
Definition digits_of (z : Z) : list ascii :=
  digits_fuel (S (Z.to_nat (Z.log2 z))) z [].

Definition zeros (n : Z) : list ascii := repeat (char_of_code 48) (Z.to_nat n).

(** A positive finite value as a fraction [num / den]. *)
Definition as_fraction (m : positive) (e : Z) : Z * Z :=
  if 0 <=? e then (Zpos m * 2 ^ e, 1) else (Zpos m, 2 ^ (- e)).

(** [num / den < 10 ^ n] *)
Definition below_pow10 (num den n : Z) : bool :=
  if 0 <=? n then num <? den * 10 ^ n else num * 10 ^ (- n) <? den.

(** The least [n] from [n0] on with [num / den < 10 ^ n]. *)
Fixpoint find_n (fuel : nat) (num den n0 : Z) : Z :=
  match fuel with
  | O => n0
  | S f => if below_pow10 num den n0 then n0 else find_n f num den (n0 + 1)
  end.

(** A power of ten not above [m * 2 ^ e], at most three below the least one
    above it: [m * 2 ^ e] is at least [2 ^ (b - 1)] for [b] its bit length
    plus [e], and 0.30102 < log10 2 < 0.30103. *)
Definition pow10_lower (m : positive) (e : Z) : Z :=
  let b := Zpos (digits2_pos m) + e - 1 in
  if 0 <=? b then b * 30102 / 100000 else b * 30103 / 100000.

(** [floor (num / den / 10 ^ p)] and the fraction it was taken from. *)
Definition scaled (num den p : Z) : Z * Z :=
  if 0 <=? p then (num, den * 10 ^ p) else (num * 10 ^ (- p), den).

(** The shortest digit string [s] of [k] digits, with [n], such that
    [s * 10 ^ (n - k)] reads back as [x]; the nearer candidate when two do,
    the even one on a tie. *)
Fixpoint shortest (fuel : nat) (x : number) (num den n k : Z)
  : Z * Z * Z :=
  let '(a, b) := scaled num den (n - k) in
  let lo := a / b in
  let hi := lo + 1 in
  let ok_lo := (0 <? lo) && eqb (of_decimal false lo (n - k)) x in
  let ok_hi := eqb (of_decimal false hi (n - k)) x in
  let hi_res := if hi =? 10 ^ k then (n + 1, 1, 1) else (n, k, hi) in
  match fuel with
  | O => (n, k, lo)
  | S f =>
      if ok_lo && ok_hi then
        match Z.compare (2 * a) ((2 * lo + 1) * b) with
        | Lt => (n, k, lo)
        | Gt => hi_res
        | Eq => if Z.even lo then (n, k, lo) else hi_res
        end
      else if ok_lo then (n, k, lo)
      else if ok_hi then hi_res
      else shortest f x num den n (k + 1)
  end.

Definition exp_suffix (e : Z) : list ascii :=
  char_of_code 101 ::
  (if 0 <=? e then char_of_code 43 :: digits_of e
   else char_of_code 45 :: digits_of (- e)).

Definition format_digits (n k s : Z) : list ascii :=
  let ds := digits_of s in
  let dot := char_of_code 46 in
  if (k <=? n) && (n <=? 21) then ds ++ zeros (n - k)
  else if (0 <? n) && (n <=? 21) then
    firstn (Z.to_nat n) ds ++ dot :: skipn (Z.to_nat n) ds
  else if (-6 <? n) && (n <=? 0) then
    char_of_code 48 :: dot :: zeros (- n) ++ ds
  else if k =? 1 then ds ++ exp_suffix (n - 1)
  else firstn 1 ds ++ dot :: skipn 1 ds ++ exp_suffix (n - 1).

(** [String(x)] for a number [x]. *)
Definition to_string (x : number) : string :=
  match x with
  | S754_nan => "NaN"
  | S754_zero _ => "0"
  | S754_infinity s => if s then "-Infinity" else "Infinity"
  | S754_finite s m e =>
      let '(num, den) := as_fraction m e in
      let n := find_n 8 num den (pow10_lower m e) in
      let '(n', k, d) := shortest 20 (S754_finite false m e) num den n 1 in
      let body := format_digits n' k d in
      of_chars (if s then char_of_code 45 :: body else body)
  end.

End JSNumber.

(** ** Values, as [JSON.parse] builds them *)

Module JSValue.
Import JSString JSNumber.

Inductive value : Type :=
| VUndefined
| VNull
| VBool (b : bool)
| VNum (x : number)
| VStr (s : string)
| VArr (l : list value)
| VObj (props : list (string * value)).

(** [String(v)] *)
Fixpoint toString (v : value) : string :=
  match v with
  | VUndefined => "undefined"
  | VNull => "null"
  | VBool b => if b then "true" else "false"
  | VNum x => to_string x
  | VStr s => s
  | VArr l =>
      let elem (w : value) : string :=
        match w with
        | VUndefined | VNull => ""
        | _ => toString w
        end in
      (fix join (xs : list value) : string :=
         match xs with
         | [] => ""
         | [w] => elem w
         | w :: rest => elem w ++ "," ++ join rest
         end) l
  | VObj _ => "[object Object]"
  end.

(** [Number(v)] *)
Definition toNumber (v : value) : number :=
  match v with
  | VUndefined => NaN
  | VNull => pzero
  | VBool b => if b then one else pzero
  | VNum x => x
  | VStr s => of_string s
  | VArr _ => of_string (toString v)
  | VObj _ => NaN
  end.

(** [Boolean(v)], the test made by [!v] and [v || w]. *)
Definition truthy (v : value) : bool :=
  match v with
  | VUndefined | VNull => false
  | VBool b => b
  | VNum x => match x with S754_zero _ | S754_nan => false | _ => true end
  | VStr s => negb (is_empty s)
  | VArr _ | VObj _ => true
  end.

Definition isArray (v : value) : bool :=
  match v with VArr _ => true | _ => false end.

(** *** Own properties of an object built by [JSON.parse] *)

Fixpoint prop_get (k : string) (props : list (string * value))
  : option value :=
  match props with
  | [] => None
  | (k', v) :: r => if String.eqb k k' then Some v else prop_get k r
  end.

(** Defining a data property: an existing key keeps its place. *)
Fixpoint prop_set (k : string) (v : value) (props : list (string * value))
  : list (string * value) :=
  match props with
  | [] => [(k, v)]
  | (k', v') :: r =>
      if String.eqb k k' then (k, v) :: r else (k', v') :: prop_set k v r
  end.

(** An array index: the canonical numeral of an integer below [2^32 - 1]. *)
Definition array_index (k : string) : option Z :=
  let '(v, n, rest) := take_digits 10 (chars k) 0 0 in
  match rest with
  | [] =>
      if (0 <? n) && (v <? 2 ^ 32 - 1)
         && String.eqb (of_chars (digits_of v)) k
      then Some v else None
  | _ => None
  end.

Fixpoint insert_index (k : string) (i : Z) (l : list (string * Z))
  : list (string * Z) :=
  match l with
  | [] => [(k, i)]
  | (k', j) :: r =>
      if i <? j then (k, i) :: l else (k', j) :: insert_index k i r
  end.

(** [Object.keys]: array indices in ascending order, then the other keys in
    the order of their creation. *)
Definition keys (props : list (string * value)) : list string :=
  let idx :=
    fold_left (fun acc kv =>
                 match array_index (fst kv) with
                 | Some i => insert_index (fst kv) i acc
                 | None => acc
                 end) props [] in
  map fst idx ++
  map fst (filter (fun kv => match array_index (fst kv) with
                             | Some _ => false
                             | None => true
                             end) props).

End JSValue.

(** ** Exceptions and outcomes *)

Inductive exn : Type :=
| SyntaxError
| TypeError (msg : string)
| Error (msg : string).

(** What a call does: it returns, it throws, or the model ran out of the
    steps it was given. *)
Inductive outcome (A : Type) : Type :=
| Return (a : A)
| Throw (e : exn)
| OutOfFuel.

Arguments Return {A} a.
Arguments Throw {A} e.
Arguments OutOfFuel {A}.

Definition bind {A B : Type} (m : outcome A) (f : A -> outcome B)
  : outcome B :=
  match m with
  | Return a => f a
  | Throw e => Throw e
  | OutOfFuel => OutOfFuel
  end.

Notation "x <- m ;; k" := (bind m (fun x => k))
  (at level 61, m at next level, right associativity).

(** ** [JSON.parse] *)

Module JSON.
Import JSString JSNumber JSValue.

Definition is_json_ws (c : ascii) : bool :=
  let n := code c in (n =? 32) || (n =? 9) || (n =? 10) || (n =? 13).

Fixpoint skip_ws (l : list ascii) : list ascii :=
  match l with
  | c :: r => if is_json_ws c then skip_ws r else l
  | [] => []
  end.

Definition hex4 (a b c d : ascii) : option Z :=
  match digit_val a, digit_val b, digit_val c, digit_val d with
  | Some x, Some y, Some z, Some w =>
      if (x <? 16) && (y <? 16) && (z <? 16) && (w <? 16)
      then Some (((x * 16 + y) * 16 + z) * 16 + w) else None
  | _, _, _, _ => None
  end.

(** The characters of a string literal after its opening quote.  An escape
    [\uXXXX] above 00FF has no code unit in [ascii] and is refused. *)
Fixpoint read_string (l : list ascii) (acc : list ascii)
  : option (string * list ascii) :=
  match l with
  | [] => None
  | c :: r =>
      if is_char 34 c then Some (of_chars (rev acc), r)
      else if is_char 92 c then
        match r with
        | e :: r' =>
            let n := code e in
            let simple (z : Z) := read_string r' (char_of_code z :: acc) in
            if n =? 34 then simple 34
            else if n =? 92 then simple 92
            else if n =? 47 then simple 47
            else if n =? 98 then simple 8
            else if n =? 102 then simple 12
            else if n =? 110 then simple 10
            else if n =? 114 then simple 13
            else if n =? 116 then simple 9
            else if n =? 117 then
              match r' with
              | a :: b :: c' :: d :: r'' =>
                  match hex4 a b c' d with
                  | Some z =>
                      if z <? 256 then read_string r'' (char_of_code z :: acc)
                      else None
                  | None => None
                  end
              | _ => None
              end
            else None
        | [] => None
        end
      else if code c <? 32 then None
      else read_string r (c :: acc)
  end.

(** A number literal: an optional minus, an integer part without a leading
    zero (unless it is 0 itself), an optional fraction with at least one
    digit, an optional exponent with at least one digit. *)
Definition read_number (l : list ascii) : option (number * list ascii) :=
  let '(sg, l1) :=
    match l with
    | c :: r => if is_char 45 c then (true, r) else (false, l)
    | [] => (false, l)
    end in
  let '(ip, ni, l2) := take_digits 10 l1 0 0 in
  let leading_zero :=
    match l1 with
    | c :: _ => is_char 48 c && (1 <? ni)
    | [] => false
    end in
  if (ni =? 0) || leading_zero then None
  else
    let frac :=
      match l2 with
      | c :: r =>
          if is_char 46 c then
            let '(m, nf, l3) := take_digits 10 r ip 0 in
            if 0 <? nf then Some (m, nf, l3) else None
          else Some (ip, 0, l2)
      | [] => Some (ip, 0, l2)
      end in
    match frac with
    | None => None
    | Some (m, nf, l3) =>
        let expo :=
          match l3 with
          | c :: r =>
              if is_char 101 c || is_char 69 c then
                let '(es, r1) :=
                  match r with
                  | d :: r' =>
                      if is_char 45 d then (true, r')
                      else if is_char 43 d then (false, r')
                      else (false, r)
                  | [] => (false, r)
                  end in
                let '(ev, en, l4) := take_digits 10 r1 0 0 in
                if 0 <? en then Some (if es then - ev else ev, l4) else None
              else Some (0, l3)
          | [] => Some (0, l3)
          end in
        match expo with
        | Some (e, l4) => Some (of_decimal sg m (e - nf), l4)
        | None => None
        end
    end.

Definition expect (lit : string) (v : value) (l : list ascii)
  : option (value * list ascii) :=
  if starts_with lit (of_chars l)
  then Some (v, skipn (String.length lit) l) else None.

(** One JSON value and the text after it.  Every level of nesting and every
    element consumes a character, so [fuel] above the length of the text is
    never exhausted. *)
Fixpoint read_value (fuel : nat) (l : list ascii)
  : option (value * list ascii) :=
  match fuel with
  | O => None
  | S f =>
      match skip_ws l with
      | [] => None
      | c :: r =>
          let n := code c in
          if n =? 91 then
            match skip_ws r with
            | d :: r' =>
                if is_char 93 d then Some (VArr [], r')
                else
                  (fix elems (g : nat) (t : list ascii) (acc : list value)
                     : option (value * list ascii) :=
                     match g with
                     | O => None
                     | S g' =>
                         match read_value f t with
                         | Some (v, t') =>
                             match skip_ws t' with
                             | e :: t'' =>
                                 if is_char 44 e then elems g' t'' (v :: acc)
                                 else if is_char 93 e
                                 then Some (VArr (rev (v :: acc)), t'')
                                 else None
                             | [] => None
                             end
                         | None => None
                         end
                     end) f r []
            | [] => None
            end
          else if n =? 123 then
            match skip_ws r with
            | d :: r' =>
                if is_char 125 d then Some (VObj [], r')
                else
                  (fix members (g : nat) (t : list ascii)
                       (acc : list (string * value))
                     : option (value * list ascii) :=
                     match g with
                     | O => None
                     | S g' =>
                         match skip_ws t with
                         | q :: t1 =>
                             if is_char 34 q then
                               match read_string t1 [] with
                               | Some (k, t2) =>
                                   match skip_ws t2 with
                                   | co :: t3 =>
                                       if is_char 58 co then
                                         match read_value f t3 with
                                         | Some (v, t4) =>
                                             let acc' := prop_set k v acc in
                                             match skip_ws t4 with
                                             | e :: t5 =>
                                                 if is_char 44 e
                                                 then members g' t5 acc'
                                                 else if is_char 125 e
                                                 then Some (VObj acc', t5)
                                                 else None
                                             | [] => None
                                             end
                                         | None => None
                                         end
                                       else None
                                   | [] => None
                                   end
                               | None => None
                               end
                             else None
                         | [] => None
                         end
                     end) f r []
            | [] => None
            end
          else if n =? 34 then
            match read_string r [] with
            | Some (s, t) => Some (VStr s, t)
            | None => None
            end
          else if n =? 116 then expect "true" (VBool true) (c :: r)
          else if n =? 102 then expect "false" (VBool false) (c :: r)
          else if n =? 110 then expect "null" VNull (c :: r)
          else
            match read_number (c :: r) with
            | Some (x, t) => Some (VNum x, t)
            | None => None
            end
      end
  end.

(** [JSON.parse(text)] *)
Definition parse (text : string) : outcome value :=
  let l := chars text in
  match read_value (S (List.length l)) l with
  | Some (v, rest) =>
      match skip_ws rest with
      | [] => Return v
      | _ => Throw SyntaxError
      end
  | None => Throw SyntaxError
  end.

End JSON.

(** ** Plain objects used as dictionaries *)

Module JSObject.

(** Property names every plain object inherits from [Object.prototype]. *)
Definition proto_names : list string :=
  [ "constructor"; "__defineGetter__"; "__defineSetter__"; "hasOwnProperty";
    "__lookupGetter__"; "__lookupSetter__"; "isPrototypeOf";
    "propertyIsEnumerable"; "toString"; "valueOf"; "__proto__";
    "toLocaleString" ].

Definition reserved (k : string) : bool :=
  existsb (String.eqb k) proto_names.

(** Own properties, in creation order. *)
Definition dict (V : Type) : Type := list (string * V).

Inductive lookup (V : Type) : Type :=
| Own (v : V)
| Inherited
| Absent.

Arguments Own {V} v.
Arguments Inherited {V}.
Arguments Absent {V}.

Section Dict.
Context {V : Type}.

Fixpoint own (d : dict V) (k : string) : option V :=
  match d with
  | [] => None
  | (k', v) :: r => if String.eqb k k' then Some v else own r k
  end.

(** [d[k]]: an own property, else what the prototype has under that name,
    else [undefined].  Assignment never creates an own [__proto__]. *)
Definition get (d : dict V) (k : string) : lookup V :=
  if String.eqb k "__proto__" then Inherited
  else match own d k with
       | Some v => Own v
       | None => if reserved k then Inherited else Absent
       end.

Fixpoint put (d : dict V) (k : string) (v : V) : dict V :=
  match d with
  | [] => [(k, v)]
  | (k', v') :: r =>
      if String.eqb k k' then (k, v) :: r else (k', v') :: put r k v
  end.

(** [d[k] = v]: assigning to [__proto__] reaches the inherited setter and
    creates no own property. *)
Definition set (d : dict V) (k : string) (v : V) : dict V :=
  if String.eqb k "__proto__" then d else put d k v.

(** [d[k]] read as an own property only: an inherited value and [undefined]
    are both "no value" to the reader. *)
Definition get_own (d : dict V) (k : string) : option V :=
  match get d k with
  | Own v => Some v
  | _ => None
  end.

End Dict.

End JSObject.

(** ** The two token readers *)

Module Tokens.
Import JSString JSNumber JSValue.

(** [/^0x[0-9a-f]+$/i.test(s)] *)
Definition is_hex_literal (s : string) : bool :=
  match chars s with
  | z :: x :: (d :: _) as ds =>
      is_char 48 z && is_char 120 (lower x) && forallb (is_radix_digit 16) ds
  | _ => false
  end.

(** [/^0b[01]+$/i.test(s)] *)
Definition is_bin_literal (s : string) : bool :=
  match chars s with
  | z :: b :: (d :: _) as ds =>
      is_char 48 z && is_char 98 (lower b) && forallb (is_radix_digit 2) ds
  | _ => false
  end.

(** [toNumberIfPossible] of graphParser.js; [None] is [null]. *)
Definition toNumberIfPossible (val : value) : option number :=
  match val with
  | VNum x => Some x
  | VStr str =>
      let s := trim str in
      if is_empty s then None
      else if is_hex_literal s then Some (parseInt s 16)
      else if is_bin_literal s then Some (parseInt s 2)
      else
        let n := of_string s in
        if isFinite n then Some n else None
  | _ => None
  end.

Definition of_option (o : option number) : value :=
  match o with
  | Some x => VNum x
  | None => VNull
  end.

Definition first_char (s : string) : option ascii :=
  match s with
  | String c _ => Some c
  | EmptyString => None
  end.

Definition first_is (z : Z) (s : string) : bool :=
  match first_char s with
  | Some c => is_char z c
  | None => false
  end.

(** [parseSingleNumberToken] of calculators.js; [None] is [null]. *)
Definition parseSingleNumberToken (tok : value) : option number :=
  match tok with
  | VNull | VUndefined => None
  | _ =>
      let s := trim (toString tok) in
      if is_empty s then None
      else
        let sign := if first_is 45 s then of_Z (-1) else of_Z 1 in
        let unsigned :=
          if first_is 45 s || first_is 43 s then drop 1 s else s in
        if is_hex_literal unsigned then Some (mul sign (parseInt unsigned 16))
        else if is_bin_literal unsigned
        then Some (mul sign (parseInt unsigned 2))
        else
          let n := of_string unsigned in
          if isFinite n then Some (mul sign (trunc n)) else None
  end.

End Tokens.

(** ** The graph parser (graphParser.js) *)

Module Parser.
Import JSString JSNumber JSValue JSObject Tokens.

(** [normalizeEdgeKey]: [u->v] when directed, else the two ids sorted by
    code units and joined by [--]. *)
Definition normalizeEdgeKey (u v : string) (isDirected : bool) : string :=
  if isDirected then u ++ "->" ++ v
  else if ltb v u then v ++ "--" ++ u else u ++ "--" ++ v.

Record edge : Type := mkEdge {
  id : nat;
  from : string;
  to : string;
  label : option string;
  arrows : option string
}.

Record adjEntry : Type := mkAdj {
  adj_to : string;
  weight : number;
  edgeId : nat
}.

(** The structures [parseGraphInput] fills in. *)
Record state : Type := mkState {
  adjacency : dict (list adjEntry);
  edgeKeyToId : dict nat;
  nodesSet : list string;
  edgesArr : list edge;
  edgeIdCounter : nat
}.

Definition init : state := mkState [] [] [] [] 0.

(** [Set.prototype.add]: insertion order, no duplicate. *)
Definition set_add (s : list string) (x : string) : list string :=
  if existsb (String.eqb x) s then s else (s ++ [x])%list.

(** [adjacency[k] = adjacency[k] || []; adjacency[k].push(e)].  Under an
    inherited name the value found is not an array and [push] is not a
    function. *)
Definition adj_push (a : dict (list adjEntry)) (k : string) (e : adjEntry)
  : outcome (dict (list adjEntry)) :=
  match get a k with
  | Own l => Return (set a k (l ++ [e])%list)
  | Absent => Return (set a k [e])
  | Inherited => Throw (TypeError "adjacency[...].push is not a function")
  end.

Section AddEdge.
Variables weighted directed : bool.

(** The weight [addEdge] keeps: [None] is [undefined]. *)
Definition edge_weight (wt : value) : option number :=
  if weighted then
    if isFinite (toNumber wt) then Some (toNumber wt) else Some one
  else
    if isFinite (toNumber wt) then Some (toNumber wt) else None.

Definition weight_or_1 (w : option number) : number :=
  match w with
  | None => one
  | Some x => x
  end.

Definition addEdge (st : state) (fromId toId : string) (wt : value)
  : outcome state :=
  let w := edge_weight wt in
  let n := edgeIdCounter st in
  let edgeObj :=
    mkEdge n fromId toId
           (if weighted then Some (to_string (weight_or_1 w)) else None)
           (if directed then Some "to" else None) in
  let key := normalizeEdgeKey fromId toId directed in
  a1 <- adj_push (adjacency st) fromId (mkAdj toId (weight_or_1 w) n) ;;
  a2 <- (if directed then Return a1
         else adj_push a1 toId (mkAdj fromId (weight_or_1 w) n)) ;;
  Return (mkState a2
                  (set (edgeKeyToId st) key n)
                  (set_add (set_add (nodesSet st) fromId) toId)
                  (edgesArr st ++ [edgeObj])%list
                  (S n)).

(** *** Plain-text mode *)

Definition nth_str (l : list string) (n : nat) : string := nth n l "".

(** One neighbour token of an adjacency line [from: tok tok ...]. *)
Definition add_neighbor (from : string) (st : state) (tok : string)
  : outcome state :=
  if is_empty tok then Return st
  else if contains_char "-"%char tok then
    let parts := split_on "-"%char tok in
    let to := trim (nth_str parts 0) in
    let w :=
      match toNumberIfPossible (VStr (nth_str parts 1)) with
      | Some x => VNum x
      | None => VNum one
      end in
    addEdge st from to w
  else addEdge st from (trim tok) VUndefined.

Fixpoint add_neighbors (from : string) (st : state) (toks : list string)
  : outcome state :=
  match toks with
  | [] => Return st
  | tok :: r => st' <- add_neighbor from st tok ;; add_neighbors from st' r
  end.

(** One non-blank, trimmed line. *)
Definition parse_line (st : state) (line : string) : outcome state :=
  if contains_char ":"%char line then
    let parts := split_on ":"%char line in
    let from := trim (nth_str parts 0) in
    let st1 := mkState (adjacency st) (edgeKeyToId st)
                       (set_add (nodesSet st) from)
                       (edgesArr st) (edgeIdCounter st) in
    add_neighbors from st1
                  (filter_nonempty (split_ws (trim (nth_str parts 1))))
  else
    let parts := filter_nonempty (split_ws line) in
    match parts with
    | u :: v :: rest =>
        let w :=
          match rest with
          | wRaw :: _ => of_option (toNumberIfPossible (VStr wRaw))
          | [] => VUndefined
          end in
        addEdge st u v w
    | _ => Return st
    end.

Fixpoint parse_lines (st : state) (lines : list string) : outcome state :=
  match lines with
  | [] => Return st
  | l :: r => st' <- parse_line st l ;; parse_lines st' r
  end.

Definition plain_lines (rawText : string) : list string :=
  filter_nonempty (map trim (split_on (char_of_code 10) rawText)).

Definition parse_plain (rawText : string) : outcome state :=
  parse_lines init (plain_lines rawText).

(** *** Array mode *)

(** [extractAndParseFirstBracketed]: the text from the first opening
    bracket to the bracket that closes it. *)
Fixpoint balanced_prefix (l : list ascii) (depth : Z) (acc : list ascii)
  : option (list ascii) :=
  match l with
  | [] => None
  | c :: r =>
      if is_char 91 c then balanced_prefix r (depth + 1) (c :: acc)
      else if is_char 93 c then
        if depth - 1 =? 0 then Some (rev (c :: acc))
        else balanced_prefix r (depth - 1) (c :: acc)
      else balanced_prefix r depth (c :: acc)
  end.

Fixpoint from_first (z : Z) (l : list ascii) : option (list ascii) :=
  match l with
  | [] => None
  | c :: r => if is_char z c then Some l else from_first z r
  end.

Definition extractAndParseFirstBracketed (raw : string) : outcome value :=
  match from_first 91 (chars raw) with
  | None => Throw (Error "No '[' found")
  | Some l =>
      match balanced_prefix l 0 [] with
      | None => Throw (Error "No matching closing bracket found for '['")
      | Some sub => JSON.parse (of_chars sub)
      end
  end.

(** The fallback pattern: the word edges, optional white space, an equals
    sign, optional white space, then an opening bracket; the capture runs
    from that bracket to the end of the text.  This is the capture when the
    pattern matches at the start of [l]. *)
Definition edges_capture_here (l : list ascii) : option (list ascii) :=
  if starts_with "edges" (of_chars l) then
    match drop_ws (skipn 5 l) with
    | c :: r =>
        if is_char 61 c then
          match drop_ws r with
          | d :: r' => if is_char 91 d then Some (d :: r') else None
          | [] => None
          end
        else None
    | [] => None
    end
  else None.

(** [rawText.match(...)]: the leftmost match. *)
Fixpoint edges_capture (l : list ascii) : option (list ascii) :=
  match edges_capture_here l with
  | Some cap => Some cap
  | None =>
      match l with
      | [] => None
      | _ :: r => edges_capture r
      end
  end.

(** The three attempts at reading the text; [VNull] when all fail. *)
Definition read_array_text (rawText : string) : value :=
  match JSON.parse rawText with
  | Return v => v
  | _ =>
      match extractAndParseFirstBracketed rawText with
      | Return v => v
      | _ =>
          match edges_capture (chars rawText) with
          | Some cap =>
              match JSON.parse (of_chars cap) with
              | Return v => v
              | _ => VNull
              end
          | None => VNull
          end
      end
  end.

(** An object is replaced by its [edges], else its [graph], else its first
    array-valued property. *)
Definition unwrap_object (parsed : value) : outcome value :=
  match parsed with
  | VObj props =>
      match prop_get "edges" props with
      | Some (VArr l) => Return (VArr l)
      | _ =>
          match prop_get "graph" props with
          | Some (VArr l) => Return (VArr l)
          | _ =>
              match find (fun k => match prop_get k props with
                                   | Some v => isArray v
                                   | None => false
                                   end) (keys props) with
              | Some k =>
                  match prop_get k props with
                  | Some v => Return v
                  | None => Return VUndefined
                  end
              | None =>
                  Throw (Error "Parsed JSON is an object but no array-property found to interpret as edges or adjacency.")
              end
          end
      end
  | _ => Return parsed
  end.

Definition is_edge_entry (el : value) : bool :=
  match el with
  | VArr l => (2 <=? List.length l)%nat
  | _ => false
  end.

Definition elem (l : list value) (n : nat) : value := nth n l VUndefined.

(** One entry [[u, v]] or [[u, v, w]] of an edge list. *)
Definition add_entry (st : state) (entry : value) : outcome state :=
  match entry with
  | VArr l =>
      let u := toString (elem l 0) in
      let v := toString (elem l 1) in
      let w :=
        if (3 <=? List.length l)%nat then
          match elem l 2 with
          | VUndefined => VUndefined
          | wRaw => of_option (toNumberIfPossible wRaw)
          end
        else VUndefined in
      addEdge st u v w
  | _ => Return st
  end.

Fixpoint add_entries (st : state) (l : list value) : outcome state :=
  match l with
  | [] => Return st
  | e :: r => st' <- add_entry st e ;; add_entries st' r
  end.

Fixpoint add_row (u : string) (st : state) (neigh : list value)
  : outcome state :=
  match neigh with
  | [] => Return st
  | vRaw :: r => st' <- addEdge st u (toString vRaw) VUndefined ;;
                 add_row u st' r
  end.

(** Row [i] of an adjacency list holds the neighbours of node [i]. *)
Fixpoint add_rows (i : nat) (st : state) (rows : list value)
  : outcome state :=
  match rows with
  | [] => Return st
  | row :: r =>
      st' <- (match row with
              | VArr neigh =>
                  add_row (to_string (of_Z (Z.of_nat i))) st neigh
              | _ => Return st
              end) ;;
      add_rows (S i) st' r
  end.

Definition parse_array (rawText : string) : outcome state :=
  let parsed := read_array_text rawText in
  if negb (truthy parsed) then
    Throw (Error "Failed to parse array-style input. Ensure it's valid JSON array-like text (e.g. [[1,2],[2,3]]).")
  else
    parsed' <- unwrap_object parsed ;;
    match parsed' with
    | VArr l =>
        let nonempty := (0 <? List.length l)%nat in
        let isEdgesList := nonempty && forallb is_edge_entry l in
        let isAdjList := nonempty && forallb isArray l in
        if isEdgesList then add_entries init l
        else if isAdjList then add_rows 0 init l
        else
          Throw (Error "Unrecognized array structure. Expected array of edges (e.g. [[u,v],[u,v,w],...]) or adjacency-list (e.g. [[1,2],[2],[0]]).")
    | _ => Throw (Error "Array-mode parsing did not result in an array.")
    end.

End AddEdge.

(** *** The result *)

Record node : Type := mkNode { node_id : string; node_label : string }.

Record model : Type := mkModel {
  nodesArr : list node;
  m_edgesArr : list edge;
  m_adjacency : dict (list adjEntry);
  m_edgeKeyToId : dict nat;
  isDirected : bool
}.

Inductive mode : Type := Plain | Array.

Record options : Type := mkOptions {
  weighted : bool;
  directed : bool;
  inputMode : mode
}.

(** The body of [parseGraphInput] up to the point where the result object
    is assembled. *)
Definition parse_state (rawText : string) (o : options) : outcome state :=
  match inputMode o with
  | Array => parse_array (weighted o) (directed o) rawText
  | Plain => parse_plain (weighted o) (directed o) rawText
  end.

Definition model_of (o : options) (st : state) : model :=
  mkModel (map (fun i => mkNode i i) (nodesSet st))
          (edgesArr st) (adjacency st) (edgeKeyToId st) (directed o).

(** [parseGraphInput(rawText, options)] *)
Definition parseGraphInput (rawText : string) (o : options) : outcome model :=
  st <- parse_state rawText o ;;
  Return (model_of o st).

End Parser.

(** ** The algorithms (algorithms.js) *)

Module MinHeap.
Import JSNumber.

Record item : Type := mkItem { node : string; priority : number }.

(** [this.data] *)
Definition heap : Type := list item.

Fixpoint upd (d : heap) (i : nat) (x : item) : heap :=
  match d, i with
  | [], _ => []
  | _ :: r, O => x :: r
  | y :: r, S j => y :: upd r j x
  end.

(** [_swap(a, b)], for two indices inside the array. *)
Definition swap (d : heap) (a b : nat) : heap :=
  match nth_error d a, nth_error d b with
  | Some x, Some y => upd (upd d a y) b x
  | _, _ => d
  end.

Definition parent (i : nat) : nat := ((i - 1) / 2)%nat.
Definition left (i : nat) : nat := (2 * i + 1)%nat.
Definition right (i : nat) : nat := (2 * i + 2)%nat.

(** [_siftUp(i)]: the index falls at every turn, so [i] turns suffice. *)
Fixpoint siftUp_loop (fuel : nat) (d : heap) (i : nat) : heap :=
  match fuel with
  | O => d
  | S f =>
      if (0 <? i)%nat then
        let p := parent i in
        match nth_error d p, nth_error d i with
        | Some x, Some y =>
            if le (priority x) (priority y) then d
            else siftUp_loop f (swap d i p) p
        | _, _ => d
        end
      else d
  end.

Definition siftUp (d : heap) (i : nat) : heap := siftUp_loop i d i.

Definition lt_at (d : heap) (a b : nat) : bool :=
  match nth_error d a, nth_error d b with
  | Some x, Some y => lt (priority x) (priority y)
  | _, _ => false
  end.

(** [_siftDown(i)]: the index grows at every turn and stays inside the
    array, so [length] turns suffice. *)
Fixpoint siftDown_loop (fuel : nat) (d : heap) (i : nat) : heap :=
  match fuel with
  | O => d
  | S f =>
      let l := left i in
      let r := right i in
      let s1 := if (l <? List.length d)%nat && lt_at d l i then l else i in
      let s2 := if (r <? List.length d)%nat && lt_at d r s1 then r else s1 in
      if (s2 =? i)%nat then d
      else siftDown_loop f (swap d i s2) s2
  end.

Definition siftDown (d : heap) (i : nat) : heap :=
  siftDown_loop (List.length d) d i.

Definition push (d : heap) (it : item) : heap :=
  siftUp (d ++ [it])%list (List.length d).

(** [pop()]: [None] is the [null] of an empty heap. *)
Definition pop (d : heap) : option (item * heap) :=
  match d with
  | [] => None
  | _ =>
      let d1 := swap d 0 (List.length d - 1) in
      match nth_error d1 (List.length d - 1) with
      | Some popped => Some (popped, siftDown (removelast d1) 0)
      | None => None
      end
  end.

Definition isEmpty (d : heap) : bool :=
  match d with [] => true | _ => false end.

End MinHeap.

Module Dijkstra.
Import JSString JSNumber JSObject Parser MinHeap.

(** The values the variable [cur] of the path loop takes, which are also the
    elements of the path: a node id, [null], [undefined], or the value
    that [prev] inherits from [Object.prototype] under a name. *)
Inductive cursor : Type :=
| CNode (s : string)
| CNull
| CUndefined
| CInherited (name : string).

Record result : Type := mkResult {
  distance : number;
  path : list cursor;
  edgeIds : list nat
}.

(** [{ distance: Infinity, path: [], edgeIds: [] }] *)
Definition empty_result : result := mkResult Infinity [] [].

(** [dist[k]] as an operand of [<], [>], [+] and [isFinite]: what is not an
    own number converts to NaN. *)
Definition dist_at (dist : dict number) (k : string) : number :=
  match get_own dist k with
  | Some x => x
  | None => NaN
  end.

Definition tables : Type :=
  (dict number * dict (option string) * heap)%type.

(** The [for (const e of neighbors)] loop of one popped node. *)
Fixpoint relax (u : string) (es : list adjEntry) (t : tables) : tables :=
  match es with
  | [] => t
  | e :: r =>
      let '(dist, prev, pq) := t in
      let v := adj_to e in
      let alt := add (dist_at dist u) (weight e) in
      if lt alt (dist_at dist v)
      then relax u r (set dist v alt, set prev v (Some u),
                      push pq (mkItem v alt))
      else relax u r t
  end.

(** The [while (!pq.isEmpty())] loop; one unit of fuel per pop. *)
Fixpoint main_loop (fuel : nat) (adjacency : dict (list adjEntry))
         (target : string) (t : tables)
  : outcome (dict number * dict (option string)) :=
  let '(dist, prev, pq) := t in
  match pop pq with
  | None => Return (dist, prev)
  | Some (it, pq') =>
      match fuel with
      | O => OutOfFuel
      | S f =>
          let u := node it in
          if gt (priority it) (dist_at dist u)
          then main_loop f adjacency target (dist, prev, pq')
          else if String.eqb u target then Return (dist, prev)
          else
            match get adjacency u with
            | Own es =>
                main_loop f adjacency target (relax u es (dist, prev, pq'))
            | Absent => main_loop f adjacency target (dist, prev, pq')
            | Inherited => Throw (TypeError "neighbors is not iterable")
            end
      end
  end.

(** [String(x)] for the value inherited under [name], as V8 prints it: the
    prototype object under [__proto__], the function [Object] under
    [constructor], a function named like the property otherwise. *)
Definition inherited_text (name : string) : string :=
  if String.eqb name "__proto__" then "[object Object]"
  else
    "function "
    ++ (if String.eqb name "constructor" then "Object" else name)
    ++ "() { [native code] }".

(** [String(cur)]: the property key of [prev[cur]] and the text of
    [cur] in a template. *)
Definition cursor_key (c : cursor) : string :=
  match c with
  | CNode s => s
  | CNull => "null"
  | CUndefined => "undefined"
  | CInherited name => inherited_text name
  end.

(** [prev[cur]].  When [__proto__] is among the nodes, the initialisation
    [prev["__proto__"] = null] has taken the prototype of [prev] away: [bare]
    says so, and then nothing is inherited. *)
Definition prev_at (bare : bool) (prev : dict (option string)) (c : cursor)
  : cursor :=
  match get prev (cursor_key c) with
  | Own (Some u) => CNode u
  | Own None => CNull
  | Inherited => if bare then CUndefined else CInherited (cursor_key c)
  | Absent => CUndefined
  end.

(** [while (cur !== null) { path.push(cur); cur = prev[cur]; }], the path
    kept newest first, which is the order after [path.reverse()]; one unit
    of fuel per turn. *)
Fixpoint walk (fuel : nat) (bare : bool) (prev : dict (option string))
         (cur : cursor) (acc : list cursor) : outcome (list cursor) :=
  match cur with
  | CNull => Return acc
  | _ =>
      match fuel with
      | O => OutOfFuel
      | S f => walk f bare prev (prev_at bare prev cur) (cur :: acc)
      end
  end.

(** The text by which [sort()] orders an element; [undefined] has none and
    goes last. *)
Definition sort_text (c : cursor) : option string :=
  match c with
  | CUndefined => None
  | _ => Some (cursor_key c)
  end.

(** The text [join] prints for an element: nothing for [undefined] and
    [null]. *)
Definition join_text (c : cursor) : string :=
  match c with
  | CUndefined | CNull => ""
  | _ => cursor_key c
  end.

(** The inner [normalizeKey]: a template for a directed graph, and
    [[a, b].sort().join("--")] otherwise. *)
Definition normalizeKey (a b : cursor) (directed : bool) : string :=
  if directed then cursor_key a ++ "->" ++ cursor_key b
  else
    let swap :=
      match sort_text a, sort_text b with
      | Some x, Some y => ltb y x
      | None, Some _ => true
      | _, _ => false
      end in
    if swap then join_text b ++ "--" ++ join_text a
    else join_text a ++ "--" ++ join_text b.

(** Edge ids of consecutive path pairs; every key holds [--] or [->], so no
    inherited property answers the lookup. *)
Fixpoint edge_ids (edgeKeyToId : dict nat) (directed : bool)
         (p : list cursor) : list nat :=
  match p with
  | a :: ((b :: _) as rest) =>
      let eid :=
        match get_own edgeKeyToId (normalizeKey a b directed) with
        | Some e => Some e
        | None => get_own edgeKeyToId (normalizeKey b a directed)
        end in
      match eid with
      | Some e => e :: edge_ids edgeKeyToId directed rest
      | None => edge_ids edgeKeyToId directed rest
      end
  | _ => []
  end.

Definition init_tables (source : string) (nodes : list string) : tables :=
  let dist := fold_left (fun d n => set d n Infinity) nodes [] in
  let prev := fold_left (fun p n => set p n None) nodes [] in
  (set dist source pzero, prev, push [] (mkItem source pzero)).

(** [__proto__] is among the keys the initialisation assigns. *)
Definition has_proto (nodes : list string) : bool :=
  existsb (String.eqb "__proto__") nodes.

(** [dijkstraPQ]; an absent adjacency map is [None]. *)
Definition dijkstraPQ (fuel : nat) (adjacency : option (dict (list adjEntry)))
           (edgeKeyToId : dict nat) (isDirected : bool)
           (source target : string) (nodesIterable : list string)
  : outcome result :=
  match adjacency with
  | None => Return empty_result
  | Some adj =>
      if is_empty source || is_empty target then Return empty_result
      else
        dp <- main_loop fuel adj target (init_tables source nodesIterable) ;;
        let '(dist, prev) := dp in
        if negb (isFinite (dist_at dist target)) then Return empty_result
        else
          p <- walk fuel (has_proto nodesIterable) prev (CNode target) [] ;;
          Return (mkResult (dist_at dist target) p
                           (edge_ids edgeKeyToId isDirected p))
  end.

(** The call the page makes: the model's own tables and node ids. *)
Definition shortestPath (fuel : nat) (m : model) (source target : string)
  : outcome result :=
  dijkstraPQ fuel (Some (m_adjacency m)) (m_edgeKeyToId m) (isDirected m)
             source target (map node_id (nodesArr m)).

End Dijkstra.

Module Prim.
Import JSString JSNumber JSObject Parser.

Record candidate : Type := mkCand {
  c_from : string;
  c_to : string;
  c_weight : number;
  c_edgeId : nat
}.

Record result : Type := mkResult {
  totalWeight : number;
  edgeIds : list nat
}.

Definition cand_of (from : string) (e : adjEntry) : candidate :=
  mkCand from (adj_to e) (weight e) (edgeId e).

Definition has (s : list string) (x : string) : bool :=
  existsb (String.eqb x) s.

(** [(adjacency[k] || []).forEach(...)]: the entries to visit.  Under an
    inherited name the value found is not an array and has no [forEach]. *)
Definition entries (adjacency : dict (list adjEntry)) (k : string)
  : outcome (list adjEntry) :=
  match get adjacency k with
  | Own es => Return es
  | Absent => Return []
  | Inherited => Throw (TypeError "(adjacency[...] || []).forEach is not a function")
  end.

(** [(a, b) => a.weight - b.weight] answers a positive number. *)
Definition after (a b : candidate) : bool :=
  lt pzero (sub (c_weight a) (c_weight b)).

(** [edgeCandidates.sort(...)]: the sort is stable, so with a consistent
    comparator its result is the stable insertion sort below, whatever the
    engine's algorithm. *)
Fixpoint insert (x : candidate) (l : list candidate) : list candidate :=
  match l with
  | [] => [x]
  | y :: r => if after x y then y :: insert x r else x :: l
  end.

Fixpoint sort (l : list candidate) : list candidate :=
  match l with
  | [] => []
  | x :: r => insert x (sort r)
  end.

(** The first candidate whose [to] end is outside the tree, and the list
    without it ([splice(idx, 1)]). *)
Fixpoint pick (inMST : list string) (l : list candidate)
  : option (candidate * list candidate) :=
  match l with
  | [] => None
  | c :: r =>
      if has inMST (c_to c) then
        match pick inMST r with
        | Some (ch, r') => Some (ch, c :: r')
        | None => None
        end
      else Some (c, r)
  end.

Record acc : Type := mkAcc {
  inMST : list string;
  edgeCandidates : list candidate;
  chosenEdgeIds : list nat;
  total : number
}.

(** The [while] loop.  Every turn adds a node to [inMST], so the number of
    nodes bounds the turns. *)
Fixpoint grow (fuel : nat) (adjacency : dict (list adjEntry))
         (nodes : list string) (a : acc) : outcome acc :=
  if (List.length (inMST a) <? List.length nodes)%nat
     && negb (match edgeCandidates a with [] => true | _ => false end)
  then
    match fuel with
    | O => OutOfFuel
    | S f =>
        let sorted := sort (edgeCandidates a) in
        match pick (inMST a) sorted with
        | None => Return (mkAcc (inMST a) sorted (chosenEdgeIds a) (total a))
        | Some (chosen, rest) =>
            let inMST' := set_add (inMST a) (c_to chosen) in
            es <- entries adjacency (c_to chosen) ;;
            let fresh :=
              map (cand_of (c_to chosen))
                  (filter (fun e => negb (has inMST' (adj_to e))) es) in
            grow f adjacency nodes
                 (mkAcc inMST' (rest ++ fresh)%list
                        (chosenEdgeIds a ++ [c_edgeId chosen])%list
                        (add (total a) (c_weight chosen)))
        end
    end
  else Return a.

(** [primMST(adjacency, nodesIterable, startNode)]; [None] is the default
    [null] start. *)
Definition primMST (adjacency : dict (list adjEntry))
           (nodesIterable : list string) (startNode : option string)
  : outcome result :=
  match nodesIterable with
  | [] => Return (mkResult pzero [])
  | first :: _ =>
      let start :=
        match startNode with
        | Some s =>
            if negb (is_empty s) && has nodesIterable s then s else first
        | None => first
        end in
      es <- entries adjacency start ;;
      a <- grow (List.length nodesIterable) adjacency nodesIterable
                (mkAcc [start] (map (cand_of start) es) [] pzero) ;;
      Return (mkResult (total a) (chosenEdgeIds a))
  end.

(** The call the page makes. *)
Definition minimumSpanningTree (m : model) (startNode : option string)
  : outcome result :=
  primMST (m_adjacency m) (map node_id (nodesArr m)) startNode.

End Prim.

(** ** Graphs, as the algorithms see a model *)

Module Graph.
Import JSString JSNumber JSObject Parser.

Section Model.
Variable adjacency : dict (list adjEntry).

(** [e] is an entry of [adjacency[u]]. *)
Definition entry_at (u : string) (e : adjEntry) : Prop :=
  exists es, get adjacency u = Own es /\ In e es.

(** Every entry has its mirror image, with the same weight and edge id:
    what [addEdge] stores for an undirected graph. *)
Definition undirected : Prop :=
  forall u e, entry_at u e ->
    entry_at (adj_to e) (mkAdj u (weight e) (edgeId e)).

(** Both ends of every entry are among [nodes]. *)
Definition closed (nodes : list string) : Prop :=
  forall u e, entry_at u e -> In u nodes /\ In (adj_to e) nodes.

(** A walk along entries whose edge id satisfies [ok]. *)
Inductive walk (ok : nat -> Prop) : string -> string -> Prop :=
| walk_nil : forall u, walk ok u u
| walk_step : forall u e v,
    entry_at u e -> ok (edgeId e) -> walk ok (adj_to e) v -> walk ok u v.

Definition any_edge (i : nat) : Prop := True.

Definition connected (nodes : list string) : Prop :=
  forall x y, In x nodes -> In y nodes -> walk any_edge x y.

(** An edge id names one pair of end points. *)
Definition ids_name_edges : Prop :=
  forall u e u' e',
    entry_at u e -> entry_at u' e' -> edgeId e = edgeId e' ->
    (u = u' /\ adj_to e = adj_to e') \/ (u = adj_to e' /\ adj_to e = u').

(** An edge id names one weight. *)
Definition weights_by_id : Prop :=
  forall u e u' e',
    entry_at u e -> entry_at u' e' -> edgeId e = edgeId e' ->
    weight e = weight e'.

(** The distinct edges [ids] reach every node from every node, and there is
    one edge fewer than there are nodes. *)
Definition spanning_tree (nodes : list string) (ids : list nat) : Prop :=
  NoDup ids /\
  S (List.length ids) = List.length nodes /\
  forall x y, In x nodes -> In y nodes -> walk (fun i => In i ids) x y.

(** [ws] are the weights of the edges [ids], in order. *)
Definition weights_of (ids : list nat) (ws : list number) : Prop :=
  Forall2 (fun i w => exists u e, entry_at u e /\ edgeId e = i /\ weight e = w)
          ids ws.

End Model.

(** The sum a loop [total += w] computes from 0. *)
Definition fsum (ws : list number) : number := fold_left add ws pzero.

End Graph.

(** ** Integers among the doubles *)

Module Exact.
Import JSNumber.

(** The normal form of the double that holds the integer [n], for
    [0 <= n < 2 ^ 53]: the mantissa is [n] shifted up to 53 bits. *)
Definition canon (n : Z) : number :=
  match n with
  | Zpos _ =>
      let d := Z.log2 n + 1 in
      S754_finite false (Z.to_pos (n * 2 ^ (53 - d))) (d - 53)
  | _ => S754_zero false
  end.

(** [x] holds the integer [n], and [n] is a natural number below [2 ^ 53]. *)
Definition holds (x : number) (n : Z) : Prop :=
  0 <= n < 2 ^ 53 /\ x = of_Z n.

(** The integer part of a positive finite double. *)
Definition ival (x : number) : Z :=
  match x with
  | S754_finite false m e =>
      if 0 <=? e then Zpos m * 2 ^ e else Zpos m / 2 ^ (- e)
  | _ => 0
  end.

(** [x] holds a natural number below [2 ^ 53]. *)
Definition exact (x : number) : Prop := holds x (ival x).

(** The value of a finite double in units of 2^-1074, the least positive
    double: an integer. *)
Definition scaled (x : number) : Z :=
  match x with
  | S754_finite s m e => cond_Zopp s (Zpos m * 2 ^ (e + 1074))
  | _ => 0
  end.

(** A zero or a finite double in its normal form. *)
Definition double (x : number) : Prop :=
  isFinite x = true /\ valid_binary prec emax x = true.

End Exact.

(** ** What the claims about the algorithms speak of *)

Module Claims.
Import JSString JSNumber JSObject Parser Graph.

(** A model of an undirected graph: distinct nodes, mirrored entries, one
    pair of end points and one weight per edge id, no entry that leaves the
    node set. *)
Record undirected_model (adjacency : dict (list adjEntry))
       (nodes : list string) : Prop := mkUndirectedModel {
  um_nodes : NoDup nodes;
  um_mirror : undirected adjacency;
  um_ids : ids_name_edges adjacency;
  um_closed : closed adjacency nodes;
  um_weights : weights_by_id adjacency
}.

Definition finite_weights (adjacency : dict (list adjEntry)) : Prop :=
  forall u e, entry_at adjacency u e -> isFinite (weight e) = true.

(** No node is looked up under a name the adjacency map only inherits. *)
Definition own_names (adjacency : dict (list adjEntry))
           (nodes : list string) : Prop :=
  forall u, In u nodes -> get adjacency u <> Inherited.

(** The statement of claim C2 as the specification words it: the total is
    the sum of the chosen weights and no spanning tree sums to less. *)
Definition prim_returns_minimum : Prop :=
  forall adjacency nodes startNode,
    nodes <> [] ->
    undirected_model adjacency nodes ->
    connected adjacency nodes ->
    finite_weights adjacency ->
    exists r ws,
      Prim.primMST adjacency nodes startNode = Return r /\
      spanning_tree adjacency nodes (Prim.edgeIds r) /\
      weights_of adjacency (Prim.edgeIds r) ws /\
      Prim.totalWeight r = fsum ws /\
      forall T wsT,
        spanning_tree adjacency nodes T ->
        weights_of adjacency T wsT ->
        le (Prim.totalWeight r) (fsum wsT) = true.

(** Every weight is a finite double. *)
Definition double_weights (adjacency : dict (list adjEntry)) : Prop :=
  forall u e, entry_at adjacency u e -> Exact.double (weight e).

(** Every weight is a natural number, at most [maxw]. *)
Definition natural_weights (adjacency : dict (list adjEntry)) (maxw : Z)
  : Prop :=
  forall u e, entry_at adjacency u e ->
    exists n, 0 <= n <= maxw /\ weight e = of_Z n.

(** The statement of claim C7 as the specification words it: on a parsed
    undirected model, whenever both directions return, they return the same
    distance. *)
Definition distances_symmetric : Prop :=
  forall rawText o m x y fuel rxy ryx,
    parseGraphInput rawText o = Return m ->
    directed o = false ->
    In x (map node_id (nodesArr m)) ->
    In y (map node_id (nodesArr m)) ->
    walk (m_adjacency m) any_edge x y ->
    Dijkstra.shortestPath fuel m x y = Return rxy ->
    Dijkstra.shortestPath fuel m y x = Return ryx ->
    Dijkstra.distance rxy = Dijkstra.distance ryx.

End Claims.

(** The path graph D - C - B - A with weights 0.3, 0.2, 0.1, as text. *)
Definition path_text : string :=
  ("D C 0.3" ++ JSString.nl ++ "C B 0.2" ++ JSString.nl ++ "B A 0.1")%string.

(** Two edges A - B and C - D that do not meet, as text. *)
Definition two_parts_text : string :=
  ("A B 4" ++ JSString.nl ++ "C D 1")%string.

(** A triangle with the natural weights 4, 1 and 2, as text. *)
Definition triangle_text : string :=
  ("A B 4" ++ JSString.nl ++ "B C 1" ++ JSString.nl ++ "A C 2")%string.

(** Read as a weighted undirected graph in plain-text mode. *)
Definition path_opts : Parser.options :=
  Parser.mkOptions true false Parser.Plain.

(** The end points of the edges of a model, in creation order. *)
Definition endpoints (m : Parser.model) : list (string * string) :=
  map (fun e => (Parser.from e, Parser.to e)) (Parser.m_edgesArr m).

(** The weights stored in the adjacency lists of a model. *)
Definition stored_weights (m : Parser.model) : list JSNumber.number :=
  flat_map (fun kl => map Parser.weight (snd kl)) (Parser.m_adjacency m).

(** ** The heap, as a multiset with an order *)

Module HeapSpec.
Import JSNumber MinHeap.

Section Keys.
Variable key : item -> Z.

(** Every element is at least its parent. *)
Definition heapOrdered (d : heap) : Prop :=
  forall j x y,
    (0 < j)%nat -> nth_error d j = Some y ->
    nth_error d (parent j) = Some x -> key x <= key y.

(** The heap order, except perhaps between position [i] and its parent. *)
Definition ordered_but_above (d : heap) (i : nat) : Prop :=
  forall j x y,
    (0 < j)%nat -> j <> i -> nth_error d j = Some y ->
    nth_error d (parent j) = Some x -> key x <= key y.

(** The heap order, except perhaps between position [i] and its children. *)
Definition ordered_but_below (d : heap) (i : nat) : Prop :=
  forall j x y,
    (0 < j)%nat -> parent j <> i -> nth_error d j = Some y ->
    nth_error d (parent j) = Some x -> key x <= key y.

(** The parent of [i] is at most the children of [i]. *)
Definition grand_ok (d : heap) (i : nat) : Prop :=
  forall c x y,
    (0 < i)%nat -> (0 < c)%nat -> parent c = i -> nth_error d c = Some y ->
    nth_error d (parent i) = Some x -> key x <= key y.

End Keys.

(** The exchange of two positions. *)
Definition transpose (a b n : nat) : nat :=
  if Nat.eqb n a then b else if Nat.eqb n b then a else n.

(** The heap after the items of [l] were pushed onto [d], first to last. *)
Definition push_all (d : heap) (l : list item) : heap := fold_left push l d.

(** [pop()] called until it returns [null], at most [fuel] times: the items
    in the order in which they come out. *)
Fixpoint pop_all (fuel : nat) (d : heap) : list item :=
  match fuel with
  | O => []
  | S f =>
      match pop d with
      | None => []
      | Some (it, d') => it :: pop_all f d'
      end
  end.

(** The priority is a finite number. *)
Definition finite_item (it : item) : Prop := Exact.double (priority it).

(** [priority] of the first is [<=] that of the second. *)
Definition le_item (a b : item) : Prop :=
  le (priority a) (priority b) = true.

(** The exact value of the priority, in units of the least positive
    double. *)
Definition dkey (it : item) : Z := Exact.scaled (priority it).

(** The heaps that [push] with finite priorities and [pop] make of the
    empty heap. *)
Inductive built : heap -> Prop :=
| built_nil : built []
| built_push : forall d it, built d -> finite_item it -> built (push d it)
| built_pop : forall d it d', built d -> pop d = Some (it, d') -> built d'.

End HeapSpec.

(** ** What the shortest-path loop maintains *)

Module DijkstraSpec.
Import JSString JSNumber JSObject Parser MinHeap Dijkstra Graph Exact HeapSpec.

Definition wt (e : adjEntry) : Z := ival (weight e).
Definition key (it : item) : Z := ival (priority it).
Definition good (it : item) : Prop := exact (priority it).

(** [chain adj l L]: every node of [l] has an entry to the next, and the
    weights of these entries sum to [L]. *)
Inductive chain (adj : dict (list adjEntry)) : list string -> Z -> Prop :=
| chain_one : forall u, chain adj [u] 0
| chain_cons : forall u e rest L,
    entry_at adj u e -> chain adj (adj_to e :: rest) L ->
    chain adj (u :: adj_to e :: rest) (wt e + L).

(** The pairs of neighbours in a path. *)
Fixpoint steps (l : list string) : list (string * string) :=
  match l with
  | a :: ((b :: _) as r) => (a, b) :: steps r
  | _ => []
  end.

Section Run.
Variable adj : dict (list adjEntry).
Variable nodes : list string.
Variable source : string.
Variable maxw : Z.

(** [reach v L]: a walk of weight [L] leads from the source to [v]. *)
Inductive reach : string -> Z -> Prop :=
| reach_nil : reach source 0
| reach_step : forall u L e,
    reach u L -> entry_at adj u e -> reach (adj_to e) (L + wt e).

Definition deg (u : string) : nat :=
  match get adj u with
  | Own es => List.length es
  | _ => 0%nat
  end.

Definition undone (done : list string) : list string :=
  filter (fun u => negb (existsb (String.eqb u) done)) nodes.

(** What is left to do: the heap, the entries of the node being relaxed,
    the entries of the nodes not yet taken. *)
Definition potential (done : list string) (pending : list adjEntry)
           (pq : heap) : nat :=
  (List.length pq + List.length pending
   + list_sum (map deg (undone done)))%nat.

(** [u] was taken from the heap when [v] had not been. *)
Definition older (done : list string) (u v : string) : Prop :=
  exists l1 l2, done = (l1 ++ u :: l2)%list /\ ~ In v (u :: l2).

(** The invariant of the two loops.  [done] lists the nodes taken from the
    heap with a current priority, newest first; [pending] are the entries of
    the newest of them still to relax; [cur] is its distance. *)
Record inv (done : list string) (pending : list adjEntry) (cur : Z)
       (dist : dict number) (prev : dict (option string)) (pq : heap)
  : Prop := mkInv {
  i_cur : 0 <= cur <= Z.of_nat (List.length done) * maxw;
  i_done_nodup : NoDup done;
  i_done_nodes : incl done nodes;
  i_dist : forall v x, get_own dist v = Some x ->
      x = Infinity \/
      (exact x /\ ival x <= cur + maxw /\ reach v (ival x));
  i_own : forall v, In v nodes -> v <> "__proto__"%string ->
      get_own dist v <> None /\ get_own prev v <> None;
  i_src : get_own dist source = Some (of_Z 0);
  i_heap : heapOrdered key pq;
  i_good : Forall good pq;
  i_nodup : NoDup pq;
  i_items : forall it, In it pq ->
      cur <= key it /\ In (node it) nodes /\
      (node it = source \/ get adj (node it) <> Inherited) /\
      exists x, get_own dist (node it) = Some x /\ exact x /\
                ival x <= key it;
  i_open : forall v x, get_own dist v = Some x -> isFinite x = true ->
      In v done \/ In (mkItem v x) pq;
  i_done : forall u, In u done ->
      exists x, get_own dist u = Some x /\ exact x /\ ival x <= cur /\
        (forall e, entry_at adj u e ->
                   (hd_error done = Some u -> ~ In e pending) ->
                   exists y, get_own dist (adj_to e) = Some y /\ exact y /\
                             ival y <= ival x + wt e) /\
        (forall it, In it pq -> node it = u -> ival x < key it);
  i_head : forall u, hd_error done = Some u ->
      get_own dist u = Some (of_Z cur);
  i_pending : forall e, In e pending ->
      exists u, hd_error done = Some u /\ entry_at adj u e;
  i_prev : forall v u, get_own prev v = Some (Some u) -> older done u v;
  i_link : forall v u, get_own prev v = Some (Some u) ->
      exists e xu xv,
        entry_at adj u e /\ adj_to e = v /\
        get_own dist u = Some xu /\ get_own dist v = Some xv /\
        exact xu /\ exact xv /\ ival xv = ival xu + wt e;
  i_root : forall v x, get_own dist v = Some x -> x <> Infinity ->
      v = source \/ exists u, get_own prev v = Some (Some u)
}.

End Run.

End DijkstraSpec.

(** ** What the parser keeps true *)

Module ParserSpec.
Import JSString JSNumber JSValue JSObject Tokens Parser Graph.

(** Edge ids are the positions in [edgesArr], the counter is its length, and
    every adjacency entry has a finite weight. *)
Record inv (st : state) : Prop := mkInv {
  inv_length : List.length (edgesArr st) = edgeIdCounter st;
  inv_ids : map id (edgesArr st) = seq 0 (edgeIdCounter st);
  inv_finite : forall k l e,
      In (k, l) (adjacency st) -> In e l -> isFinite (weight e) = true
}.

Definition all_finite (a : dict (list adjEntry)) : Prop :=
  forall k l e, In (k, l) a -> In e l -> isFinite (weight e) = true.

(** The graph read so far: entries stay among the nodes, the nodes are
    distinct, edge ids are below the counter and name one pair of end points
    and one weight, and an undirected graph stores every entry with its
    mirror image. *)
Record ginv (directed : bool) (st : state) : Prop := mkGinv {
  g_closed : closed (adjacency st) (nodesSet st);
  g_nodup : NoDup (nodesSet st);
  g_bound : forall u e, entry_at (adjacency st) u e ->
                        (edgeId e < edgeIdCounter st)%nat;
  g_names : ids_name_edges (adjacency st);
  g_undirected : directed = false -> undirected (adjacency st);
  g_weights : weights_by_id (adjacency st)
}.

(** The key under which [addEdge] files an edge. *)
Definition edge_key (directed : bool) (ed : edge) : string :=
  normalizeEdgeKey (from ed) (to ed) directed.

(** The edge list, the key table and the adjacency map tell of the same
    edges. *)
Record kinv (weighted directed : bool) (st : state) : Prop := mkKinv {
  k_len : List.length (edgesArr st) = edgeIdCounter st;
  k_entry : forall u e, entry_at (adjacency st) u e ->
      exists ed, nth_error (edgesArr st) (edgeId e) = Some ed /\
        ((from ed = u /\ to ed = adj_to e) \/
         (directed = false /\ from ed = adj_to e /\ to ed = u)) /\
        (weighted = true -> label ed = Some (to_string (weight e)));
  k_edge : forall i ed, nth_error (edgesArr st) i = Some ed ->
      id ed = i /\
      (exists w,
        entry_at (adjacency st) (from ed) (mkAdj (to ed) w i) /\
        (directed = false ->
         entry_at (adjacency st) (to ed) (mkAdj (from ed) w i)) /\
        label ed = (if weighted then Some (to_string w) else None)) /\
      arrows ed = (if directed then Some "to" else None);
  k_listed : forall i ed, nth_error (edgesArr st) i = Some ed ->
      exists j, get_own (edgeKeyToId st) (edge_key directed ed) = Some j /\
                (i <= j)%nat;
  k_key : forall k j, get_own (edgeKeyToId st) k = Some j ->
      exists ed, nth_error (edgesArr st) j = Some ed /\
                 edge_key directed ed = k
}.

(** An edge without its label. *)
Definition unlabelled (ed : edge) : edge :=
  mkEdge (id ed) (from ed) (to ed) None (arrows ed).

(** Two parser states that differ in the labels of their edges at most. *)
Definition same_graph (s1 s2 : state) : Prop :=
  adjacency s1 = adjacency s2 /\
  edgeKeyToId s1 = edgeKeyToId s2 /\
  nodesSet s1 = nodesSet s2 /\
  map unlabelled (edgesArr s1) = map unlabelled (edgesArr s2) /\
  edgeIdCounter s1 = edgeIdCounter s2 /\
  Forall (fun ed => label ed = None) (edgesArr s2).

Definition same_outcome (o1 o2 : outcome state) : Prop :=
  match o1, o2 with
  | Return s1, Return s2 => same_graph s1 s2
  | Throw e1, Throw e2 => e1 = e2
  | _, _ => False
  end.

(** The text starts with an opening bracket and ends with the bracket that
    closes it. *)
Definition bracketed (body : string) : Prop :=
  first_is 91 body = true /\
  balanced_prefix (chars body) 0 [] = Some (chars body).

(** The ends of the edge that an entry [[u, v, ...]] of an edge list
    stands for. *)
Definition entry_ends (entry : value) : string * string :=
  match entry with
  | VArr l => (toString (elem l 0), toString (elem l 1))
  | _ => (EmptyString, EmptyString)
  end.

(** The ends of the edge that a line [u v ...] of an edge list stands for;
    a line with fewer than two fields stands for none. *)
Definition line_ends (line : string) : list (string * string) :=
  match filter_nonempty (split_ws line) with
  | u :: v :: _ => [(u, v)]
  | _ => []
  end.

(** Every node is an end of an edge. *)
Definition no_lone_node (st : state) : Prop :=
  forall x, In x (nodesSet st) ->
    exists ed, In ed (edgesArr st) /\ (from ed = x \/ to ed = x).

End ParserSpec.

(** ** What the loop of Prim's algorithm keeps true *)

Module PrimSpec.
Import JSString JSNumber JSObject Parser Prim Graph.

Section Loop.
Variable adj : dict (list adjEntry).
Variable nodes : list string.
Variable start : string.

(** What holds of the loop's variables at every turn. *)
Record pinv (a : acc) : Prop := mkPinv {
  p_nodup : NoDup (inMST a);
  p_sub : incl (inMST a) nodes;
  p_start : In start (inMST a);
  p_reach : forall x, In x (inMST a) ->
                      walk adj (fun i => In i (chosenEdgeIds a)) start x;
  p_len : S (List.length (chosenEdgeIds a)) = List.length (inMST a);
  p_ids : NoDup (chosenEdgeIds a);
  p_ends : forall i u e, In i (chosenEdgeIds a) -> entry_at adj u e ->
                         edgeId e = i ->
                         In u (inMST a) /\ In (adj_to e) (inMST a);
  p_complete : forall u e, In u (inMST a) -> entry_at adj u e ->
                           ~ In (adj_to e) (inMST a) ->
                           In (cand_of u e) (edgeCandidates a);
  p_sound : forall c, In c (edgeCandidates a) ->
                      In (c_from c) (inMST a) /\
                      entry_at adj (c_from c)
                               (mkAdj (c_to c) (c_weight c) (c_edgeId c));
  p_sum : exists ws, weights_of adj (chosenEdgeIds a) ws /\
                     total a = fsum ws
}.

End Loop.

Arguments p_nodup {adj nodes start} a _.
Arguments p_sub {adj nodes start} a _.
Arguments p_start {adj nodes start} a _.
Arguments p_complete {adj nodes start} a _.
Arguments p_sound {adj nodes start} a _.

End PrimSpec.

(** ** What the minimality of Prim's tree speaks of *)

Module MstSpec.
Import JSString JSNumber JSObject Parser Prim Graph Exact.

(** The entries [adjacency] answers with, key by key. *)
Definition all_entries (adjacency : dict (list adjEntry)) : list adjEntry :=
  flat_map (fun kl => match get adjacency (fst kl) with
                      | Own es => es
                      | _ => []
                      end) adjacency.

(** The exact weight of the edge [i], in units of 2^-1074: that of the
    first entry that carries the id. *)
Definition weight_of_id (adjacency : dict (list adjEntry)) (i : nat) : Z :=
  match find (fun e => Nat.eqb (edgeId e) i) (all_entries adjacency) with
  | Some e => scaled (weight e)
  | None => 0
  end.

(** The exact sum of the weights of the edges [ids]. *)
Definition tree_weight (adjacency : dict (list adjEntry)) (ids : list nat)
  : Z :=
  fold_right (fun i z => weight_of_id adjacency i + z) 0 ids.

(** The exact sum of numbers that hold integers. *)
Definition zsum (ws : list number) : Z :=
  fold_right (fun w z => ival w + z) 0 ws.

(** The exact sum of doubles, in units of 2^-1074. *)
Definition ssum (ws : list number) : Z :=
  fold_right (fun w z => scaled w + z) 0 ws.

(** The edges chosen so far can be completed to a spanning tree that weighs
    no more than any given spanning tree. *)
Definition promising (adjacency : dict (list adjEntry)) (nodes : list string)
           (chosen : list nat) : Prop :=
  forall T, spanning_tree adjacency nodes T ->
    exists T', spanning_tree adjacency nodes T' /\ incl chosen T' /\
               tree_weight adjacency T' <= tree_weight adjacency T.

(** Candidates in the order of their exact weights. *)
Definition lighter (x y : candidate) : Prop :=
  scaled (c_weight x) <= scaled (c_weight y).

Definition doublec (c : candidate) : Prop := double (c_weight c).

End MstSpec.

(** ** The calculators *)

Module Calculators.
Import JSString JSNumber JSValue Tokens.

(** *** Number operations the calculators use *)

(** The integer part of a finite number, towards zero; 0 for NaN and the
    infinities. *)
Definition truncZ (x : number) : Z :=
  match x with
  | S754_finite s m e =>
      cond_Zopp s (if 0 <=? e then Zpos m * 2 ^ e else Zpos m / 2 ^ (- e))
  | _ => 0
  end.

(** [ToInt32]: the integer part modulo 2^32, read as a signed 32-bit
    integer. *)
Definition toInt32 (x : number) : Z :=
  let k := truncZ x mod 2 ^ 32 in
  if 2 ^ 31 <=? k then k - 2 ^ 32 else k.

(** [a & b], [a | b], [a ^ b] *)
Definition bit_and (a b : number) : number :=
  of_Z (Z.land (toInt32 a) (toInt32 b)).
Definition bit_or (a b : number) : number :=
  of_Z (Z.lor (toInt32 a) (toInt32 b)).
Definition bit_xor (a b : number) : number :=
  of_Z (Z.lxor (toInt32 a) (toInt32 b)).

(** [Math.abs] *)
Definition abs (x : number) : number :=
  match x with
  | S754_zero _ => S754_zero false
  | S754_infinity _ => S754_infinity false
  | S754_finite _ m e => S754_finite false m e
  | S754_nan => S754_nan
  end.

(** Binary digits of a positive integer, the most significant first. *)
Fixpoint bits_pos (p : positive) (acc : list ascii) : list ascii :=
  match p with
  | xH => char_of_code 49 :: acc
  | xO q => bits_pos q (char_of_code 48 :: acc)
  | xI q => bits_pos q (char_of_code 49 :: acc)
  end.

Definition bits_of (z : Z) : list ascii :=
  match z with
  | Zpos p => bits_pos p []
  | _ => [char_of_code 48]
  end.

(** The first [k] binary digits of the fraction [f / 2 ^ k]. *)
Fixpoint frac_bits (k : nat) (f : Z) : list ascii :=
  match k with
  | O => []
  | S k' =>
      char_of_code (if Z.testbit f (Z.of_nat k') then 49 else 48)
      :: frac_bits k' f
  end.

Fixpoint drop_zeros (l : list ascii) : list ascii :=
  match l with
  | c :: r => if is_char 48 c then drop_zeros r else l
  | [] => []
  end.

(** [x.toString(2)]: a double is a binary fraction, and its shortest binary
    numeral that reads back as the same double is its exact expansion;
    radix 2 never uses an exponent. *)
Definition to_radix2 (x : number) : string :=
  match x with
  | S754_nan => "NaN"
  | S754_zero _ => "0"
  | S754_infinity s => if s then "-Infinity" else "Infinity"
  | S754_finite s m e =>
      let body :=
        if 0 <=? e then bits_of (Zpos m * 2 ^ e)
        else
          let ip := Zpos m / 2 ^ (- e) in
          let f := Zpos m mod 2 ^ (- e) in
          if f =? 0 then bits_of ip
          else
            (bits_of ip ++ char_of_code 46
               :: rev (drop_zeros (rev (frac_bits (Z.to_nat (- e)) f))))%list
      in
      of_chars (if s then char_of_code 45 :: body else body)
  end.

(** *** Splitting the input *)

(** The characters of [[, \t]]. *)
Definition is_sep (c : ascii) : bool :=
  let n := code c in (n =? 44) || (n =? 32) || (n =? 9).

(** [s.split(/[, \t]+/)]: maximal runs of separators separate the pieces; a
    leading run yields a leading empty piece, a trailing run a trailing
    one. *)
Fixpoint split_sep_chars (l : list ascii) (cur : list ascii) (in_sep : bool)
  : list (list ascii) :=
  match l with
  | [] => [rev cur]
  | c :: r =>
      if is_sep c then
        if in_sep then split_sep_chars r cur true
        else rev cur :: split_sep_chars r [] true
      else split_sep_chars r (c :: cur) false
  end.

Definition split_sep (s : string) : list string :=
  match s with
  | EmptyString => [EmptyString]
  | _ => map of_chars (split_sep_chars (chars s) [] false)
  end.

(** The quotation mark, U+0022. *)
Definition quote : string := String (char_of_code 34) EmptyString.

Definition quoted (s : string) : string := quote ++ s ++ quote.

(** *** The results *)

(** The objects the calculators return: [{ok: false, message}],
    [{ok: true, nums}], [{ok: true, result, inputs}],
    [{ok: true, input, binary}], [{ok: true, input, decimal}]. *)
Inductive result : Type :=
| Failed (message : string)
| Nums (nums : list number)
| Combined (result : number) (inputs : list number)
| Binary (input : number) (binary : string)
| Decimal (input : string) (decimal : number).

(** The [for (const tok of tokens)] loop of [parsePlainList]. *)
Fixpoint read_tokens (tokens : list string) (nums : list number) : result :=
  match tokens with
  | [] => Nums nums
  | tok :: r =>
      match parseSingleNumberToken (VStr tok) with
      | None => Failed ("Invalid token: " ++ quoted tok)
      | Some n => read_tokens r (nums ++ [n])%list
      end
  end.

(** [parsePlainList(raw)]; [None] is [null] or [undefined]. *)
Definition parsePlainList (raw : option string) : result :=
  match raw with
  | None => Failed "No input"
  | Some text =>
      let tokens := filter_nonempty (map trim (split_sep text)) in
      match tokens with
      | [] => Failed "No numbers found"
      | _ => read_tokens tokens []
      end
  end.

(** [combineList(raw, reducer)] *)
Definition combineList (raw : option string)
           (reducer : number -> number -> number) : result :=
  match parsePlainList raw with
  | Nums arr =>
      match arr with
      | [] => Failed "No numbers to combine"
      | first :: rest => Combined (fold_left reducer rest first) arr
      end
  | parsed => parsed
  end.

Definition computeAndList (raw : option string) : result :=
  combineList raw bit_and.
Definition computeOrList (raw : option string) : result :=
  combineList raw bit_or.
Definition computeXorList (raw : option string) : result :=
  combineList raw bit_xor.

(** [trimmed.split(/[, \t]+/)[0]]: the split has at least one piece. *)
Definition first_piece (trimmed : string) : string :=
  hd EmptyString (split_sep trimmed).

(** [decToBinary(raw)] *)
Definition decToBinary (raw : option string) : result :=
  match raw with
  | None => Failed "No input"
  | Some text =>
      let trimmed := trim text in
      if is_empty trimmed then Failed "No input"
      else
        let first := first_piece trimmed in
        match parseSingleNumberToken (VStr first) with
        | None => Failed ("Invalid number: " ++ quoted first)
        | Some n =>
            if lt n pzero then Binary n ("-" ++ to_radix2 (abs n))
            else Binary n (to_radix2 n)
        end
  end.

(** [/^[01]+$/.test(token)] *)
Definition is_bits (token : string) : bool :=
  match chars token with
  | [] => false
  | l => forallb (is_radix_digit 2) l
  end.

(** [binToDecimal(raw)] *)
Definition binToDecimal (raw : option string) : result :=
  match raw with
  | None => Failed "No input"
  | Some text =>
      let trimmed := trim text in
      if is_empty trimmed then Failed "No input"
      else
        let first := first_piece trimmed in
        if is_empty first then Failed "No input token"
        else
          let sign := if first_is 45 first then of_Z (-1) else of_Z 1 in
          let unsigned :=
            if first_is 45 first || first_is 43 first then drop 1 first
            else first in
          let token :=
            if starts_with "0b" unsigned || starts_with "0B" unsigned
            then drop 2 unsigned else unsigned in
          if negb (is_bits token)
          then Failed ("Invalid binary token: " ++ quoted first)
          else Decimal first (mul sign (parseInt token 2))
  end.

End Calculators.

(** ** What the calculators compute *)

Module CalcSpec.
Import JSNumber Calculators.

(** A signed 32-bit integer. *)
Definition int32 (k : Z) : Prop := - 2 ^ 31 <= k < 2 ^ 31.

(** The operator applied from left to right to the 32-bit values of the
    numbers. *)
Definition fold_bits (op : Z -> Z -> Z) (first : number)
           (rest : list number) : Z :=
  fold_left op (map toInt32 rest) (toInt32 first).

(** The reducers [(a, b) => a & b] and the like, from the operator on
    integers. *)
Definition bit_reducer (op : Z -> Z -> Z) (a b : number) : number :=
  of_Z (op (toInt32 a) (toInt32 b)).

(** What [combineList] makes of the numbers read: the number itself when
    there is one, the operator on the 32-bit values when there are more. *)
Definition combined_by (op : Z -> Z -> Z) (r : number)
           (inputs : list number) : Prop :=
  match inputs with
  | [] => False
  | [x] => r = x
  | first :: rest =>
      r = of_Z (fold_bits op first rest) /\ int32 (fold_bits op first rest)
  end.

End CalcSpec.

(** ** The calculator of the first page (main.js) *)

Module MainPage.
Import JSString JSNumber Calculators.

(** The numbers [calculate] works on: the pieces of the trimmed input
    between runs of white space, each converted by [Number], those that are
    NaN left out. *)
Definition numbers_of (inputString : string) : list number :=
  filter (fun n => negb (isNaN n))
         (map of_string (split_ws (trim inputString))).

(** The callback of [reduce]: the [switch] on the operation. *)
Definition step (operation : string) (acc current : number) : number :=
  if String.eqb operation "XOR" then bit_xor acc current
  else if String.eqb operation "OR" then bit_or acc current
  else if String.eqb operation "AND" then bit_and acc current
  else acc.

(** [calculate(operation, inputString)] *)
Definition calculate (operation inputString : string) : number :=
  match numbers_of inputString with
  | [] => pzero
  | [x] => x
  | first :: rest => fold_left (step operation) rest first
  end.

End MainPage.

(** * Properties *)

(** ** Outcomes *)

Lemma bind_Return {A B : Type} (m : outcome A) (f : A -> outcome B) (b : B) :
  bind m f = Return b -> exists a, m = Return a /\ f a = Return b.
Proof.
  destruct m as [a | e | ]; simpl; intros H; try discriminate.
  exists a. split; [reflexivity | exact H].
Qed.

(** ** Dictionaries *)

Module DictFacts.
Import JSObject.

Section Facts.
Context {V : Type}.

Lemma own_In (d : dict V) (k : string) (v : V) :
  own d k = Some v -> In (k, v) d.
Proof.
  induction d as [| [k' v'] r IH]; simpl; intros H; [discriminate |].
  destruct (String.eqb k k') eqn:E.
  - apply String.eqb_eq in E. subst k'. inversion H; subst. now left.
  - right. now apply IH.
Qed.

Lemma get_Own_In (d : dict V) (k : string) (v : V) :
  get d k = Own v -> In (k, v) d.
Proof.
  unfold get. destruct (String.eqb k "__proto__"); [discriminate |].
  destruct (own d k) as [v' |] eqn:E.
  - intros H. inversion H; subst. now apply own_In.
  - destruct (reserved k); discriminate.
Qed.

Lemma In_put (d : dict V) (k : string) (v : V) (k' : string) (v' : V) :
  In (k', v') (put d k v) -> (k', v') = (k, v) \/ In (k', v') d.
Proof.
  induction d as [| [k0 v0] r IH]; simpl.
  - intros [H | []]. left. now symmetry.
  - destruct (String.eqb k k0) eqn:E; simpl.
    + intros [H | H]; [left; now symmetry | right; now right].
    + intros [H | H]; [right; now left |].
      destruct (IH H) as [H1 | H1]; [now left | right; now right].
Qed.

Lemma In_set (d : dict V) (k : string) (v : V) (k' : string) (v' : V) :
  In (k', v') (set d k v) -> (k', v') = (k, v) \/ In (k', v') d.
Proof.
  unfold set. destruct (String.eqb k "__proto__").
  - intros H. now right.
  - apply In_put.
Qed.

Lemma own_put_same (d : dict V) (k : string) (v : V) :
  own (put d k v) k = Some v.
Proof.
  induction d as [| [k0 v0] r IH]; simpl.
  - now rewrite String.eqb_refl.
  - destruct (String.eqb k k0) eqn:E; simpl.
    + now rewrite String.eqb_refl.
    + now rewrite E.
Qed.

Lemma own_put_other (d : dict V) (k k' : string) (v : V) :
  k' <> k -> own (put d k v) k' = own d k'.
Proof.
  intros N. induction d as [| [k0 v0] r IH]; simpl.
  - apply String.eqb_neq in N. now rewrite N.
  - destruct (String.eqb k k0) eqn:E; simpl.
    + apply String.eqb_eq in E. subst k0.
      apply String.eqb_neq in N. now rewrite N.
    + now rewrite IH.
Qed.

Lemma get_set_same (d : dict V) (k : string) (v : V) :
  String.eqb k "__proto__" = false -> get (set d k v) k = Own v.
Proof.
  intros N. unfold get, set. rewrite N. now rewrite own_put_same.
Qed.

Lemma get_set_other (d : dict V) (k k' : string) (v : V) :
  k' <> k -> get (set d k v) k' = get d k'.
Proof.
  intros N. unfold get, set.
  destruct (String.eqb k' "__proto__"); [reflexivity |].
  destruct (String.eqb k "__proto__"); [reflexivity |].
  now rewrite own_put_other.
Qed.

Lemma get_not_proto (d : dict V) (k : string) :
  get d k <> Inherited -> String.eqb k "__proto__" = false.
Proof.
  unfold get. destruct (String.eqb k "__proto__"); congruence.
Qed.

End Facts.

End DictFacts.

(** ** The parser's invariants *)

Module ParserFacts.
Import JSString JSNumber JSValue JSObject Tokens Parser DictFacts.
Import ParserSpec.

Lemma inv_init : inv init.
Proof.
  constructor; simpl; try reflexivity. intros k l e [].
Qed.

Lemma one_finite : isFinite one = true.
Proof. reflexivity. Qed.

Lemma kept_weight_finite (weighted : bool) (wt : value) :
  isFinite (weight_or_1 (edge_weight weighted wt)) = true.
Proof.
  unfold edge_weight.
  destruct weighted; destruct (isFinite (toNumber wt)) eqn:E; simpl;
    auto using one_finite.
Qed.

Lemma adj_push_finite (a a' : dict (list adjEntry)) (k : string)
      (e : adjEntry) :
  all_finite a -> isFinite (weight e) = true ->
  adj_push a k e = Return a' -> all_finite a'.
Proof.
  intros Ha He. unfold adj_push.
  destruct (get a k) as [l | |] eqn:G; intros H; inversion H; subst; clear H;
    intros k' l' e' Hin He'.
  - apply In_set in Hin. destruct Hin as [Heq | Hin].
    + inversion Heq; subst. apply in_app_or in He'.
      destruct He' as [He' | [He' | []]].
      * apply (Ha k l e'); [now apply get_Own_In | exact He'].
      * now subst.
    + now apply (Ha k' l' e').
  - apply In_set in Hin. destruct Hin as [Heq | Hin].
    + inversion Heq; subst. destruct He' as [He' | []]. now subst.
    + now apply (Ha k' l' e').
Qed.

Lemma addEdge_inv (weighted directed : bool) (st st' : state)
      (u v : string) (wt : value) :
  inv st -> addEdge weighted directed st u v wt = Return st' -> inv st'.
Proof.
  intros [Hlen Hids Hfin] H. unfold addEdge in H.
  apply bind_Return in H. destruct H as [a1 [H1 H]].
  apply bind_Return in H. destruct H as [a2 [H2 H]].
  inversion H; subst; clear H.
  assert (F1 : all_finite a1).
  { eapply adj_push_finite; [exact Hfin | | exact H1].
    apply kept_weight_finite. }
  assert (F2 : all_finite a2).
  { destruct directed.
    - inversion H2; subst. exact F1.
    - eapply adj_push_finite; [exact F1 | | exact H2].
      apply kept_weight_finite. }
  constructor; cbn [edgesArr edgeIdCounter adjacency].
  - rewrite length_app. simpl. rewrite Hlen. lia.
  - rewrite map_app, Hids, seq_S. reflexivity.
  - exact F2.
Qed.

(** Whatever [addEdge] and the registration of a source node keep, the
    whole parse keeps. *)
Section Loops.
Variables weighted directed : bool.
Variable P : state -> Prop.

Hypothesis P_addEdge : forall st st' u v wt,
    P st -> addEdge weighted directed st u v wt = Return st' -> P st'.
Hypothesis P_node : forall st x,
    P st ->
    P (mkState (adjacency st) (edgeKeyToId st) (set_add (nodesSet st) x)
               (edgesArr st) (edgeIdCounter st)).

Lemma add_neighbors_keeps (from : string) (toks : list string) :
  forall st st', P st ->
    add_neighbors weighted directed from st toks = Return st' -> P st'.
Proof.
  induction toks as [| tok r IH]; simpl; intros st st' Hi H.
  - inversion H; subst. exact Hi.
  - apply bind_Return in H. destruct H as [st1 [H1 H]].
    apply (IH st1); [| exact H].
    unfold add_neighbor in H1.
    destruct (is_empty tok); [inversion H1; subst; exact Hi |].
    destruct (contains_char "-" tok); eapply P_addEdge; eauto.
Qed.

Lemma parse_line_keeps (line : string) (st st' : state) :
  P st -> parse_line weighted directed st line = Return st' -> P st'.
Proof.
  intros Hi H. unfold parse_line in H.
  destruct (contains_char ":" line).
  - eapply add_neighbors_keeps; [| exact H]. now apply P_node.
  - destruct (filter_nonempty (split_ws line)) as [| u [| v rest]];
      try (inversion H; subst; exact Hi).
    eapply P_addEdge; eauto.
Qed.

Lemma parse_lines_keeps (lines : list string) :
  forall st st', P st ->
    parse_lines weighted directed st lines = Return st' -> P st'.
Proof.
  induction lines as [| l r IH]; simpl; intros st st' Hi H.
  - inversion H; subst. exact Hi.
  - apply bind_Return in H. destruct H as [st1 [H1 H]].
    apply (IH st1); [| exact H]. eapply parse_line_keeps; eauto.
Qed.

Lemma add_entries_keeps (l : list value) :
  forall st st', P st ->
    add_entries weighted directed st l = Return st' -> P st'.
Proof.
  induction l as [| e r IH]; simpl; intros st st' Hi H.
  - inversion H; subst. exact Hi.
  - apply bind_Return in H. destruct H as [st1 [H1 H]].
    apply (IH st1); [| exact H].
    unfold add_entry in H1.
    destruct e; try (inversion H1; subst; exact Hi).
    eapply P_addEdge; eauto.
Qed.

Lemma add_row_keeps (u : string) (neigh : list value) :
  forall st st', P st ->
    add_row weighted directed u st neigh = Return st' -> P st'.
Proof.
  induction neigh as [| v r IH]; simpl; intros st st' Hi H.
  - inversion H; subst. exact Hi.
  - apply bind_Return in H. destruct H as [st1 [H1 H]].
    apply (IH st1); [| exact H]. eapply P_addEdge; eauto.
Qed.

Lemma add_rows_keeps (rows : list value) :
  forall i st st', P st ->
    add_rows weighted directed i st rows = Return st' -> P st'.
Proof.
  induction rows as [| row r IH]; simpl; intros i st st' Hi H.
  - inversion H; subst. exact Hi.
  - apply bind_Return in H. destruct H as [st1 [H1 H]].
    apply (IH (S i) st1); [| exact H].
    destruct row; try (inversion H1; subst; exact Hi).
    eapply add_row_keeps; eauto.
Qed.

Hypothesis P_init : P init.

Lemma parse_array_keeps (rawText : string) (st : state) :
  parse_array weighted directed rawText = Return st -> P st.
Proof.
  unfold parse_array. intros H.
  destruct (negb (truthy (read_array_text rawText))); [discriminate |].
  apply bind_Return in H. destruct H as [v [_ H]].
  destruct v; try discriminate.
  destruct ((0 <? List.length l)%nat && forallb is_edge_entry l).
  - eapply add_entries_keeps; [apply P_init | exact H].
  - destruct ((0 <? List.length l)%nat && forallb isArray l);
      [| discriminate].
    eapply add_rows_keeps; [apply P_init | exact H].
Qed.

Lemma parse_plain_keeps (rawText : string) (st : state) :
  parse_plain weighted directed rawText = Return st -> P st.
Proof.
  unfold parse_plain. apply parse_lines_keeps. apply P_init.
Qed.

End Loops.

Lemma parse_state_inv (rawText : string) (o : options) (st : state) :
  parse_state rawText o = Return st -> inv st.
Proof.
  unfold parse_state. destruct (inputMode o); intros H.
  - eapply parse_plain_keeps; [| | | exact H].
    + intros; eapply addEdge_inv; eauto.
    + intros s x [Hlen Hids Hfin]. constructor; assumption.
    + apply inv_init.
  - eapply parse_array_keeps; [| apply inv_init | exact H].
    intros; eapply addEdge_inv; eauto.
Qed.

(** *** The graph the parser builds *)

Import Graph.

Lemma In_set_add (s : list string) (x y : string) :
  In y (set_add s x) <-> In y s \/ y = x.
Proof.
  unfold set_add. destruct (existsb (String.eqb x) s) eqn:E.
  - split; [now left |]. intros [H | H]; [exact H |]. subst.
    apply existsb_exists in E. destruct E as [z [Hz E]].
    apply String.eqb_eq in E. now subst.
  - rewrite in_app_iff. simpl. intuition.
Qed.

Lemma NoDup_set_add (s : list string) (x : string) :
  NoDup s -> NoDup (set_add s x).
Proof.
  intros H. unfold set_add. destruct (existsb (String.eqb x) s) eqn:E;
    [exact H |].
  apply NoDup_app; [exact H | repeat constructor; intros [] |].
  intros a Ha [Hx | []]. subst a.
  assert (F : existsb (String.eqb x) s = true).
  { apply existsb_exists. exists x. split; [exact Ha | apply String.eqb_refl]. }
  congruence.
Qed.

(** The entries after [adj_push] are the old ones and the new one. *)
Lemma adj_push_entries (a a' : dict (list adjEntry)) (k : string)
      (e0 : adjEntry) :
  adj_push a k e0 = Return a' ->
  forall u e, entry_at a' u e <-> entry_at a u e \/ (u = k /\ e = e0).
Proof.
  unfold adj_push. intros H u e.
  destruct (get a k) as [l | |] eqn:G; inversion H; subst; clear H.
  - assert (N : String.eqb k "__proto__" = false)
      by (apply (get_not_proto a); congruence).
    destruct (String.eqb u k) eqn:E.
    + apply String.eqb_eq in E. subst u. unfold entry_at.
      rewrite (get_set_same a k _ N), G. split.
      * intros [es [Hes Hin]]. inversion Hes; subst.
        apply in_app_or in Hin. destruct Hin as [Hin | [Hin | []]].
        -- left. now exists l.
        -- right. now split.
      * intros [[es [Hes Hin]] | [_ He]].
        -- inversion Hes; subst. eexists. split; [reflexivity |].
           apply in_or_app. now left.
        -- subst. eexists. split; [reflexivity |].
           apply in_or_app. right. now left.
    + apply String.eqb_neq in E. unfold entry_at.
      rewrite (get_set_other a k u _ E). split; [now left |].
      intros [H | [H _]]; [exact H | contradiction].
  - assert (N : String.eqb k "__proto__" = false)
      by (apply (get_not_proto a); congruence).
    destruct (String.eqb u k) eqn:E.
    + apply String.eqb_eq in E. subst u. unfold entry_at.
      rewrite (get_set_same a k _ N), G. split.
      * intros [es [Hes Hin]]. inversion Hes; subst.
        destruct Hin as [Hin | []]. right. now split.
      * intros [[es [Hes Hin]] | [_ He]]; [discriminate |].
        subst. eexists. split; [reflexivity | now left].
    + apply String.eqb_neq in E. unfold entry_at.
      rewrite (get_set_other a k u _ E). split; [now left |].
      intros [H | [H _]]; [exact H | contradiction].
Qed.

Lemma entry_at_empty (u : string) (e : adjEntry) : ~ entry_at [] u e.
Proof.
  intros [es [H _]]. unfold get in H.
  destruct (String.eqb u "__proto__"); [discriminate |]. simpl in H.
  destruct (reserved u); discriminate.
Qed.

Lemma ginv_init (directed : bool) : ginv directed init.
Proof.
  constructor; simpl.
  - intros u e He. now apply entry_at_empty in He.
  - constructor.
  - intros u e He. now apply entry_at_empty in He.
  - intros u e u' e' He. now apply entry_at_empty in He.
  - intros _ u e He. now apply entry_at_empty in He.
  - intros u e u' e' He. now apply entry_at_empty in He.
Qed.

Lemma ginv_node (directed : bool) (st : state) (x : string) :
  ginv directed st ->
  ginv directed (mkState (adjacency st) (edgeKeyToId st)
                         (set_add (nodesSet st) x)
                         (edgesArr st) (edgeIdCounter st)).
Proof.
  intros [H1 H2 H3 H4 H5 H6]. constructor; simpl; auto.
  - intros u e He. destruct (H1 u e He). split; apply In_set_add; now left.
  - now apply NoDup_set_add.
Qed.

Lemma addEdge_ginv (weighted directed : bool) (st st' : state)
      (u v : string) (wt : value) :
  ginv directed st -> addEdge weighted directed st u v wt = Return st' ->
  ginv directed st'.
Proof.
  intros [Hc Hn Hb Hnm Hu Hwt] H. unfold addEdge in H.
  apply bind_Return in H. destruct H as [a1 [H1 H]].
  apply bind_Return in H. destruct H as [a2 [H2 H]].
  inversion H; subst; clear H.
  pose proof (adj_push_entries _ _ _ _ H1) as E1.
  set (w := weight_or_1 (edge_weight weighted wt)) in *.
  set (n := edgeIdCounter st) in *.
  assert (E2 : forall x e, entry_at a2 x e <->
                 entry_at (adjacency st) x e \/
                 (x = u /\ e = mkAdj v w n) \/
                 (directed = false /\ x = v /\ e = mkAdj u w n)).
  { intros x e. destruct directed.
    - inversion H2; subst. rewrite E1. intuition congruence.
    - rewrite (adj_push_entries _ _ _ _ H2 x e), E1. intuition. }
  clear E1 H1 H2.
  constructor; cbn [adjacency nodesSet edgeIdCounter].
  - intros x e He. apply E2 in He.
    destruct He as [He | [[Hx He] | [_ [Hx He]]]].
    + destruct (Hc x e He). split; apply In_set_add; left; apply In_set_add;
        now left.
    + subst. cbn [adj_to]. split; apply In_set_add.
      * left. apply In_set_add. now right.
      * now right.
    + subst. cbn [adj_to]. split; apply In_set_add.
      * now right.
      * left. apply In_set_add. now right.
  - now apply NoDup_set_add, NoDup_set_add.
  - intros x e He. apply E2 in He.
    destruct He as [He | [[Hx He] | [_ [Hx He]]]].
    + specialize (Hb x e He). fold n in Hb. lia.
    + subst. cbn [edgeId]. lia.
    + subst. cbn [edgeId]. lia.
  - intros x e x' e' He He' Hid. apply E2 in He. apply E2 in He'.
    destruct He as [He | [[Hx He] | [_ [Hx He]]]];
      destruct He' as [He' | [[Hx' He'] | [_ [Hx' He']]]];
      subst; cbn [adj_to edgeId] in *;
      try (specialize (Hb _ _ He); fold n in Hb; lia);
      try (specialize (Hb _ _ He'); fold n in Hb; lia);
      try (left; split; reflexivity);
      try (right; split; reflexivity).
    now apply (Hnm x e x' e').
  - intros Hd x e He. subst directed. apply E2 in He. apply E2.
    destruct He as [He | [[Hx He] | [_ [Hx He]]]].
    + left. now apply Hu.
    + subst. cbn [adj_to weight edgeId]. right. right. repeat split.
    + subst. cbn [adj_to weight edgeId]. right. left. repeat split.
  - intros x e x' e' He He' Hid. apply E2 in He. apply E2 in He'.
    destruct He as [He | [[Hx He] | [_ [Hx He]]]];
      destruct He' as [He' | [[Hx' He'] | [_ [Hx' He']]]];
      subst; cbn [weight edgeId] in *;
      try (specialize (Hb _ _ He); fold n in Hb; lia);
      try (specialize (Hb _ _ He'); fold n in Hb; lia);
      try reflexivity.
    now apply (Hwt x e x' e').
Qed.

Lemma parse_state_ginv (rawText : string) (o : options) (st : state) :
  parse_state rawText o = Return st -> ginv (directed o) st.
Proof.
  unfold parse_state. destruct (inputMode o); intros H.
  - eapply parse_plain_keeps; [| | | exact H].
    + intros; eapply addEdge_ginv; eauto.
    + intros; now apply ginv_node.
    + apply ginv_init.
  - eapply parse_array_keeps; [| apply ginv_init | exact H].
    intros; eapply addEdge_ginv; eauto.
Qed.

End ParserFacts.

(** ** Edge keys *)

Module KeyFacts.
Import JSString JSObject Parser.

Lemma code_inj (x y : ascii) : code x = code y -> x = y.
Proof.
  unfold code. intros H. apply N2Z.inj in H.
  rewrite <- (ascii_N_embedding x), <- (ascii_N_embedding y). now rewrite H.
Qed.

Lemma ltb_irrefl (a : string) : ltb a a = false.
Proof.
  induction a as [| x a IH]; [reflexivity |]. cbn [ltb].
  now rewrite Z.ltb_irrefl.
Qed.

Lemma ltb_asym (a b : string) : ltb a b = true -> ltb b a = false.
Proof.
  revert b. induction a as [| x a IH]; intros [| y b]; cbn [ltb];
    try congruence.
  destruct (Z.ltb_spec (code x) (code y)) as [L | G].
  - intros _. destruct (Z.ltb_spec (code y) (code x)); [lia | reflexivity].
  - destruct (Z.ltb_spec (code y) (code x)); [discriminate |]. apply IH.
Qed.

Lemma ltb_total (a b : string) : ltb a b = false -> ltb b a = false -> a = b.
Proof.
  revert b. induction a as [| x a IH]; intros [| y b]; cbn [ltb];
    try congruence.
  destruct (Z.ltb_spec (code x) (code y)) as [L | G]; [discriminate |].
  destruct (Z.ltb_spec (code y) (code x)) as [L' | G']; [discriminate |].
  intros H1 H2. f_equal; [apply code_inj; lia | now apply IH].
Qed.

(** The key of an undirected edge does not depend on the order of its
    ends. *)
Lemma normalizeEdgeKey_sym (u v : string) :
  normalizeEdgeKey u v false = normalizeEdgeKey v u false.
Proof.
  unfold normalizeEdgeKey.
  destruct (ltb v u) eqn:E1.
  - now rewrite (ltb_asym _ _ E1).
  - destruct (ltb u v) eqn:E2; [reflexivity |].
    now rewrite (ltb_total _ _ E1 E2).
Qed.

Lemma contains_app (c : ascii) (a b : string) :
  contains_char c (a ++ b) = contains_char c a || contains_char c b.
Proof.
  induction a as [| x a IH]; [reflexivity |]. cbn [append contains_char].
  rewrite IH. now rewrite orb_assoc.
Qed.

(** Every key holds a hyphen. *)
Lemma key_has_dash (u v : string) (d : bool) :
  contains_char "-" (normalizeEdgeKey u v d) = true.
Proof.
  unfold normalizeEdgeKey.
  destruct d; [| destruct (ltb v u)]; rewrite contains_app;
    cbn [append contains_char Ascii.eqb]; cbn; now rewrite orb_true_r.
Qed.

Lemma key_not_proto (u v : string) (d : bool) :
  normalizeEdgeKey u v d <> "__proto__".
Proof.
  intros E. pose proof (key_has_dash u v d) as H. rewrite E in H.
  discriminate H.
Qed.

End KeyFacts.

(** ** The edge list, the key table and the adjacency map *)

Module EdgeFacts.
Import JSString JSNumber JSValue JSObject Tokens Parser Graph DictFacts.
Import ParserSpec ParserFacts KeyFacts.

Lemma get_own_same {V : Type} (d : dict V) (k : string) (v : V) :
  k <> "__proto__" -> get_own (set d k v) k = Some v.
Proof.
  intros N. unfold get_own. rewrite get_set_same; [reflexivity |].
  now apply String.eqb_neq.
Qed.

Lemma get_own_other {V : Type} (d : dict V) (k k' : string) (v : V) :
  k' <> k -> get_own (set d k v) k' = get_own d k'.
Proof. intros N. unfold get_own. now rewrite get_set_other. Qed.

Lemma kinv_init (weighted directed : bool) : kinv weighted directed init.
Proof.
  constructor; cbn.
  - reflexivity.
  - intros u e He. now apply entry_at_empty in He.
  - intros i ed H. destruct i; cbn in H; discriminate H.
  - intros i ed H. destruct i; cbn in H; discriminate H.
  - intros k j H. unfold get_own, get in H.
    destruct (String.eqb k "__proto__"); [discriminate H |].
    cbn [own] in H. destruct (reserved k); discriminate H.
Qed.

Lemma kinv_node (weighted directed : bool) (st : state) (x : string) :
  kinv weighted directed st ->
  kinv weighted directed
       (mkState (adjacency st) (edgeKeyToId st) (set_add (nodesSet st) x)
                (edgesArr st) (edgeIdCounter st)).
Proof. intros [K1 K2 K3 K4 K5]. constructor; assumption. Qed.

Lemma nth_error_snoc {A : Type} (l : list A) (x : A) (i : nat) (y : A) :
  nth_error (l ++ [x]) i = Some y ->
  (nth_error l i = Some y /\ (i < List.length l)%nat) \/
  (i = List.length l /\ y = x).
Proof.
  intros H. destruct (Nat.lt_ge_cases i (List.length l)) as [L | G].
  - rewrite nth_error_app1 in H by exact L. now left.
  - rewrite nth_error_app2 in H by exact G.
    destruct (i - List.length l)%nat as [| k] eqn:E.
    + right. split; [lia | now injection H as <-].
    + destruct k; discriminate H.
Qed.

Lemma addEdge_kinv (weighted directed : bool) (st st' : state)
      (u v : string) (wt : value) :
  kinv weighted directed st ->
  addEdge weighted directed st u v wt = Return st' ->
  kinv weighted directed st'.
Proof.
  intros [Hl He Hd Hk Hy] H. unfold addEdge in H.
  apply bind_Return in H. destruct H as [a1 [H1 H]].
  apply bind_Return in H. destruct H as [a2 [H2 H]].
  inversion H; subst; clear H.
  pose proof (adj_push_entries _ _ _ _ H1) as E1.
  set (w := weight_or_1 (edge_weight weighted wt)) in *.
  set (n := edgeIdCounter st) in *.
  set (lab := if weighted then Some (to_string w) else None).
  set (ed0 := mkEdge n u v lab (if directed then Some "to" else None)).
  assert (E2 : forall x e, entry_at a2 x e <->
                 entry_at (adjacency st) x e \/
                 (x = u /\ e = mkAdj v w n) \/
                 (directed = false /\ x = v /\ e = mkAdj u w n)).
  { intros x e. destruct directed.
    - inversion H2; subst. rewrite E1. intuition congruence.
    - rewrite (adj_push_entries _ _ _ _ H2 x e), E1. intuition. }
  clear E1 H1 H2.
  assert (Hnew : nth_error (edgesArr st ++ [ed0]) n = Some ed0).
  { rewrite nth_error_app2 by lia. rewrite <- Hl.
    now rewrite Nat.sub_diag. }
  assert (Hold : forall i ed, nth_error (edgesArr st) i = Some ed ->
                   nth_error (edgesArr st ++ [ed0]) i = Some ed).
  { intros i ed Hi. rewrite nth_error_app1; [exact Hi |].
    apply nth_error_Some. congruence. }
  constructor; cbn [adjacency edgeKeyToId edgesArr edgeIdCounter].
  - rewrite length_app. cbn. lia.
  - intros x e Hx. apply E2 in Hx.
    destruct Hx as [Hx | [[-> ->] | [Hdir [-> ->]]]].
    + destruct (He x e Hx) as [ed [Hi Hends]]. exists ed.
      split; [now apply Hold | exact Hends].
    + exists ed0. cbn [edgeId adj_to weight]. split; [exact Hnew |].
      split; [now left |]. intros ->. reflexivity.
    + exists ed0. cbn [edgeId adj_to weight]. split; [exact Hnew |].
      split; [right; now repeat split |]. intros ->. reflexivity.
  - intros i ed Hi. apply nth_error_snoc in Hi.
    destruct Hi as [[Hi _] | [-> ->]].
    + destruct (Hd i ed Hi) as [D1 [[w' [D2 [D3 D4]]] D5]].
      split; [exact D1 |]. split; [| exact D5].
      exists w'. split; [apply E2; now left |].
      split; [intros Hdir; apply E2; left; now apply D3 | exact D4].
    + rewrite Hl. fold n. cbn [id from to label arrows].
      split; [reflexivity |].
      split; [| reflexivity].
      exists w. split; [apply E2; right; left; now split |].
      split; [| reflexivity].
      intros Hdir. apply E2. right. right. now repeat split.
  - intros i ed Hi. apply nth_error_snoc in Hi.
    destruct Hi as [[Hi _] | [-> ->]].
    + destruct (Hk i ed Hi) as [j [Hj Hij]].
      destruct (string_dec (edge_key directed ed)
                           (normalizeEdgeKey u v directed)) as [E | N].
      * exists n. rewrite E.
        rewrite get_own_same by apply key_not_proto.
        split; [reflexivity |].
        assert (i < List.length (edgesArr st))%nat
          by (apply nth_error_Some; congruence).
        unfold n. lia.
      * exists j. rewrite get_own_other by exact N. now split.
    + exists n. unfold edge_key. cbn [from to].
      rewrite get_own_same by apply key_not_proto.
      split; [reflexivity | unfold n; lia].
  - intros k j Hj.
    destruct (string_dec k (normalizeEdgeKey u v directed)) as [E | N].
    + subst k. rewrite get_own_same in Hj by apply key_not_proto.
      injection Hj as <-. exists ed0. split; [exact Hnew | reflexivity].
    + rewrite get_own_other in Hj by exact N.
      destruct (Hy k j Hj) as [ed [Hi Hkey]]. exists ed.
      split; [now apply Hold | exact Hkey].
Qed.

Lemma parse_state_kinv (rawText : string) (o : options) (st : state) :
  parse_state rawText o = Return st -> kinv (weighted o) (directed o) st.
Proof.
  unfold parse_state. destruct (inputMode o); intros H.
  - eapply parse_plain_keeps; [| | | exact H].
    + intros; eapply addEdge_kinv; eauto.
    + intros; now apply kinv_node.
    + apply kinv_init.
  - eapply parse_array_keeps; [| apply kinv_init | exact H].
    intros; eapply addEdge_kinv; eauto.
Qed.

(** The key of every adjacency entry is in the key table. *)
Lemma entry_key (weighted directed : bool) (st : state) :
  kinv weighted directed st ->
  forall u e, entry_at (adjacency st) u e ->
    exists j, get_own (edgeKeyToId st)
                      (normalizeEdgeKey u (adj_to e) directed) = Some j.
Proof.
  intros K u e He.
  destruct (k_entry _ _ _ K u e He) as [ed [Hi [Hends _]]].
  destruct (k_listed _ _ _ K _ _ Hi) as [j [Hj _]]. exists j.
  unfold edge_key in Hj.
  destruct Hends as [[<- <-] | [-> [<- <-]]]; [exact Hj |].
  now rewrite normalizeEdgeKey_sym.
Qed.

End EdgeFacts.

(** ** The option [weighted] changes labels only *)

Module WeightedFacts.
Import JSString JSNumber JSValue JSObject Tokens Parser ParserSpec.

Lemma kept_weight (wt : value) :
  weight_or_1 (edge_weight true wt) = weight_or_1 (edge_weight false wt).
Proof.
  unfold edge_weight. destruct (isFinite (toNumber wt)); reflexivity.
Qed.

Lemma same_bind (o1 o2 : outcome state) (f1 f2 : state -> outcome state) :
  same_outcome o1 o2 ->
  (forall s1 s2, same_graph s1 s2 -> same_outcome (f1 s1) (f2 s2)) ->
  same_outcome (bind o1 f1) (bind o2 f2).
Proof.
  destruct o1, o2; cbn; intros H F; try contradiction; auto.
Qed.

Lemma same_init : same_graph init init.
Proof. repeat split. constructor. Qed.

Lemma addEdge_same (directed : bool) (s1 s2 : state) (u v : string)
      (wt : value) :
  same_graph s1 s2 ->
  same_outcome (addEdge true directed s1 u v wt)
               (addEdge false directed s2 u v wt).
Proof.
  intros [Ha [Hk [Hn [He [Hc Hl]]]]]. unfold addEdge.
  rewrite kept_weight, Ha, Hk, Hn, Hc.
  assert (P : forall a k e,
             (exists a', adj_push a k e = Return a') \/
             (exists x, adj_push a k e = Throw x)).
  { intros a k e. unfold adj_push. destruct (get a k); eauto. }
  destruct (P (adjacency s2) u
              (mkAdj v (weight_or_1 (edge_weight false wt))
                     (edgeIdCounter s2))) as [[a1 ->] | [x ->]];
    cbn [bind]; [| reflexivity].
  assert (Q : (exists a2,
                 (if directed then Return a1
                  else adj_push a1 v
                         (mkAdj u (weight_or_1 (edge_weight false wt))
                                (edgeIdCounter s2))) = Return a2) \/
              (exists x,
                 (if directed then Return a1
                  else adj_push a1 v
                         (mkAdj u (weight_or_1 (edge_weight false wt))
                                (edgeIdCounter s2))) = Throw x)).
  { destruct directed; [left; eauto | apply P]. }
  destruct Q as [[a2 ->] | [x ->]]; cbn [bind same_outcome]; [| reflexivity].
  repeat split; cbn [adjacency edgeKeyToId nodesSet edgesArr edgeIdCounter].
  - rewrite !map_app, He. reflexivity.
  - apply Forall_app. split; [exact Hl |]. now constructor.
Qed.

Lemma node_same (s1 s2 : state) (x : string) :
  same_graph s1 s2 ->
  same_graph
    (mkState (adjacency s1) (edgeKeyToId s1) (set_add (nodesSet s1) x)
             (edgesArr s1) (edgeIdCounter s1))
    (mkState (adjacency s2) (edgeKeyToId s2) (set_add (nodesSet s2) x)
             (edgesArr s2) (edgeIdCounter s2)).
Proof.
  intros [Ha [Hk [Hn [He [Hc Hl]]]]]. repeat split; cbn; congruence.
Qed.

Section Runs.
Variable directed : bool.

Lemma add_neighbors_same (from : string) (toks : list string) :
  forall s1 s2, same_graph s1 s2 ->
    same_outcome (add_neighbors true directed from s1 toks)
                 (add_neighbors false directed from s2 toks).
Proof.
  induction toks as [| tok r IH]; intros s1 s2 H; cbn [add_neighbors].
  - exact H.
  - apply same_bind; [| exact IH].
    unfold add_neighbor. destruct (is_empty tok); [exact H |].
    destruct (contains_char "-" tok); now apply addEdge_same.
Qed.

Lemma parse_line_same (line : string) (s1 s2 : state) :
  same_graph s1 s2 ->
  same_outcome (parse_line true directed s1 line)
               (parse_line false directed s2 line).
Proof.
  intros H. unfold parse_line. destruct (contains_char ":" line).
  - apply add_neighbors_same. now apply node_same.
  - destruct (filter_nonempty (split_ws line)) as [| u [| v rest]];
      [exact H | exact H |].
    now apply addEdge_same.
Qed.

Lemma parse_lines_same (lines : list string) :
  forall s1 s2, same_graph s1 s2 ->
    same_outcome (parse_lines true directed s1 lines)
                 (parse_lines false directed s2 lines).
Proof.
  induction lines as [| l r IH]; intros s1 s2 H; cbn [parse_lines].
  - exact H.
  - apply same_bind; [now apply parse_line_same | exact IH].
Qed.

Lemma add_entries_same (l : list value) :
  forall s1 s2, same_graph s1 s2 ->
    same_outcome (add_entries true directed s1 l)
                 (add_entries false directed s2 l).
Proof.
  induction l as [| e r IH]; intros s1 s2 H; cbn [add_entries].
  - exact H.
  - apply same_bind; [| exact IH].
    unfold add_entry. destruct e; try exact H. now apply addEdge_same.
Qed.

Lemma add_row_same (u : string) (neigh : list value) :
  forall s1 s2, same_graph s1 s2 ->
    same_outcome (add_row true directed u s1 neigh)
                 (add_row false directed u s2 neigh).
Proof.
  induction neigh as [| v r IH]; intros s1 s2 H; cbn [add_row].
  - exact H.
  - apply same_bind; [now apply addEdge_same | exact IH].
Qed.

Lemma add_rows_same (rows : list value) :
  forall i s1 s2, same_graph s1 s2 ->
    same_outcome (add_rows true directed i s1 rows)
                 (add_rows false directed i s2 rows).
Proof.
  induction rows as [| row r IH]; intros i s1 s2 H; cbn [add_rows].
  - exact H.
  - apply same_bind; [| apply IH].
    destruct row; try exact H. now apply add_row_same.
Qed.

Lemma parse_state_same (rawText : string) (mode : Parser.mode) :
  same_outcome (parse_state rawText (mkOptions true directed mode))
               (parse_state rawText (mkOptions false directed mode)).
Proof.
  unfold parse_state. cbn [inputMode weighted Parser.directed].
  destruct mode.
  - unfold parse_plain. apply parse_lines_same, same_init.
  - unfold parse_array.
    destruct (negb (truthy (read_array_text rawText))); [reflexivity |].
    assert (U : (exists v, unwrap_object (read_array_text rawText)
                           = Return v) \/
                (exists x, unwrap_object (read_array_text rawText)
                           = Throw x)).
    { unfold unwrap_object.
      destruct (read_array_text rawText); eauto.
      destruct (prop_get "edges" props) as [[] |]; eauto;
        destruct (prop_get "graph" props) as [[] |]; eauto;
        destruct (find _ (keys props)); eauto;
        destruct (prop_get _ props); eauto. }
    destruct U as [[v ->] | [x ->]]; cbn [bind]; [| reflexivity].
    destruct v; try reflexivity.
    destruct ((0 <? List.length l)%nat && forallb is_edge_entry l).
    + apply add_entries_same, same_init.
    + destruct ((0 <? List.length l)%nat && forallb isArray l);
        [| reflexivity].
      apply add_rows_same, same_init.
Qed.

End Runs.

End WeightedFacts.

(** ** Array mode *)

Module ArrayFacts.
Import JSString JSNumber JSValue JSObject Tokens Parser ParserSpec.

Lemma chars_app (a b : string) : chars (a ++ b) = (chars a ++ chars b)%list.
Proof.
  induction a as [| c a IH]; [reflexivity |].
  cbn [append]. unfold chars in *. cbn [list_ascii_of_string]. now rewrite IH.
Qed.

Lemma from_first_skip (z : Z) (pre l : list ascii) :
  Forall (fun c => is_char z c = false) pre ->
  from_first z (pre ++ l) = from_first z l.
Proof.
  induction 1 as [| c pre Hc _ IH]; [reflexivity |].
  cbn [app from_first]. now rewrite Hc.
Qed.

Lemma balanced_prefix_more (post : list ascii) (l : list ascii) :
  forall depth acc r,
    balanced_prefix l depth acc = Some r ->
    balanced_prefix (l ++ post) depth acc = Some r.
Proof.
  induction l as [| c l IH]; intros depth acc r H; [discriminate H |].
  cbn [app balanced_prefix] in *.
  destruct (is_char 91 c); [now apply IH |].
  destruct (is_char 93 c); [| now apply IH].
  destruct (depth - 1 =? 0); [exact H | now apply IH].
Qed.

(** What precedes the first opening bracket and what follows the bracket
    that closes it is not read. *)
Lemma extract_bracketed (pre body post : string) :
  Forall (fun c => is_char 91 c = false) (chars pre) ->
  bracketed body ->
  extractAndParseFirstBracketed (pre ++ body ++ post) = JSON.parse body.
Proof.
  intros Hpre [Hf Hb]. unfold extractAndParseFirstBracketed.
  rewrite !chars_app, (from_first_skip 91 _ _ Hpre).
  unfold first_is, first_char in Hf.
  destruct body as [| c body']; [discriminate Hf |].
  change (chars (String c body')) with (c :: chars body') in *.
  cbn [app from_first]. rewrite Hf.
  change (c :: (chars body' ++ chars post)%list)
    with ((c :: chars body') ++ chars post)%list.
  rewrite (balanced_prefix_more _ _ _ _ _ Hb).
  change (c :: chars body') with (chars (String c body')).
  unfold of_chars, chars. now rewrite string_of_list_ascii_of_string.
Qed.

Lemma addEdge_endpoints (weighted directed : bool) (st st' : state)
      (u v : string) (wt : value) :
  addEdge weighted directed st u v wt = Return st' ->
  map (fun e => (from e, to e)) (edgesArr st')
  = (map (fun e => (from e, to e)) (edgesArr st) ++ [(u, v)])%list.
Proof.
  unfold addEdge. intros H.
  apply bind_Return in H. destruct H as [a1 [_ H]].
  apply bind_Return in H. destruct H as [a2 [_ H]].
  injection H as <-. cbn [edgesArr]. now rewrite map_app.
Qed.

Lemma add_entries_endpoints (weighted directed : bool) (l : list value) :
  forallb is_edge_entry l = true ->
  forall st st',
    add_entries weighted directed st l = Return st' ->
    map (fun e => (from e, to e)) (edgesArr st')
    = (map (fun e => (from e, to e)) (edgesArr st)
       ++ map entry_ends l)%list.
Proof.
  induction l as [| entry r IH]; intros Hl st st' H.
  - injection H as <-. now rewrite app_nil_r.
  - cbn [forallb] in Hl. apply andb_prop in Hl. destruct Hl as [He Hr].
    cbn [add_entries] in H. apply bind_Return in H.
    destruct H as [st1 [H1 H]].
    rewrite (IH Hr _ _ H).
    destruct entry; try discriminate He.
    unfold add_entry in H1. rewrite (addEdge_endpoints _ _ _ _ _ _ _ H1).
    rewrite <- app_assoc. reflexivity.
Qed.

End ArrayFacts.

(** ** Edge lists in plain text *)

Module PlainFacts.
Import JSString JSNumber JSValue JSObject Tokens Parser ParserSpec.
Import ParserFacts ArrayFacts.

Lemma addEdge_no_lone_node (weighted directed : bool) (st st' : state)
      (u v : string) (wt : value) :
  addEdge weighted directed st u v wt = Return st' ->
  no_lone_node st -> no_lone_node st'.
Proof.
  unfold addEdge. intros H Q.
  apply bind_Return in H. destruct H as [a1 [_ H]].
  apply bind_Return in H. destruct H as [a2 [_ H]].
  injection H as <-. intros x Hx. cbn [nodesSet edgesArr] in *.
  apply In_set_add in Hx. destruct Hx as [Hx | ->].
  - apply In_set_add in Hx. destruct Hx as [Hx | ->].
    + destruct (Q x Hx) as [ed [Hed Hends]]. exists ed.
      split; [apply in_or_app; now left | exact Hends].
    + eexists. split; [apply in_or_app; right; now left |]. now left.
  - eexists. split; [apply in_or_app; right; now left |]. now right.
Qed.

Lemma parse_lines_edge_list (weighted directed : bool)
      (lines : list string) :
  Forall (fun line => contains_char ":" line = false) lines ->
  forall st st',
    parse_lines weighted directed st lines = Return st' ->
    map (fun e => (from e, to e)) (edgesArr st')
    = (map (fun e => (from e, to e)) (edgesArr st)
       ++ flat_map line_ends lines)%list /\
    (no_lone_node st -> no_lone_node st').
Proof.
  induction 1 as [| line r Hc _ IH]; intros st st' H.
  - injection H as <-. cbn [flat_map]. now rewrite app_nil_r.
  - cbn [parse_lines] in H. apply bind_Return in H.
    destruct H as [st1 [H1 H]]. destruct (IH _ _ H) as [E Q].
    rewrite E. cbn [flat_map]. unfold parse_line in H1. rewrite Hc in H1.
    unfold line_ends.
    destruct (filter_nonempty (split_ws line)) as [| u [| v rest]].
    + injection H1 as <-. split; [reflexivity | exact Q].
    + injection H1 as <-. split; [reflexivity | exact Q].
    + rewrite (addEdge_endpoints _ _ _ _ _ _ _ H1), <- app_assoc.
      split; [reflexivity |].
      intros Q0. apply Q. exact (addEdge_no_lone_node _ _ _ _ _ _ _ H1 Q0).
Qed.

End PlainFacts.

(** ** Fuel *)

Module FuelFacts.
Import JSString JSNumber JSObject Parser MinHeap Dijkstra.

(** More fuel does not change an outcome that was reached. *)
Lemma main_loop_more (adj : dict (list adjEntry)) (target : string) :
  forall fuel t r,
    main_loop fuel adj target t = r -> r <> OutOfFuel ->
    forall k, main_loop (fuel + k) adj target t = r.
Proof.
  induction fuel as [| f IH]; intros [[dist prev] pq] r H Hr k.
  - simpl in H. destruct (pop pq) as [[it pq'] |] eqn:P.
    + congruence.
    + destruct (0 + k)%nat; simpl; rewrite P; exact H.
  - simpl in H. simpl. destruct (pop pq) as [[it pq'] |] eqn:P; [| exact H].
    destruct (gt (priority it) (dist_at dist (node it))).
    + now apply IH.
    + destruct (String.eqb (node it) target); [exact H |].
      destruct (get adj (node it)); [| exact H |]; now apply IH.
Qed.

Lemma walk_more (bare : bool) (prev : dict (option string)) :
  forall fuel cur acc r,
    walk fuel bare prev cur acc = r -> r <> OutOfFuel ->
    forall k, walk (fuel + k) bare prev cur acc = r.
Proof.
  induction fuel as [| f IH]; intros cur acc r H Hr k.
  - destruct cur; simpl in H; try congruence.
    destruct (0 + k)%nat; exact H.
  - destruct cur; simpl in H; simpl; try exact H; now apply IH.
Qed.

Lemma dijkstraPQ_more (fuel : nat) (adj : option (dict (list adjEntry)))
      (keys : dict nat) (directed : bool) (source target : string)
      (nodes : list string) (r : outcome result) :
  dijkstraPQ fuel adj keys directed source target nodes = r ->
  r <> OutOfFuel ->
  forall k,
    dijkstraPQ (fuel + k) adj keys directed source target nodes = r.
Proof.
  unfold dijkstraPQ. destruct adj as [a |]; [| trivial].
  destruct (is_empty source || is_empty target); [trivial |].
  intros H Hr k.
  destruct (main_loop fuel a target (init_tables source nodes))
    as [[dist prev] | e |] eqn:M; simpl in H.
  - rewrite (main_loop_more a target fuel _ _ M) by discriminate. simpl.
    destruct (negb (isFinite (dist_at dist target))); [exact H |].
    destruct (walk fuel (has_proto nodes) prev (CNode target) [])
      as [p | e |] eqn:W; simpl in H.
    + rewrite (walk_more _ prev fuel _ _ _ W) by discriminate. exact H.
    + rewrite (walk_more _ prev fuel _ _ _ W) by discriminate. exact H.
    + congruence.
  - rewrite (main_loop_more a target fuel _ _ M) by discriminate. exact H.
  - congruence.
Qed.

End FuelFacts.

(** * The claims *)

Import JSString JSNumber JSValue JSObject Tokens Parser.

(** Run the parser on a concrete text and use what it returns. *)
Ltac exists_parsed :=
  match goal with
  | |- exists m, ?p = Return m /\ _ =>
      let r := eval vm_compute in p in
      match r with
      | Return ?x => exists x; split; [vm_compute; reflexivity |]
      end
  end.

(** C1: the text "A B 4\nB C 1", read in plain-text mode as a weighted
    undirected graph, gives the nodes A, B, C and two edges, and the shortest
    path from A to C is A, B, C with distance 5 over the edges 0 and 1. *)
Theorem C1_round_trip :
  exists m,
    parseGraphInput ("A B 4" ++ nl ++ "B C 1") (mkOptions true false Plain)
    = Return m /\
    map node_id (nodesArr m) = ["A"; "B"; "C"] /\
    List.length (m_edgesArr m) = 2%nat /\
    forall k,
      Dijkstra.shortestPath (3 + k) m "A" "C"
      = Return (Dijkstra.mkResult
                  (of_Z 5)
                  [Dijkstra.CNode "A"; Dijkstra.CNode "B"; Dijkstra.CNode "C"]
                  [0%nat; 1%nat]).
Proof.
  exists_parsed.
  split; [reflexivity |]. split; [reflexivity |].
  intros k. unfold Dijkstra.shortestPath.
  apply FuelFacts.dijkstraPQ_more; [vm_compute; reflexivity | discriminate].
Qed.

(** C8: when the parser succeeds, the edges array is as long as the number
    of edges added (the edge counter), and the ids stored in it are
    0, 1, ..., length-1 in creation order. *)
Theorem C8_edge_ids_dense (rawText : string) (o : options) (m : model) :
  parseGraphInput rawText o = Return m ->
  exists st,
    parse_state rawText o = Return st /\
    m_edgesArr m = edgesArr st /\
    List.length (m_edgesArr m) = edgeIdCounter st /\
    map id (m_edgesArr m) = seq 0 (List.length (m_edgesArr m)).
Proof.
  unfold parseGraphInput. intros H.
  apply bind_Return in H. destruct H as [st [Hs H]].
  inversion H; subst; clear H. exists st.
  destruct (ParserFacts.parse_state_inv _ _ _ Hs) as [Hlen Hids _].
  simpl. repeat split; try assumption. now rewrite Hlen.
Qed.

Lemma C8_edge_ids_dense_witness :
  exists m,
    parseGraphInput ("A B 4" ++ nl ++ "B C 1") (mkOptions true false Plain)
    = Return m /\
    exists st,
      parse_state ("A B 4" ++ nl ++ "B C 1") (mkOptions true false Plain)
      = Return st /\
      m_edgesArr m = edgesArr st /\
      List.length (m_edgesArr m) = edgeIdCounter st /\
      map id (m_edgesArr m) = seq 0 (List.length (m_edgesArr m)).
Proof.
  assert (H : exists m,
             parseGraphInput ("A B 4" ++ nl ++ "B C 1")
                             (mkOptions true false Plain) = Return m /\ True)
    by (exists_parsed; exact I).
  destruct H as [m [Hm _]]. exists m. split; [exact Hm |].
  exact (C8_edge_ids_dense _ _ m Hm).
Defined.

(** C9: when the parser succeeds, every adjacency entry of the model has a
    finite weight; in particular no weight the shortest-path engine reads
    is NaN. *)
Theorem C9_weights_finite (rawText : string) (o : options) (m : model) :
  parseGraphInput rawText o = Return m ->
  forall k l e,
    In (k, l) (m_adjacency m) -> In e l ->
    isFinite (weight e) = true /\ isNaN (weight e) = false.
Proof.
  unfold parseGraphInput. intros H k l e Hk He.
  apply bind_Return in H. destruct H as [st [Hs H]].
  inversion H; subst; clear H. simpl in Hk.
  destruct (ParserFacts.parse_state_inv _ _ _ Hs) as [_ _ Hfin].
  assert (F : isFinite (weight e) = true) by (eapply Hfin; eauto).
  split; [exact F |]. destruct (weight e); simpl in *; congruence.
Qed.

Lemma C9_weights_finite_witness :
  exists m,
    parseGraphInput "A B abc" (mkOptions true false Plain) = Return m /\
    In ("A", [mkAdj "B" (of_Z 0) 0]) (m_adjacency m) /\
    isFinite (of_Z 0) = true /\ isNaN (of_Z 0) = false.
Proof.
  assert (H : exists m,
             parseGraphInput "A B abc" (mkOptions true false Plain)
             = Return m /\
             In ("A", [mkAdj "B" (of_Z 0) 0]) (m_adjacency m)).
  { exists_parsed. left. reflexivity. }
  destruct H as [m [Hm Hin]]. exists m.
  split; [exact Hm |]. split; [exact Hin |].
  exact (C9_weights_finite _ _ m Hm "A" _ (mkAdj "B" (of_Z 0) 0) Hin
                           (or_introl eq_refl)).
Defined.

(** C10: in array mode the text "[]" is refused with the error
    "Unrecognized array structure...", whatever the other options; no empty
    model is returned. *)
Theorem C10_empty_array_rejected (weighted directed : bool) :
  parseGraphInput "[]" (mkOptions weighted directed Array)
  = Throw (Error "Unrecognized array structure. Expected array of edges (e.g. [[u,v],[u,v,w],...]) or adjacency-list (e.g. [[1,2],[2],[0]]).").
Proof.
  destruct weighted, directed; vm_compute; reflexivity.
Qed.

(** Evaluate the parser on a concrete text inside a hypothesis. *)
Ltac run_parser H :=
  match type of H with
  | ?p = _ =>
      let r := eval vm_compute in p in
      let E := fresh "E" in
      assert (E : p = r) by (vm_compute; reflexivity);
      rewrite E in H; clear E
  end.

(** C3, as the specification states it, fails: under no options does the
    array-mode text [[0,1],[1,2],[2]] give exactly the two edges 0->1 and
    1->2. *)
Lemma C3_two_edges_refuted :
  ~ exists weighted directed m,
      parseGraphInput "[[0,1],[1,2],[2]]" (mkOptions weighted directed Array)
      = Return m /\
      map node_id (nodesArr m) = ["0"; "1"; "2"] /\
      endpoints m = [("0", "1"); ("1", "2")].
Proof.
  intros [w [d [m [H [_ E]]]]].
  destruct w, d; run_parser H; inversion H; subst; discriminate E.
Qed.

(** C3, amended: the array-mode text [[0,1],[1,2],[2]] is an adjacency list
    indexed by position, so row i lists the neighbours of node i: the nodes
    are 0, 1, 2 and the edges are 0->0, 0->1, 1->1, 1->2, 2->2. *)
Theorem C3_adjacency_rows (weighted directed : bool) :
  exists m,
    parseGraphInput "[[0,1],[1,2],[2]]" (mkOptions weighted directed Array)
    = Return m /\
    map node_id (nodesArr m) = ["0"; "1"; "2"] /\
    endpoints m
    = [("0", "0"); ("0", "1"); ("1", "1"); ("1", "2"); ("2", "2")].
Proof.
  destruct weighted, directed; exists_parsed; split; reflexivity.
Qed.

(** C4 at its failing inputs: an edge whose third field is not a number is
    created, but the weight stored is 0 (the [null] of the coercion converts
    to 0), not the default 1; the adjacency syntax of the same parser does
    fall back to 1. *)
Theorem C4_unparseable_weight_stored_as_zero :
  (exists m,
      parseGraphInput "A B abc" (mkOptions true false Plain) = Return m /\
      map (fun e => (from e, to e, label e)) (m_edgesArr m)
      = [("A", "B", Some "0")] /\
      stored_weights m = [of_Z 0; of_Z 0]) /\
  (exists m,
      parseGraphInput "[[1,2,null]]" (mkOptions true false Array) = Return m /\
      map (fun e => (from e, to e, label e)) (m_edgesArr m)
      = [("1", "2", Some "0")] /\
      stored_weights m = [of_Z 0; of_Z 0]) /\
  (exists m,
      parseGraphInput "A: B-abc" (mkOptions true false Plain) = Return m /\
      map (fun e => (from e, to e, label e)) (m_edgesArr m)
      = [("A", "B", Some "1")] /\
      stored_weights m = [of_Z 1; of_Z 1]) /\
  of_Z 0 <> of_Z 1.
Proof.
  split; [exists_parsed; split; reflexivity |].
  split; [exists_parsed; split; reflexivity |].
  split; [exists_parsed; split; reflexivity |].
  discriminate.
Qed.




(** The two returns of [dijkstraPQ] that the specification describes. *)
Lemma dijkstraPQ_guard (fuel : nat) (adj : option (dict (list adjEntry)))
      (keys : dict nat) (directed : bool) (source target : string)
      (nodes : list string) :
  adj = None \/ source = "" \/ target = "" ->
  Dijkstra.dijkstraPQ fuel adj keys directed source target nodes
  = Return Dijkstra.empty_result.
Proof.
  unfold Dijkstra.dijkstraPQ. intros [H | [H | H]]; subst.
  - reflexivity.
  - destruct adj; reflexivity.
  - destruct adj; [| reflexivity].
    destruct (is_empty source); reflexivity.
Qed.

Lemma dijkstraPQ_unreachable (fuel : nat) (adj : dict (list adjEntry))
      (keys : dict nat) (directed : bool) (source target : string)
      (nodes : list string) (dist : dict number)
      (prev : dict (option string)) :
  source <> "" -> target <> "" ->
  Dijkstra.main_loop fuel adj target (Dijkstra.init_tables source nodes)
  = Return (dist, prev) ->
  isFinite (Dijkstra.dist_at dist target) = false ->
  Dijkstra.dijkstraPQ fuel (Some adj) keys directed source target nodes
  = Return Dijkstra.empty_result.
Proof.
  intros Hs Ht M F. unfold Dijkstra.dijkstraPQ.
  destruct source; [congruence |]. destruct target; [congruence |].
  cbn [is_empty orb]. rewrite M. cbn [bind]. rewrite F. reflexivity.
Qed.

(** Once the path loop has read [undefined] it never reads [null]. *)
Lemma walk_undefined (bare : bool) (prev : dict (option string)) :
  get prev "undefined" = Absent ->
  forall fuel acc,
    Dijkstra.walk fuel bare prev Dijkstra.CUndefined acc = OutOfFuel.
Proof.
  intros H. induction fuel as [| f IH]; intros acc; [reflexivity |].
  cbn [Dijkstra.walk]. unfold Dijkstra.prev_at.
  cbn [Dijkstra.cursor_key]. rewrite H. apply IH.
Qed.

(** C6 at its failing inputs.  In a directed model a node that is only the
    head of an edge has no adjacency list of its own; when such a node is
    named like a property of [Object.prototype], [adjacency[u] || []] finds
    the inherited value and iterating it throws.  And when the source is
    not among the nodes, [prev[source]] is [undefined], not [null], and the
    path loop does not end. *)
Theorem C6_engine_throws :
  (exists m,
      parseGraphInput ("A constructor" ++ nl ++ "A B 5")
                      (mkOptions true true Plain) = Return m /\
      forall k,
        Dijkstra.shortestPath (2 + k) m "A" "B"
        = Throw (TypeError "neighbors is not iterable")) /\
  (exists m,
      parseGraphInput "A B 5" (mkOptions true false Plain) = Return m /\
      forall fuel, Dijkstra.shortestPath fuel m "Z" "Z" = OutOfFuel).
Proof.
  split.
  - exists_parsed. intros k. unfold Dijkstra.shortestPath.
    apply FuelFacts.dijkstraPQ_more; [vm_compute; reflexivity | discriminate].
  - exists_parsed. intros [| fuel]; [reflexivity |].
    unfold Dijkstra.shortestPath, Dijkstra.dijkstraPQ.
    cbn [is_empty orb m_adjacency].
    change (S fuel) with (1 + fuel)%nat.
    match goal with
    | |- bind (Dijkstra.main_loop _ ?a ?t ?i) _ = _ =>
        let r := eval vm_compute in (Dijkstra.main_loop 1 a t i) in
        assert (M : Dijkstra.main_loop 1 a t i = r)
          by (vm_compute; reflexivity);
        rewrite (FuelFacts.main_loop_more a t 1 i _ M ltac:(discriminate) fuel)
    end.
    cbn [bind]. change (1 + fuel)%nat with (S fuel).
    match goal with
    | |- context [negb (isFinite ?x)] =>
        replace (negb (isFinite x)) with false by (vm_compute; reflexivity)
    end.
    cbn [Dijkstra.walk]. unfold Dijkstra.prev_at at 1.
    match goal with
    | |- context [get ?p (Dijkstra.cursor_key ?c)] =>
        replace (get p (Dijkstra.cursor_key c))
          with (@Absent (option string)) by (vm_compute; reflexivity)
    end.
    rewrite walk_undefined by (vm_compute; reflexivity). reflexivity.
Qed.

(** ** Prim's loop *)

Module PrimFacts.
Import JSString JSNumber JSObject Parser Prim Graph.
Import PrimSpec.

Lemma has_In (s : list string) (x : string) : has s x = true <-> In x s.
Proof.
  unfold has. rewrite existsb_exists. split.
  - intros [y [Hy E]]. apply String.eqb_eq in E. now subst.
  - intros H. exists x. split; [exact H | apply String.eqb_refl].
Qed.

Lemma has_false (s : list string) (x : string) :
  has s x = false <-> ~ In x s.
Proof.
  rewrite <- has_In. destruct (has s x); split; congruence.
Qed.

Lemma set_add_new (s : list string) (x : string) :
  ~ In x s -> set_add s x = (s ++ [x])%list.
Proof.
  intros H. unfold set_add. apply has_false in H. unfold has in H.
  now rewrite H.
Qed.

Lemma In_insert (x c : candidate) (l : list candidate) :
  In c (insert x l) <-> c = x \/ In c l.
Proof.
  induction l as [| y r IH]; simpl.
  - intuition.
  - destruct (after x y); simpl; rewrite ?IH; intuition.
Qed.

Lemma In_sort (c : candidate) (l : list candidate) :
  In c (sort l) <-> In c l.
Proof.
  induction l as [| x r IH]; simpl; [tauto |].
  rewrite In_insert, IH. intuition.
Qed.

Lemma pick_Some (inMST : list string) (l : list candidate)
      (ch : candidate) (rest : list candidate) :
  pick inMST l = Some (ch, rest) ->
  ~ In (c_to ch) inMST /\
  In ch l /\
  (forall c, In c rest -> In c l) /\
  (forall c, In c l -> c = ch \/ In c rest).
Proof.
  revert rest. induction l as [| c r IH]; simpl; intros rest H;
    [discriminate |].
  destruct (has inMST (c_to c)) eqn:E.
  - destruct (pick inMST r) as [[ch' r'] |]; [| discriminate].
    inversion H; subst; clear H.
    destruct (IH r' eq_refl) as [H1 [H2 [H3 H4]]].
    repeat split; auto.
    + intros c' [Hc | Hc]; [now left | right; now apply H3].
    + intros c' [Hc | Hc]; [right; now left |].
      destruct (H4 c' Hc); [now left | right; now right].
  - inversion H; subst; clear H. apply has_false in E.
    repeat split; auto.
    intros c' [Hc | Hc]; [now left | now right].
Qed.

Lemma pick_None (inMST : list string) (l : list candidate) :
  pick inMST l = None -> forall c, In c l -> In (c_to c) inMST.
Proof.
  induction l as [| c r IH]; simpl; intros H c' Hc; [contradiction |].
  destruct (has inMST (c_to c)) eqn:E; [| discriminate].
  destruct Hc as [Hc | Hc].
  - subst. now apply has_In.
  - destruct (pick inMST r) as [[ch r'] |]; [discriminate |]. now apply IH.
Qed.

Lemma fsum_snoc (ws : list number) (w : number) :
  fsum (ws ++ [w]) = add (fsum ws) w.
Proof. unfold fsum. now rewrite fold_left_app. Qed.

Section Walks.
Variable adj : dict (list adjEntry).

Lemma walk_weaken (ok ok' : nat -> Prop) (x y : string) :
  (forall i, ok i -> ok' i) -> walk adj ok x y -> walk adj ok' x y.
Proof.
  intros Hok H. induction H as [u | u e v He Hi _ IH].
  - constructor.
  - econstructor; eauto.
Qed.

Lemma walk_trans (ok : nat -> Prop) (x y z : string) :
  walk adj ok x y -> walk adj ok y z -> walk adj ok x z.
Proof.
  intros H1 H2. induction H1 as [u | u e v He Hi _ IH]; [exact H2 |].
  econstructor; eauto.
Qed.

Lemma walk_snoc (ok : nat -> Prop) (x u : string) (e : adjEntry) :
  walk adj ok x u -> entry_at adj u e -> ok (edgeId e) ->
  walk adj ok x (adj_to e).
Proof.
  intros H He Hi. eapply walk_trans; [exact H |].
  econstructor; eauto. constructor.
Qed.

Lemma walk_sym (ok : nat -> Prop) (x y : string) :
  undirected adj -> walk adj ok x y -> walk adj ok y x.
Proof.
  intros U H. induction H as [u | u e v He Hi _ IH]; [constructor |].
  eapply walk_trans; [exact IH |].
  apply (walk_snoc ok (adj_to e) (adj_to e) (mkAdj u (weight e) (edgeId e)));
    [constructor | now apply U | exact Hi].
Qed.

(** A walk that starts inside a set without outgoing entries stays inside. *)
Lemma walk_inside (s : list string) (x y : string) :
  (forall u e, In u s -> entry_at adj u e -> In (adj_to e) s) ->
  walk adj any_edge x y -> In x s -> In y s.
Proof.
  intros Hs H. induction H as [u | u e v He _ _ IH]; [trivial |].
  intros Hu. apply IH. eapply Hs; eauto.
Qed.

End Walks.

Section Loop.
Variable adj : dict (list adjEntry).
Variable nodes : list string.
Variable start : string.

Hypothesis Hundirected : undirected adj.
Hypothesis Hids : ids_name_edges adj.
Hypothesis Hclosed : closed adj nodes.

Local Abbreviation pinv := (PrimSpec.pinv adj nodes start).

Lemma cand_entry (u : string) (e : adjEntry) :
  mkAdj (c_to (cand_of u e)) (c_weight (cand_of u e))
        (c_edgeId (cand_of u e)) = e.
Proof. destruct e; reflexivity. Qed.

Lemma entry_at_fun (u : string) (es : list adjEntry) (e : adjEntry) :
  get adj u = Own es -> entry_at adj u e -> In e es.
Proof.
  intros G [es' [G' H]]. rewrite G in G'. inversion G'; subst. exact H.
Qed.

(** One turn of the loop keeps the invariant. *)
Lemma pinv_step (a : acc) (chosen : candidate) (rest : list candidate)
      (es : list adjEntry) :
  pinv a ->
  pick (inMST a) (sort (edgeCandidates a)) = Some (chosen, rest) ->
  get adj (c_to chosen) = Own es ->
  let inMST' := set_add (inMST a) (c_to chosen) in
  pinv (mkAcc inMST'
              (rest ++ map (cand_of (c_to chosen))
                           (filter (fun e => negb (has inMST' (adj_to e)))
                                   es))%list
              (chosenEdgeIds a ++ [c_edgeId chosen])%list
              (add (total a) (c_weight chosen))).
Proof.
  intros [Hnd Hsub Hst Hre Hlen Hni Hends Hcomp Hsound [ws [Hws Htot]]] Hp G.
  apply pick_Some in Hp. destruct Hp as [Hout [Hin [Hrest Hall]]].
  apply (proj1 (In_sort _ _)) in Hin.
  destruct (Hsound chosen Hin) as [Hfrom Hentry].
  cbv zeta. rewrite (set_add_new _ _ Hout).
  assert (Hnew : ~ In (c_edgeId chosen) (chosenEdgeIds a)).
  { intros Hi. destruct (Hends _ _ _ Hi Hentry eq_refl) as [_ Hto].
    apply Hout. exact Hto. }
  constructor; cbn [inMST edgeCandidates chosenEdgeIds total].
  - apply NoDup_app; [exact Hnd | repeat constructor; intros [] |].
    intros x Hx [Hx' | []]. subst. contradiction.
  - intros x Hx. apply in_app_or in Hx. destruct Hx as [Hx | [Hx | []]].
    + now apply Hsub.
    + subst. destruct (Hclosed _ _ Hentry) as [_ H]. exact H.
  - apply in_or_app. now left.
  - intros x Hx. apply in_app_or in Hx. destruct Hx as [Hx | [Hx | []]].
    + eapply walk_weaken; [| apply Hre; exact Hx].
      intros i Hi. apply in_or_app. now left.
    + subst x.
      apply (walk_snoc adj _ start (c_from chosen)
                       (mkAdj (c_to chosen) (c_weight chosen)
                              (c_edgeId chosen))).
      * eapply walk_weaken; [| apply Hre; exact Hfrom].
        intros i Hi. apply in_or_app. now left.
      * exact Hentry.
      * apply in_or_app. right. now left.
  - rewrite !length_app. simpl. lia.
  - apply NoDup_app; [exact Hni | repeat constructor; intros [] |].
    intros x Hx [Hx' | []]. subst. contradiction.
  - intros i u e Hi He Hid. apply in_app_or in Hi.
    destruct Hi as [Hi | [Hi | []]].
    + destruct (Hends _ _ _ Hi He Hid). split; apply in_or_app; now left.
    + subst i.
      destruct (Hids _ _ _ _ He Hentry Hid) as [[E1 E2] | [E1 E2]];
        cbn [adj_to] in E1, E2; rewrite E1, E2; split; apply in_or_app;
        first [left; assumption | right; now left].
  - intros u e Hu He Hne. apply in_or_app.
    apply in_app_or in Hu. destruct Hu as [Hu | [Hu | []]].
    + left.
      assert (Hc : In (cand_of u e) (edgeCandidates a)).
      { apply Hcomp; auto. intros H. apply Hne. apply in_or_app. now left. }
      apply (proj2 (In_sort _ _)) in Hc.
      destruct (Hall _ Hc) as [E | Hr]; [| exact Hr].
      exfalso. apply Hne. apply in_or_app. right. left.
      rewrite <- E. reflexivity.
    + right. subst u. apply in_map. apply filter_In. split.
      * exact (entry_at_fun (c_to chosen) es e G He).
      * apply Bool.negb_true_iff. apply has_false. exact Hne.
  - intros c Hc. apply in_app_or in Hc. destruct Hc as [Hc | Hc].
    + apply Hrest in Hc. apply (proj1 (In_sort _ _)) in Hc.
      destruct (Hsound c Hc) as [H1 H2]. split; [| exact H2].
      apply in_or_app. now left.
    + apply in_map_iff in Hc. destruct Hc as [e [Ec He]].
      apply filter_In in He. destruct He as [He _]. subst c.
      rewrite cand_entry. split.
      * apply in_or_app. right. now left.
      * exists es. split; [exact G | exact He].
  - exists (ws ++ [c_weight chosen])%list. split.
    + apply Forall2_app; [exact Hws |]. constructor; [| constructor].
      exists (c_from chosen), (mkAdj (c_to chosen) (c_weight chosen)
                                     (c_edgeId chosen)).
      repeat split. exact Hentry.
    + rewrite fsum_snoc, Htot. reflexivity.
Qed.

Hypothesis Hconnected : connected adj nodes.
Hypothesis Hnodes : NoDup nodes.

Lemma grow_eq (fuel : nat) (a : acc) :
  grow fuel adj nodes a =
  if (List.length (inMST a) <? List.length nodes)%nat
     && negb (match edgeCandidates a with [] => true | _ => false end)
  then
    match fuel with
    | O => OutOfFuel
    | S f =>
        let sorted := sort (edgeCandidates a) in
        match pick (inMST a) sorted with
        | None => Return (mkAcc (inMST a) sorted (chosenEdgeIds a) (total a))
        | Some (chosen, rest) =>
            let inMST' := set_add (inMST a) (c_to chosen) in
            es <- entries adj (c_to chosen) ;;
            let fresh :=
              map (cand_of (c_to chosen))
                  (filter (fun e => negb (has inMST' (adj_to e))) es) in
            grow f adj nodes
                 (mkAcc inMST' (rest ++ fresh)%list
                        (chosenEdgeIds a ++ [c_edgeId chosen])%list
                        (add (total a) (c_weight chosen)))
        end
    end
  else Return a.
Proof. destruct fuel; reflexivity. Qed.

(** When no entry leaves the tree, the tree holds every node. *)
Lemma no_crossing_all (a : acc) :
  pinv a ->
  (forall u e, In u (inMST a) -> entry_at adj u e ->
               In (adj_to e) (inMST a)) ->
  incl nodes (inMST a).
Proof.
  intros Hp Hno y Hy.
  apply (walk_inside adj (inMST a) start y Hno).
  - apply Hconnected; [| exact Hy]. apply (p_sub a Hp). apply (p_start a Hp).
  - apply (p_start a Hp).
Qed.

Lemma In_dec_has (s : list string) (x : string) : In x s \/ ~ In x s.
Proof.
  destruct (has s x) eqn:E; [left; now apply has_In |
                             right; now apply has_false].
Qed.

(** With one unit of fuel per node still outside, the loop returns, and
    its tree holds every node. *)
(** Connected or not: the loop returns, and no entry leaves the tree it
    has grown. *)
Lemma grow_component :
  forall fuel a,
    pinv a ->
    (List.length nodes <= fuel + List.length (inMST a))%nat ->
    exists a', grow fuel adj nodes a = Return a' /\ pinv a' /\
               forall u e, In u (inMST a') -> entry_at adj u e ->
                           In (adj_to e) (inMST a').
Proof.
  assert (Full : forall a, pinv a ->
            (List.length nodes <= List.length (inMST a))%nat ->
            forall u e, In u (inMST a) -> entry_at adj u e ->
                        In (adj_to e) (inMST a)).
  { intros a Hp E u e _ He.
    apply (NoDup_length_incl (p_nodup a Hp) E (p_sub a Hp)).
    now destruct (Hclosed u e He). }
  induction fuel as [| f IH]; intros a Hp Hb; rewrite grow_eq.
  - destruct (List.length (inMST a) <? List.length nodes)%nat eqn:E.
    + apply Nat.ltb_lt in E. lia.
    + exists a. split; [reflexivity |]. split; [exact Hp |].
      apply Nat.ltb_ge in E. now apply Full.
  - destruct (List.length (inMST a) <? List.length nodes)%nat eqn:E;
      cbn [andb].
    2:{ exists a. split; [reflexivity |]. split; [exact Hp |].
        apply Nat.ltb_ge in E. now apply Full. }
    destruct (edgeCandidates a) as [| c0 cs] eqn:Ec; cbn [negb].
    { exists a. split; [reflexivity |]. split; [exact Hp |].
      intros u e Hu He. destruct (In_dec_has (inMST a) (adj_to e)) as [H | H];
        [exact H |].
      pose proof (p_complete a Hp u e Hu He H) as Hc. rewrite Ec in Hc.
      contradiction. }
    rewrite <- Ec. cbv zeta.
    destruct (pick (inMST a) (sort (edgeCandidates a)))
      as [[chosen rest] |] eqn:Pk.
    + assert (Hin : In chosen (edgeCandidates a)).
      { apply pick_Some in Pk. destruct Pk as [_ [H _]].
        now apply (proj1 (In_sort _ _)) in H. }
      destruct (p_sound a Hp chosen Hin) as [Hfrom Hentry].
      destruct (Hundirected _ _ Hentry) as [es [G _]]. cbn [adj_to] in G.
      unfold entries. rewrite G. cbn [bind].
      apply IH.
      * apply pinv_step; assumption.
      * cbn [inMST]. apply pick_Some in Pk. destruct Pk as [Hout _].
        rewrite (set_add_new _ _ Hout), length_app. simpl. lia.
    + eexists. split; [reflexivity |].
      assert (Hp' : pinv (mkAcc (inMST a) (sort (edgeCandidates a))
                                (chosenEdgeIds a) (total a))).
      { destruct Hp as [H1 H2 H3 H4 H5 H6 H7 H8 H9 H10].
        constructor; cbn [inMST edgeCandidates chosenEdgeIds total]; auto.
        - intros u e Hu He Hne. apply (proj2 (In_sort _ _)). now apply H8.
        - intros c Hc. apply (proj1 (In_sort _ _)) in Hc. now apply H9. }
      split; [exact Hp' |]. cbn [inMST].
      intros u e Hu He. destruct (In_dec_has (inMST a) (adj_to e)) as [H | H];
        [exact H |].
      pose proof (p_complete a Hp u e Hu He H) as Hc.
      apply (proj2 (In_sort _ _)) in Hc.
      exact (pick_None _ _ Pk _ Hc).
Qed.

Lemma grow_spec :
  forall fuel a,
    pinv a ->
    (List.length nodes <= fuel + List.length (inMST a))%nat ->
    exists a', grow fuel adj nodes a = Return a' /\ pinv a' /\
               incl nodes (inMST a').
Proof.
  induction fuel as [| f IH]; intros a Hp Hb; rewrite grow_eq.
  - destruct (List.length (inMST a) <? List.length nodes)%nat eqn:E.
    + apply Nat.ltb_lt in E. lia.
    + exists a. split; [reflexivity |]. split; [exact Hp |].
      apply Nat.ltb_ge in E.
      exact (NoDup_length_incl (p_nodup a Hp) E (p_sub a Hp)).
  - destruct (List.length (inMST a) <? List.length nodes)%nat eqn:E;
      cbn [andb].
    2:{ exists a. split; [reflexivity |]. split; [exact Hp |].
        apply Nat.ltb_ge in E.
        exact (NoDup_length_incl (p_nodup a Hp) E (p_sub a Hp)). }
    destruct (edgeCandidates a) as [| c0 cs] eqn:Ec; cbn [negb].
    { exists a. split; [reflexivity |]. split; [exact Hp |].
      apply no_crossing_all; [exact Hp |].
      intros u e Hu He. destruct (In_dec_has (inMST a) (adj_to e)) as [H | H];
        [exact H |].
      pose proof (p_complete a Hp u e Hu He H) as Hc. rewrite Ec in Hc.
      contradiction. }
    rewrite <- Ec. cbv zeta.
    destruct (pick (inMST a) (sort (edgeCandidates a)))
      as [[chosen rest] |] eqn:Pk.
    + assert (Hin : In chosen (edgeCandidates a)).
      { apply pick_Some in Pk. destruct Pk as [_ [H _]].
        now apply (proj1 (In_sort _ _)) in H. }
      destruct (p_sound a Hp chosen Hin) as [Hfrom Hentry].
      destruct (Hundirected _ _ Hentry) as [es [G _]]. cbn [adj_to] in G.
      unfold entries. rewrite G. cbn [bind].
      apply IH.
      * apply pinv_step; assumption.
      * cbn [inMST]. apply pick_Some in Pk. destruct Pk as [Hout _].
        rewrite (set_add_new _ _ Hout), length_app. simpl. lia.
    + eexists. split; [reflexivity |].
      assert (Hp' : pinv (mkAcc (inMST a) (sort (edgeCandidates a))
                                (chosenEdgeIds a) (total a))).
      { destruct Hp as [H1 H2 H3 H4 H5 H6 H7 H8 H9 H10].
        constructor; cbn [inMST edgeCandidates chosenEdgeIds total]; auto.
        - intros u e Hu He Hne. apply (proj2 (In_sort _ _)). now apply H8.
        - intros c Hc. apply (proj1 (In_sort _ _)) in Hc. now apply H9. }
      split; [exact Hp' |].
      apply (no_crossing_all _ Hp'). cbn [inMST].
      intros u e Hu He. destruct (In_dec_has (inMST a) (adj_to e)) as [H | H];
        [exact H |].
      pose proof (p_complete a Hp u e Hu He H) as Hc.
      apply (proj2 (In_sort _ _)) in Hc.
      exact (pick_None _ _ Pk _ Hc).
Qed.

End Loop.

End PrimFacts.

(** ** Prim's algorithm returns a spanning tree *)

Module PrimSpanning.
Import JSString JSNumber JSObject Parser Prim Graph Claims PrimFacts.
Import PrimSpec.

Lemma start_in_nodes (nodes : list string) (first : string)
      (rest : list string) (startNode : option string) :
  nodes = first :: rest ->
  In (match startNode with
      | Some s => if negb (is_empty s) && has nodes s then s else first
      | None => first
      end) nodes.
Proof.
  intros E. destruct startNode as [s |].
  - destruct (negb (is_empty s) && has nodes s) eqn:H.
    + apply andb_prop in H. destruct H as [_ H]. now apply has_In.
    + subst. now left.
  - subst. now left.
Qed.

Lemma primMST_eq (adj : dict (list adjEntry)) (nodes : list string)
      (first : string) (rest : list string) (startNode : option string) :
  nodes = first :: rest ->
  primMST adj nodes startNode =
  (let start :=
     match startNode with
     | Some s => if negb (is_empty s) && has nodes s then s else first
     | None => first
     end in
   es <- entries adj start ;;
   a <- grow (List.length nodes) adj nodes
             (mkAcc [start] (map (cand_of start) es) [] pzero) ;;
   Return (mkResult (total a) (chosenEdgeIds a))).
Proof. intros E. subst. reflexivity. Qed.

(** The run of [primMST] on a connected undirected model: the loop returns
    with its invariant and with every node in the tree. *)
Lemma primMST_run (adj : dict (list adjEntry)) (nodes : list string)
      (startNode : option string) :
  nodes <> [] ->
  undirected_model adj nodes ->
  connected adj nodes ->
  own_names adj nodes ->
  exists start es a,
    primMST adj nodes startNode
    = Return (mkResult (total a) (chosenEdgeIds a)) /\
    grow (List.length nodes) adj nodes
         (mkAcc [start] (map (cand_of start) es) [] pzero) = Return a /\
    pinv adj nodes start (mkAcc [start] (map (cand_of start) es) [] pzero) /\
    pinv adj nodes start a /\ incl nodes (inMST a).
Proof.
  intros Hne [Hnd Hmir Hids Hcl Hwt] Hcon Hown.
  destruct nodes as [| first rest] eqn:En; [congruence |].
  rewrite <- En in *. rewrite (primMST_eq adj nodes first rest _ En).
  cbv zeta.
  set (start := match startNode with
                | Some s => if negb (is_empty s) && has nodes s
                            then s else first
                | None => first
                end).
  assert (Hst : In start nodes) by (apply start_in_nodes with rest; exact En).
  assert (Hes : exists es, entries adj start = Return es /\
                           forall e, entry_at adj start e <-> In e es).
  { unfold entries. specialize (Hown start Hst).
    destruct (get adj start) as [es | |] eqn:G; [| congruence |].
    - exists es. split; [reflexivity |]. intros e. split.
      + intros [es' [G' H]]. rewrite G in G'. inversion G'; now subst.
      + intros H. now exists es.
    - exists []. split; [reflexivity |]. intros e. split.
      + intros [es' [G' _]]. rewrite G in G'. discriminate.
      + intros []. }
  destruct Hes as [es [Hent Hes]]. rewrite Hent. cbn [bind].
  assert (Hp : pinv adj nodes start
                    (mkAcc [start] (map (cand_of start) es) [] pzero)).
  { constructor; cbn [inMST edgeCandidates chosenEdgeIds total].
    - repeat constructor. intros [].
    - intros x [Hx | []]. now subst.
    - now left.
    - intros x [Hx | []]. subst. constructor.
    - reflexivity.
    - constructor.
    - intros i u e [].
    - intros u e [Hu | []] He _. subst u. apply in_map. now apply Hes.
    - intros c Hc. apply in_map_iff in Hc. destruct Hc as [e [Ec He]].
      subst c. rewrite cand_entry. split; [now left | now apply Hes].
    - exists []. split; [constructor | reflexivity]. }
  destruct (grow_spec adj nodes start Hmir Hids Hcl Hcon
                      (List.length nodes) _ Hp) as [a [Hg [Hpa Hall]]];
    [cbn [inMST]; lia |].
  exists start, es, a. rewrite Hg. cbn [bind]. auto.
Qed.

(** The run of [primMST] on an undirected model, connected or not: the
    loop returns with its invariant, and no entry leaves the tree. *)
Lemma primMST_component (adj : dict (list adjEntry)) (nodes : list string)
      (startNode : option string) :
  nodes <> [] ->
  undirected_model adj nodes ->
  own_names adj nodes ->
  exists start a,
    primMST adj nodes startNode
    = Return (mkResult (total a) (chosenEdgeIds a)) /\
    start = match startNode with
            | Some s => if negb (is_empty s) && has nodes s
                        then s else hd ""%string nodes
            | None => hd ""%string nodes
            end /\
    pinv adj nodes start a /\
    forall u e, In u (inMST a) -> entry_at adj u e ->
                In (adj_to e) (inMST a).
Proof.
  intros Hne [Hnd Hmir Hids Hcl Hwt] Hown.
  destruct nodes as [| first rest] eqn:En; [congruence |].
  rewrite <- En in *. rewrite (primMST_eq adj nodes first rest _ En).
  cbv zeta.
  set (start := match startNode with
                | Some s => if negb (is_empty s) && has nodes s
                            then s else first
                | None => first
                end).
  assert (Hst : In start nodes) by (apply start_in_nodes with rest; exact En).
  assert (Hes : exists es, entries adj start = Return es /\
                           forall e, entry_at adj start e <-> In e es).
  { unfold entries. specialize (Hown start Hst).
    destruct (get adj start) as [es | |] eqn:G; [| congruence |].
    - exists es. split; [reflexivity |]. intros e. split.
      + intros [es' [G' H]]. rewrite G in G'. inversion G'; now subst.
      + intros H. now exists es.
    - exists []. split; [reflexivity |]. intros e. split.
      + intros [es' [G' _]]. rewrite G in G'. discriminate.
      + intros []. }
  destruct Hes as [es [Hent Hes]]. rewrite Hent. cbn [bind].
  assert (Hp : pinv adj nodes start
                    (mkAcc [start] (map (cand_of start) es) [] pzero)).
  { constructor; cbn [inMST edgeCandidates chosenEdgeIds total].
    - repeat constructor. intros [].
    - intros x [Hx | []]. now subst.
    - now left.
    - intros x [Hx | []]. subst. constructor.
    - reflexivity.
    - constructor.
    - intros i u e [].
    - intros u e [Hu | []] He _. subst u. apply in_map. now apply Hes.
    - intros c Hc. apply in_map_iff in Hc. destruct Hc as [e [Ec He]].
      subst c. rewrite cand_entry. split; [now left | now apply Hes].
    - exists []. split; [constructor | reflexivity]. }
  destruct (grow_component adj nodes start Hmir Hids Hcl
                           (List.length nodes) _ Hp) as [a [Hg [Hpa Hall]]];
    [cbn [inMST]; lia |].
  exists start, a. rewrite Hg. cbn [bind].
  split; [reflexivity |]. split; [| split; assumption].
  unfold start. rewrite En. reflexivity.
Qed.

Lemma primMST_spanning (adj : dict (list adjEntry)) (nodes : list string)
      (startNode : option string) :
  nodes <> [] ->
  undirected_model adj nodes ->
  connected adj nodes ->
  own_names adj nodes ->
  exists r ws,
    primMST adj nodes startNode = Return r /\
    spanning_tree adj nodes (edgeIds r) /\
    weights_of adj (edgeIds r) ws /\
    totalWeight r = fsum ws.
Proof.
  intros Hne U Hcon Hown.
  destruct (primMST_run adj nodes startNode Hne U Hcon Hown)
    as [start [es [a [Hr [_ [_ [Hpa Hall]]]]]]].
  destruct U as [Hnd Hmir Hids Hcl Hwt].
  destruct Hpa as [P1 P2 P3 P4 P5 P6 P7 P8 P9 P10].
  destruct P10 as [ws [Hws Htot]].
  exists (mkResult (total a) (chosenEdgeIds a)), ws.
  split; [exact Hr |]. cbn [edgeIds totalWeight].
  split; [| split; assumption].
  split; [exact P6 |]. split.
  - rewrite P5. apply Nat.le_antisymm.
    + now apply NoDup_incl_length.
    + now apply NoDup_incl_length.
  - intros x y Hx Hy. apply walk_trans with start.
    + apply walk_sym; [exact Hmir |]. apply P4. now apply Hall.
    + apply P4. now apply Hall.
Qed.

End PrimSpanning.

(** ** Models the parser returns, as graphs *)

Module ModelFacts.
Import JSString JSNumber JSObject Parser Graph Claims DictFacts.

Lemma model_nodes (o : options) (st : state) :
  map node_id (nodesArr (model_of o st)) = nodesSet st.
Proof.
  unfold model_of. cbn [nodesArr]. rewrite map_map. apply map_id.
Qed.

Lemma parsed_undirected_model (rawText : string) (o : options) (m : model) :
  parseGraphInput rawText o = Return m ->
  directed o = false ->
  undirected_model (m_adjacency m) (map node_id (nodesArr m)).
Proof.
  unfold parseGraphInput. intros H Hd.
  apply bind_Return in H. destruct H as [st [Hs H]].
  inversion H; subst; clear H. rewrite model_nodes.
  destruct (ParserFacts.parse_state_ginv _ _ _ Hs) as [G1 G2 G3 G4 G5 G6].
  constructor; cbn [model_of m_adjacency]; auto.
Qed.

(** Whatever the options, the node ids of a parsed model are distinct and
    no entry leaves them. *)
Lemma parsed_graph (rawText : string) (o : options) (m : model) :
  parseGraphInput rawText o = Return m ->
  NoDup (map node_id (nodesArr m)) /\
  closed (m_adjacency m) (map node_id (nodesArr m)).
Proof.
  unfold parseGraphInput. intros H.
  apply bind_Return in H. destruct H as [st [Hs H]].
  inversion H; subst; clear H. rewrite model_nodes.
  destruct (ParserFacts.parse_state_ginv _ _ _ Hs) as [G1 G2 _ _ _ _].
  split; assumption.
Qed.

Lemma parsed_finite_weights (rawText : string) (o : options) (m : model) :
  parseGraphInput rawText o = Return m -> finite_weights (m_adjacency m).
Proof.
  unfold parseGraphInput. intros H.
  apply bind_Return in H. destruct H as [st [Hs H]].
  inversion H; subst; clear H.
  destruct (ParserFacts.parse_state_inv _ _ _ Hs) as [_ _ Hfin].
  intros u e [es [G He]]. apply (Hfin u es e); [| exact He].
  now apply get_Own_In.
Qed.

End ModelFacts.

(** ** The path graph D - C - B - A *)

Module PathGraph.
Import JSString JSNumber JSObject Parser Graph Claims PrimFacts ModelFacts.

(** Take the first, second, ... entry of the adjacency list of the node a
    walk stands on. *)
Ltac first_entry :=
  eapply walk_step;
  [eexists; split; [reflexivity | left; reflexivity] | exact I | cbn [adj_to]].
Ltac second_entry :=
  eapply walk_step;
  [eexists; split; [reflexivity | right; left; reflexivity]
  | exact I | cbn [adj_to]].

Lemma facts :
  exists m,
    parseGraphInput path_text path_opts = Return m /\
    map node_id (nodesArr m) <> [] /\
    undirected_model (m_adjacency m) (map node_id (nodesArr m)) /\
    connected (m_adjacency m) (map node_id (nodesArr m)) /\
    finite_weights (m_adjacency m) /\
    own_names (m_adjacency m) (map node_id (nodesArr m)) /\
    Prim.primMST (m_adjacency m) (map node_id (nodesArr m)) (Some "A")
    = Return (Prim.mkResult (of_string "0.6000000000000001")
                            [2%nat; 1%nat; 0%nat]) /\
    Prim.primMST (m_adjacency m) (map node_id (nodesArr m)) (Some "D")
    = Return (Prim.mkResult (of_string "0.6") [0%nat; 1%nat; 2%nat]).
Proof.
  exists_parsed.
  match goal with
  | |- context [m_adjacency ?x] => set (m := x)
  end.
  assert (Hp : parseGraphInput path_text path_opts = Return m)
    by (vm_compute; reflexivity).
  assert (U : undirected_model (m_adjacency m) (map node_id (nodesArr m)))
    by (apply (parsed_undirected_model _ _ _ Hp); reflexivity).
  split; [discriminate |]. split; [exact U |].
  split; [| split; [exact (parsed_finite_weights _ _ _ Hp) |
                    split; [| split; vm_compute; reflexivity]]].
  - assert (W : forall y, In y (map node_id (nodesArr m)) ->
                          walk (m_adjacency m) any_edge "D" y).
    { intros y Hy. cbn in Hy.
      destruct Hy as [Hy | [Hy | [Hy | [Hy | []]]]]; subst y.
      - constructor.
      - first_entry. constructor.
      - first_entry. second_entry. constructor.
      - first_entry. second_entry. second_entry. constructor. }
    intros x y Hx Hy. apply walk_trans with "D".
    + apply walk_sym; [apply (um_mirror _ _ U) | now apply W].
    + now apply W.
  - intros u Hu. cbn in Hu.
    destruct Hu as [Hu | [Hu | [Hu | [Hu | []]]]]; subst u; vm_compute;
      discriminate.
Qed.

End PathGraph.

Import Graph Claims.

(** C2, as the specification states it, fails: on the path graph
    D - C - B - A with weights 0.3, 0.2, 0.1 the total returned from the
    start A, (0.1 + 0.2) + 0.3 = 0.6000000000000001, is above the sum
    (0.3 + 0.2) + 0.1 = 0.6 of the same spanning tree, which is also the
    total returned from the start D. *)
Lemma C2_total_not_minimal : ~ prim_returns_minimum.
Proof.
  intros H.
  destruct PathGraph.facts as [m [_ [Hne [U [Hc [Hf [Hown [HA HD]]]]]]]].
  destruct (H _ _ (Some "A") Hne U Hc Hf) as [r [ws [Hr [_ [_ [_ Hmin]]]]]].
  rewrite HA in Hr. inversion Hr; subst r; clear Hr.
  destruct (PrimSpanning.primMST_spanning _ _ (Some "D") Hne U Hc Hown)
    as [r' [ws' [Hr' [Ht [Hw Hs]]]]].
  rewrite HD in Hr'. inversion Hr'; subst r'; clear Hr'.
  specialize (Hmin _ _ Ht Hw). rewrite <- Hs in Hmin.
  vm_compute in Hmin. discriminate Hmin.
Qed.

(** ** Arithmetic on doubles that hold small integers is exact *)

Module ExactFacts.
Import JSNumber Exact.

Lemma digits2_size (p : positive) : digits2_pos p = Pos.size p.
Proof. induction p; simpl; congruence. Qed.

Lemma digits2_log2 (p : positive) :
  Zpos (digits2_pos p) = Z.log2 (Zpos p) + 1.
Proof.
  rewrite digits2_size. destruct p; simpl; try lia.
Qed.

Lemma iter_pos_iter {A : Type} (f : A -> A) (p : positive) :
  forall x, iter_pos f p x = Pos.iter f x p.
Proof.
  induction p as [p IH | p IH |]; intros x; simpl.
  - rewrite !IH, !Pos.iter_swap. reflexivity.
  - rewrite !IH. reflexivity.
  - reflexivity.
Qed.

Lemma shr_1_even (m : Z) :
  0 <= m ->
  shr_1 {| shr_m := 2 * m; shr_r := false; shr_s := false |}
  = {| shr_m := m; shr_r := false; shr_s := false |}.
Proof.
  intros H. destruct m as [| p | p]; [reflexivity | reflexivity | lia].
Qed.

(** Shifting out zero bits loses nothing. *)
Lemma shr_exact (t : positive) :
  forall m, 0 <= m ->
    iter_pos shr_1 t
             {| shr_m := m * 2 ^ Zpos t; shr_r := false; shr_s := false |}
    = {| shr_m := m; shr_r := false; shr_s := false |}.
Proof.
  intros m Hm. rewrite iter_pos_iter. revert m Hm.
  induction t as [| t IH] using Pos.peano_ind; intros m Hm.
  - change (shr_1 {| shr_m := m * 2 ^ 1; shr_r := false; shr_s := false |}
            = {| shr_m := m; shr_r := false; shr_s := false |}).
    replace (m * 2 ^ 1) with (2 * m) by lia. now apply shr_1_even.
  - rewrite Pos.iter_succ_r.
    replace (m * 2 ^ Zpos (Pos.succ t)) with (2 * (m * 2 ^ Zpos t)).
    + rewrite shr_1_even by (apply Z.mul_nonneg_nonneg; lia). now apply IH.
    + rewrite Pos2Z.inj_succ, Z.pow_succ_r by lia. lia.
Qed.

Lemma iter_xO (p k : positive) :
  Zpos (Pos.iter xO p k) = Zpos p * 2 ^ Zpos k.
Proof.
  change (Pos.iter xO p k) with (shift_pos k p).
  rewrite shift_pos_correct, Z.pow_pos_fold. lia.
Qed.

Lemma log2_shift (p : positive) (k : Z) :
  0 <= k -> Z.log2 (Zpos p * 2 ^ k) = Z.log2 (Zpos p) + k.
Proof. intros H. rewrite Z.log2_mul_pow2; lia. Qed.

Lemma to_pos_shift (p : positive) (k : Z) :
  0 <= k -> Zpos (Z.to_pos (Zpos p * 2 ^ k)) = Zpos p * 2 ^ k.
Proof.
  intros H. apply Z2Pos.id. apply Z.mul_pos_pos; [lia |].
  apply Z.pow_pos_nonneg; lia.
Qed.

Lemma fexp_normal (d : Z) : -1021 <= d -> fexp prec emax d = d - 53.
Proof. intros H. unfold fexp, emin, prec, emax. lia. Qed.

(** A 53-bit mantissa with an exponent in range is left as it is. *)
Lemma round_aux_stable (m : positive) (e : Z) :
  Zpos (digits2_pos m) = 53 -> -1074 <= e <= 971 ->
  binary_round_aux prec emax false (Zpos m) e loc_Exact
  = S754_finite false m e.
Proof.
  intros Hd He.
  assert (S : shr_fexp prec emax (Zpos m) e loc_Exact
              = ({| shr_m := Zpos m; shr_r := false; shr_s := false |}, e)).
  { unfold shr_fexp. cbn [Zdigits2 shr_record_of_loc]. rewrite Hd.
    rewrite fexp_normal by lia.
    replace (53 + e - 53 - e) with 0 by lia. reflexivity. }
  unfold binary_round_aux. rewrite S.
  cbn [shr_m loc_of_shr_record round_nearest_even]. rewrite S. cbn [shr_m].
  unfold emax, prec. replace (e <=? 1024 - 53) with true; [reflexivity |].
  symmetry. apply Z.leb_le. lia.
Qed.

Lemma shr_fexp_stable (m : positive) (e : Z) :
  Zpos (digits2_pos m) = 53 -> -1074 <= e <= 971 ->
  shr_fexp prec emax (Zpos m) e loc_Exact
  = ({| shr_m := Zpos m; shr_r := false; shr_s := false |}, e).
Proof.
  intros Hd He. unfold shr_fexp. cbn [Zdigits2 shr_record_of_loc].
  rewrite Hd, fexp_normal by lia.
  replace (53 + e - 53 - e) with 0 by lia. reflexivity.
Qed.

Lemma log2_bounds (c : positive) :
  Zpos c < 2 ^ 53 -> 0 <= Z.log2 (Zpos c) < 53.
Proof.
  intros H. split; [apply Z.log2_nonneg |].
  apply Z.log2_lt_pow2; lia.
Qed.

Lemma canon_pos (c : positive) (mz : positive) :
  Zpos mz = Zpos c * 2 ^ (53 - (Z.log2 (Zpos c) + 1)) ->
  S754_finite false mz (Z.log2 (Zpos c) + 1 - 53) = canon (Zpos c).
Proof.
  intros H. unfold canon. rewrite <- H, Pos2Z.id. reflexivity.
Qed.

(** Rounding the integer [c], given as [c * 2 ^ k] with exponent [- k],
    yields its normal form. *)
Lemma binary_round_exact (c : positive) (k : Z) :
  0 <= k -> Zpos c < 2 ^ 53 ->
  binary_round prec emax false (Z.to_pos (Zpos c * 2 ^ k)) (- k)
  = canon (Zpos c).
Proof.
  intros Hk Hc. pose proof (log2_bounds c Hc) as Hl.
  set (M := Z.to_pos (Zpos c * 2 ^ k)).
  assert (HM : Zpos M = Zpos c * 2 ^ k) by (apply to_pos_shift; exact Hk).
  assert (HdM : Zpos (digits2_pos M) = Z.log2 (Zpos c) + 1 + k).
  { rewrite digits2_log2, HM, log2_shift by exact Hk. lia. }
  set (dc := Z.log2 (Zpos c) + 1) in *.
  unfold binary_round. rewrite HdM.
  replace (dc + k + - k) with dc by lia.
  rewrite fexp_normal by lia.
  unfold shl_align.
  destruct (dc - 53 - - k) as [| s | s] eqn:Et.
  - rewrite round_aux_stable by lia.
    replace (- k) with (dc - 53) by lia. apply canon_pos.
    rewrite HM. f_equal. f_equal. fold dc. lia.
  - (* the mantissa is too long by [s] bits, all zero *)
    unfold binary_round_aux.
    assert (S1 : shr_fexp prec emax (Zpos M) (- k) loc_Exact
                 = ({| shr_m := Zpos c * 2 ^ (53 - dc);
                       shr_r := false; shr_s := false |}, dc - 53)).
    { unfold shr_fexp. cbn [Zdigits2 shr_record_of_loc]. rewrite HdM.
      replace (dc + k + - k) with dc by lia. rewrite fexp_normal by lia.
      rewrite Et. unfold shr. f_equal; [| lia].
      rewrite HM.
      replace (Zpos c * 2 ^ k)
        with (Zpos c * 2 ^ (53 - dc) * 2 ^ Zpos s).
      - apply shr_exact. apply Z.mul_nonneg_nonneg; [lia |].
        apply Z.pow_nonneg. lia.
      - rewrite <- Z.mul_assoc, <- Z.pow_add_r by lia. f_equal. f_equal. lia. }
    rewrite S1. cbn [shr_m loc_of_shr_record round_nearest_even].
    rewrite <- (to_pos_shift c (53 - dc)) by lia.
    rewrite shr_fexp_stable.
    + cbn [shr_m]. unfold emax, prec.
      replace (dc - 53 <=? 1024 - 53) with true
        by (symmetry; apply Z.leb_le; lia).
      apply canon_pos. fold dc. apply to_pos_shift. lia.
    + rewrite digits2_log2, to_pos_shift, log2_shift by lia. fold dc. lia.
    + lia.
  - rewrite round_aux_stable.
    + apply canon_pos. fold dc. rewrite iter_xO, HM.
      rewrite <- Z.mul_assoc, <- Z.pow_add_r by lia. f_equal. f_equal. lia.
    + rewrite digits2_log2, iter_xO, HM.
      rewrite <- Z.mul_assoc, <- Z.pow_add_r by lia.
      rewrite log2_shift by lia. fold dc. lia.
    + lia.
Qed.

Lemma of_Z_canon (n : Z) : 0 <= n < 2 ^ 53 -> of_Z n = canon n.
Proof.
  intros H. destruct n as [| p | p]; [reflexivity | | lia].
  unfold of_Z, binary_normalize.
  pose proof (binary_round_exact p 0 ltac:(lia) ltac:(lia)) as E.
  replace (Z.to_pos (Zpos p * 2 ^ 0)) with p in E; [exact E |].
  rewrite Z.pow_0_r, Z.mul_1_r. reflexivity.
Qed.

Lemma canon_mantissa (p : positive) :
  Zpos p < 2 ^ 53 ->
  exists m, canon (Zpos p) = S754_finite false m (Z.log2 (Zpos p) + 1 - 53) /\
            Zpos m = Zpos p * 2 ^ (53 - (Z.log2 (Zpos p) + 1)).
Proof.
  intros H. pose proof (log2_bounds p H).
  eexists. split; [reflexivity |]. apply to_pos_shift. lia.
Qed.

(** A normal mantissa of the integer [p], aligned to a lower exponent. *)
Lemma aligned (p m : positive) (e ez : Z) :
  Zpos m = Zpos p * 2 ^ (- e) -> ez <= e <= 0 ->
  Zpos (fst (shl_align m e ez)) = Zpos p * 2 ^ (- ez).
Proof.
  intros Hm He. unfold shl_align.
  destruct (ez - e) as [| d | d] eqn:Ed; cbn [fst].
  - rewrite Hm. f_equal. f_equal. lia.
  - lia.
  - rewrite iter_xO, Hm, <- Z.mul_assoc, <- Z.pow_add_r by lia.
    f_equal. f_equal. lia.
Qed.

Theorem add_exact (a b : Z) :
  0 <= a -> 0 <= b -> a + b < 2 ^ 53 ->
  add (of_Z a) (of_Z b) = of_Z (a + b).
Proof.
  intros Ha Hb Hab. rewrite !of_Z_canon by lia.
  destruct a as [| pa | pa]; [| | lia]; destruct b as [| pb | pb];
    try lia; try reflexivity.
  destruct (canon_mantissa pa ltac:(lia)) as [ma [Ea Ma]].
  destruct (canon_mantissa pb ltac:(lia)) as [mb [Eb Mb]].
  pose proof (log2_bounds pa ltac:(lia)) as La.
  pose proof (log2_bounds pb ltac:(lia)) as Lb.
  rewrite Ea, Eb. unfold add, SFadd. cbn [cond_Zopp].
  set (ea := Z.log2 (Zpos pa) + 1 - 53) in *.
  set (eb := Z.log2 (Zpos pb) + 1 - 53) in *.
  set (ez := Z.min ea eb).
  rewrite (aligned pa ma ea ez), (aligned pb mb eb ez);
    try (unfold ez; lia);
    try (rewrite Ma || rewrite Mb; f_equal; f_equal; unfold ea, eb; lia).
  replace (Zpos pa * 2 ^ (- ez) + Zpos pb * 2 ^ (- ez))
    with (Zpos (Z.to_pos (Zpos (pa + pb) * 2 ^ (- ez)))).
  - cbn [binary_normalize].
    replace ez with (- (- ez)) at 2 by lia.
    apply binary_round_exact; [unfold ez; lia | exact Hab].
  - rewrite to_pos_shift by (unfold ez; lia). rewrite Pos2Z.inj_add. lia.
Qed.

Theorem compare_exact (a b : Z) :
  0 <= a < 2 ^ 53 -> 0 <= b < 2 ^ 53 ->
  SFcompare (of_Z a) (of_Z b) = Some (a ?= b).
Proof.
  intros Ha Hb. rewrite !of_Z_canon by lia.
  destruct a as [| pa | pa]; [| | lia]; destruct b as [| pb | pb];
    try lia; try reflexivity.
  destruct (canon_mantissa pa ltac:(lia)) as [ma [Ea Ma]].
  destruct (canon_mantissa pb ltac:(lia)) as [mb [Eb Mb]].
  pose proof (log2_bounds pa ltac:(lia)) as La.
  pose proof (log2_bounds pb ltac:(lia)) as Lb.
  pose proof (Z.log2_spec (Zpos pa) ltac:(lia)) as Sa.
  pose proof (Z.log2_spec (Zpos pb) ltac:(lia)) as Sb.
  rewrite Ea, Eb. cbn [SFcompare]. f_equal.
  destruct (Z.compare_spec (Z.log2 (Zpos pa) + 1 - 53)
                           (Z.log2 (Zpos pb) + 1 - 53)) as [E | E | E].
  - rewrite Pos.compare_cont_spec. cbn [Pos.switch_Eq].
    change (Pos.compare ma mb) with (Z.compare (Zpos ma) (Zpos mb)).
    rewrite Ma, Mb.
    replace (Z.log2 (Zpos pb)) with (Z.log2 (Zpos pa)) by lia.
    rewrite <- Zmult_compare_compat_r
      by (apply Z.lt_gt; apply Z.pow_pos_nonneg; lia).
    destruct (Zpos pa ?= Zpos pb); reflexivity.
  - symmetry. apply Z.compare_lt_iff.
    apply Z.lt_le_trans with (2 ^ Z.succ (Z.log2 (Zpos pa))); [lia |].
    apply Z.le_trans with (2 ^ Z.log2 (Zpos pb)); [| lia].
    apply Z.pow_le_mono_r; lia.
  - symmetry. apply Z.compare_gt_iff.
    apply Z.lt_le_trans with (2 ^ Z.succ (Z.log2 (Zpos pb))); [lia |].
    apply Z.le_trans with (2 ^ Z.log2 (Zpos pa)); [| lia].
    apply Z.pow_le_mono_r; lia.
Qed.

Lemma lt_exact (a b : Z) :
  0 <= a < 2 ^ 53 -> 0 <= b < 2 ^ 53 -> lt (of_Z a) (of_Z b) = (a <? b).
Proof.
  intros Ha Hb. unfold lt, SFltb. rewrite compare_exact by assumption.
  unfold Z.ltb. destruct (a ?= b); reflexivity.
Qed.

Lemma le_exact (a b : Z) :
  0 <= a < 2 ^ 53 -> 0 <= b < 2 ^ 53 -> le (of_Z a) (of_Z b) = (a <=? b).
Proof.
  intros Ha Hb. unfold le, SFleb. rewrite compare_exact by assumption.
  unfold Z.leb. destruct (a ?= b); reflexivity.
Qed.

Lemma gt_exact (a b : Z) :
  0 <= a < 2 ^ 53 -> 0 <= b < 2 ^ 53 -> gt (of_Z a) (of_Z b) = (b <? a).
Proof. intros Ha Hb. unfold gt. now apply lt_exact. Qed.

Lemma finite_exact (n : Z) : 0 <= n < 2 ^ 53 -> isFinite (of_Z n) = true.
Proof.
  intros H. rewrite of_Z_canon by exact H.
  destruct n; reflexivity.
Qed.

Lemma lt_Infinity (n : Z) :
  0 <= n < 2 ^ 53 -> lt (of_Z n) Infinity = true.
Proof.
  intros H. rewrite of_Z_canon by exact H. destruct n; reflexivity.
Qed.

Lemma gt_Infinity (n : Z) :
  0 <= n < 2 ^ 53 -> gt (of_Z n) Infinity = false.
Proof.
  intros H. rewrite of_Z_canon by exact H. destruct n; reflexivity.
Qed.

(** ** Numbers that hold integers *)

Lemma ival_of_Z (n : Z) : 0 <= n < 2 ^ 53 -> ival (of_Z n) = n.
Proof.
  intros H. rewrite of_Z_canon by exact H.
  destruct n as [| p | p]; [reflexivity | | lia].
  destruct (canon_mantissa p ltac:(lia)) as [m [E M]].
  pose proof (log2_bounds p ltac:(lia)) as L.
  rewrite E. unfold ival.
  destruct (Z.leb_spec 0 (Z.log2 (Zpos p) + 1 - 53)) as [H0 | H0].
  - rewrite M. replace (53 - (Z.log2 (Zpos p) + 1)) with 0 by lia.
    replace (Z.log2 (Zpos p) + 1 - 53) with 0 by lia. lia.
  - rewrite M.
    replace (- (Z.log2 (Zpos p) + 1 - 53)) with (53 - (Z.log2 (Zpos p) + 1))
      by lia.
    apply Z.div_mul. apply Z.pow_nonzero; lia.
Qed.

Lemma exact_of_Z (n : Z) : 0 <= n < 2 ^ 53 -> exact (of_Z n).
Proof.
  intros H. unfold exact, holds. rewrite ival_of_Z by exact H. now split.
Qed.

Lemma exact_range (x : number) : exact x -> 0 <= ival x < 2 ^ 53.
Proof. intros [H _]. exact H. Qed.

Lemma exact_eq (x : number) : exact x -> x = of_Z (ival x).
Proof. intros [_ H]. exact H. Qed.

Lemma exact_finite (x : number) : exact x -> isFinite x = true.
Proof. intros [H E]. rewrite E. now apply finite_exact. Qed.

Lemma exact_not_Infinity : ~ exact Infinity.
Proof. intros [_ H]. discriminate H. Qed.

Lemma exact_lt (x y : number) :
  exact x -> exact y -> lt x y = (ival x <? ival y).
Proof.
  intros [Hx Ex] [Hy Ey]. rewrite Ex at 1. rewrite Ey at 1.
  now apply lt_exact.
Qed.

Lemma exact_le (x y : number) :
  exact x -> exact y -> le x y = (ival x <=? ival y).
Proof.
  intros [Hx Ex] [Hy Ey]. rewrite Ex at 1. rewrite Ey at 1.
  now apply le_exact.
Qed.

Lemma exact_gt (x y : number) :
  exact x -> exact y -> gt x y = (ival y <? ival x).
Proof. intros Hx Hy. unfold gt. now apply exact_lt. Qed.

Lemma exact_add (x y : number) :
  exact x -> exact y -> ival x + ival y < 2 ^ 53 ->
  add x y = of_Z (ival x + ival y).
Proof.
  intros [Hx Ex] [Hy Ey] H. rewrite Ex at 1. rewrite Ey at 1.
  apply add_exact; lia.
Qed.

Lemma exact_lt_Infinity (x : number) : exact x -> lt x Infinity = true.
Proof. intros [H E]. rewrite E. now apply lt_Infinity. Qed.

(** Rounding keeps the sign: nothing negative is above zero. *)
Lemma round_negative (m : positive) (e : Z) :
  lt pzero (binary_round prec emax true m e) = false.
Proof.
  unfold binary_round.
  destruct (shl_align m e (fexp prec emax (Zpos (digits2_pos m) + e)))
    as [mz ez].
  unfold binary_round_aux.
  destruct (shr_fexp prec emax (Zpos mz) ez loc_Exact) as [r1 e1].
  destruct (shr_fexp prec emax
                     (round_nearest_even (shr_m r1) (loc_of_shr_record r1))
                     e1 loc_Exact) as [r2 e2].
  destruct (shr_m r2); [reflexivity | | reflexivity].
  destruct (e2 <=? emax - prec); reflexivity.
Qed.

(** The sign of a difference of two integers is the sign of the exact
    difference. *)
Theorem sub_sign (a b : Z) :
  0 <= a < 2 ^ 53 -> 0 <= b < 2 ^ 53 ->
  lt pzero (sub (of_Z a) (of_Z b)) = (b <? a).
Proof.
  intros Ha Hb. rewrite !of_Z_canon by lia.
  destruct a as [| pa | pa]; [| | lia]; destruct b as [| pb | pb];
    try lia; try reflexivity.
  destruct (canon_mantissa pa ltac:(lia)) as [ma [Ea Ma]].
  destruct (canon_mantissa pb ltac:(lia)) as [mb [Eb Mb]].
  pose proof (log2_bounds pa ltac:(lia)) as La.
  pose proof (log2_bounds pb ltac:(lia)) as Lb.
  rewrite Ea, Eb. unfold sub, SFsub. cbn [cond_Zopp].
  set (ea := Z.log2 (Zpos pa) + 1 - 53) in *.
  set (eb := Z.log2 (Zpos pb) + 1 - 53) in *.
  set (ez := Z.min ea eb).
  rewrite (aligned pa ma ea ez), (aligned pb mb eb ez);
    try (unfold ez; lia);
    try (rewrite Ma || rewrite Mb; f_equal; f_equal; unfold ea, eb; lia).
  assert (Hp : 0 < 2 ^ (- ez)) by (apply Z.pow_pos_nonneg; unfold ez; lia).
  destruct (Z.compare_spec (Zpos pa) (Zpos pb)) as [E | E | E].
  - rewrite E, Z.sub_diag, Z.ltb_irrefl. reflexivity.
  - replace (Zpos pb <? Zpos pa) with false by (symmetry; apply Z.ltb_ge; lia).
    destruct (Zpos pa * 2 ^ (- ez) - Zpos pb * 2 ^ (- ez)) as [| d | d] eqn:D;
      [nia | nia |].
    cbn [binary_normalize]. apply round_negative.
  - replace (Zpos pb <? Zpos pa) with true by (symmetry; apply Z.ltb_lt; lia).
    assert (Hc : exists c, Zpos c = Zpos pa - Zpos pb).
    { exists (Z.to_pos (Zpos pa - Zpos pb)). rewrite Z2Pos.id; lia. }
    destruct Hc as [c Hc].
    replace (Zpos pa * 2 ^ (- ez) - Zpos pb * 2 ^ (- ez))
      with (Zpos (Z.to_pos (Zpos c * 2 ^ (- ez)))).
    + cbn [binary_normalize].
      replace ez with (- (- ez)) at 2 by lia.
      rewrite binary_round_exact; [reflexivity | unfold ez; lia | lia].
    + rewrite to_pos_shift by (unfold ez; lia). rewrite Hc. lia.
Qed.

Lemma shr_1_m (r : shr_record) :
  0 <= shr_m r -> shr_m (shr_1 r) = Z.div2 (shr_m r).
Proof.
  destruct r as [m rr s]. cbn [shr_m]. intros H.
  destruct m as [| p | p]; [reflexivity | destruct p; reflexivity | lia].
Qed.

Lemma shr_iter_m (k : positive) (r : shr_record) :
  0 <= shr_m r ->
  shr_m (iter_pos shr_1 k r) = Z.shiftr (shr_m r) (Zpos k).
Proof.
  intros H. rewrite iter_pos_iter.
  induction k as [| k IH] using Pos.peano_ind.
  - cbn [Pos.iter]. rewrite shr_1_m by exact H. apply Z.div2_spec.
  - rewrite Pos.iter_succ, shr_1_m.
    + rewrite IH, Z.div2_spec, Z.shiftr_shiftr by lia. f_equal. lia.
    + rewrite IH. apply Z.shiftr_nonneg. exact H.
Qed.

Lemma record_m (m : Z) (l : location) : shr_m (shr_record_of_loc m l) = m.
Proof. destruct l as [| []]; reflexivity. Qed.

(** Shifting a mantissa to its rounding exponent leaves some of it. *)
Lemma shr_fexp_pos (m : positive) (e : Z) (l : location) :
  -1074 <= e ->
  exists m' e', 
    shr_m (fst (shr_fexp prec emax (Zpos m) e l)) = Zpos m' /\
    snd (shr_fexp prec emax (Zpos m) e l) = e' /\ -1074 <= e'.
Proof.
  intros He. unfold shr_fexp. cbn [Zdigits2].
  set (d := Zpos (digits2_pos m)).
  assert (Hd : d = Z.log2 (Zpos m) + 1) by apply digits2_log2.
  pose proof (Z.log2_nonneg (Zpos m)) as Hl.
  pose proof (Z.log2_spec (Zpos m) ltac:(lia)) as Hs.
  unfold shr.
  destruct (fexp prec emax (d + e) - e) as [| n | n] eqn:En; cbn [fst snd].
  - exists m, e. rewrite record_m. auto.
  - assert (Hn : Zpos n = d - 53)
      by (unfold fexp, emin, prec, emax in En; lia).
    rewrite shr_iter_m by (rewrite record_m; lia). rewrite record_m.
    assert (Hpos : 0 < Z.shiftr (Zpos m) (Zpos n)).
    { rewrite Z.shiftr_div_pow2 by lia.
      apply Z.div_str_pos. split; [apply Z.pow_pos_nonneg; lia |].
      apply Z.le_trans with (2 ^ Z.log2 (Zpos m)); [| lia].
      apply Z.pow_le_mono_r; lia. }
    destruct (Z.shiftr (Zpos m) (Zpos n)) as [| q | q] eqn:Eq; try lia.
    exists q, (e + Zpos n). split; [reflexivity |]. split; [reflexivity | lia].
  - exists m, e. rewrite record_m. auto.
Qed.

Lemma round_even_pos (m : positive) (l : location) :
  exists m', round_nearest_even (Zpos m) l = Zpos m'.
Proof.
  destruct l as [| []]; cbn [round_nearest_even];
    try (eexists; reflexivity).
  - destruct (Z.even (Zpos m)); eexists; reflexivity.
Qed.

Lemma round_aux_positive (m : positive) (e : Z) (l : location) :
  -1074 <= e ->
  lt pzero (binary_round_aux prec emax false (Zpos m) e l) = true.
Proof.
  intros He. unfold binary_round_aux.
  destruct (shr_fexp_pos m e l He) as [m1 [e1 [E1 [E1' He1]]]].
  destruct (shr_fexp prec emax (Zpos m) e l) as [r1 e1'].
  cbn [fst snd] in E1, E1'. subst e1'. rewrite E1.
  destruct (round_even_pos m1 (loc_of_shr_record r1)) as [m2 E2].
  rewrite E2.
  destruct (shr_fexp_pos m2 e1 loc_Exact He1) as [m3 [e3 [E3 [E3' He3]]]].
  destruct (shr_fexp prec emax (Zpos m2) e1 loc_Exact) as [r3 e3'].
  cbn [fst snd] in E3, E3'. rewrite E3.
  destruct (e3' <=? emax - prec); reflexivity.
Qed.

(** Rounding something positive gives something positive. *)
Lemma round_positive (m : positive) (e : Z) :
  -1074 <= e -> lt pzero (binary_round prec emax false m e) = true.
Proof.
  intros He. unfold binary_round.
  destruct (shl_align m e (fexp prec emax (Zpos (digits2_pos m) + e)))
    as [mz ez] eqn:S.
  apply round_aux_positive.
  unfold shl_align in S.
  destruct (fexp prec emax (Zpos (digits2_pos m) + e) - e) eqn:D;
    inversion S; subst; try lia.
  unfold fexp, emin, prec, emax. lia.
Qed.

Lemma aligned_to (m : positive) (e ez : Z) :
  ez <= e -> Zpos (fst (shl_align m e ez)) = Zpos m * 2 ^ (e - ez).
Proof.
  intros H. unfold shl_align.
  destruct (ez - e) as [| d | d] eqn:Ed; cbn [fst].
  - replace (e - ez) with 0 by lia. lia.
  - lia.
  - rewrite iter_xO. f_equal. f_equal. lia.
Qed.

Lemma double_exponent (s : bool) (m : positive) (e : Z) :
  double (S754_finite s m e) -> -1074 <= e.
Proof.
  intros [_ H]. cbn [valid_binary] in H. unfold bounded in H.
  apply andb_prop in H. destruct H as [H _].
  unfold canonical_mantissa in H. apply Z.eqb_eq in H.
  unfold fexp, emin, prec, emax in H. lia.
Qed.

(** The sign of a difference of doubles is the sign of the exact
    difference: subtraction neither rounds to zero nor changes sides. *)
Theorem sub_sign_double (x y : number) :
  double x -> double y ->
  lt pzero (sub x y) = (scaled y <? scaled x).
Proof.
  intros Dx Dy.
  destruct x as [sx | sx | | sx mx ex]; try (destruct Dx as [F _]; discriminate F);
    destruct y as [sy | sy | | sy my ey];
    try (destruct Dy as [F _]; discriminate F).
  - destruct sx, sy; reflexivity.
  - pose proof (double_exponent _ _ _ Dy) as Hy.
    assert (P : 0 < Zpos my * 2 ^ (ey + 1074))
      by (apply Z.mul_pos_pos; [lia | apply Z.pow_pos_nonneg; lia]).
    cbn [scaled]. destruct sx, sy; cbn [cond_Zopp sub SFsub negb];
      symmetry; first [apply Z.ltb_lt; lia | apply Z.ltb_ge; lia].
  - pose proof (double_exponent _ _ _ Dx) as Hx.
    assert (P : 0 < Zpos mx * 2 ^ (ex + 1074))
      by (apply Z.mul_pos_pos; [lia | apply Z.pow_pos_nonneg; lia]).
    cbn [scaled]. destruct sx, sy; cbn [cond_Zopp sub SFsub negb];
      symmetry; first [apply Z.ltb_lt; lia | apply Z.ltb_ge; lia].
  - pose proof (double_exponent _ _ _ Dx) as Hx.
    pose proof (double_exponent _ _ _ Dy) as Hy.
    unfold sub, SFsub. set (ez := Z.min ex ey).
    rewrite (aligned_to mx ex ez), (aligned_to my ey ez) by (unfold ez; lia).
    cbn [scaled].
    assert (Px : 2 ^ (ex + 1074) = 2 ^ (ex - ez) * 2 ^ (ez + 1074)).
    { rewrite <- Z.pow_add_r by (unfold ez; lia). f_equal. lia. }
    assert (Py : 2 ^ (ey + 1074) = 2 ^ (ey - ez) * 2 ^ (ez + 1074)).
    { rewrite <- Z.pow_add_r by (unfold ez; lia). f_equal. lia. }
    assert (Pz : 0 < 2 ^ (ez + 1074))
      by (apply Z.pow_pos_nonneg; unfold ez; lia).
    rewrite Px, Py.
    set (a := Zpos mx * 2 ^ (ex - ez)). set (b := Zpos my * 2 ^ (ey - ez)).
    set (c := 2 ^ (ez + 1074)) in *.
    assert (Ea : cond_Zopp sx (Zpos mx * (2 ^ (ex - ez) * c))
                 = cond_Zopp sx a * c)
      by (unfold a; destruct sx; cbn [cond_Zopp]; lia).
    assert (Eb : cond_Zopp sy (Zpos my * (2 ^ (ey - ez) * c))
                 = cond_Zopp sy b * c)
      by (unfold b; destruct sy; cbn [cond_Zopp]; lia).
    rewrite Ea, Eb.
    destruct (cond_Zopp sx a - cond_Zopp sy b) as [| d | d] eqn:D;
      cbn [binary_normalize].
    + replace (cond_Zopp sy b * c <? cond_Zopp sx a * c) with false
        by (symmetry; apply Z.ltb_ge; nia).
      reflexivity.
    + replace (cond_Zopp sy b * c <? cond_Zopp sx a * c) with true
        by (symmetry; apply Z.ltb_lt; nia).
      apply round_positive. unfold ez. lia.
    + replace (cond_Zopp sy b * c <? cond_Zopp sx a * c) with false
        by (symmetry; apply Z.ltb_ge; nia).
      apply round_negative.
Qed.

(** A number that holds a natural number is a double, and its exact value
    is that number. *)
Lemma exact_double (x : number) : exact x -> double x.
Proof.
  intros E. pose proof (exact_range x E) as R. rewrite (exact_eq x E).
  rewrite of_Z_canon by exact R.
  destruct (ival x) as [| p | p]; [split; reflexivity | | lia].
  pose proof (log2_bounds p ltac:(lia)) as L.
  destruct (canon_mantissa p ltac:(lia)) as [m [Em Hm]].
  rewrite Em. split; [reflexivity |].
  cbn [valid_binary]. unfold bounded, canonical_mantissa.
  assert (Hd : Zpos (digits2_pos m) = 53).
  { rewrite digits2_log2, Hm, log2_shift by lia. lia. }
  rewrite Hd. apply andb_true_intro. split.
  - apply Z.eqb_eq. unfold fexp, emin, prec, emax. lia.
  - apply Z.leb_le. unfold prec, emax. lia.
Qed.

Lemma scaled_exact (x : number) :
  exact x -> scaled x = ival x * 2 ^ 1074.
Proof.
  intros E. pose proof (exact_range x E) as R.
  rewrite (exact_eq x E) at 1. rewrite of_Z_canon by exact R.
  destruct (ival x) as [| p | p]; [reflexivity | | lia].
  pose proof (log2_bounds p ltac:(lia)) as L.
  destruct (canon_mantissa p ltac:(lia)) as [m [Em Hm]].
  rewrite Em. cbn [scaled cond_Zopp]. rewrite Hm, <- Z.mul_assoc.
  rewrite <- Z.pow_add_r by lia. f_equal. f_equal. lia.
Qed.

(** The mantissa of a double has at most 53 bits, and exactly 53 above the
    least exponent. *)
Lemma double_mantissa (s : bool) (m : positive) (e : Z) :
  double (S754_finite s m e) ->
  -1074 <= e /\ Zpos m < 2 ^ 53 /\ (-1074 < e -> 2 ^ 52 <= Zpos m).
Proof.
  intros [_ H]. cbn [valid_binary] in H. unfold bounded in H.
  apply andb_prop in H. destruct H as [H _].
  unfold canonical_mantissa in H. apply Z.eqb_eq in H.
  rewrite digits2_log2 in H. unfold fexp, emin, prec, emax in H.
  pose proof (Z.log2_spec (Zpos m) ltac:(lia)) as [L1 L2].
  assert (D : Z.log2 (Zpos m) <= 52) by lia.
  pose proof (Z.log2_nonneg (Zpos m)) as L0.
  split; [lia |]. split.
  - apply Z.lt_le_trans with (2 ^ Z.succ (Z.log2 (Zpos m))); [exact L2 |].
    apply Z.pow_le_mono_r; lia.
  - intros He. assert (E : Z.log2 (Zpos m) = 52) by lia.
    rewrite E in L1. exact L1.
Qed.

Lemma scaled_lower (m1 m2 : positive) (e1 e2 : Z) :
  -1074 <= e1 -> e1 < e2 -> Zpos m1 < 2 ^ 53 -> 2 ^ 52 <= Zpos m2 ->
  Zpos m1 * 2 ^ (e1 + 1074) < Zpos m2 * 2 ^ (e2 + 1074).
Proof.
  intros H1 H12 Hm1 Hm2.
  assert (P : 0 < 2 ^ (e1 + 1074)) by (apply Z.pow_pos_nonneg; lia).
  apply Z.lt_le_trans with (2 ^ 53 * 2 ^ (e1 + 1074)).
  - apply Z.mul_lt_mono_pos_r; assumption.
  - replace (2 ^ 53 * 2 ^ (e1 + 1074)) with (2 ^ 52 * 2 ^ (e1 + 1 + 1074)).
    + apply Z.mul_le_mono_nonneg; try lia.
      apply Z.pow_le_mono_r; lia.
    + rewrite <- !Z.pow_add_r by lia. f_equal. lia.
Qed.

(** Doubles compare as their exact values do. *)
Lemma compare_double (x y : number) :
  double x -> double y ->
  SFcompare x y = Some (scaled x ?= scaled y).
Proof.
  intros Dx Dy.
  destruct x as [sx | sx | | sx mx ex];
    try (destruct Dx as [F _]; discriminate F);
    destruct y as [sy | sy | | sy my ey];
    try (destruct Dy as [F _]; discriminate F).
  - reflexivity.
  - pose proof (double_exponent _ _ _ Dy) as Hy.
    assert (P : 0 < Zpos my * 2 ^ (ey + 1074))
      by (apply Z.mul_pos_pos; [lia | apply Z.pow_pos_nonneg; lia]).
    cbn [scaled SFcompare]. f_equal. symmetry.
    destruct sy; cbn [cond_Zopp];
      [apply Z.compare_gt_iff | apply Z.compare_lt_iff]; lia.
  - pose proof (double_exponent _ _ _ Dx) as Hx.
    assert (P : 0 < Zpos mx * 2 ^ (ex + 1074))
      by (apply Z.mul_pos_pos; [lia | apply Z.pow_pos_nonneg; lia]).
    cbn [scaled SFcompare]. f_equal. symmetry.
    destruct sx; cbn [cond_Zopp];
      [apply Z.compare_lt_iff | apply Z.compare_gt_iff]; lia.
  - destruct (double_mantissa _ _ _ Dx) as [Hx [Mx Nx]].
    destruct (double_mantissa _ _ _ Dy) as [Hy [My Ny]].
    assert (Px : 0 < Zpos mx * 2 ^ (ex + 1074))
      by (apply Z.mul_pos_pos; [lia | apply Z.pow_pos_nonneg; lia]).
    assert (Py : 0 < Zpos my * 2 ^ (ey + 1074))
      by (apply Z.mul_pos_pos; [lia | apply Z.pow_pos_nonneg; lia]).
    assert (Lxy : ex < ey ->
                  Zpos mx * 2 ^ (ex + 1074) < Zpos my * 2 ^ (ey + 1074))
      by (intros L; apply scaled_lower; try lia; apply Ny; lia).
    assert (Lyx : ey < ex ->
                  Zpos my * 2 ^ (ey + 1074) < Zpos mx * 2 ^ (ex + 1074))
      by (intros L; apply scaled_lower; try lia; apply Nx; lia).
    assert (Eq : ex = ey ->
                 (Zpos mx * 2 ^ (ex + 1074) ?= Zpos my * 2 ^ (ey + 1074))
                 = (Zpos mx ?= Zpos my)).
    { intros <-.
      assert (P : 0 < 2 ^ (ex + 1074)) by (apply Z.pow_pos_nonneg; lia).
      destruct (Z.compare_spec (Zpos mx) (Zpos my)) as [E | L | G].
      - apply Z.compare_eq_iff. now rewrite E.
      - apply Z.compare_lt_iff. now apply Z.mul_lt_mono_pos_r.
      - apply Z.compare_gt_iff. now apply Z.mul_lt_mono_pos_r. }
    cbn [scaled SFcompare]. f_equal. symmetry.
    destruct sx, sy; cbn [cond_Zopp].
    + destruct (Z.compare_spec ex ey) as [E | L | G].
      * rewrite Z.compare_opp, Z.compare_antisym, (Eq E). reflexivity.
      * apply Z.compare_gt_iff. specialize (Lxy L). lia.
      * apply Z.compare_lt_iff. specialize (Lyx G). lia.
    + apply Z.compare_lt_iff. lia.
    + apply Z.compare_gt_iff. lia.
    + destruct (Z.compare_spec ex ey) as [E | L | G].
      * rewrite (Eq E). reflexivity.
      * apply Z.compare_lt_iff. exact (Lxy L).
      * apply Z.compare_gt_iff. exact (Lyx G).
Qed.

Lemma lt_double (x y : number) :
  double x -> double y -> lt x y = (scaled x <? scaled y).
Proof.
  intros Dx Dy. unfold lt, SFltb. rewrite compare_double by assumption.
  unfold Z.ltb. destruct (scaled x ?= scaled y); reflexivity.
Qed.

Lemma le_double (x y : number) :
  double x -> double y -> le x y = (scaled x <=? scaled y).
Proof.
  intros Dx Dy. unfold le, SFleb. rewrite compare_double by assumption.
  unfold Z.leb. destruct (scaled x ?= scaled y); reflexivity.
Qed.

End ExactFacts.

(** ** The binary heap keeps its order *)

Module HeapFacts.
Import JSNumber MinHeap HeapSpec.

Lemma parent_cases (j : nat) :
  (0 < j)%nat -> j = (2 * parent j + 1)%nat \/ j = (2 * parent j + 2)%nat.
Proof.
  intros H. unfold parent.
  pose proof (Nat.div_mod_eq (j - 1) 2).
  pose proof (Nat.mod_upper_bound (j - 1) 2). lia.
Qed.

Lemma parent_lt (j : nat) : (0 < j)%nat -> (parent j < j)%nat.
Proof. intros H. destruct (parent_cases j H); lia. Qed.

Lemma parent_left (i : nat) : parent (left i) = i.
Proof.
  unfold parent, left. replace (2 * i + 1 - 1)%nat with (i * 2)%nat by lia.
  apply Nat.div_mul. lia.
Qed.

Lemma parent_right (i : nat) : parent (right i) = i.
Proof.
  unfold parent, right. replace (2 * i + 2 - 1)%nat with (1 + i * 2)%nat by lia.
  rewrite Nat.div_add by lia. reflexivity.
Qed.

Lemma child_cases (c i : nat) :
  (0 < c)%nat -> parent c = i -> c = left i \/ c = right i.
Proof.
  intros H E. unfold left, right. destruct (parent_cases c H); lia.
Qed.

Lemma length_upd (d : heap) (i : nat) (x : item) :
  List.length (upd d i x) = List.length d.
Proof.
  revert i. induction d as [| y r IH]; intros [| i]; simpl; auto.
Qed.

Lemma nth_error_upd_eq (d : heap) (i : nat) (x : item) :
  (i < List.length d)%nat -> nth_error (upd d i x) i = Some x.
Proof.
  revert i. induction d as [| y r IH]; intros [| i]; simpl; intros H;
    try lia; auto. apply IH. lia.
Qed.

Lemma nth_error_upd_ne (d : heap) (i j : nat) (x : item) :
  i <> j -> nth_error (upd d i x) j = nth_error d j.
Proof.
  revert i j. induction d as [| y r IH]; intros [| i] [| j] H; simpl;
    try congruence; auto.
Qed.

Lemma length_swap (d : heap) (a b : nat) :
  List.length (swap d a b) = List.length d.
Proof.
  unfold swap. destruct (nth_error d a); [| reflexivity].
  destruct (nth_error d b); [| reflexivity].
  now rewrite !length_upd.
Qed.

Lemma nth_error_swap (d : heap) (a b n : nat) :
  (a < List.length d)%nat -> (b < List.length d)%nat ->
  nth_error (swap d a b) n = nth_error d (transpose a b n).
Proof.
  intros Ha Hb. unfold swap, transpose.
  destruct (nth_error d a) as [x |] eqn:Ea;
    [| apply nth_error_None in Ea; lia].
  destruct (nth_error d b) as [y |] eqn:Eb;
    [| apply nth_error_None in Eb; lia].
  destruct (Nat.eqb_spec n b) as [-> | Nb].
  - rewrite nth_error_upd_eq by (rewrite length_upd; exact Hb).
    destruct (Nat.eqb_spec b a) as [-> | Nab]; congruence.
  - rewrite nth_error_upd_ne by congruence.
    destruct (Nat.eqb_spec n a) as [-> | Na].
    + rewrite nth_error_upd_eq by exact Ha. congruence.
    + rewrite nth_error_upd_ne by congruence. reflexivity.
Qed.

Lemma transpose_injective (a b : nat) : Injective (transpose a b).
Proof.
  intros x y. unfold transpose.
  destruct (Nat.eqb_spec x a), (Nat.eqb_spec x b), (Nat.eqb_spec y a),
    (Nat.eqb_spec y b); subst; congruence.
Qed.

Lemma swap_Permutation (d : heap) (a b : nat) :
  (a < List.length d)%nat -> (b < List.length d)%nat ->
  Permutation d (swap d a b).
Proof.
  intros Ha Hb. apply Permutation_nth_error. split.
  - now rewrite length_swap.
  - exists (transpose a b). split; [apply transpose_injective |].
    intros n. now apply nth_error_swap.
Qed.

Lemma swap_l (d : heap) (a b : nat) :
  (a < List.length d)%nat -> (b < List.length d)%nat ->
  nth_error (swap d a b) a = nth_error d b.
Proof.
  intros Ha Hb. rewrite nth_error_swap by assumption. unfold transpose.
  now rewrite Nat.eqb_refl.
Qed.

Lemma swap_r (d : heap) (a b : nat) :
  (a < List.length d)%nat -> (b < List.length d)%nat ->
  nth_error (swap d a b) b = nth_error d a.
Proof.
  intros Ha Hb. rewrite nth_error_swap by assumption. unfold transpose.
  rewrite Nat.eqb_refl. destruct (Nat.eqb_spec b a); congruence.
Qed.

Lemma swap_other (d : heap) (a b n : nat) :
  (a < List.length d)%nat -> (b < List.length d)%nat ->
  n <> a -> n <> b -> nth_error (swap d a b) n = nth_error d n.
Proof.
  intros Ha Hb Na Nb. rewrite nth_error_swap by assumption. unfold transpose.
  destruct (Nat.eqb_spec n a); [congruence |].
  destruct (Nat.eqb_spec n b); congruence.
Qed.

Section Order.
Variable key : item -> Z.
Variable good : item -> Prop.
Hypothesis key_le : forall x y, good x -> good y ->
    le (priority x) (priority y) = (key x <=? key y)%Z.
Hypothesis key_lt : forall x y, good x -> good y ->
    lt (priority x) (priority y) = (key x <? key y)%Z.

Lemma good_at (d : heap) (i : nat) (x : item) :
  Forall good d -> nth_error d i = Some x -> good x.
Proof.
  intros F H. apply nth_error_In in H.
  rewrite Forall_forall in F. now apply F.
Qed.

Lemma above_root (d : heap) :
  ordered_but_above key d 0 -> heapOrdered key d.
Proof. intros H j x y Hj. apply H; [exact Hj | lia]. Qed.

Lemma siftUp_loop_ok :
  forall fuel d i,
    (i <= fuel)%nat -> (i < List.length d)%nat -> Forall good d ->
    ordered_but_above key d i -> grand_ok key d i ->
    heapOrdered key (siftUp_loop fuel d i) /\
    Permutation d (siftUp_loop fuel d i).
Proof.
  induction fuel as [| f IH]; intros d i Hf Hi F Ho Hg.
  - assert (i = 0)%nat by lia. subst i. simpl.
    split; [now apply above_root | apply Permutation_refl].
  - cbn [siftUp_loop]. destruct (Nat.ltb_spec 0 i) as [Hpos | Hz].
    2:{ assert (i = 0)%nat by lia. subst i.
        split; [now apply above_root | apply Permutation_refl]. }
    pose proof (parent_lt i Hpos) as Hp.
    destruct (nth_error d (parent i)) as [x |] eqn:Ex;
      [| apply nth_error_None in Ex; lia].
    destruct (nth_error d i) as [y |] eqn:Ey;
      [| apply nth_error_None in Ey; lia].
    pose proof (good_at d _ x F Ex) as Gx.
    pose proof (good_at d _ y F Ey) as Gy.
    rewrite (key_le x y Gx Gy).
    destruct (Z.leb_spec (key x) (key y)) as [Hle | Hgt].
    + split; [| apply Permutation_refl].
      intros j u v Hj Hv Hu. destruct (Nat.eq_dec j i) as [-> | Nj].
      * rewrite Ey in Hv. rewrite Ex in Hu. congruence.
      * now apply (Ho j u v).
    + assert (Hpl : (parent i < List.length d)%nat) by lia.
      pose proof (swap_Permutation d i (parent i) Hi Hpl) as Pm.
      destruct (IH (swap d i (parent i)) (parent i)) as [H1 H2].
      * lia.
      * now rewrite length_swap.
      * now apply (Permutation_Forall Pm).
      * intros j u v Hj Nj Hv Hu.
        destruct (Nat.eq_dec j i) as [-> | Ni].
        -- rewrite swap_l in Hv by assumption.
           rewrite swap_r in Hu by assumption.
           rewrite Ex in Hv. rewrite Ey in Hu.
           inversion Hv; inversion Hu; subst. lia.
        -- rewrite swap_other in Hv by assumption.
           pose proof (parent_lt j Hj) as Hpj.
           destruct (Nat.eq_dec (parent j) i) as [Epi | Npi].
           ++ rewrite Epi, swap_l in Hu by assumption.
              rewrite Ex in Hu. inversion Hu; subst u.
              apply (Hg j x v Hpos Hj Epi Hv Ex).
           ++ destruct (Nat.eq_dec (parent j) (parent i)) as [Epp | Npp].
              ** rewrite Epp, swap_r in Hu by assumption.
                 rewrite Ey in Hu. inversion Hu; subst u.
                 assert (key x <= key v)%Z.
                 { apply (Ho j x v Hj Ni Hv). now rewrite Epp. }
                 lia.
              ** rewrite swap_other in Hu by assumption.
                 now apply (Ho j u v).
      * intros c u v Hpp Hc Ec Hv Hu.
        pose proof (parent_lt (parent i) Hpp) as Hppl.
        pose proof (parent_lt c Hc) as Hcl.
        rewrite swap_other in Hu by (try assumption; lia).
        assert (Hux : (key u <= key x)%Z).
        { apply (Ho (parent i) u x Hpp); [lia | exact Ex | exact Hu]. }
        destruct (Nat.eq_dec c i) as [-> | Nc].
        -- rewrite swap_l in Hv by assumption. rewrite Ex in Hv.
           inversion Hv; subst v. exact Hux.
        -- rewrite swap_other in Hv by (try assumption; lia).
           assert (key x <= key v)%Z.
           { apply (Ho c x v Hc Nc Hv). now rewrite Ec. }
           lia.
      * split; [exact H1 |]. eapply Permutation_trans; eassumption.
Qed.

Lemma lt_at_true (d : heap) (a b : nat) :
  Forall good d -> lt_at d a b = true ->
  exists x y, nth_error d a = Some x /\ nth_error d b = Some y /\
              (key x < key y)%Z.
Proof.
  intros F H. unfold lt_at in H.
  destruct (nth_error d a) as [x |] eqn:Ea; [| discriminate].
  destruct (nth_error d b) as [y |] eqn:Eb; [| discriminate].
  rewrite (key_lt x y (good_at d a x F Ea) (good_at d b y F Eb)) in H.
  apply Z.ltb_lt in H. now exists x, y.
Qed.

Lemma lt_at_false (d : heap) (a b : nat) (x y : item) :
  Forall good d -> lt_at d a b = false ->
  nth_error d a = Some x -> nth_error d b = Some y -> (key y <= key x)%Z.
Proof.
  intros F H Ea Eb. unfold lt_at in H. rewrite Ea, Eb in H.
  rewrite (key_lt x y (good_at d a x F Ea) (good_at d b y F Eb)) in H.
  apply Z.ltb_ge in H. exact H.
Qed.

(** The position [siftDown] moves to: [i] itself when no child is smaller,
    else the smallest child. *)
Lemma smallest_spec (d : heap) (i : nat) (yi : item) :
  Forall good d -> nth_error d i = Some yi ->
  let l := left i in
  let r := right i in
  let s1 := if (l <? List.length d)%nat && lt_at d l i then l else i in
  let s2 := if (r <? List.length d)%nat && lt_at d r s1 then r else s1 in
  (s2 = i /\
   forall c y, (0 < c)%nat -> parent c = i -> nth_error d c = Some y ->
               (key yi <= key y)%Z) \/
  (s2 <> i /\ parent s2 = i /\ (i < s2)%nat /\ (s2 < List.length d)%nat /\
   exists ys, nth_error d s2 = Some ys /\ (key ys < key yi)%Z /\
     forall c y, (0 < c)%nat -> parent c = i -> nth_error d c = Some y ->
                 (key ys <= key y)%Z).
Proof.
  intros F Ei l r s1 s2.
  assert (Hl : parent l = i) by apply parent_left.
  assert (Hr : parent r = i) by apply parent_right.
  assert (Hlr : (i < l)%nat /\ (i < r)%nat /\ l <> r)
    by (unfold l, r, left, right; lia).
  assert (Hin : forall c y, nth_error d c = Some y ->
                            (c < List.length d)%nat).
  { intros c y H. apply nth_error_Some. congruence. }
  destruct ((l <? List.length d)%nat && lt_at d l i) eqn:C1.
  - apply andb_prop in C1. destruct C1 as [L1 T1].
    apply Nat.ltb_lt in L1.
    destruct (lt_at_true d l i F T1) as [xl [yi' [El [Ei' Hli]]]].
    rewrite Ei in Ei'. inversion Ei'; subst yi'. clear Ei'.
    subst s1. right.
    destruct ((r <? List.length d)%nat && lt_at d r l) eqn:C2.
    + apply andb_prop in C2. destruct C2 as [L2 T2].
      apply Nat.ltb_lt in L2.
      destruct (lt_at_true d r l F T2) as [xr [xl' [Er [El' Hrl]]]].
      rewrite El in El'. inversion El'; subst xl'. clear El'.
      subst s2. repeat split; try lia; auto.
      exists xr. repeat split; [exact Er | lia |].
      intros c y Hc Ec Hy.
      destruct (child_cases c i Hc Ec) as [-> | ->];
        try change (left i) with l in Hy; try change (right i) with r in Hy.
      * rewrite El in Hy. injection Hy as <-. lia.
      * rewrite Er in Hy. injection Hy as <-. lia.
    + subst s2. repeat split; try lia; auto.
      exists xl. repeat split; [exact El | lia |].
      intros c y Hc Ec Hy.
      destruct (child_cases c i Hc Ec) as [-> | ->];
        try change (left i) with l in Hy; try change (right i) with r in Hy.
      * rewrite El in Hy. injection Hy as <-. lia.
      * apply andb_false_iff in C2. destruct C2 as [C2 | C2].
        -- apply Nat.ltb_ge in C2. apply Hin in Hy. lia.
        -- apply (lt_at_false d r l y xl F C2 Hy El).
  - subst s1.
    assert (Hleft : forall y, nth_error d l = Some y ->
                              (key yi <= key y)%Z).
    { intros y Hy. apply andb_false_iff in C1. destruct C1 as [C1 | C1].
      - apply Nat.ltb_ge in C1. apply Hin in Hy. lia.
      - apply (lt_at_false d l i y yi F C1 Hy Ei). }
    destruct ((r <? List.length d)%nat && lt_at d r i) eqn:C2.
    + apply andb_prop in C2. destruct C2 as [L2 T2].
      apply Nat.ltb_lt in L2.
      destruct (lt_at_true d r i F T2) as [xr [yi' [Er [Ei' Hri]]]].
      rewrite Ei in Ei'. inversion Ei'; subst yi'. clear Ei'.
      subst s2. right. repeat split; try lia; auto.
      exists xr. repeat split; [exact Er | lia |].
      intros c y Hc Ec Hy.
      destruct (child_cases c i Hc Ec) as [-> | ->];
        try change (left i) with l in Hy; try change (right i) with r in Hy.
      * specialize (Hleft y Hy). lia.
      * rewrite Er in Hy. injection Hy as <-. lia.
    + subst s2. left. split; [reflexivity |].
      intros c y Hc Ec Hy.
      destruct (child_cases c i Hc Ec) as [-> | ->];
        try change (left i) with l in Hy; try change (right i) with r in Hy.
      * now apply Hleft.
      * apply andb_false_iff in C2. destruct C2 as [C2 | C2].
        -- apply Nat.ltb_ge in C2. apply Hin in Hy. lia.
        -- apply (lt_at_false d r i y yi F C2 Hy Ei).
Qed.

Lemma siftDown_loop_ok :
  forall fuel d i,
    (List.length d <= fuel + i)%nat -> Forall good d ->
    ordered_but_below key d i -> grand_ok key d i ->
    heapOrdered key (siftDown_loop fuel d i) /\
    Permutation d (siftDown_loop fuel d i).
Proof.
  induction fuel as [| f IH]; intros d i Hf F Hb Hg.
  - simpl. split; [| apply Permutation_refl].
    intros j x y Hj Hy Hx. destruct (Nat.eq_dec (parent j) i) as [E | N].
    + assert (parent j < List.length d)%nat
        by (apply nth_error_Some; congruence). lia.
    + now apply (Hb j x y).
  - cbn [siftDown_loop].
    destruct (nth_error d i) as [yi |] eqn:Ei.
    2:{ (* [i] is outside the array: nothing is below it *)
      apply nth_error_None in Ei.
      assert (L : (left i <? List.length d)%nat = false)
        by (apply Nat.ltb_ge; unfold left; lia).
      assert (R : (right i <? List.length d)%nat = false)
        by (apply Nat.ltb_ge; unfold right; lia).
      rewrite L, R. cbn [andb]. rewrite Nat.eqb_refl.
      split; [| apply Permutation_refl].
      intros j x y Hj Hy Hx. destruct (Nat.eq_dec (parent j) i) as [E | N].
      - assert (parent j < List.length d)%nat
          by (apply nth_error_Some; congruence). lia.
      - now apply (Hb j x y). }
    assert (Hi : (i < List.length d)%nat)
      by (apply nth_error_Some; congruence).
    destruct (smallest_spec d i yi F Ei)
      as [[Es Hmin] | [Ns [Ps [Hgt [Hlen [ys [Eys [Hlt Hmin]]]]]]]].
    + rewrite Es, Nat.eqb_refl. split; [| apply Permutation_refl].
      intros j x y Hj Hy Hx. destruct (Nat.eq_dec (parent j) i) as [E | N].
      * rewrite E, Ei in Hx. inversion Hx; subst x. now apply (Hmin j y).
      * now apply (Hb j x y).
    + set (s := if (right i <? List.length d)%nat &&
                   lt_at d (right i)
                         (if (left i <? List.length d)%nat &&
                             lt_at d (left i) i then left i else i)
                then right i
                else if (left i <? List.length d)%nat && lt_at d (left i) i
                     then left i else i) in *.
      destruct (Nat.eqb_spec s i) as [E | _]; [congruence |].
      pose proof (swap_Permutation d i s Hi Hlen) as Pm.
      destruct (IH (swap d i s) s) as [H1 H2].
      * rewrite length_swap. lia.
      * now apply (Permutation_Forall Pm).
      * intros j u v Hj Npj Hv Hu.
        pose proof (parent_lt j Hj) as Hpj.
        destruct (Nat.eq_dec j s) as [-> | Njs].
        -- rewrite swap_r in Hv by assumption.
           rewrite Ps, swap_l in Hu by assumption.
           rewrite Ei in Hv. rewrite Eys in Hu.
           injection Hv as <-. injection Hu as <-. lia.
        -- destruct (Nat.eq_dec j i) as [-> | Nji].
           ++ rewrite swap_l in Hv by assumption.
              rewrite swap_other in Hu by (try assumption; lia).
              rewrite Eys in Hv. inversion Hv; subst v.
              apply (Hg s u ys); try assumption; lia.
           ++ rewrite swap_other in Hv by assumption.
              destruct (Nat.eq_dec (parent j) i) as [Epi | Npi].
              ** rewrite Epi, swap_l in Hu by assumption.
                 rewrite Eys in Hu. inversion Hu; subst u.
                 now apply (Hmin j v).
              ** rewrite swap_other in Hu by assumption.
                 now apply (Hb j u v).
      * intros c u v Hs Hc Ec Hv Hu.
        pose proof (parent_lt c Hc) as Hcl.
        rewrite Ps, swap_l in Hu by assumption.
        rewrite Eys in Hu. inversion Hu; subst u.
        rewrite swap_other in Hv by (try assumption; lia).
        apply (Hb c ys v Hc); [lia | exact Hv | now rewrite Ec].
      * split; [exact H1 |]. eapply Permutation_trans; eassumption.
Qed.

(** The root is a least element. *)
Lemma root_min (d : heap) (r : item) :
  heapOrdered key d -> nth_error d 0 = Some r ->
  forall j x, nth_error d j = Some x -> (key r <= key x)%Z.
Proof.
  intros Ho Hr j. induction j as [j IH] using lt_wf_ind. intros x Hx.
  destruct (Nat.eq_dec j 0) as [-> | Nj].
  - rewrite Hr in Hx. injection Hx as <-. lia.
  - assert (Hj : (0 < j)%nat) by lia.
    pose proof (parent_lt j Hj) as Hp.
    destruct (nth_error d (parent j)) as [u |] eqn:Eu.
    + pose proof (IH (parent j) Hp u Eu).
      pose proof (Ho j u x Hj Hx Eu). lia.
    + apply nth_error_None in Eu.
      assert (j < List.length d)%nat by (apply nth_error_Some; congruence).
      lia.
Qed.

Lemma push_ok (d : heap) (it : item) :
  Forall good d -> good it -> heapOrdered key d ->
  heapOrdered key (push d it) /\ Permutation (it :: d) (push d it).
Proof.
  intros F G Ho. unfold push, siftUp.
  destruct (siftUp_loop_ok (List.length d) (d ++ [it]) (List.length d))
    as [H1 H2].
  - lia.
  - rewrite length_app. simpl. lia.
  - apply Forall_app. split; [exact F | now constructor].
  - intros j x y Hj Nj Hy Hx.
    assert (Hlt : (j < List.length d)%nat).
    { assert (j < List.length (d ++ [it]))%nat
        by (apply nth_error_Some; congruence).
      rewrite length_app in H. simpl in H. lia. }
    pose proof (parent_lt j Hj).
    rewrite nth_error_app1 in Hy by lia.
    rewrite nth_error_app1 in Hx by lia.
    now apply (Ho j x y).
  - intros c x y Hi Hc Ec Hy Hx.
    pose proof (parent_lt c Hc).
    assert (c < List.length (d ++ [it]))%nat
      by (apply nth_error_Some; congruence).
    rewrite length_app in H0. simpl in H0. lia.
  - split; [exact H1 |].
    eapply Permutation_trans; [apply Permutation_cons_append | exact H2].
Qed.

Lemma pop_ok (d d' : heap) (it : item) :
  Forall good d -> heapOrdered key d -> pop d = Some (it, d') ->
  Permutation d (it :: d') /\ heapOrdered key d' /\
  forall x, In x d -> (key it <= key x)%Z.
Proof.
  intros F Ho H. unfold pop in H.
  destruct d as [| x0 r] eqn:Ed; [discriminate |]. rewrite <- Ed in *.
  assert (Hn : (0 < List.length d)%nat) by (rewrite Ed; simpl; lia).
  set (n := List.length d) in *.
  set (d1 := swap d 0 (n - 1)) in *.
  destruct (nth_error d1 (n - 1)) as [popped |] eqn:Ep; [| discriminate].
  inversion H; subst it d'; clear H.
  assert (Pm : Permutation d d1)
    by (apply swap_Permutation; unfold n; lia).
  assert (L1 : List.length d1 = n) by (unfold d1; apply length_swap).
  assert (N1 : d1 <> []) by (intros E; rewrite E in L1; simpl in L1; lia).
  assert (E1 : d1 = (removelast d1 ++ [popped])%list).
  { pose proof (app_removelast_last popped N1) as E.
    assert (Lr : List.length (removelast d1) = (n - 1)%nat).
    { rewrite E in L1. rewrite length_app in L1. simpl in L1. lia. }
    rewrite E in Ep. rewrite nth_error_app2 in Ep by lia.
    rewrite Lr, Nat.sub_diag in Ep. simpl in Ep. injection Ep as Ep.
    rewrite Ep in E. exact E. }
  set (rest := removelast d1) in *.
  assert (Lr : List.length rest = (n - 1)%nat).
  { rewrite E1, length_app in L1. simpl in L1. lia. }
  assert (Hroot : nth_error d 0 = Some popped).
  { unfold d1 in Ep. rewrite swap_r in Ep by (unfold n; lia). exact Ep. }
  assert (Frest : Forall good rest).
  { pose proof (Permutation_Forall Pm F) as F1. rewrite E1 in F1.
    apply Forall_app in F1. tauto. }
  destruct (siftDown_loop_ok (List.length rest) rest 0) as [H1 H2].
  - lia.
  - exact Frest.
  - intros j u v Hj Npj Hv Hu.
    pose proof (parent_lt j Hj) as Hpj.
    assert (Hjl : (j < n - 1)%nat)
      by (rewrite <- Lr; apply nth_error_Some; congruence).
    assert (R : forall k, (k < n - 1)%nat -> k <> 0%nat ->
                          nth_error rest k = nth_error d k).
    { intros k Hk Nk.
      rewrite <- (nth_error_app1 rest [popped]) by lia.
      rewrite <- E1. unfold d1.
      apply swap_other; unfold n in *; lia. }
    rewrite R in Hv by lia. rewrite R in Hu by lia.
    now apply (Ho j u v).
  - intros c u v Hi. lia.
  - split; [| split].
    + eapply Permutation_trans; [exact Pm |]. rewrite E1.
      eapply Permutation_trans;
        [apply Permutation_sym, Permutation_cons_append |].
      apply perm_skip. exact H2.
    + exact H1.
    + intros x Hx. apply In_nth_error in Hx. destruct Hx as [j Hj].
      now apply (root_min d popped Ho Hroot j x).
Qed.

End Order.

End HeapFacts.

(** ** The heap sorts finite priorities *)

Module HeapSort.
Import JSNumber MinHeap HeapSpec Exact ExactFacts HeapFacts.

Lemma dkey_le (x y : item) :
  finite_item x -> finite_item y ->
  le (priority x) (priority y) = (dkey x <=? dkey y).
Proof. apply le_double. Qed.

Lemma dkey_lt (x y : item) :
  finite_item x -> finite_item y ->
  lt (priority x) (priority y) = (dkey x <? dkey y).
Proof. apply lt_double. Qed.

Lemma heapOrdered_nil : heapOrdered dkey [].
Proof. intros j x y _ H. destruct j; discriminate H. Qed.

Lemma push_all_ok (l : list item) :
  forall d, Forall finite_item d -> heapOrdered dkey d ->
    Forall finite_item l ->
    heapOrdered dkey (push_all d l) /\
    Permutation (d ++ l)%list (push_all d l).
Proof.
  induction l as [| it l IH]; intros d Fd Ho Fl.
  - cbn. rewrite app_nil_r. split; [exact Ho | apply Permutation_refl].
  - inversion Fl as [| ? ? Fi Fl']; subst.
    destruct (push_ok dkey finite_item dkey_le d it Fd Fi Ho) as [Ho' P].
    assert (Fd' : Forall finite_item (push d it))
      by (apply (Permutation_Forall P); now constructor).
    destruct (IH (push d it) Fd' Ho' Fl') as [Ho'' P'].
    split; [exact Ho'' |].
    eapply Permutation_trans; [| exact P'].
    apply Permutation_trans with ((it :: d) ++ l)%list.
    + cbn. apply Permutation_sym, Permutation_middle.
    + apply Permutation_app_tail. exact P.
Qed.

Lemma pop_nonempty (d : heap) : d <> [] -> pop d <> None.
Proof.
  destruct d as [| a r]; [congruence |]. intros _. unfold pop.
  destruct (nth_error (swap (a :: r) 0 (List.length (a :: r) - 1))
                      (List.length (a :: r) - 1)) eqn:E; [discriminate |].
  apply nth_error_None in E. rewrite length_swap in E. simpl in E. lia.
Qed.

Lemma pop_all_ok (n : nat) :
  forall d, List.length d = n -> Forall finite_item d ->
    heapOrdered dkey d ->
    Permutation d (pop_all n d) /\ StronglySorted le_item (pop_all n d).
Proof.
  induction n as [| n IH]; intros d Hl Fd Ho.
  - destruct d; [| discriminate Hl]. cbn. split; constructor.
  - cbn [pop_all].
    destruct (pop d) as [[it d'] |] eqn:E.
    + destruct (pop_ok dkey finite_item dkey_lt d d' it Fd Ho E)
        as [P [Ho' Hmin]].
      assert (Hl' : List.length d' = n).
      { apply Permutation_length in P. cbn in P. lia. }
      assert (Fd' : Forall finite_item d').
      { pose proof (Permutation_Forall P Fd) as F.
        now inversion F. }
      destruct (IH d' Hl' Fd' Ho') as [P' S'].
      split.
      * eapply Permutation_trans; [exact P |]. now apply perm_skip.
      * constructor; [exact S' |].
        apply Forall_forall. intros x Hx.
        assert (Hxd : In x d).
        { apply (Permutation_in x (Permutation_sym P)). right.
          exact (Permutation_in x (Permutation_sym P') Hx). }
        unfold le_item. rewrite dkey_le.
        -- apply Z.leb_le. now apply Hmin.
        -- pose proof (Permutation_Forall P Fd) as F. now inversion F.
        -- rewrite Forall_forall in Fd. now apply Fd.
    + exfalso. apply (pop_nonempty d); [| exact E].
      intros ->. discriminate Hl.
Qed.


Lemma built_ok (d : heap) :
  built d -> Forall finite_item d /\ heapOrdered dkey d.
Proof.
  intros B. induction B as [| d it _ [F Ho] Fi | d it d' _ [F Ho] E].
  - split; [constructor | exact heapOrdered_nil].
  - destruct (push_ok dkey finite_item dkey_le d it F Fi Ho) as [Ho' P].
    split; [| exact Ho'].
    apply (Permutation_Forall P). now constructor.
  - destruct (pop_ok dkey finite_item dkey_lt d d' it F Ho E)
      as [P [Ho' _]].
    split; [| exact Ho'].
    pose proof (Permutation_Forall P F) as F'. now inversion F'.
Qed.

End HeapSort.

(** ** The shortest-path engine on natural weights *)

Module DijkstraFacts.
Import JSString JSNumber JSObject Parser MinHeap Dijkstra Graph Exact HeapSpec.
Import DijkstraSpec ExactFacts DictFacts HeapFacts.

Lemma key_le (x y : item) :
  good x -> good y -> le (priority x) (priority y) = (key x <=? key y).
Proof. apply exact_le. Qed.

Lemma key_lt (x y : item) :
  good x -> good y -> lt (priority x) (priority y) = (key x <? key y).
Proof. apply exact_lt. Qed.

(** Two good items with the same node and key are the same item. *)
Lemma item_eq (a b : item) :
  good a -> good b -> node a = node b -> key a = key b -> a = b.
Proof.
  intros Ga Gb En Ek. destruct a as [na pa], b as [nb pb].
  cbn in *. subst nb. f_equal.
  rewrite (exact_eq pa Ga), (exact_eq pb Gb). unfold key in Ek. cbn in Ek.
  now rewrite Ek.
Qed.

Section Own.
Context {V : Type}.

Lemma get_own_set_same (d : dict V) (k : string) (v : V) :
  k <> "__proto__"%string -> get_own (set d k v) k = Some v.
Proof.
  intros N. unfold get_own. rewrite get_set_same; [reflexivity |].
  now apply String.eqb_neq.
Qed.

Lemma get_own_set_other (d : dict V) (k k' : string) (v : V) :
  k' <> k -> get_own (set d k v) k' = get_own d k'.
Proof.
  intros N. unfold get_own. now rewrite get_set_other.
Qed.

Lemma get_own_proto (d : dict V) : get_own d "__proto__" = None.
Proof. reflexivity. Qed.

Lemma get_own_Some_not_proto (d : dict V) (k : string) (v : V) :
  get_own d k = Some v -> k <> "__proto__"%string.
Proof. intros H E. subst. discriminate H. Qed.

Lemma get_own_fold (d : dict V) (v : V) (l : list string) (k : string) :
  k <> "__proto__"%string -> In k l ->
  get_own (fold_left (fun d n => set d n v) l d) k = Some v.
Proof.
  intros N. revert d. induction l as [| n r IH]; intros d H; [contradiction |].
  simpl. destruct (in_dec string_dec k r) as [Hr | Hr].
  - now apply IH.
  - destruct H as [-> | H]; [| contradiction].
    clear IH. revert d.
    assert (G : forall d', get_own d' k = Some v ->
                           get_own (fold_left (fun d n => set d n v) r d') k
                           = Some v).
    { induction r as [| m r IH]; intros d' H; [exact H |].
      simpl. apply IH.
      - intros Hm. apply Hr. now right.
      - destruct (string_dec k m) as [-> | Nm].
        + now apply get_own_set_same.
        + now rewrite get_own_set_other. }
    intros d. apply G. now apply get_own_set_same.
Qed.

Lemma get_own_nil (k : string) : get_own (@nil (string * V)) k = None.
Proof.
  unfold get_own, get. destruct (String.eqb k "__proto__"); [reflexivity |].
  simpl. destruct (reserved k); reflexivity.
Qed.

Lemma get_own_fold_inv (c : V) (l : list string) :
  forall (d : dict V) (k : string) (x : V),
    get_own (fold_left (fun d n => set d n c) l d) k = Some x ->
    x = c \/ get_own d k = Some x.
Proof.
  induction l as [| n r IH]; intros d k x H; [now right |].
  simpl in H. destruct (IH _ _ _ H) as [E | E]; [now left |].
  destruct (string_dec k n) as [-> | N].
  - rewrite get_own_set_same in E by exact (get_own_Some_not_proto _ _ _ E).
    left. congruence.
  - rewrite get_own_set_other in E by exact N. now right.
Qed.

End Own.

Lemma filter_agree {A : Type} (P Q : A -> bool) (l : list A) :
  (forall v, In v l -> P v = Q v) -> filter P l = filter Q l.
Proof.
  induction l as [| a r IH]; intros H; [reflexivity |]. simpl.
  rewrite (H a (or_introl eq_refl)), IH; [reflexivity |].
  intros v Hv. apply H. now right.
Qed.

Lemma sum_split (f : string -> nat) (P Q : string -> bool) (u : string)
      (l : list string) :
  NoDup l -> In u l -> P u = true -> Q u = false ->
  (forall v, v <> u -> P v = Q v) ->
  list_sum (map f (filter P l))
  = (f u + list_sum (map f (filter Q l)))%nat.
Proof.
  intros Hn Hu Pu Qu Hs. induction l as [| a r IH]; [contradiction |].
  inversion Hn as [| ? ? Ha Hr]; subst. simpl.
  destruct (string_dec a u) as [-> | Na].
  - rewrite Pu, Qu. simpl. f_equal. f_equal. f_equal.
    apply filter_agree. intros v Hv. apply Hs. intros E. now subst.
  - destruct Hu as [Hu | Hu]; [congruence |].
    rewrite (Hs a Na). destruct (Q a); simpl; rewrite (IH Hr Hu); lia.
Qed.

Lemma sum_take (f : string -> nat) (done : list string) (u : string)
      (l : list string) :
  NoDup l -> In u l -> ~ In u done ->
  list_sum (map f (filter (fun v => negb (existsb (String.eqb v) done)) l))
  = (f u + list_sum (map f (filter
        (fun v => negb (existsb (String.eqb v) (u :: done))) l)))%nat.
Proof.
  intros Hn Hu Hd. apply sum_split; auto.
  - destruct (existsb (String.eqb u) done) eqn:E; [| reflexivity].
    apply existsb_exists in E. destruct E as [z [Hz E]].
    apply String.eqb_eq in E. subst z. contradiction.
  - cbn [existsb]. now rewrite String.eqb_refl.
  - intros v Nv. cbn [existsb].
    apply String.eqb_neq in Nv. now rewrite Nv.
Qed.

Lemma In_dec_entry (a b : adjEntry) : a = b \/ a <> b.
Proof.
  destruct a as [t1 w1 i1], b as [t2 w2 i2].
  destruct (string_dec t1 t2) as [-> | N]; [| right; congruence].
  destruct (Nat.eq_dec i1 i2) as [-> | N]; [| right; congruence].
  assert (D : w1 = w2 \/ w1 <> w2).
  { destruct w1 as [s1 | s1 | | s1 m1 e1], w2 as [s2 | s2 | | s2 m2 e2];
      try (right; congruence); try (left; reflexivity).
    - destruct (Bool.bool_dec s1 s2) as [-> | N];
        [now left | right; congruence].
    - destruct (Bool.bool_dec s1 s2) as [-> | N];
        [now left | right; congruence].
    - destruct (Bool.bool_dec s1 s2) as [-> | N]; [| right; congruence].
      destruct (Pos.eq_dec m1 m2) as [-> | N]; [| right; congruence].
      destruct (Z.eq_dec e1 e2) as [-> | N]; [now left | right; congruence]. }
  destruct D as [-> | N]; [now left | right; congruence].
Qed.

Section Run.
Variable adj : dict (list adjEntry).
Variable nodes : list string.
Variables source target : string.
Variable maxw : Z.

Hypothesis Hnodes : NoDup nodes.
Hypothesis Hclosed : closed adj nodes.
Hypothesis Hheads : forall u e, entry_at adj u e ->
    adj_to e <> "__proto__"%string /\ get adj (adj_to e) <> Inherited.
Hypothesis Hweights : forall u e, entry_at adj u e ->
    exact (weight e) /\ wt e <= maxw.
Hypothesis Hbound : (Z.of_nat (List.length nodes) + 1) * maxw < 2 ^ 53.
Hypothesis Hmaxw : 0 <= maxw.
Hypothesis Hsource : In source nodes.
Hypothesis Hsource_np : source <> "__proto__"%string.
Hypothesis Hsource_adj : source = target \/ get adj source <> Inherited.

Local Abbreviation inv := (inv adj nodes source maxw).
Local Abbreviation reach := (reach adj source).
Local Abbreviation potential := (potential adj nodes).

Lemma wt_nonneg (u : string) (e : adjEntry) : entry_at adj u e -> 0 <= wt e.
Proof.
  intros H. destruct (Hweights u e H) as [Hx _].
  apply exact_range in Hx. unfold wt. lia.
Qed.

Lemma done_bound (done : list string) :
  NoDup done -> incl done nodes ->
  Z.of_nat (List.length done) * maxw + maxw < 2 ^ 53.
Proof.
  intros Hn Hi. pose proof (NoDup_incl_length Hn Hi) as H.
  assert (Z.of_nat (List.length done) <= Z.of_nat (List.length nodes))
    by lia.
  nia.
Qed.

Lemma pop_perm (pq pq' : heap) (it : item) :
  heapOrdered key pq -> Forall good pq -> pop pq = Some (it, pq') ->
  Permutation pq (it :: pq') /\ heapOrdered key pq' /\
  (forall x, In x pq -> key it <= key x).
Proof.
  intros Ho F H. exact (pop_ok key good key_lt pq pq' it F Ho H).
Qed.

(** A walk from the source either ends at a node whose recorded distance
    is at most its weight, or weighs at least as much as everything in the
    heap. *)
Lemma frontier (done : list string) (cur : Z) (dist : dict number)
      (prev : dict (option string)) (pq : heap) (m : Z) :
  inv done [] cur dist prev pq ->
  (forall it, In it pq -> m <= key it) ->
  forall v L, reach v L ->
    (exists x, get_own dist v = Some x /\ exact x /\ ival x <= L) \/ m <= L.
Proof.
  intros I Hm v L R. induction R as [| u L e R IH He].
  - left. exists (of_Z 0). split; [apply (i_src _ _ _ _ _ _ _ _ _ _ I) |].
    split; [apply exact_of_Z; lia | rewrite ival_of_Z; lia].
  - pose proof (wt_nonneg u e He) as Hw.
    destruct IH as [[x [Hx [Ex Hle]]] | Hle]; [| right; lia].
    destruct (i_open _ _ _ _ _ _ _ _ _ _ I u x Hx (exact_finite x Ex))
      as [Hd | Hq].
    + destruct (i_done _ _ _ _ _ _ _ _ _ _ I u Hd)
        as [x' [Hx' [_ [_ [Hcl _]]]]].
      rewrite Hx in Hx'. injection Hx' as <-.
      destruct (Hcl e He) as [y [Hy [Ey Hyl]]];
        [intros _ [] |].
      left. exists y. split; [exact Hy | split; [exact Ey | lia]].
    + right. specialize (Hm _ Hq). unfold key in Hm. cbn in Hm. lia.
Qed.

(** Taking a stale item from the heap changes nothing else. *)
Lemma inv_stale (done : list string) (cur : Z) (dist : dict number)
      (prev : dict (option string)) (pq pq' : heap) (it : item) :
  inv done [] cur dist prev pq ->
  pop pq = Some (it, pq') ->
  gt (priority it) (dist_at dist (node it)) = true ->
  inv done [] cur dist prev pq' /\
  (S (potential done [] pq') = potential done [] pq)%nat.
Proof.
  intros I Hp Hs.
  destruct I as [I1 I2 I3 I4 I5 I6 I7 I8 I9 I10 I11 I12 I13 I14 I15 I16 I17].
  destruct (pop_perm pq pq' it I7 I8 Hp) as [Pm [Ho Hmin]].
  assert (F : Forall good (it :: pq')) by (apply (Permutation_Forall Pm I8)).
  assert (N : NoDup (it :: pq')) by (apply (Permutation_NoDup Pm I9)).
  assert (Sub : forall x, In x pq' -> In x pq).
  { intros x Hx. apply (Permutation_in x (Permutation_sym Pm)). now right. }
  split.
  - constructor; auto.
    + now inversion F.
    + now inversion N.
    + intros v x Hx Fx. destruct (I11 v x Hx Fx) as [H | H]; [now left |].
      apply (Permutation_in _ Pm) in H. destruct H as [H | H]; [| now right].
      exfalso. subst it. cbn [node priority] in Hs.
      unfold dist_at in Hs. rewrite Hx in Hs.
      destruct (I4 v x Hx) as [-> | [Ex _]]; [discriminate Fx |].
      rewrite (exact_gt x x Ex Ex) in Hs. apply Z.ltb_lt in Hs. lia.
    + intros u Hu. destruct (I12 u Hu) as [x [Hx [Ex [Hc [Hcl Hst]]]]].
      exists x. split; [exact Hx | split; [exact Ex | split; [exact Hc |]]].
      split; [exact Hcl |]. intros it' Hi. apply Hst. now apply Sub.
  - unfold DijkstraSpec.potential.
    pose proof (Permutation_length Pm) as Hl. simpl in Hl. lia.
Qed.

Lemma older_cons (done : list string) (u u0 v : string) :
  older done u0 v -> older (u :: done) u0 v.
Proof.
  intros [l1 [l2 [E H]]]. exists (u :: l1), l2. split; [| exact H].
  rewrite E. reflexivity.
Qed.

(** Taking a current item [u] from the heap: [u] is done, its entries are
    pending. *)
Lemma inv_take (done : list string) (cur : Z) (dist : dict number)
      (prev : dict (option string)) (pq pq' : heap) (it : item)
      (es : list adjEntry) :
  inv done [] cur dist prev pq ->
  pop pq = Some (it, pq') ->
  gt (priority it) (dist_at dist (node it)) = false ->
  get adj (node it) = Own es \/ (get adj (node it) = Absent /\ es = []) ->
  inv (node it :: done) es (key it) dist prev pq' /\
  (S (potential (node it :: done) es pq') = potential done [] pq)%nat.
Proof.
  intros I Hp Hs Hes.
  destruct I as [I1 I2 I3 I4 I5 I6 I7 I8 I9 I10 I11 I12 I13 I14 I15 I16 I17].
  destruct (pop_perm pq pq' it I7 I8 Hp) as [Pm [Ho Hmin]].
  assert (F : Forall good (it :: pq')) by (apply (Permutation_Forall Pm I8)).
  assert (N : NoDup (it :: pq')) by (apply (Permutation_NoDup Pm I9)).
  assert (Sub : forall x, In x pq' -> In x pq).
  { intros x Hx. apply (Permutation_in x (Permutation_sym Pm)). now right. }
  assert (Hit : In it pq).
  { apply (Permutation_in it (Permutation_sym Pm)). now left. }
  destruct (I10 it Hit) as [Hc [Hn [Hadj [x [Hx [Ex Hxk]]]]]].
  set (u := node it) in *. set (p := key it) in *.
  assert (Git : good it) by now inversion F.
  assert (Hp_eq : ival x = p).
  { unfold dist_at in Hs. rewrite Hx in Hs.
    rewrite (exact_gt (priority it) x Git Ex) in Hs.
    apply Z.ltb_ge in Hs. unfold p, key in *. lia. }
  assert (Hnd : ~ In u done).
  { intros Hd. destruct (I12 u Hd) as [x' [Hx' [_ [_ [_ Hst]]]]].
    rewrite Hx in Hx'. injection Hx' as <-.
    specialize (Hst it Hit eq_refl). fold p in Hst. lia. }
  assert (Hxb : ival x <= cur + maxw).
  { destruct (I4 u x Hx) as [-> | [_ [H _]]]; [| exact H].
    exfalso. now apply exact_not_Infinity. }
  assert (Hes' : forall e, entry_at adj u e -> In e es).
  { intros e [es' [G He]]. destruct Hes as [G' | [G' _]];
      rewrite G in G'; [injection G' as <-; exact He | discriminate]. }
  split.
  - constructor.
    + cbn [List.length]. rewrite Nat2Z.inj_succ. nia.
    + constructor; assumption.
    + intros v [<- | Hv]; [exact Hn | now apply I3].
    + intros v y Hy. destruct (I4 v y Hy) as [-> | [Ey [Hb R]]];
        [now left | right]. repeat split; try apply Ey; auto. lia.
    + exact I5.
    + exact I6.
    + exact Ho.
    + now inversion F.
    + now inversion N.
    + intros it' Hi'. destruct (I10 it' (Sub _ Hi')) as [_ H].
      split; [| exact H]. apply Hmin. now apply Sub.
    + intros v y Hy Fy. destruct (I11 v y Hy Fy) as [H | H].
      * left. now right.
      * apply (Permutation_in _ Pm) in H. destruct H as [H | H].
        -- left. left. subst it. reflexivity.
        -- now right.
    + intros u' [<- | Hu'].
      * exists x. split; [exact Hx |]. split; [exact Ex |].
        split; [lia |]. split.
        -- intros e He Hpend. exfalso. apply Hpend; [reflexivity |].
           now apply Hes'.
        -- intros it' Hi' En.
           destruct (I10 it' (Sub _ Hi')) as [_ [_ [_ [x' [Hx' [_ Hk']]]]]].
           rewrite En, Hx in Hx'. injection Hx' as <-.
           assert (key it' <> p).
           { intros Ek. assert (it' = it).
             { apply item_eq; auto.
               rewrite Forall_forall in I8. apply I8. now apply Sub. }
             subst it'. inversion N. contradiction. }
           lia.
      * destruct (I12 u' Hu') as [x' [Hx' [Ex' [Hc' [Hcl Hst]]]]].
        exists x'. split; [exact Hx' |]. split; [exact Ex' |].
        split; [lia |]. split.
        -- intros e He _. apply Hcl; [exact He |]. intros _ [].
        -- intros it' Hi'. apply Hst. now apply Sub.
    + intros u' Hu'. cbn in Hu'. injection Hu' as <-.
      rewrite Hx. f_equal. rewrite <- Hp_eq. now apply exact_eq.
    + intros e He. exists u. split; [reflexivity |].
      destruct Hes as [G | [_ ->]]; [| contradiction].
      now exists es.
    + intros v u0 Hv. apply older_cons. now apply I15.
    + exact I16.
    + exact I17.
  - unfold DijkstraSpec.potential.
    pose proof (Permutation_length Pm) as Hl. simpl in Hl.
    unfold undone.
    rewrite (sum_take (deg adj) done u nodes Hnodes Hn Hnd).
    assert (deg adj u = List.length es).
    { unfold deg. destruct Hes as [-> | [-> ->]]; reflexivity. }
    simpl List.length. lia.
Qed.

(** What is known when an entry of the node being relaxed is examined. *)
Lemma relax_facts (u : string) (done : list string) (e : adjEntry)
      (r : list adjEntry) (cur : Z) (dist : dict number)
      (prev : dict (option string)) (pq : heap) :
  inv (u :: done) (e :: r) cur dist prev pq ->
  entry_at adj u e /\
  0 <= wt e <= maxw /\ cur + wt e < 2 ^ 53 /\ 0 <= cur /\
  dist_at dist u = of_Z cur /\
  add (dist_at dist u) (weight e) = of_Z (cur + wt e) /\
  reach u cur /\
  In (adj_to e) nodes /\ adj_to e <> "__proto__"%string /\
  get adj (adj_to e) <> Inherited /\
  exists y, get_own dist (adj_to e) = Some y /\
            (y = Infinity \/ exact y).
Proof.
  intros I.
  destruct (i_pending _ _ _ _ _ _ _ _ _ _ I e (or_introl eq_refl))
    as [u' [Hu' He]].
  cbn in Hu'. injection Hu' as <-.
  destruct (Hweights u e He) as [Ew Hw].
  pose proof (exact_range _ Ew) as Rw. fold (wt e) in Rw.
  pose proof (i_cur _ _ _ _ _ _ _ _ _ _ I) as Hc.
  pose proof (done_bound (u :: done)
                         (i_done_nodup _ _ _ _ _ _ _ _ _ _ I)
                         (i_done_nodes _ _ _ _ _ _ _ _ _ _ I)) as Hb.
  pose proof (i_head _ _ _ _ _ _ _ _ _ _ I u eq_refl) as Hu.
  assert (Ec : exact (of_Z cur)) by (apply exact_of_Z; lia).
  assert (Hd : dist_at dist u = of_Z cur) by (unfold dist_at; now rewrite Hu).
  destruct (Hclosed u e He) as [_ Hv].
  destruct (Hheads u e He) as [Np Gv].
  destruct (i_own _ _ _ _ _ _ _ _ _ _ I _ Hv Np) as [Hown _].
  destruct (get_own dist (adj_to e)) as [y |] eqn:Hy; [| congruence].
  split; [exact He |]. split; [lia |]. split; [lia |]. split; [lia |].
  split; [exact Hd |]. split.
  { rewrite Hd. rewrite (exact_add _ _ Ec Ew); rewrite ival_of_Z by lia;
      [reflexivity | fold (wt e); lia]. }
  split.
  { destruct (i_dist _ _ _ _ _ _ _ _ _ _ I u _ Hu) as [E | [_ [_ R]]].
    - exfalso. rewrite E in Ec. now apply exact_not_Infinity.
    - rewrite ival_of_Z in R by lia. exact R. }
  split; [exact Hv |]. split; [exact Np |]. split; [congruence |].
  exists y. split; [reflexivity |].
  destruct (i_dist _ _ _ _ _ _ _ _ _ _ I _ _ Hy) as [E | [Ey _]];
    [now left | now right].
Qed.

(** An entry that does not improve its target is simply passed. *)
Lemma inv_skip (u : string) (done : list string) (e : adjEntry)
      (r : list adjEntry) (cur : Z) (dist : dict number)
      (prev : dict (option string)) (pq : heap) :
  inv (u :: done) (e :: r) cur dist prev pq ->
  lt (add (dist_at dist u) (weight e)) (dist_at dist (adj_to e)) = false ->
  inv (u :: done) r cur dist prev pq.
Proof.
  intros I Hlt.
  destruct (relax_facts u done e r cur dist prev pq I)
    as [He [Hw [Hb [Hc [Hd [Ha [Ru [Hv [Np [Hni [y [Hy Hyc]]]]]]]]]]]].
  rewrite Ha in Hlt. unfold dist_at in Hlt. rewrite Hy in Hlt.
  assert (Ealt : exact (of_Z (cur + wt e))) by (apply exact_of_Z; lia).
  assert (Ey : exact y /\ ival y <= cur + wt e).
  { destruct Hyc as [-> | Ey].
    - rewrite (exact_lt_Infinity _ Ealt) in Hlt. discriminate.
    - split; [exact Ey |]. rewrite (exact_lt _ _ Ealt Ey) in Hlt.
      rewrite ival_of_Z in Hlt by lia. apply Z.ltb_ge in Hlt. exact Hlt. }
  destruct Ey as [Ey Hyl].
  destruct I as [I1 I2 I3 I4 I5 I6 I7 I8 I9 I10 I11 I12 I13 I14 I15 I16 I17].
  constructor; auto.
  - intros u' Hu'. destruct (I12 u' Hu') as [x [Hx [Ex [Hxc [Hcl Hst]]]]].
    exists x. split; [exact Hx |]. split; [exact Ex |].
    split; [exact Hxc |]. split; [| exact Hst].
    intros e' He' Hpend.
    destruct (string_dec u' u) as [-> | Nu].
    + specialize (Hpend eq_refl).
      assert (Hxu : ival x = cur).
      { rewrite (I13 u eq_refl) in Hx. injection Hx as <-.
        rewrite ival_of_Z; lia. }
      destruct (In_dec_entry e' e) as [-> | Ne].
      * exists y. split; [exact Hy |]. split; [exact Ey | lia].
      * apply Hcl; [exact He' |]. intros _ [H | H]; [congruence | auto].
    + apply Hcl; [exact He' |]. intros H. cbn in H. congruence.
  - intros e' He'. apply I14. now right.
Qed.

(** An entry that improves its target: the new distance, the new
    predecessor and a new heap item. *)
Lemma inv_push (u : string) (done : list string) (e : adjEntry)
      (r : list adjEntry) (cur : Z) (dist : dict number)
      (prev : dict (option string)) (pq : heap) :
  inv (u :: done) (e :: r) cur dist prev pq ->
  lt (add (dist_at dist u) (weight e)) (dist_at dist (adj_to e)) = true ->
  inv (u :: done) r cur
      (set dist (adj_to e) (add (dist_at dist u) (weight e)))
      (set prev (adj_to e) (Some u))
      (push pq (mkItem (adj_to e) (add (dist_at dist u) (weight e)))) /\
  potential (u :: done) r
            (push pq (mkItem (adj_to e) (add (dist_at dist u) (weight e))))
  = potential (u :: done) (e :: r) pq.
Proof.
  intros I Hlt.
  destruct (relax_facts u done e r cur dist prev pq I)
    as [He [Hw [Hb [Hc [Hd [Ha [Ru [Hv [Np [Hni [y [Hy Hyc]]]]]]]]]]]].
  rewrite Ha in Hlt |- *. clear Ha.
  remember (adj_to e) as v eqn:Ev.
  remember (cur + wt e) as n eqn:En.
  unfold dist_at in Hlt. rewrite Hy in Hlt.
  assert (Ealt : exact (of_Z n)) by (apply exact_of_Z; lia).
  assert (Ialt : ival (of_Z n) = n) by (apply ival_of_Z; lia).
  assert (Hyn : forall x, get_own dist v = Some x -> exact x -> n < ival x).
  { intros x Hx Ex. rewrite Hy in Hx. injection Hx as <-.
    rewrite (exact_lt _ _ Ealt Ex) in Hlt. apply Z.ltb_lt in Hlt. lia. }
  destruct I as [I1 I2 I3 I4 I5 I6 I7 I8 I9 I10 I11 I12 I13 I14 I15 I16 I17].
  assert (Nvd : ~ In v (u :: done)).
  { intros Hin. destruct (I12 v Hin) as [x [Hx [Ex [Hxc _]]]].
    specialize (Hyn x Hx Ex). lia. }
  assert (Nvs : source <> v).
  { intros E. rewrite <- E in Hyn.
    assert (E0 : exact (of_Z 0)) by (apply exact_of_Z; lia).
    specialize (Hyn _ I6 E0). rewrite ival_of_Z in Hyn; lia. }
  assert (Nuv : u <> v) by (intros E; apply Nvd; left; exact E).
  set (new := mkItem v (of_Z n)).
  assert (Nnew : ~ In new pq).
  { intros Hi. destruct (I10 new Hi) as [_ [_ [_ [x [Hx [Ex Hk]]]]]].
    cbn [node new] in Hx. specialize (Hyn x Hx Ex).
    unfold key in Hk. cbn [priority new] in Hk. lia. }
  assert (Gnew : good new) by exact Ealt.
  destruct (push_ok key good key_le pq new I8 Gnew I7) as [Ho Pm].
  assert (Sub : forall x, In x (push pq new) -> x = new \/ In x pq).
  { intros x Hx. apply (Permutation_in x (Permutation_sym Pm)) in Hx.
    destruct Hx as [Hx | Hx]; [left; symmetry; exact Hx | now right]. }
  assert (Sup : forall x, In x pq -> In x (push pq new)).
  { intros x Hx. apply (Permutation_in x Pm). now right. }
  assert (Hnew : In new (push pq new)).
  { apply (Permutation_in new Pm). now left. }
  split.
  - constructor.
    + exact I1.
    + exact I2.
    + exact I3.
    + intros v' x Hx. destruct (string_dec v' v) as [-> | N].
      * rewrite get_own_set_same in Hx by exact Np. injection Hx as <-.
        right. split; [exact Ealt |]. rewrite Ialt. split; [lia |].
        rewrite En, Ev. now apply reach_step with (u := u).
      * rewrite get_own_set_other in Hx by exact N. exact (I4 v' x Hx).
    + intros v' Hn' Np'. destruct (I5 v' Hn' Np') as [A B].
      destruct (string_dec v' v) as [-> | N].
      * rewrite !get_own_set_same by exact Np. split; discriminate.
      * rewrite !get_own_set_other by exact N. now split.
    + rewrite get_own_set_other by exact Nvs. exact I6.
    + exact Ho.
    + apply (Permutation_Forall Pm). now constructor.
    + apply (Permutation_NoDup Pm). now constructor.
    + intros it Hi. destruct (Sub it Hi) as [-> | Hi'].
      * cbn [node new]. unfold key. cbn [priority new]. rewrite Ialt.
        split; [lia |]. split; [exact Hv |]. split; [right; exact Hni |].
        exists (of_Z n). split; [now apply get_own_set_same |].
        split; [exact Ealt | lia].
      * destruct (I10 it Hi') as [A [B [C [x [Hx [Ex Hk]]]]]].
        split; [exact A |]. split; [exact B |]. split; [exact C |].
        destruct (string_dec (node it) v) as [E | N].
        -- exists (of_Z n). rewrite E.
           split; [now apply get_own_set_same |]. split; [exact Ealt |].
           rewrite Ialt. rewrite E in Hx. specialize (Hyn x Hx Ex). lia.
        -- exists x. rewrite get_own_set_other by exact N. auto.
    + intros v' x Hx Fx. destruct (string_dec v' v) as [-> | N].
      * rewrite get_own_set_same in Hx by exact Np. injection Hx as <-.
        right. exact Hnew.
      * rewrite get_own_set_other in Hx by exact N.
        destruct (I11 v' x Hx Fx) as [H | H]; [now left | right; auto].
    + intros u' Hu'. destruct (I12 u' Hu') as [x [Hx [Ex [Hxc [Hcl Hst]]]]].
      assert (Nu' : u' <> v) by (intros E; apply Nvd; rewrite <- E; exact Hu').
      exists x. split; [rewrite get_own_set_other by exact Nu'; exact Hx |].
      split; [exact Ex |]. split; [exact Hxc |]. split.
      * intros e' He' Hpend.
        assert (Old : (u' = u /\ e' = e) \/
                      exists y', get_own dist (adj_to e') = Some y' /\
                                 exact y' /\ ival y' <= ival x + wt e').
        { destruct (string_dec u' u) as [-> | Nu].
          - destruct (In_dec_entry e' e) as [-> | Ne]; [left; auto |].
            right. apply Hcl; [exact He' |].
            intros _ [H | H]; [congruence | exact (Hpend eq_refl H)].
          - right. apply Hcl; [exact He' |]. intros H. cbn in H. congruence. }
        destruct Old as [[-> ->] | [y' [Hy' [Ey' Hl']]]].
        -- exists (of_Z n). rewrite <- Ev.
           split; [now apply get_own_set_same |]. split; [exact Ealt |].
           rewrite Ialt.
           assert (ival x = cur).
           { rewrite (I13 u eq_refl) in Hx. injection Hx as <-.
             rewrite ival_of_Z; lia. }
           lia.
        -- destruct (string_dec (adj_to e') v) as [E | N].
           ++ exists (of_Z n). rewrite E.
              split; [now apply get_own_set_same |]. split; [exact Ealt |].
              rewrite Ialt. rewrite E in Hy'. specialize (Hyn y' Hy' Ey'). lia.
           ++ exists y'. rewrite get_own_set_other by exact N. auto.
      * intros it Hi Eit. destruct (Sub it Hi) as [-> | Hi'].
        -- cbn [node new] in Eit. congruence.
        -- now apply Hst.
    + intros u' Hu'. cbn in Hu'. injection Hu' as <-.
      rewrite get_own_set_other by exact Nuv. now apply I13.
    + intros e' He'. apply I14. now right.
    + intros v' u0 Hp. destruct (string_dec v' v) as [-> | N].
      * rewrite get_own_set_same in Hp by exact Np. injection Hp as <-.
        exists [], done. split; [reflexivity | exact Nvd].
      * rewrite get_own_set_other in Hp by exact N. now apply I15.
    + intros v' u0 Hp. destruct (string_dec v' v) as [-> | N].
      * rewrite get_own_set_same in Hp by exact Np. injection Hp as <-.
        exists e, (of_Z cur), (of_Z n).
        split; [exact He |]. split; [symmetry; exact Ev |].
        split; [rewrite get_own_set_other by exact Nuv; now apply I13 |].
        split; [now apply get_own_set_same |].
        split; [apply exact_of_Z; lia |]. split; [exact Ealt |].
        rewrite Ialt, ival_of_Z by lia. lia.
      * rewrite get_own_set_other in Hp by exact N.
        destruct (I16 v' u0 Hp) as [e' [xu [xv [A [B [C [D F]]]]]]].
        exists e', xu, xv. split; [exact A |]. split; [exact B |].
        assert (Nu0 : u0 <> v).
        { intros E. apply Nvd. rewrite <- E.
          destruct (I15 v' u0 Hp) as [l1 [l2 [Ed _]]]. rewrite Ed.
          apply in_or_app. right. now left. }
        rewrite !get_own_set_other by assumption. auto.
    + intros v' x Hx Fx. destruct (string_dec v' v) as [-> | N].
      * right. exists u. now apply get_own_set_same.
      * rewrite get_own_set_other in Hx by exact N.
        destruct (I17 v' x Hx Fx) as [H | [u0 H]]; [now left | right].
        exists u0. now rewrite get_own_set_other by exact N.
  - unfold DijkstraSpec.potential.
    pose proof (Permutation_length Pm) as Hl. simpl in Hl |- *. lia.
Qed.

(** The whole [for] loop over the entries of the popped node. *)
Lemma relax_spec (u : string) (done : list string) (es : list adjEntry) :
  forall (cur : Z) (dist : dict number) (prev : dict (option string))
         (pq : heap),
    inv (u :: done) es cur dist prev pq ->
    exists dist' prev' pq',
      relax u es (dist, prev, pq) = (dist', prev', pq') /\
      inv (u :: done) [] cur dist' prev' pq' /\
      (potential (u :: done) [] pq' <= potential (u :: done) es pq)%nat.
Proof.
  induction es as [| e r IH]; intros cur dist prev pq I.
  - exists dist, prev, pq. split; [reflexivity |]. split; [exact I | lia].
  - cbn [relax].
    destruct (lt (add (dist_at dist u) (weight e)) (dist_at dist (adj_to e)))
      eqn:Hlt.
    + destruct (inv_push u done e r cur dist prev pq I Hlt) as [I' P'].
      destruct (IH _ _ _ _ I') as [d [p [q [E [I'' P'']]]]].
      exists d, p, q. split; [exact E |]. split; [exact I'' | lia].
    + pose proof (inv_skip u done e r cur dist prev pq I Hlt) as I'.
      destruct (IH _ _ _ _ I') as [d [p [q [E [I'' P'']]]]].
      exists d, p, q. split; [exact E |]. split; [exact I'' |].
      unfold DijkstraSpec.potential in *. simpl List.length. lia.
Qed.

Lemma pop_None (pq : heap) : pop pq = None -> pq = [].
Proof.
  destruct pq as [| a r]; [reflexivity |]. unfold pop.
  destruct (nth_error (swap (a :: r) 0 (List.length (a :: r) - 1))
                      (List.length (a :: r) - 1)) eqn:E; [discriminate |].
  apply nth_error_None in E. rewrite length_swap in E. simpl in E. lia.
Qed.

(** The [while] loop returns, and the distance it leaves at the target is
    at most the weight of every walk from the source. *)
Lemma main_loop_spec (fuel : nat) :
  forall (done : list string) (cur : Z) (dist : dict number)
         (prev : dict (option string)) (pq : heap),
    inv done [] cur dist prev pq ->
    (potential done [] pq <= fuel)%nat ->
    exists dist' prev' done' cur' pq',
      main_loop fuel adj target (dist, prev, pq) = Return (dist', prev') /\
      inv done' [] cur' dist' prev' pq' /\
      (forall L, reach target L ->
         exists x, get_own dist' target = Some x /\ exact x /\ ival x <= L).
Proof.
  induction fuel as [| f IH]; intros done cur dist prev pq I Hpot.
  - assert (E : pq = []).
    { unfold DijkstraSpec.potential in Hpot.
      destruct pq; [reflexivity | simpl in Hpot; lia]. }
    subst pq. exists dist, prev, done, cur, []. split; [reflexivity |].
    split; [exact I |]. intros L R.
    destruct (frontier done cur dist prev [] (L + 1) I) with (v := target)
                                                            (L := L)
      as [H | H]; [intros it [] | exact R | exact H | lia].
  - cbn [main_loop]. destruct (pop pq) as [[it pq'] |] eqn:Hp.
    + destruct (gt (priority it) (dist_at dist (node it))) eqn:Hs.
      * destruct (inv_stale done cur dist prev pq pq' it I Hp Hs) as [I' P'].
        apply (IH done cur); [exact I' | lia].
      * destruct (String.eqb (node it) target) eqn:Et.
        -- apply String.eqb_eq in Et.
           exists dist, prev, done, cur, pq. split; [reflexivity |].
           split; [exact I |]. intros L R.
           destruct (pop_perm pq pq' it (i_heap _ _ _ _ _ _ _ _ _ _ I)
                              (i_good _ _ _ _ _ _ _ _ _ _ I) Hp)
             as [Pm [_ Hmin]].
           assert (Hit : In it pq).
           { apply (Permutation_in it (Permutation_sym Pm)). now left. }
           destruct (i_items _ _ _ _ _ _ _ _ _ _ I it Hit)
             as [_ [_ [_ [x [Hx [Ex Hk]]]]]].
           rewrite Et in Hx.
           destruct (frontier done cur dist prev pq (key it) I Hmin target L R)
             as [H | H]; [exact H |].
           exists x. split; [exact Hx |]. split; [exact Ex | lia].
        -- apply String.eqb_neq in Et.
           destruct (get adj (node it)) as [es | |] eqn:G.
           ++ destruct (inv_take done cur dist prev pq pq' it es I Hp Hs
                                 (or_introl G)) as [I' P'].
              destruct (relax_spec _ _ _ _ _ _ _ I')
                as [d [p [q [E [I'' P'']]]]].
              rewrite E. apply (IH (node it :: done) (key it));
                [exact I'' | lia].
           ++ exfalso.
              destruct (pop_perm pq pq' it (i_heap _ _ _ _ _ _ _ _ _ _ I)
                                 (i_good _ _ _ _ _ _ _ _ _ _ I) Hp)
                as [Pm _].
              assert (Hit : In it pq).
              { apply (Permutation_in it (Permutation_sym Pm)). now left. }
              destruct (i_items _ _ _ _ _ _ _ _ _ _ I it Hit)
                as [_ [_ [[Es | Hn] _]]]; [| congruence].
              destruct Hsource_adj as [Est | Hn]; congruence.
           ++ destruct (inv_take done cur dist prev pq pq' it [] I Hp Hs
                                 (or_intror (conj G eq_refl))) as [I' P'].
              apply (IH (node it :: done) (key it)); [exact I' | lia].
    + apply pop_None in Hp. subst pq.
      exists dist, prev, done, cur, []. split; [reflexivity |].
      split; [exact I |]. intros L R.
      destruct (frontier done cur dist prev [] (L + 1) I) with (v := target)
                                                              (L := L)
        as [H | H]; [intros it [] | exact R | exact H | lia].
Qed.

(** The tables before the first turn of the loop. *)
Lemma inv_start :
  inv [] [] 0
      (set (fold_left (fun d n => set d n Infinity) nodes []) source pzero)
      (fold_left (fun p n => set p n None) nodes [])
      (push [] (mkItem source pzero)).
Proof.
  assert (E0 : exact pzero) by (apply (exact_of_Z 0); lia).
  assert (I0 : ival pzero = 0) by reflexivity.
  change (push [] (mkItem source pzero)) with [mkItem source pzero].
  constructor.
  - simpl. lia.
  - constructor.
  - intros v [].
  - intros v x Hx. destruct (string_dec v source) as [-> | N].
    + rewrite get_own_set_same in Hx by exact Hsource_np. injection Hx as <-.
      right. split; [exact E0 |]. rewrite I0. split; [lia | constructor].
    + rewrite get_own_set_other in Hx by exact N.
      destruct (get_own_fold_inv _ _ _ _ _ Hx) as [E | E];
        [now left | rewrite get_own_nil in E; discriminate E].
  - intros v Hv Np. split.
    + destruct (string_dec v source) as [-> | N].
      * rewrite get_own_set_same by exact Np. discriminate.
      * rewrite get_own_set_other by exact N.
        rewrite (get_own_fold _ Infinity nodes v Np Hv). discriminate.
    + rewrite (get_own_fold _ None nodes v Np Hv). discriminate.
  - now apply get_own_set_same.
  - intros j x y Hj Hy _. destruct j; [lia |]. destruct j; discriminate Hy.
  - constructor; [exact E0 | constructor].
  - constructor; [intros [] | constructor].
  - intros it [<- | []]. cbn [node]. unfold key. cbn [priority]. rewrite I0.
    split; [lia |]. split; [exact Hsource |]. split; [now left |].
    exists pzero. split; [now apply get_own_set_same |].
    split; [exact E0 | rewrite I0; lia].
  - intros v x Hx Fx. right. destruct (string_dec v source) as [-> | N].
    + rewrite get_own_set_same in Hx by exact Hsource_np. injection Hx as <-.
      now left.
    + rewrite get_own_set_other in Hx by exact N.
      destruct (get_own_fold_inv _ _ _ _ _ Hx) as [E | E];
        [subst x; discriminate Fx | rewrite get_own_nil in E; discriminate E].
  - intros u [].
  - intros u H. discriminate H.
  - intros e [].
  - intros v u Hp.
    destruct (get_own_fold_inv _ _ _ _ _ Hp) as [E | E];
      [discriminate E | rewrite get_own_nil in E; discriminate E].
  - intros v u Hp.
    destruct (get_own_fold_inv _ _ _ _ _ Hp) as [E | E];
      [discriminate E | rewrite get_own_nil in E; discriminate E].
  - intros v x Hx Fx. destruct (string_dec v source) as [-> | N];
      [now left |].
    rewrite get_own_set_other in Hx by exact N.
    destruct (get_own_fold_inv _ _ _ _ _ Hx) as [E | E];
      [contradiction | rewrite get_own_nil in E; discriminate E].
Qed.

(** In a list split at [v] and at [u], with no [v] from [u] on, [u] comes
    after [v]. *)
Lemma split_later (v u : string) (l2 l2' : list string) :
  forall l1 l1' : list string,
    (l1 ++ v :: l2 = l1' ++ u :: l2')%list -> ~ In v (u :: l2') ->
    (List.length l2' < List.length l2)%nat.
Proof.
  induction l1 as [| a r IH]; intros [| b r'] E N.
  - exfalso. apply N. left. simpl in E. congruence.
  - simpl in E. injection E as _ E. rewrite E, length_app. simpl. lia.
  - exfalso. apply N. right. simpl in E. injection E as _ E.
    rewrite <- E. apply in_or_app. right. now left.
  - simpl in E. injection E as _ E. exact (IH r' E N).
Qed.

Lemma get_own_of_get {V : Type} (d : dict V) (k : string) :
  get_own d k = match get d k with Own v => Some v | _ => None end.
Proof. reflexivity. Qed.

(** The path loop, started at a node taken from the heap, ends. *)
Lemma walk_done (bare : bool) (done : list string) (cur : Z)
      (dist : dict number) (prev : dict (option string)) (pq : heap) :
  inv done [] cur dist prev pq ->
  forall (k : nat) (v : string) (acc : list cursor)
         (l1 l2 : list string),
    done = (l1 ++ v :: l2)%list -> (List.length l2 <= k)%nat ->
    exists p, Dijkstra.walk (S k) bare prev (CNode v) acc = Return p.
Proof.
  intros I. induction k as [| k IH]; intros v acc l1 l2 E Hk.
  - assert (Hv : In v done) by (rewrite E; apply in_or_app; right; now left).
    destruct (i_done _ _ _ _ _ _ _ _ _ _ I v Hv) as [x [Hx _]].
    pose proof (get_own_Some_not_proto _ _ _ Hx) as Np.
    destruct (i_own _ _ _ _ _ _ _ _ _ _ I v
                    (i_done_nodes _ _ _ _ _ _ _ _ _ _ I v Hv) Np) as [_ Hp].
    pose proof (i_prev _ _ _ _ _ _ _ _ _ _ I v) as Hold.
    rewrite get_own_of_get in Hp, Hold.
    cbn [Dijkstra.walk]. unfold prev_at. cbn [cursor_key].
    destruct (get prev v) as [[u |] | |] eqn:G;
      [| eexists; reflexivity | congruence | congruence].
    exfalso. destruct (Hold u eq_refl) as [l1' [l2' [E' N]]].
    rewrite E in E'. pose proof (split_later _ _ _ _ _ _ E' N). lia.
  - assert (Hv : In v done) by (rewrite E; apply in_or_app; right; now left).
    destruct (i_done _ _ _ _ _ _ _ _ _ _ I v Hv) as [x [Hx _]].
    pose proof (get_own_Some_not_proto _ _ _ Hx) as Np.
    destruct (i_own _ _ _ _ _ _ _ _ _ _ I v
                    (i_done_nodes _ _ _ _ _ _ _ _ _ _ I v Hv) Np) as [_ Hp].
    pose proof (i_prev _ _ _ _ _ _ _ _ _ _ I v) as Hold.
    rewrite get_own_of_get in Hp, Hold.
    change (Dijkstra.walk (S (S k)) bare prev (CNode v) acc)
      with (Dijkstra.walk (S k) bare prev (prev_at bare prev (CNode v))
                          (CNode v :: acc)).
    unfold prev_at. cbn [cursor_key].
    destruct (get prev v) as [[u |] | |] eqn:G;
      [| eexists; reflexivity | congruence | congruence].
    destruct (Hold u eq_refl) as [l1' [l2' [E' N]]].
    apply (IH u _ l1' l2' E').
    rewrite E in E'. pose proof (split_later _ _ _ _ _ _ E' N). lia.
Qed.

(** The path loop, started at a target among the nodes, ends. *)
Lemma walk_target (bare : bool) (done : list string) (cur : Z)
      (dist : dict number) (prev : dict (option string)) (pq : heap) :
  inv done [] cur dist prev pq ->
  In target nodes -> target <> "__proto__"%string ->
  exists p, forall fuel, (2 + List.length nodes <= fuel)%nat ->
    Dijkstra.walk fuel bare prev (CNode target) [] = Return p.
Proof.
  intros I Ht Np.
  assert (Hlen : (List.length done <= List.length nodes)%nat).
  { apply NoDup_incl_length;
      [exact (i_done_nodup _ _ _ _ _ _ _ _ _ _ I)
      | exact (i_done_nodes _ _ _ _ _ _ _ _ _ _ I)]. }
  assert (G : exists p,
             Dijkstra.walk (2 + List.length nodes) bare prev (CNode target) []
             = Return p).
  { destruct (i_own _ _ _ _ _ _ _ _ _ _ I target Ht Np) as [_ Hp].
    pose proof (i_prev _ _ _ _ _ _ _ _ _ _ I target) as Hold.
    rewrite get_own_of_get in Hp, Hold.
    change (Dijkstra.walk (2 + List.length nodes) bare prev (CNode target) [])
      with (Dijkstra.walk (S (List.length nodes)) bare prev
                          (prev_at bare prev (CNode target)) [CNode target]).
    unfold prev_at. cbn [cursor_key].
    destruct (get prev target) as [[u |] | |] eqn:G;
      [| eexists; reflexivity | congruence | congruence].
    destruct (Hold u eq_refl) as [l1 [l2 [E N]]].
    apply (walk_done bare done cur dist prev pq I _ u _ l1 l2 E).
    rewrite E, length_app in Hlen. simpl in Hlen. lia. }
  destruct G as [p Hp]. exists p. intros fuel Hf.
  set (n := (2 + List.length nodes)%nat) in *.
  replace fuel with (n + (fuel - n))%nat by lia.
  apply FuelFacts.walk_more; [exact Hp | discriminate].
Qed.

(** The engine returns, and the distance it returns is the least weight of
    a walk from the source to the target. *)
Lemma dijkstraPQ_spec (keys : dict nat) (directed : bool) (L0 : Z) :
  is_empty source = false -> is_empty target = false ->
  In target nodes -> target <> "__proto__"%string ->
  reach target L0 ->
  exists fuel0 r,
    (forall fuel, (fuel0 <= fuel)%nat ->
       dijkstraPQ fuel (Some adj) keys directed source target nodes
       = Return r) /\
    exact (distance r) /\ reach target (ival (distance r)) /\
    forall L, reach target L -> ival (distance r) <= L.
Proof.
  intros Es Et Ht Np R0.
  set (P := potential [] [] (push [] (mkItem source pzero))).
  destruct (main_loop_spec P [] 0 _ _ _ inv_start (le_n P))
    as [d [p [dn [c [q [Em [I Opt]]]]]]].
  destruct (Opt L0 R0) as [x [Hx [Ex Hxl]]].
  destruct (i_dist _ _ _ _ _ _ _ _ _ _ I target x Hx) as [E | [_ [_ Rx]]].
  { exfalso. rewrite E in Ex. now apply exact_not_Infinity. }
  destruct (walk_target (has_proto nodes) dn c d p q I Ht Np) as [pth Hw].
  exists (P + (2 + List.length nodes))%nat,
         (mkResult x pth (edge_ids keys directed pth)).
  split; [| split; [exact Ex | split; [exact Rx |]]].
  - intros fuel Hf. unfold dijkstraPQ. rewrite Es, Et. cbn [orb].
    assert (M : main_loop fuel adj target (init_tables source nodes)
                = Return (d, p)).
    { replace fuel with (P + (fuel - P))%nat by lia.
      apply FuelFacts.main_loop_more; [exact Em | discriminate]. }
    rewrite M. cbn [bind]. unfold dist_at. rewrite Hx.
    rewrite (exact_finite x Ex). cbn [negb].
    rewrite (Hw fuel) by lia. reflexivity.
  - intros L R. destruct (Opt L R) as [x' [Hx' [_ Hl]]].
    cbn [distance]. congruence.
Qed.

(** The path loop walks the predecessors back to the source, and the
    entries it passes weigh what the distances say. *)
Lemma walk_chain (bare : bool) (done : list string) (cur : Z)
      (dist : dict number) (prev : dict (option string)) (pq : heap)
      (T : Z) :
  inv done [] cur dist prev pq ->
  forall (k : nat) (v : string) (l l1 l2 : list string) (L : Z)
         (xv : number),
    done = (l1 ++ v :: l2)%list -> (List.length l2 <= k)%nat ->
    chain adj (v :: l) L ->
    get_own dist v = Some xv -> exact xv -> L + ival xv = T ->
    exists l',
      Dijkstra.walk (S k) bare prev (CNode v) (map CNode l)
      = Return (map CNode l') /\
      chain adj l' T /\ hd_error l' = Some source /\
      last l' ""%string = last (v :: l) ""%string.
Proof.
  intros I. induction k as [| k IH]; intros v l l1 l2 L xv E Hk C Hx Ex HT.
  - assert (Hv : In v done) by (rewrite E; apply in_or_app; right; now left).
    pose proof (get_own_Some_not_proto _ _ _ Hx) as Np.
    destruct (i_own _ _ _ _ _ _ _ _ _ _ I v
                    (i_done_nodes _ _ _ _ _ _ _ _ _ _ I v Hv) Np) as [_ Hp].
    pose proof (i_prev _ _ _ _ _ _ _ _ _ _ I v) as Hold.
    pose proof (i_root _ _ _ _ _ _ _ _ _ _ I v xv Hx) as Hroot.
    rewrite get_own_of_get in Hp, Hold, Hroot.
    cbn [Dijkstra.walk]. unfold prev_at. cbn [cursor_key].
    destruct (get prev v) as [[u |] | |] eqn:G; [| | congruence | congruence].
    + exfalso. destruct (Hold u eq_refl) as [l1' [l2' [E' N]]].
      rewrite E in E'. pose proof (split_later _ _ _ _ _ _ E' N). lia.
    + exists (v :: l). split; [reflexivity |].
      destruct Hroot as [Es | [u Hu]]; [| | discriminate Hu].
      { intros Ei. rewrite Ei in Ex. now apply exact_not_Infinity. }
      subst v. rewrite (i_src _ _ _ _ _ _ _ _ _ _ I) in Hx.
      assert (E0 : ival xv = 0) by (injection Hx as <-; reflexivity).
      replace T with L by lia. auto.
  - assert (Hv : In v done) by (rewrite E; apply in_or_app; right; now left).
    pose proof (get_own_Some_not_proto _ _ _ Hx) as Np.
    destruct (i_own _ _ _ _ _ _ _ _ _ _ I v
                    (i_done_nodes _ _ _ _ _ _ _ _ _ _ I v Hv) Np) as [_ Hp].
    pose proof (i_prev _ _ _ _ _ _ _ _ _ _ I v) as Hold.
    pose proof (i_link _ _ _ _ _ _ _ _ _ _ I v) as Hlink.
    pose proof (i_root _ _ _ _ _ _ _ _ _ _ I v xv Hx) as Hroot.
    rewrite get_own_of_get in Hp, Hold, Hlink, Hroot.
    change (Dijkstra.walk (S (S k)) bare prev (CNode v) (map CNode l))
      with (Dijkstra.walk (S k) bare prev (prev_at bare prev (CNode v))
                          (map CNode (v :: l))).
    unfold prev_at. cbn [cursor_key].
    destruct (get prev v) as [[u |] | |] eqn:G; [| | congruence | congruence].
    + destruct (Hold u eq_refl) as [l1' [l2' [E' N]]].
      destruct (Hlink u eq_refl)
        as [e [xu [xv' [He [Ee [Hxu [Hxv [Exu [_ Hsum]]]]]]]]].
      rewrite Hx in Hxv. injection Hxv as <-.
      assert (C' : chain adj (u :: v :: l) (wt e + L)).
      { rewrite <- Ee in *. now apply chain_cons. }
      destruct (IH u (v :: l) l1' l2' (wt e + L) xu E') as [l' [W [C'' [Hh Hl]]]];
        [rewrite E in E'; pose proof (split_later _ _ _ _ _ _ E' N); lia
        | exact C' | exact Hxu | exact Exu | lia |].
      exists l'. split; [exact W |]. split; [exact C'' |].
      split; [exact Hh |]. rewrite Hl. reflexivity.
    + exists (v :: l). split; [reflexivity |].
      destruct Hroot as [Es | [u Hu]]; [| | discriminate Hu].
      { intros Ei. rewrite Ei in Ex. now apply exact_not_Infinity. }
      subst v. rewrite (i_src _ _ _ _ _ _ _ _ _ _ I) in Hx.
      assert (E0 : ival xv = 0) by (injection Hx as <-; reflexivity).
      replace T with L by lia. auto.
Qed.

(** The path loop from the target: the path it returns leads from the
    source to the target and weighs the distance found. *)
Lemma walk_target_chain (bare : bool) (done : list string) (cur : Z)
      (dist : dict number) (prev : dict (option string)) (pq : heap)
      (x : number) :
  inv done [] cur dist prev pq ->
  In target nodes -> target <> "__proto__"%string ->
  get_own dist target = Some x -> exact x ->
  exists l,
    (forall fuel, (2 + List.length nodes <= fuel)%nat ->
       Dijkstra.walk fuel bare prev (CNode target) [] = Return (map CNode l))
    /\ chain adj l (ival x) /\ hd_error l = Some source /\
    last l ""%string = target.
Proof.
  intros I Ht Np Hx Ex.
  assert (Hlen : (List.length done <= List.length nodes)%nat).
  { apply NoDup_incl_length;
      [exact (i_done_nodup _ _ _ _ _ _ _ _ _ _ I)
      | exact (i_done_nodes _ _ _ _ _ _ _ _ _ _ I)]. }
  assert (G : exists l,
             Dijkstra.walk (2 + List.length nodes) bare prev (CNode target) []
             = Return (map CNode l) /\
             chain adj l (ival x) /\ hd_error l = Some source /\
             last l ""%string = target).
  { destruct (i_own _ _ _ _ _ _ _ _ _ _ I target Ht Np) as [_ Hp].
    pose proof (i_prev _ _ _ _ _ _ _ _ _ _ I target) as Hold.
    pose proof (i_link _ _ _ _ _ _ _ _ _ _ I target) as Hlink.
    pose proof (i_root _ _ _ _ _ _ _ _ _ _ I target x Hx) as Hroot.
    rewrite get_own_of_get in Hp, Hold, Hlink, Hroot.
    change (Dijkstra.walk (2 + List.length nodes) bare prev (CNode target) [])
      with (Dijkstra.walk (S (List.length nodes)) bare prev
                          (prev_at bare prev (CNode target))
                          (map CNode [target])).
    unfold prev_at. cbn [cursor_key].
    destruct (get prev target) as [[u |] | |] eqn:G;
      [| | congruence | congruence].
    - destruct (Hold u eq_refl) as [l1 [l2 [E N]]].
      destruct (Hlink u eq_refl)
        as [e [xu [xv' [He [Ee [Hxu [Hxv [Exu [_ Hsum]]]]]]]]].
      rewrite Hx in Hxv. injection Hxv as <-.
      assert (C : chain adj [u; target] (wt e + 0)).
      { rewrite <- Ee. apply chain_cons; [exact He | constructor]. }
      destruct (walk_chain bare done cur dist prev pq (ival x) I
                           (List.length nodes) u [target] l1 l2 (wt e + 0)
                           xu E) as [l' [W [C' [Hh Hl]]]];
        [rewrite E, length_app in Hlen; simpl in Hlen; lia
        | exact C | exact Hxu | exact Exu | lia |].
      exists l'. split; [exact W |]. split; [exact C' |].
      split; [exact Hh | exact Hl].
    - exists [target]. split; [reflexivity |].
      destruct Hroot as [Es | [u Hu]]; [| | discriminate Hu].
      { intros Ei. rewrite Ei in Ex. now apply exact_not_Infinity. }
      rewrite Es in *. rewrite (i_src _ _ _ _ _ _ _ _ _ _ I) in Hx.
      assert (E0 : ival x = 0) by (injection Hx as <-; reflexivity).
      rewrite E0. split; [constructor | split; reflexivity]. }
  destruct G as [l [Hw [C [Hh Hl]]]]. exists l.
  split; [| split; [exact C | split; [exact Hh | exact Hl]]].
  intros fuel Hf. set (n := (2 + List.length nodes)%nat) in *.
  replace fuel with (n + (fuel - n))%nat by lia.
  apply FuelFacts.walk_more; [exact Hw | discriminate].
Qed.

(** The engine on natural weights: it returns, the path leads from the
    source to the target along entries, the distance is the weight of the
    path, and no walk from the source to the target weighs less. *)
Lemma dijkstraPQ_path (keys : dict nat) (directed : bool) (L0 : Z) :
  is_empty source = false -> is_empty target = false ->
  In target nodes -> target <> "__proto__"%string ->
  reach target L0 ->
  exists fuel0 r l,
    (forall fuel, (fuel0 <= fuel)%nat ->
       dijkstraPQ fuel (Some adj) keys directed source target nodes
       = Return r) /\
    path r = map CNode l /\
    edgeIds r = edge_ids keys directed (map CNode l) /\
    hd_error l = Some source /\ last l ""%string = target /\
    exact (distance r) /\ chain adj l (ival (distance r)) /\
    forall L, reach target L -> ival (distance r) <= L.
Proof.
  intros Es Et Ht Np R0.
  set (P := potential [] [] (push [] (mkItem source pzero))).
  destruct (main_loop_spec P [] 0 _ _ _ inv_start (le_n P))
    as [d [p [dn [c [q [Em [I Opt]]]]]]].
  destruct (Opt L0 R0) as [x [Hx [Ex Hxl]]].
  destruct (walk_target_chain (has_proto nodes) dn c d p q x I Ht Np Hx Ex)
    as [l [Hw [C [Hh Hl]]]].
  exists (P + (2 + List.length nodes))%nat,
         (mkResult x (map CNode l) (edge_ids keys directed (map CNode l))),
         l.
  split; [| split; [reflexivity | split; [reflexivity |]]].
  - intros fuel Hf. unfold dijkstraPQ. rewrite Es, Et. cbn [orb].
    assert (M : main_loop fuel adj target (init_tables source nodes)
                = Return (d, p)).
    { replace fuel with (P + (fuel - P))%nat by lia.
      apply FuelFacts.main_loop_more; [exact Em | discriminate]. }
    rewrite M. cbn [bind]. unfold dist_at. rewrite Hx.
    rewrite (exact_finite x Ex). cbn [negb].
    rewrite (Hw fuel) by lia. reflexivity.
  - cbn [distance]. split; [exact Hh |]. split; [exact Hl |].
    split; [exact Ex |]. split; [exact C |].
    intros L R. destruct (Opt L R) as [x' [Hx' [_ Hle]]]. congruence.
Qed.

(** Without a walk from the source to the target the engine returns the
    empty result. *)
Lemma dijkstraPQ_no_walk (keys : dict nat) (directed : bool) :
  is_empty source = false -> is_empty target = false ->
  (forall L, ~ reach target L) ->
  exists fuel0,
    forall fuel, (fuel0 <= fuel)%nat ->
      dijkstraPQ fuel (Some adj) keys directed source target nodes
      = Return empty_result.
Proof.
  intros Es Et Hno.
  set (P := potential [] [] (push [] (mkItem source pzero))).
  destruct (main_loop_spec P [] 0 _ _ _ inv_start (le_n P))
    as [d [p [dn [c [q [Em [I _]]]]]]].
  exists P. intros fuel Hf. unfold dijkstraPQ. rewrite Es, Et. cbn [orb].
  assert (M : main_loop fuel adj target (init_tables source nodes)
              = Return (d, p)).
  { replace fuel with (P + (fuel - P))%nat by lia.
    apply FuelFacts.main_loop_more; [exact Em | discriminate]. }
  rewrite M. cbn [bind]. unfold dist_at.
  destruct (get_own d target) as [x |] eqn:Hx; [| reflexivity].
  destruct (i_dist _ _ _ _ _ _ _ _ _ _ I target x Hx) as [-> | [_ [_ R]]];
    [reflexivity |].
  exfalso. exact (Hno _ R).
Qed.

End Run.

(** A walk can be extended at its first node. *)
Lemma reach_cons (adj : dict (list adjEntry)) (s : string) (e : adjEntry) :
  entry_at adj s e ->
  forall t L, reach adj (adj_to e) t L -> reach adj s t (wt e + L).
Proof.
  intros He t L R. induction R as [| u L e' R IH He'].
  - replace (wt e + 0) with (0 + wt e) by lia.
    apply reach_step with (u := s); [constructor | exact He].
  - replace (wt e + (L + wt e')) with (wt e + L + wt e') by lia.
    now apply reach_step with (u := u).
Qed.

(** In an undirected graph a walk can be walked backwards. *)
Lemma reach_sym (adj : dict (list adjEntry)) (s : string) :
  undirected adj -> forall t L, reach adj s t L -> reach adj t s L.
Proof.
  intros Hm t L R. induction R as [| u L e R IH He].
  - constructor.
  - replace (L + wt e) with (wt (mkAdj u (weight e) (edgeId e)) + L)
      by (unfold wt; cbn [weight]; lia).
    apply reach_cons; [exact (Hm u e He) | exact IH].
Qed.

Lemma walk_reach (adj : dict (list adjEntry)) (x y : string) :
  Graph.walk adj any_edge x y -> exists L, reach adj x y L.
Proof.
  intros W. induction W as [u | u e v He _ W [L IH]].
  - exists 0. constructor.
  - exists (wt e + L). now apply reach_cons.
Qed.

Lemma reach_end_own (adj : dict (list adjEntry)) (s : string) :
  undirected adj ->
  forall t L, reach adj s t L -> s = t \/ exists es, get adj t = Own es.
Proof.
  intros Hm t L R. destruct R as [| u L e R He]; [now left | right].
  destruct (Hm u e He) as [es [G _]]. now exists es.
Qed.

Lemma own_not_proto (adj : dict (list adjEntry)) (t : string)
      (es : list adjEntry) :
  get adj t = Own es -> t <> "__proto__"%string /\ get adj t <> Inherited.
Proof. intros G. split; [intros ->; discriminate G | congruence]. Qed.

(** In an undirected graph the far end of an entry has entries of its
    own. *)
Lemma mirror_heads (adj : dict (list adjEntry)) :
  undirected adj ->
  forall u e, entry_at adj u e ->
    adj_to e <> "__proto__"%string /\ get adj (adj_to e) <> Inherited.
Proof.
  intros Hm u e He. destruct (Hm u e He) as [es [G _]]. cbn [adj_to] in G.
  exact (own_not_proto _ _ _ G).
Qed.

(** Source and target [__proto__]: no table holds the key, so the distance
    read back is not a finite number. *)
Lemma dijkstraPQ_proto (adj : dict (list adjEntry)) (keys : dict nat)
      (directed : bool) (nodes : list string) (fuel : nat) :
  dijkstraPQ (S fuel) (Some adj) keys directed "__proto__" "__proto__" nodes
  = Return empty_result.
Proof. reflexivity. Qed.

(** A chain is a walk with its weight. *)
Lemma chain_reach (adj : dict (list adjEntry)) (s : string)
      (l : list string) (L : Z) :
  chain adj l L ->
  forall u L0, hd_error l = Some u -> reach adj s u L0 ->
               reach adj s (last l ""%string) (L0 + L).
Proof.
  intros C. induction C as [v | v e rest L He C IH]; intros u L0 Hh R.
  - injection Hh as <-. cbn [last]. now rewrite Z.add_0_r.
  - injection Hh as <-.
    change (last (v :: adj_to e :: rest) ""%string)
      with (last (adj_to e :: rest) ""%string).
    replace (L0 + (wt e + L)) with ((L0 + wt e) + L) by lia.
    apply (IH (adj_to e)); [reflexivity |]. exact (reach_step adj s v L0 e R He).
Qed.

Lemma reach_walk (adj : dict (list adjEntry)) (s v : string) (L : Z) :
  reach adj s v L -> Graph.walk adj any_edge s v.
Proof.
  intros R. induction R as [| u L e _ IH He]; [constructor |].
  exact (PrimFacts.walk_snoc adj any_edge s u e IH He I).
Qed.

(** Names that are all the map's own: no entry leads to an inherited
    name. *)
Lemma own_heads (adj : dict (list adjEntry)) (nodes : list string) :
  closed adj nodes -> Claims.own_names adj nodes ->
  forall u e, entry_at adj u e ->
    adj_to e <> "__proto__"%string /\ get adj (adj_to e) <> Inherited.
Proof.
  intros Hc Ho u e He. destruct (Hc u e He) as [_ Hv].
  pose proof (Ho _ Hv) as N. split; [| exact N].
  intros E. apply DictFacts.get_not_proto in N. rewrite E in N.
  discriminate N.
Qed.

Lemma natural_exact (adj : dict (list adjEntry)) (nodes : list string)
      (maxw : Z) :
  Claims.natural_weights adj maxw ->
  (Z.of_nat (List.length nodes) + 1) * (Z.max 0 maxw) < 2 ^ 53 ->
  forall u e, entry_at adj u e ->
              exact (weight e) /\ wt e <= Z.max 0 maxw.
Proof.
  intros Hn Hb u e He. destruct (Hn u e He) as [n [Hr E]].
  assert (n < 2 ^ 53) by nia. unfold wt. rewrite E.
  split; [apply exact_of_Z; lia | rewrite ival_of_Z; lia].
Qed.

Lemma max_bound (n maxw : Z) :
  0 <= n -> (n + 1) * maxw < 2 ^ 53 -> (n + 1) * Z.max 0 maxw < 2 ^ 53.
Proof.
  intros Hn Hb. destruct (Z.max_spec 0 maxw) as [[_ ->] | [_ ->]]; lia.
Qed.

Lemma normalizeKey_nodes (a b : string) (d : bool) :
  normalizeKey (CNode a) (CNode b) d = normalizeEdgeKey a b d.
Proof. reflexivity. Qed.

(** Where the key of every entry is in the key table, the edge-id loop
    finds an id at every step of a chain, under the key of the step. *)
Lemma edge_ids_chain (adj : dict (list adjEntry)) (keys : dict nat)
      (d : bool) :
  (forall u e, entry_at adj u e ->
     exists j, get_own keys (normalizeEdgeKey u (adj_to e) d) = Some j) ->
  forall l L, chain adj l L ->
    Forall2 (fun ab j =>
               get_own keys (normalizeEdgeKey (fst ab) (snd ab) d) = Some j)
            (steps l) (edge_ids keys d (map CNode l)).
Proof.
  intros Hk l L C. induction C as [u | u e rest L He C IH].
  - constructor.
  - destruct (Hk u e He) as [j Hj].
    change (steps (u :: adj_to e :: rest))
      with ((u, adj_to e) :: steps (adj_to e :: rest)).
    change (map CNode (u :: adj_to e :: rest))
      with (CNode u :: CNode (adj_to e) :: map CNode rest).
    cbn [edge_ids]. rewrite normalizeKey_nodes, Hj.
    constructor; [exact Hj | exact IH].
Qed.

(** The engine on a graph with natural weights whose names are all own:
    the path returned leads from the source to the target along entries,
    the distance is the weight of that path, and no chain of entries from
    the source to the target weighs less. *)
Lemma engine_shortest (adj : dict (list adjEntry)) (nodes : list string)
      (keys : dict nat) (directed : bool) (maxw : Z)
      (source target : string) :
  NoDup nodes -> closed adj nodes -> Claims.own_names adj nodes ->
  Claims.natural_weights adj maxw ->
  (Z.of_nat (List.length nodes) + 1) * maxw < 2 ^ 53 ->
  In source nodes -> In target nodes ->
  is_empty source = false -> is_empty target = false ->
  Graph.walk adj any_edge source target ->
  exists fuel0 r l,
    (forall fuel, (fuel0 <= fuel)%nat ->
       dijkstraPQ fuel (Some adj) keys directed source target nodes
       = Return r) /\
    path r = map CNode l /\
    edgeIds r = edge_ids keys directed (map CNode l) /\
    hd_error l = Some source /\ last l ""%string = target /\
    exact (distance r) /\ chain adj l (ival (distance r)) /\
    forall l' L, chain adj l' L -> hd_error l' = Some source ->
                 last l' ""%string = target -> ival (distance r) <= L.
Proof.
  intros Hnd Hc Ho Hn Hb Hs Ht Es Et W.
  apply max_bound in Hb; [| lia].
  pose proof (natural_exact adj nodes maxw Hn Hb) as Hw.
  assert (Np : forall x, In x nodes -> x <> "__proto__"%string).
  { intros x Hx E. pose proof (DictFacts.get_not_proto _ _ (Ho x Hx)) as N.
    rewrite E in N. discriminate N. }
  destruct (walk_reach adj source target W) as [L0 R0].
  destruct (dijkstraPQ_path adj nodes source target (Z.max 0 maxw) Hnd Hc
              (own_heads adj nodes Hc Ho) Hw Hb (Z.le_max_l 0 maxw) Hs
              (Np _ Hs) (or_intror (Ho _ Hs)) keys directed L0 Es Et Ht
              (Np _ Ht) R0)
    as [f0 [r [l [Hr [Hp [Hi [Hh [Hl [Ex [C M]]]]]]]]]].
  exists f0, r, l. repeat (split; [assumption |]).
  intros l' L C' Hh' Hl'. apply M. rewrite <- Hl'.
  change L with (0 + L).
  exact (chain_reach adj source l' L C' source 0 Hh' (reach_nil adj source)).
Qed.

(** The engine when no walk leads from the source to the target: the empty
    result. *)
Lemma engine_unreachable (adj : dict (list adjEntry)) (nodes : list string)
      (keys : dict nat) (directed : bool) (maxw : Z)
      (source target : string) :
  NoDup nodes -> closed adj nodes -> Claims.own_names adj nodes ->
  Claims.natural_weights adj maxw ->
  (Z.of_nat (List.length nodes) + 1) * maxw < 2 ^ 53 ->
  In source nodes ->
  ~ Graph.walk adj any_edge source target ->
  exists fuel0,
    forall fuel, (fuel0 <= fuel)%nat ->
      dijkstraPQ fuel (Some adj) keys directed source target nodes
      = Return empty_result.
Proof.
  intros Hnd Hc Ho Hn Hb Hs Hno.
  apply max_bound in Hb; [| lia].
  pose proof (natural_exact adj nodes maxw Hn Hb) as Hw.
  assert (Np : source <> "__proto__"%string).
  { intros E. pose proof (DictFacts.get_not_proto _ _ (Ho _ Hs)) as N.
    rewrite E in N. discriminate N. }
  destruct (is_empty source) eqn:Es.
  { exists 0%nat. intros fuel _. unfold dijkstraPQ. now rewrite Es. }
  destruct (is_empty target) eqn:Et.
  { exists 0%nat. intros fuel _. unfold dijkstraPQ. rewrite Es, Et.
    reflexivity. }
  apply (dijkstraPQ_no_walk adj nodes source target (Z.max 0 maxw) Hnd Hc
           (own_heads adj nodes Hc Ho) Hw Hb (Z.le_max_l 0 maxw) Hs Np
           (or_intror (Ho _ Hs)) keys directed Es Et).
  intros L R. apply Hno. exact (reach_walk adj source target L R).
Qed.

(** On an undirected model with natural weights the two directions return
    the same distance. *)
Lemma engine_symmetric (adj : dict (list adjEntry)) (nodes : list string)
      (keys : dict nat) (directed : bool) (maxw : Z) (x y : string) :
  Claims.undirected_model adj nodes ->
  Claims.natural_weights adj maxw -> 0 <= maxw ->
  (Z.of_nat (List.length nodes) + 1) * maxw < 2 ^ 53 ->
  In x nodes -> In y nodes -> Graph.walk adj any_edge x y ->
  exists fuel0 rxy ryx,
    (forall fuel, (fuel0 <= fuel)%nat ->
       dijkstraPQ fuel (Some adj) keys directed x y nodes = Return rxy) /\
    (forall fuel, (fuel0 <= fuel)%nat ->
       dijkstraPQ fuel (Some adj) keys directed y x nodes = Return ryx) /\
    distance rxy = distance ryx.
Proof.
  intros [U1 U2 U3 U4 U5] Hn Hm Hb Hx Hy W.
  assert (Hw : forall u e, entry_at adj u e ->
                           exact (weight e) /\ wt e <= maxw).
  { intros u e He. destruct (Hn u e He) as [n [Hr E]].
    assert (n < 2 ^ 53) by nia. unfold wt. rewrite E.
    split; [apply exact_of_Z; lia | rewrite ival_of_Z; lia]. }
  destruct (is_empty x) eqn:Ex.
  { exists 0%nat, empty_result, empty_result. unfold dijkstraPQ. rewrite Ex.
    rewrite orb_true_r. cbn [orb]. auto. }
  destruct (is_empty y) eqn:Ey.
  { exists 0%nat, empty_result, empty_result. unfold dijkstraPQ. rewrite Ey.
    rewrite orb_true_r. cbn [orb]. auto. }
  destruct (string_dec x y) as [<- | Nxy].
  - destruct (string_dec x "__proto__") as [-> | Np].
    + exists 1%nat, empty_result, empty_result.
      split; [| split; [| reflexivity]]; intros [| f] Hf;
        try lia; apply dijkstraPQ_proto.
    + destruct (dijkstraPQ_spec adj nodes x x maxw U1 U4 (mirror_heads adj U2) Hw Hb Hm Hx Np
                                (or_introl eq_refl) keys directed 0 Ex Ex Hx Np
                                (reach_nil adj x)) as [f0 [r [Hr _]]].
      exists f0, r, r. auto.
  - destruct (walk_reach adj x y W) as [L R].
    pose proof (reach_sym adj x U2 y L R) as R'.
    destruct (reach_end_own adj x U2 y L R) as [E | [esy Gy]];
      [contradiction |].
    destruct (reach_end_own adj y U2 x L R') as [E | [esx Gx]];
      [congruence |].
    destruct (own_not_proto _ _ _ Gx) as [Npx Nix].
    destruct (own_not_proto _ _ _ Gy) as [Npy Niy].
    destruct (dijkstraPQ_spec adj nodes x y maxw U1 U4 (mirror_heads adj U2) Hw Hb Hm Hx Npx
                              (or_intror Nix) keys directed L Ex Ey Hy Npy R)
      as [f1 [r1 [H1 [E1 [R1 M1]]]]].
    destruct (dijkstraPQ_spec adj nodes y x maxw U1 U4 (mirror_heads adj U2) Hw Hb Hm Hy Npy
                              (or_intror Niy) keys directed L Ey Ex Hx Npx R')
      as [f2 [r2 [H2 [E2 [R2 M2]]]]].
    exists (Nat.max f1 f2), r1, r2.
    split; [intros fuel Hf; apply H1; lia |].
    split; [intros fuel Hf; apply H2; lia |].
    rewrite (exact_eq _ E1), (exact_eq _ E2). f_equal.
    pose proof (M1 _ (reach_sym adj y U2 x _ R2)).
    pose proof (M2 _ (reach_sym adj x U2 y _ R1)). lia.
Qed.

End DijkstraFacts.

(** ** Prim's tree is a lightest spanning tree *)

Module PrimMinimal.
Import JSString JSNumber JSObject Parser Prim Graph Claims Exact MstSpec.
Import ExactFacts DictFacts PrimSpec PrimFacts PrimSpanning.

Section Cut.
Variable adj : dict (list adjEntry).
Hypothesis Hids : ids_name_edges adj.

Local Abbreviation within T := (walk adj (fun i => In i T)).
Local Abbreviation less j T := (remove Nat.eq_dec j T).

(** A walk either avoids the edge [j], or can be cut at it: what comes
    before its first use and what comes after its last use avoid it. *)
Lemma walk_cut (T : list nat) (a : string) (f : adjEntry) :
  entry_at adj a f ->
  forall p q, within T p q ->
    within (less (edgeId f) T) p q \/
    (within (less (edgeId f) T) p a /\
     within (less (edgeId f) T) (adj_to f) q) \/
    (within (less (edgeId f) T) p (adj_to f) /\
     within (less (edgeId f) T) a q).
Proof.
  intros Hf p q W. induction W as [u | u e v He Hi W IH].
  - left. constructor.
  - destruct (Nat.eq_dec (edgeId e) (edgeId f)) as [E | N].
    + destruct (Hids u e a f He Hf E) as [[E1 E2] | [E1 E2]].
      * rewrite E2 in IH. subst u.
        destruct IH as [H | [[_ H] | [_ H]]].
        -- right. left. split; [constructor | exact H].
        -- right. left. split; [constructor | exact H].
        -- left. exact H.
      * rewrite E2 in IH. subst u.
        destruct IH as [H | [[_ H] | [_ H]]].
        -- right. right. split; [constructor | exact H].
        -- left. exact H.
        -- right. right. split; [constructor | exact H].
    + assert (Hi' : In (edgeId e) (less (edgeId f) T))
        by (apply in_in_remove; assumption).
      destruct IH as [H | [[H1 H2] | [H1 H2]]].
      * left. now apply walk_step with e.
      * right. left. split; [now apply walk_step with e | exact H2].
      * right. right. split; [now apply walk_step with e | exact H2].
Qed.

(** A walk that leaves the set [s] uses an edge that leaves [s] and without
    which its start still reaches the near end and its far end still reaches
    the walk's end. *)
Lemma crossing (s : list string) :
  forall (n : nat) (T : list nat), (List.length T < n)%nat ->
  forall x v, within T x v -> In x s -> ~ In v s ->
  exists a f,
    entry_at adj a f /\ In (edgeId f) T /\ In a s /\ ~ In (adj_to f) s /\
    within (less (edgeId f) T) x a /\
    within (less (edgeId f) T) (adj_to f) v.
Proof.
  induction n as [| n IHn]; intros T HT x v W; [lia |].
  induction W as [u | u e v He Hi W IH]; intros Hx Hv; [contradiction |].
  destruct (in_dec string_dec (adj_to e) s) as [Hin | Hout].
  - destruct (IH Hin Hv) as [a [f [Hf [HfT [Ha [Hb [W1 W2]]]]]]].
    exists a, f. split; [exact Hf |]. split; [exact HfT |].
    split; [exact Ha |]. split; [exact Hb |]. split; [| exact W2].
    apply walk_step with e; [exact He | | exact W1].
    apply in_in_remove; [| exact Hi]. intros E.
    destruct (Hids u e a f He Hf E) as [[E1 E2] | [E1 E2]]; congruence.
  - destruct (walk_cut T u e He _ _ W) as [H | [[_ H] | [_ H]]].
    + exists u, e. split; [exact He |]. split; [exact Hi |].
      split; [exact Hx |]. split; [exact Hout |].
      split; [constructor | exact H].
    + exists u, e. split; [exact He |]. split; [exact Hi |].
      split; [exact Hx |]. split; [exact Hout |].
      split; [constructor | exact H].
    + assert (Hl : (List.length (less (edgeId e) T) < n)%nat).
      { pose proof (remove_length_lt Nat.eq_dec T (edgeId e) Hi). lia. }
      destruct (IHn _ Hl u v H Hx Hv)
        as [a [f [Hf [HfT [Ha [Hb [W1 W2]]]]]]].
      apply in_remove in HfT. destruct HfT as [HfT _].
      assert (Hw : forall i, In i (less (edgeId f) (less (edgeId e) T)) ->
                             In i (less (edgeId f) T)).
      { intros i Hi'. apply in_remove in Hi'. destruct Hi' as [Hi' Ni].
        apply in_remove in Hi'. destruct Hi' as [Hi' _].
        now apply in_in_remove. }
      exists a, f. split; [exact Hf |]. split; [exact HfT |].
      split; [exact Ha |]. split; [exact Hb |].
      split; [exact (walk_weaken adj _ _ _ _ Hw W1)
             | exact (walk_weaken adj _ _ _ _ Hw W2)].
Qed.

End Cut.

Lemma entry_listed (adj : dict (list adjEntry)) (u : string) (e : adjEntry) :
  entry_at adj u e -> In e (all_entries adj).
Proof.
  intros [es [G H]]. unfold all_entries. apply in_flat_map.
  exists (u, es). split; [now apply get_Own_In |]. cbn [fst]. now rewrite G.
Qed.

Lemma listed_entry (adj : dict (list adjEntry)) (e : adjEntry) :
  In e (all_entries adj) -> exists u, entry_at adj u e.
Proof.
  unfold all_entries. intros H. apply in_flat_map in H.
  destruct H as [[k l] [_ H]]. cbn [fst] in H.
  destruct (get adj k) as [es | |] eqn:G; try contradiction.
  exists k, es. now split.
Qed.

Lemma entry_weight (adj : dict (list adjEntry)) (u : string) (e : adjEntry) :
  weights_by_id adj -> entry_at adj u e ->
  weight_of_id adj (edgeId e) = scaled (weight e).
Proof.
  intros Hw He. unfold weight_of_id.
  destruct (find (fun e' => Nat.eqb (edgeId e') (edgeId e)) (all_entries adj))
    as [e' |] eqn:F.
  - apply find_some in F. destruct F as [Hin Heq].
    apply Nat.eqb_eq in Heq. destruct (listed_entry adj e' Hin) as [u' He'].
    now rewrite (Hw u' e' u e He' He Heq).
  - exfalso. pose proof (find_none _ _ F e (entry_listed adj u e He)) as H.
    cbn in H. rewrite Nat.eqb_refl in H. discriminate.
Qed.

Lemma tree_weight_weights (adj : dict (list adjEntry)) (ids : list nat)
      (ws : list number) :
  weights_by_id adj -> weights_of adj ids ws ->
  tree_weight adj ids = ssum ws.
Proof.
  intros Hw H. induction H as [| i w ids ws [u [e [He [Ei Ew]]]] _ IH];
    [reflexivity |].
  cbn [tree_weight ssum fold_right]. fold (tree_weight adj ids). fold (ssum ws).
  rewrite IH, <- Ei, <- Ew. now rewrite (entry_weight adj u e Hw He).
Qed.

Lemma tree_weight_perm (adj : dict (list adjEntry)) (l l' : list nat) :
  Permutation l l' -> tree_weight adj l = tree_weight adj l'.
Proof.
  unfold tree_weight. intros P.
  induction P as [| x l l' _ IH | x y l | l l' l'' _ IH1 _ IH2];
    cbn [fold_right]; lia.
Qed.

Lemma NoDup_less (j : nat) (l : list nat) :
  NoDup l -> NoDup (remove Nat.eq_dec j l).
Proof.
  intros H. induction H as [| x l Hx _ IH]; cbn [remove]; [constructor |].
  destruct (Nat.eq_dec j x); [exact IH |]. constructor; [| exact IH].
  intros Hin. apply in_remove in Hin. tauto.
Qed.

Lemma less_absent (j : nat) (l : list nat) :
  ~ In j l -> remove Nat.eq_dec j l = l.
Proof. intros H. now apply notin_remove. Qed.

Lemma length_less (j : nat) (l : list nat) :
  NoDup l -> In j l ->
  S (List.length (remove Nat.eq_dec j l)) = List.length l.
Proof.
  intros H. induction H as [| x l Hx _ IH]; intros Hj; [contradiction |].
  cbn [remove]. destruct (Nat.eq_dec j x) as [<- | N].
  - rewrite less_absent by exact Hx. reflexivity.
  - destruct Hj as [Hj | Hj]; [congruence |]. cbn [List.length].
    now rewrite IH.
Qed.

Lemma tree_weight_less (adj : dict (list adjEntry)) (j : nat)
      (l : list nat) :
  NoDup l -> In j l ->
  tree_weight adj (remove Nat.eq_dec j l)
  = tree_weight adj l - weight_of_id adj j.
Proof.
  unfold tree_weight. intros H.
  induction H as [| x l Hx _ IH]; intros Hj; [contradiction |].
  cbn [remove]. destruct (Nat.eq_dec j x) as [<- | N].
  - rewrite less_absent by exact Hx. cbn [fold_right]. lia.
  - destruct Hj as [Hj | Hj]; [congruence |].
    cbn [fold_right]. rewrite IH by exact Hj. lia.
Qed.

(** Adding natural numbers one by one is exact below 2^53. *)
Lemma fold_add_exact (maxw : Z) (ws : list number) :
  0 <= maxw ->
  Forall (fun w => exact w /\ ival w <= maxw) ws ->
  forall acc, 0 <= acc ->
    acc + Z.of_nat (List.length ws) * maxw < 2 ^ 53 ->
    fold_left add ws (of_Z acc) = of_Z (acc + zsum ws) /\
    0 <= zsum ws <= Z.of_nat (List.length ws) * maxw.
Proof.
  intros Hm H. induction H as [| w ws [Ew Hw] _ IH]; intros acc Ha Hb.
  - cbn. split; [f_equal |]; lia.
  - pose proof (exact_range w Ew) as Rw.
    cbn [List.length] in Hb. rewrite Nat2Z.inj_succ in Hb.
    cbn [fold_left zsum fold_right]. fold (zsum ws).
    rewrite (exact_eq w Ew) at 1.
    rewrite add_exact by nia.
    destruct (IH (acc + ival w)) as [E R]; [lia | nia |].
    rewrite E. split; [f_equal; lia |].
    cbn [List.length]. rewrite Nat2Z.inj_succ. nia.
Qed.

Lemma fsum_exact (maxw : Z) (ws : list number) :
  0 <= maxw ->
  Forall (fun w => exact w /\ ival w <= maxw) ws ->
  Z.of_nat (List.length ws) * maxw < 2 ^ 53 ->
  fsum ws = of_Z (zsum ws) /\ 0 <= zsum ws < 2 ^ 53.
Proof.
  intros Hm H Hb.
  destruct (fold_add_exact maxw ws Hm H 0) as [E R]; [lia | lia |].
  split; [exact E | lia].
Qed.

(** In units of 2^-1074 the sum of natural numbers is their sum times
    2^1074. *)
Lemma ssum_exact (maxw : Z) (ws : list number) :
  Forall (fun w => exact w /\ ival w <= maxw) ws ->
  ssum ws = zsum ws * 2 ^ 1074.
Proof.
  intros H. induction H as [| w ws [Ew _] _ IH]; [reflexivity |].
  cbn [ssum zsum fold_right]. fold (ssum ws). fold (zsum ws).
  rewrite IH, (scaled_exact w Ew). lia.
Qed.

(** The weights of edges of a graph with natural weights. *)
Lemma weights_natural (adj : dict (list adjEntry)) (maxw : Z)
      (ids : list nat) (ws : list number) :
  natural_weights adj maxw -> maxw < 2 ^ 53 -> weights_of adj ids ws ->
  Forall (fun w => exact w /\ ival w <= maxw) ws /\
  List.length ws = List.length ids.
Proof.
  intros Hn Hb H. induction H as [| i w ids ws [u [e [He [_ Ew]]]] _ [IH1 IH2]].
  - split; [constructor | reflexivity].
  - split; [| cbn; now rewrite IH2]. constructor; [| exact IH1].
    destruct (Hn u e He) as [n [Hr E]]. rewrite <- Ew, E.
    split; [apply exact_of_Z; lia | rewrite ival_of_Z; lia].
Qed.

Section Sorting.
Variable inMST : list string.

Lemma after_lighter (x y : candidate) :
  doublec x -> doublec y ->
  after x y = (scaled (c_weight y) <? scaled (c_weight x)).
Proof. intros Dx Dy. unfold after. now apply sub_sign_double. Qed.

Lemma insert_sorted (x : candidate) (l : list candidate) :
  doublec x -> Forall doublec l ->
  StronglySorted lighter l -> StronglySorted lighter (insert x l).
Proof.
  intros Ex F S. induction S as [| y r S IH Hy]; cbn [insert].
  - constructor; constructor.
  - inversion F as [| ? ? Ey Fr]; subst.
    rewrite (after_lighter x y Ex Ey).
    destruct (scaled (c_weight y) <? scaled (c_weight x)) eqn:E.
    + apply Z.ltb_lt in E. constructor; [now apply IH |].
      apply Forall_forall. intros c Hc. apply In_insert in Hc.
      destruct Hc as [-> | Hc]; [unfold lighter; lia |].
      rewrite Forall_forall in Hy. now apply Hy.
    + apply Z.ltb_ge in E. constructor; [now constructor |].
      constructor; [exact E |].
      apply Forall_forall. intros c Hc. rewrite Forall_forall in Hy.
      specialize (Hy c Hc). unfold lighter in *. lia.
Qed.

Lemma doublec_sort (l : list candidate) :
  Forall doublec l -> Forall doublec (sort l).
Proof.
  intros F. apply Forall_forall. intros c Hc.
  apply (proj1 (In_sort _ _)) in Hc. rewrite Forall_forall in F. now apply F.
Qed.

Lemma sort_sorted (l : list candidate) :
  Forall doublec l -> StronglySorted lighter (sort l).
Proof.
  intros F. induction F as [| x l Ex F IH]; cbn [sort]; [constructor |].
  apply insert_sorted; [exact Ex | now apply doublec_sort | exact IH].
Qed.

(** The candidate picked from a sorted list is the lightest of those that
    leave the tree. *)
Lemma pick_lightest (l : list candidate) (ch : candidate)
      (rest : list candidate) :
  StronglySorted lighter l -> pick inMST l = Some (ch, rest) ->
  forall c, In c l -> ~ In (c_to c) inMST -> lighter ch c.
Proof.
  intros S. revert ch rest.
  induction S as [| c0 r S IH H0]; intros ch rest P c Hc Hout;
    [contradiction |].
  cbn [pick] in P. destruct (has inMST (c_to c0)) eqn:E.
  - destruct (pick inMST r) as [[ch' r'] |] eqn:P'; [| discriminate].
    injection P as <- _. destruct Hc as [<- | Hc].
    + exfalso. apply Hout. now apply has_In.
    + now apply (IH ch' r').
  - injection P as <- _. destruct Hc as [<- | Hc].
    + unfold lighter. lia.
    + rewrite Forall_forall in H0. now apply H0.
Qed.

End Sorting.

Section Exchange.
Variable adj : dict (list adjEntry).
Variable nodes : list string.
Variable start : string.
Hypothesis Hundirected : undirected adj.
Hypothesis Hids : ids_name_edges adj.
Hypothesis Hclosed : closed adj nodes.
Hypothesis Hby_id : weights_by_id adj.
Hypothesis Hdouble : double_weights adj.

Local Abbreviation within T := (walk adj (fun i => In i T)).
Local Abbreviation less j T := (remove Nat.eq_dec j T).

(** With the edge [e] in place of the edge [f], whatever was joined stays
    joined: [e] joins the two sides [f] joined. *)
Lemma reroute (T : list nat) (a u : string) (f e : adjEntry) :
  entry_at adj a f -> entry_at adj u e ->
  within (less (edgeId f) T) u a ->
  within (less (edgeId f) T) (adj_to f) (adj_to e) ->
  forall x y, within T x y -> within (edgeId e :: less (edgeId f) T) x y.
Proof.
  intros Hf He W1 W2 x y W.
  assert (Hw : forall i, In i (less (edgeId f) T) ->
                         In i (edgeId e :: less (edgeId f) T))
    by (intros i Hi; now right).
  pose proof (walk_weaken adj _ _ _ _ Hw W1) as W1'.
  pose proof (walk_weaken adj _ _ _ _ Hw W2) as W2'.
  assert (AB : within (edgeId e :: less (edgeId f) T) a (adj_to f)).
  { apply walk_trans with u; [now apply walk_sym |].
    apply walk_step with e; [exact He | now left |].
    now apply walk_sym. }
  induction W as [p | p g q Hg Hi W IH]; [constructor |].
  destruct (Nat.eq_dec (edgeId g) (edgeId f)) as [E | N].
  - destruct (Hids p g a f Hg Hf E) as [[E1 E2] | [E1 E2]];
      subst p; rewrite E2 in IH.
    + now apply walk_trans with (adj_to f).
    + apply walk_trans with a; [now apply walk_sym | exact IH].
  - apply walk_step with g; [exact Hg | | exact IH].
    right. now apply in_in_remove.
Qed.

Lemma candidates_double (a : acc) :
  pinv adj nodes start a -> Forall doublec (edgeCandidates a).
Proof.
  intros Hp. apply Forall_forall. intros c Hc.
  destruct (p_sound a Hp c Hc) as [_ He].
  exact (Hdouble _ _ He).
Qed.

(** The exchange step: the lightest edge that leaves the tree can take the
    place of an edge of any spanning tree that holds the edges chosen so
    far. *)
Lemma promising_step (a : acc) (chosen : candidate)
      (rest : list candidate) :
  pinv adj nodes start a ->
  promising adj nodes (chosenEdgeIds a) ->
  pick (inMST a) (sort (edgeCandidates a)) = Some (chosen, rest) ->
  promising adj nodes (chosenEdgeIds a ++ [c_edgeId chosen]).
Proof.
  intros Hp Hpr Pk T HT.
  destruct (Hpr T HT) as [T' [HT' [Hinc Hle]]].
  destruct (in_dec Nat.eq_dec (c_edgeId chosen) T') as [Hin | Hnin].
  { exists T'. split; [exact HT' |]. split; [| exact Hle].
    apply incl_app; [exact Hinc |]. intros i [<- | []]. exact Hin. }
  destruct (pick_Some _ _ _ _ Pk) as [Hout [Hsin _]].
  assert (Hc : In chosen (edgeCandidates a))
    by now apply (proj1 (In_sort _ _)).
  destruct (p_sound a Hp chosen Hc) as [Hfrom Hentry].
  set (e := mkAdj (c_to chosen) (c_weight chosen) (c_edgeId chosen)) in *.
  destruct (Hclosed _ _ Hentry) as [Hu Hv]. cbn [adj_to e] in Hv.
  destruct HT' as [Tnd [Tlen Tcon]].
  pose proof (Tcon _ _ Hu Hv) as W.
  destruct (crossing adj Hids (inMST a) (S (List.length T')) T'
                     (Nat.lt_succ_diag_r _) _ _ W Hfrom Hout)
    as [a0 [f [Hf [HfT [Ha0 [Hb0 [W1 W2]]]]]]].
  exists (c_edgeId chosen :: less (edgeId f) T').
  split; [split; [| split] | split].
  - constructor; [| now apply NoDup_less].
    intros H. apply in_remove in H. tauto.
  - cbn [List.length]. now rewrite length_less.
  - intros x y Hx Hy.
    apply (reroute T' a0 (c_from chosen) f e Hf Hentry W1 W2).
    now apply Tcon.
  - apply incl_app.
    + intros i Hi. right. apply in_in_remove; [| now apply Hinc].
      intros E. subst i.
      destruct (p_ends adj nodes start a Hp (edgeId f) a0 f Hi Hf eq_refl)
        as [_ H].
      contradiction.
    + intros i [<- | []]. now left.
  - unfold tree_weight at 1. cbn [fold_right].
    fold (tree_weight adj (less (edgeId f) T')).
    rewrite tree_weight_less by assumption.
    rewrite (entry_weight adj a0 f Hby_id Hf).
    change (c_edgeId chosen) with (edgeId e).
    rewrite (entry_weight adj _ e Hby_id Hentry). cbn [weight e].
    assert (L : lighter chosen (cand_of a0 f)).
    { apply pick_lightest with (inMST a) (sort (edgeCandidates a)) rest.
      - apply sort_sorted. now apply candidates_double.
      - exact Pk.
      - apply (proj2 (In_sort _ _)). now apply (p_complete a Hp).
      - exact Hb0. }
    unfold lighter in L. cbn [cand_of c_weight] in L. lia.
Qed.

(** The loop keeps its choice completable to a lightest spanning tree. *)
Lemma grow_promising :
  forall fuel a a',
    pinv adj nodes start a ->
    promising adj nodes (chosenEdgeIds a) ->
    grow fuel adj nodes a = Return a' ->
    promising adj nodes (chosenEdgeIds a').
Proof.
  induction fuel as [| f IH]; intros a a' Hp Hpr; rewrite grow_eq.
  - destruct ((List.length (inMST a) <? List.length nodes)%nat
              && negb (match edgeCandidates a with
                       | [] => true
                       | _ => false
                       end));
      [discriminate |].
    intros E. injection E as <-. exact Hpr.
  - destruct ((List.length (inMST a) <? List.length nodes)%nat
              && negb (match edgeCandidates a with
                       | [] => true
                       | _ => false
                       end)).
    2:{ intros E. injection E as <-. exact Hpr. }
    cbv zeta.
    destruct (pick (inMST a) (sort (edgeCandidates a)))
      as [[chosen rest] |] eqn:Pk.
    + assert (Hin : In chosen (edgeCandidates a)).
      { apply pick_Some in Pk. destruct Pk as [_ [H _]].
        now apply (proj1 (In_sort _ _)) in H. }
      destruct (p_sound a Hp chosen Hin) as [Hfrom Hentry].
      destruct (Hundirected _ _ Hentry) as [es [G _]]. cbn [adj_to] in G.
      unfold entries. rewrite G. cbn [bind].
      apply IH.
      * now apply pinv_step.
      * cbn [chosenEdgeIds]. now apply promising_step with rest.
    + intros E. injection E as <-. exact Hpr.
Qed.

End Exchange.

(** The tree [primMST] returns weighs no more than any spanning tree, the
    weights taken exactly. *)
Lemma primMST_lightest (adj : dict (list adjEntry)) (nodes : list string)
      (startNode : option string) :
  nodes <> [] ->
  undirected_model adj nodes ->
  connected adj nodes ->
  own_names adj nodes ->
  double_weights adj ->
  exists r,
    primMST adj nodes startNode = Return r /\
    forall T, spanning_tree adj nodes T ->
      tree_weight adj (edgeIds r) <= tree_weight adj T.
Proof.
  intros Hne U Hcon Hown Hd.
  destruct (primMST_run adj nodes startNode Hne U Hcon Hown)
    as [start [es [a [Hr [Hg [Hp0 [Hpa Hall]]]]]]].
  destruct U as [Hnd Hmir Hids Hcl Hby].
  assert (Hpr : promising adj nodes (chosenEdgeIds a)).
  { apply (grow_promising adj nodes start Hmir Hids Hcl Hby Hd
                          (List.length nodes) _ a Hp0); [| exact Hg].
    intros T HT. exists T. split; [exact HT |]. split; [intros i [] | lia]. }
  exists (mkResult (total a) (chosenEdgeIds a)).
  split; [exact Hr |]. cbn [edgeIds]. intros T HT.
  destruct (Hpr T HT) as [T' [HT' [Hinc Hle]]].
  destruct Hpa as [P1 P2 P3 P4 P5 P6 P7 P8 P9 P10].
  assert (Lc : S (List.length (chosenEdgeIds a)) = List.length nodes).
  { rewrite P5. apply Nat.le_antisymm; now apply NoDup_incl_length. }
  destruct HT' as [Tnd [LT' _]].
  assert (Hback : incl T' (chosenEdgeIds a)).
  { apply NoDup_length_incl; [exact P6 | lia | exact Hinc]. }
  assert (Pm : Permutation (chosenEdgeIds a) T').
  { apply NoDup_Permutation; [exact P6 | exact Tnd |].
    intros i. split; [apply Hinc | apply Hback]. }
  now rewrite (tree_weight_perm adj _ _ Pm).
Qed.

Lemma natural_double (adj : dict (list adjEntry)) (maxw : Z) :
  natural_weights adj maxw -> maxw < 2 ^ 53 -> double_weights adj.
Proof.
  intros Hn Hm u e He. destruct (Hn u e He) as [n [Hr E]].
  rewrite E. apply exact_double, exact_of_Z. lia.
Qed.

(** On natural weights whose sums are exact, the total [primMST] returns
    is at most the sum of the weights of any spanning tree. *)
Lemma primMST_minimal (adj : dict (list adjEntry)) (nodes : list string)
      (startNode : option string) (maxw : Z) (r : result)
      (ws : list number) :
  nodes <> [] ->
  undirected_model adj nodes ->
  connected adj nodes ->
  own_names adj nodes ->
  natural_weights adj maxw ->
  0 <= maxw ->
  Z.of_nat (List.length nodes) * maxw < 2 ^ 53 ->
  primMST adj nodes startNode = Return r ->
  spanning_tree adj nodes (edgeIds r) ->
  weights_of adj (edgeIds r) ws ->
  totalWeight r = fsum ws ->
  forall T wsT,
    spanning_tree adj nodes T -> weights_of adj T wsT ->
    le (totalWeight r) (fsum wsT) = true.
Proof.
  intros Hne U Hcon Hown Hnat Hm Hb Hr Hst Hws Htot T wsT HT HwT.
  assert (Hlen : (0 < List.length nodes)%nat)
    by (destruct nodes; [congruence | simpl; lia]).
  assert (Hmax : maxw < 2 ^ 53) by nia.
  destruct (primMST_lightest adj nodes startNode Hne U Hcon Hown
                             (natural_double adj maxw Hnat Hmax))
    as [r' [Hr' Hmin]].
  rewrite Hr in Hr'. injection Hr' as <-.
  specialize (Hmin T HT).
  pose proof (um_weights _ _ U) as Hby.
  rewrite (tree_weight_weights adj _ _ Hby Hws) in Hmin.
  rewrite (tree_weight_weights adj _ _ Hby HwT) in Hmin.
  destruct (weights_natural adj maxw _ _ Hnat Hmax Hws) as [F1 L1].
  destruct (weights_natural adj maxw _ _ Hnat Hmax HwT) as [F2 L2].
  rewrite (ssum_exact maxw ws F1), (ssum_exact maxw wsT F2) in Hmin.
  destruct Hst as [_ [Lc _]]. destruct HT as [_ [LT _]].
  destruct (fsum_exact maxw ws Hm F1) as [E1 R1]; [nia |].
  destruct (fsum_exact maxw wsT Hm F2) as [E2 R2]; [nia |].
  rewrite Htot, E1, E2, le_exact by assumption.
  apply Z.leb_le. nia.
Qed.

(** The whole of what [primMST] promises: a spanning tree and the sum of
    its weights; a tree no heavier than any spanning tree, the weights
    taken exactly; and, where the weights are natural numbers whose sums
    are exact, a total no greater than the sum of any spanning tree. *)
Lemma primMST_correct (adj : dict (list adjEntry)) (nodes : list string)
      (startNode : option string) :
  nodes <> [] ->
  undirected_model adj nodes ->
  connected adj nodes ->
  own_names adj nodes ->
  exists r ws,
    primMST adj nodes startNode = Return r /\
    spanning_tree adj nodes (edgeIds r) /\
    weights_of adj (edgeIds r) ws /\
    totalWeight r = fsum ws /\
    (double_weights adj ->
     forall T, spanning_tree adj nodes T ->
       tree_weight adj (edgeIds r) <= tree_weight adj T) /\
    (forall maxw,
       natural_weights adj maxw ->
       Z.of_nat (List.length nodes) * maxw < 2 ^ 53 ->
       forall T wsT,
         spanning_tree adj nodes T -> weights_of adj T wsT ->
         le (totalWeight r) (fsum wsT) = true).
Proof.
  intros Hne U Hcon Hown.
  destruct (primMST_spanning adj nodes startNode Hne U Hcon Hown)
    as [r [ws [Hr [Hs [Hw Ht]]]]].
  exists r, ws. split; [exact Hr |]. split; [exact Hs |].
  split; [exact Hw |]. split; [exact Ht |]. split.
  - intros Hd.
    destruct (primMST_lightest adj nodes startNode Hne U Hcon Hown Hd)
      as [r' [Hr' Hmin]].
    rewrite Hr in Hr'. injection Hr' as <-. exact Hmin.
  - intros maxw Hnat Hb T wsT HT HwT.
    assert (Hnat' : natural_weights adj (Z.max 0 maxw)).
    { intros u e He. destruct (Hnat u e He) as [n [Hn E]].
      exists n. split; [lia | exact E]. }
    assert (Hb' : Z.of_nat (List.length nodes) * Z.max 0 maxw < 2 ^ 53).
    { destruct (Z.max_spec 0 maxw) as [[_ ->] | [_ ->]]; lia. }
    exact (primMST_minimal adj nodes startNode (Z.max 0 maxw) r ws Hne U
                           Hcon Hown Hnat' (Z.le_max_l 0 maxw) Hb' Hr Hs Hw
                           Ht T wsT HT HwT).
Qed.

End PrimMinimal.

(** C2, amended: for every connected undirected graph model with n >= 1
    distinct nodes, none of them looked up under a name the adjacency map
    only inherits, primMST returns exactly n-1 distinct edge ids; these
    edges connect every node to every node; totalWeight is the
    floating-point sum of the chosen edges' weights, added in the order in
    which they were chosen; where the weights are finite doubles, the exact
    sum of the chosen weights is at most that of every spanning tree; and
    where the weights are natural numbers of at most [maxw] with [n * maxw]
    below 2^53, totalWeight itself is at most the sum of the weights of
    every spanning tree. *)
Theorem C2_prim_spanning_tree (adjacency : dict (list adjEntry))
        (nodes : list string) (startNode : option string) :
  nodes <> [] ->
  undirected_model adjacency nodes ->
  connected adjacency nodes ->
  own_names adjacency nodes ->
  exists r ws,
    Prim.primMST adjacency nodes startNode = Return r /\
    spanning_tree adjacency nodes (Prim.edgeIds r) /\
    weights_of adjacency (Prim.edgeIds r) ws /\
    Prim.totalWeight r = fsum ws /\
    (double_weights adjacency ->
     forall T, spanning_tree adjacency nodes T ->
       MstSpec.tree_weight adjacency (Prim.edgeIds r)
       <= MstSpec.tree_weight adjacency T) /\
    (forall maxw,
       natural_weights adjacency maxw ->
       Z.of_nat (List.length nodes) * maxw < 2 ^ 53 ->
       forall T wsT,
         spanning_tree adjacency nodes T -> weights_of adjacency T wsT ->
         JSNumber.le (Prim.totalWeight r) (fsum wsT) = true).
Proof.
  apply PrimMinimal.primMST_correct.
Qed.

Lemma C2_prim_spanning_tree_witness :
  exists m,
    parseGraphInput triangle_text path_opts = Return m /\
    exists r ws,
      Prim.minimumSpanningTree m (Some "A") = Return r /\
      spanning_tree (m_adjacency m) (map node_id (nodesArr m))
                    (Prim.edgeIds r) /\
      weights_of (m_adjacency m) (Prim.edgeIds r) ws /\
      Prim.totalWeight r = fsum ws /\
      (forall T,
         spanning_tree (m_adjacency m) (map node_id (nodesArr m)) T ->
         MstSpec.tree_weight (m_adjacency m) (Prim.edgeIds r)
         <= MstSpec.tree_weight (m_adjacency m) T) /\
      (forall T wsT,
         spanning_tree (m_adjacency m) (map node_id (nodesArr m)) T ->
         weights_of (m_adjacency m) T wsT ->
         JSNumber.le (Prim.totalWeight r) (fsum wsT) = true).
Proof.
  exists_parsed.
  match goal with
  | |- context [m_adjacency ?x] => set (m := x)
  end.
  assert (Hp : parseGraphInput triangle_text path_opts = Return m)
    by (vm_compute; reflexivity).
  pose proof (ModelFacts.parsed_undirected_model _ _ _ Hp eq_refl) as U.
  assert (Hc : connected (m_adjacency m) (map node_id (nodesArr m))).
  { assert (W : forall y, In y (map node_id (nodesArr m)) ->
                          walk (m_adjacency m) any_edge "A" y).
    { intros y Hy. cbn in Hy.
      destruct Hy as [Hy | [Hy | [Hy | []]]]; subst y.
      - constructor.
      - PathGraph.first_entry. constructor.
      - PathGraph.second_entry. constructor. }
    intros x y Hx Hy. apply PrimFacts.walk_trans with "A".
    - apply PrimFacts.walk_sym; [apply (um_mirror _ _ U) | now apply W].
    - now apply W. }
  assert (Hown : own_names (m_adjacency m) (map node_id (nodesArr m))).
  { intros u Hu. cbn in Hu.
    destruct Hu as [Hu | [Hu | [Hu | []]]]; subst u; vm_compute;
      discriminate. }
  assert (Hnat : natural_weights (m_adjacency m) 4).
  { intros u e [es [G Hi]]. apply DictFacts.get_Own_In in G. cbn in G.
    destruct G as [G | [G | [G | []]]]; injection G as <- <-;
      cbn in Hi; repeat (destruct Hi as [<- | Hi]); try contradiction;
      cbn [weight];
      first [ exists 4; split; [lia | vm_compute; reflexivity]
            | exists 1; split; [lia | vm_compute; reflexivity]
            | exists 2; split; [lia | vm_compute; reflexivity] ]. }
  assert (Hne : map node_id (nodesArr m) <> []) by discriminate.
  destruct (C2_prim_spanning_tree _ _ (Some "A") Hne U Hc Hown)
    as [r [ws [H1 [H2 [H3 [H4 [H5 H6]]]]]]].
  exists r, ws. split; [exact H1 |]. split; [exact H2 |].
  split; [exact H3 |]. split; [exact H4 |]. split.
  - apply H5. apply (PrimMinimal.natural_double _ 4 Hnat). reflexivity.
  - apply (H6 4 Hnat). reflexivity.
Defined.

(** ** Claim C7 *)

Module PathDistances.
Import JSString JSNumber JSObject Parser Graph Claims.

(** On the path graph D - C - B - A with weights 0.3, 0.2, 0.1 the engine
    adds the weights in the order of the walk: from A it finds
    (0.1 + 0.2) + 0.3, from D it finds (0.3 + 0.2) + 0.1. *)
Lemma distances :
  exists m rad rda,
    parseGraphInput path_text path_opts = Return m /\
    In "A" (map node_id (nodesArr m)) /\
    In "D" (map node_id (nodesArr m)) /\
    walk (m_adjacency m) any_edge "A" "D" /\
    Dijkstra.shortestPath 10 m "A" "D" = Return rad /\
    Dijkstra.shortestPath 10 m "D" "A" = Return rda /\
    Dijkstra.distance rad = of_string "0.6000000000000001" /\
    Dijkstra.distance rda = of_string "0.6" /\
    Dijkstra.path rad
    = map Dijkstra.CNode ["A"; "B"; "C"; "D"] /\
    Dijkstra.path rda
    = map Dijkstra.CNode ["D"; "C"; "B"; "A"].
Proof.
  match eval vm_compute in (parseGraphInput path_text path_opts) with
  | Return ?x => exists x; set (m := x)
  end.
  match eval vm_compute in (Dijkstra.shortestPath 10 m "A" "D") with
  | Return ?r => exists r
  end.
  match eval vm_compute in (Dijkstra.shortestPath 10 m "D" "A") with
  | Return ?r => exists r
  end.
  split; [vm_compute; reflexivity |].
  split; [vm_compute; tauto |]. split; [vm_compute; tauto |].
  split.
  { PathGraph.first_entry. PathGraph.first_entry. PathGraph.first_entry.
    constructor. }
  repeat (split; [vm_compute; reflexivity |]). vm_compute. reflexivity.
Qed.

End PathDistances.

(** C7, as the specification states it, fails: on the undirected path graph
    D - C - B - A with weights 0.3, 0.2, 0.1 the distance returned from A to
    D is 0.6000000000000001 and the distance returned from D to A is 0.6. *)
Lemma C7_distances_differ : ~ distances_symmetric.
Proof.
  intros H.
  destruct PathDistances.distances
    as [m [rad [rda [Hp [HA [HD [W [Had [Hda [E1 [E2 _]]]]]]]]]]].
  pose proof (H _ _ _ _ _ _ _ _ Hp eq_refl HA HD W Had Hda) as E.
  rewrite E1, E2 in E. vm_compute in E. discriminate E.
Qed.

(** C7 (amended): for every undirected graph model produced by the parser
    whose weights are natural numbers of at most [maxw], with
    [(n + 1) * maxw] below 2^53 for [n] nodes, and every pair of nodes [x],
    [y] joined by a walk, the shortest-path engine returns from [x] to [y]
    and from [y] to [x] (for every fuel from some bound on), and the two
    distances returned are equal. *)
Theorem C7_natural_weights_symmetric (rawText : string) (o : options)
        (m : model) (maxw : Z) (x y : string) :
  parseGraphInput rawText o = Return m ->
  directed o = false ->
  natural_weights (m_adjacency m) maxw ->
  (Z.of_nat (List.length (nodesArr m)) + 1) * maxw < 2 ^ 53 ->
  In x (map node_id (nodesArr m)) ->
  In y (map node_id (nodesArr m)) ->
  walk (m_adjacency m) any_edge x y ->
  exists fuel0 rxy ryx,
    (forall fuel, (fuel0 <= fuel)%nat ->
       Dijkstra.shortestPath fuel m x y = Return rxy) /\
    (forall fuel, (fuel0 <= fuel)%nat ->
       Dijkstra.shortestPath fuel m y x = Return ryx) /\
    Dijkstra.distance rxy = Dijkstra.distance ryx.
Proof.
  intros Hp Hd Hn Hb Hx Hy W. unfold Dijkstra.shortestPath.
  apply (DijkstraFacts.engine_symmetric _ _ _ _ (Z.max 0 maxw)); auto.
  - exact (ModelFacts.parsed_undirected_model _ _ _ Hp Hd).
  - intros u e He. destruct (Hn u e He) as [n [Hr E]].
    exists n. split; [lia | exact E].
  - lia.
  - rewrite length_map.
    destruct (Z.max_spec 0 maxw) as [[_ ->] | [_ ->]]; lia.
Qed.

Lemma C7_natural_weights_symmetric_witness :
  exists m,
    parseGraphInput ("A B 4" ++ JSString.nl ++ "B C 1")
                    (mkOptions true false Plain) = Return m /\
    exists fuel0 rxy ryx,
      (forall fuel, (fuel0 <= fuel)%nat ->
         Dijkstra.shortestPath fuel m "A" "C" = Return rxy) /\
      (forall fuel, (fuel0 <= fuel)%nat ->
         Dijkstra.shortestPath fuel m "C" "A" = Return ryx) /\
      Dijkstra.distance rxy = Dijkstra.distance ryx.
Proof.
  exists_parsed.
  match goal with
  | |- context [Dijkstra.shortestPath _ ?x] => set (m := x)
  end.
  assert (Hp : parseGraphInput ("A B 4" ++ JSString.nl ++ "B C 1")
                               (mkOptions true false Plain) = Return m)
    by (vm_compute; reflexivity).
  apply (C7_natural_weights_symmetric _ _ m 4 "A" "C" Hp).
  - reflexivity.
  - intros u e [es [G Hi]]. apply DictFacts.get_Own_In in G.
    cbn in G.
    destruct G as [G | [G | [G | []]]]; injection G as <- <-;
      cbn in Hi; repeat (destruct Hi as [<- | Hi]); try contradiction;
      cbn [weight];
      first [ exists 4; split; [lia | vm_compute; reflexivity]
            | exists 1; split; [lia | vm_compute; reflexivity] ].
  - vm_compute. reflexivity.
  - cbn. tauto.
  - cbn. tauto.
  - PathGraph.first_entry. PathGraph.second_entry. constructor.
Defined.

(** ** Numbers, tokens and binary numerals *)

Module NumberFacts.
Import JSString JSNumber Exact ExactFacts Calculators.

(** Rounding does not look at the sign. *)
Lemma round_aux_opp (m e : Z) (l : location) :
  binary_round_aux prec emax true m e l
  = SFopp (binary_round_aux prec emax false m e l).
Proof.
  unfold binary_round_aux.
  destruct (shr_fexp prec emax m e l) as [r1 e1].
  destruct (shr_fexp prec emax
              (round_nearest_even (shr_m r1) (loc_of_shr_record r1)) e1
              loc_Exact) as [r2 e2].
  destruct (shr_m r2); [reflexivity | | reflexivity].
  destruct (e2 <=? emax - prec); reflexivity.
Qed.

Lemma of_Z_opp (p : positive) : of_Z (Zneg p) = SFopp (of_Z (Zpos p)).
Proof.
  unfold of_Z, binary_normalize, binary_round.
  destruct (shl_align p 0 (fexp prec emax (Zpos (digits2_pos p) + 0)))
    as [mz ez].
  apply round_aux_opp.
Qed.

Lemma shr_fexp_nonneg (m e : Z) (l : location) :
  0 <= m -> 0 <= shr_m (fst (shr_fexp prec emax m e l)).
Proof.
  intros H. unfold shr_fexp, shr.
  destruct (fexp prec emax (Zdigits2 m + e) - e) as [| n | n];
    cbn [fst]; rewrite ?record_m; try exact H.
  rewrite shr_iter_m by (rewrite record_m; exact H).
  rewrite record_m. now apply Z.shiftr_nonneg.
Qed.

Lemma round_even_nonneg (m : Z) (l : location) :
  0 <= m -> 0 <= round_nearest_even m l.
Proof.
  intros H. destruct l as [| []]; cbn [round_nearest_even]; try lia.
  destruct (Z.even m); lia.
Qed.

(** Rounding a mantissa that is not negative never gives NaN. *)
Lemma round_aux_not_nan (s : bool) (m e : Z) (l : location) :
  0 <= m -> isNaN (binary_round_aux prec emax s m e l) = false.
Proof.
  intros H. unfold binary_round_aux.
  pose proof (shr_fexp_nonneg m e l H) as H1.
  destruct (shr_fexp prec emax m e l) as [r1 e1]. cbn [fst] in H1.
  pose proof (round_even_nonneg _ (loc_of_shr_record r1) H1) as H2.
  pose proof (shr_fexp_nonneg _ e1 loc_Exact H2) as H3.
  destruct (shr_fexp prec emax
              (round_nearest_even (shr_m r1) (loc_of_shr_record r1)) e1
              loc_Exact) as [r2 e2]. cbn [fst] in H3.
  destruct (shr_m r2); [reflexivity | | lia].
  destruct (e2 <=? emax - prec); reflexivity.
Qed.

Lemma normalize_not_nan (m e : Z) (s : bool) :
  isNaN (binary_normalize prec emax m e s) = false.
Proof.
  unfold binary_normalize. destruct m as [| p | p]; [reflexivity | |];
    unfold binary_round;
    destruct (shl_align p e (fexp prec emax (Zpos (digits2_pos p) + e)))
      as [mz ez]; apply round_aux_not_nan; lia.
Qed.

(** The product of a finite number that is not zero and a number is not
    NaN unless the number is. *)
Lemma mul_not_nan (s : bool) (m : positive) (e : Z) (y : number) :
  isNaN y = false -> isNaN (mul (S754_finite s m e) y) = false.
Proof.
  destruct y as [sy | sy | | sy my ey]; intros H;
    [reflexivity | reflexivity | discriminate H |].
  unfold mul. cbn [SFmul]. apply round_aux_not_nan. lia.
Qed.

Lemma trunc_not_nan (x : number) : isNaN x = false -> isNaN (trunc x) = false.
Proof.
  destruct x as [s | s | | s m e]; intros H; try exact H.
  cbn [trunc]. destruct (0 <=? e); [reflexivity |]. apply normalize_not_nan.
Qed.

End NumberFacts.
Module TokenFacts.
Import JSString JSNumber JSValue Tokens Exact ExactFacts Calculators.
Import NumberFacts.

Lemma code_range (c : ascii) : 0 <= code c < 256.
Proof.
  unfold code. pose proof (N_ascii_bounded c) as H. lia.
Qed.

Lemma code_char_of_code (z : Z) : 0 <= z < 256 -> code (char_of_code z) = z.
Proof.
  intros H. unfold code, char_of_code.
  rewrite N_ascii_embedding by lia. lia.
Qed.

Lemma code_lower (c : ascii) :
  code (lower c)
  = if (65 <=? code c) && (code c <=? 90) then code c + 32 else code c.
Proof.
  unfold lower. pose proof (code_range c) as R.
  destruct ((65 <=? code c) && (code c <=? 90)) eqn:E; [| reflexivity].
  apply andb_prop in E. destruct E as [E1 E2].
  apply Z.leb_le in E1. apply Z.leb_le in E2.
  apply code_char_of_code. lia.
Qed.

Lemma digit_val_code (c : ascii) :
  digit_val c
  = let n := code c in
    if (48 <=? n) && (n <=? 57) then Some (n - 48)
    else if (97 <=? n) && (n <=? 122) then Some (n - 87)
    else if (65 <=? n) && (n <=? 90) then Some (n - 55)
    else None.
Proof. reflexivity. Qed.

(** [take_digits] counts upwards. *)
Lemma take_digits_count (r : Z) (l : list ascii) :
  forall acc n, n <= snd (fst (take_digits r l acc n)).
Proof.
  induction l as [| c l IH]; intros acc n; cbn [take_digits].
  - cbn. lia.
  - destruct (digit_val c) as [d |]; [| cbn; lia].
    destruct (d <? r); [| cbn; lia].
    specialize (IH (acc * r + d) (n + 1)). lia.
Qed.

(** [parseInt] of a hexadecimal literal is a number. *)
Lemma parseInt_hex_literal (s : string) :
  is_hex_literal s = true -> isNaN (parseInt s 16) = false.
Proof.
  unfold is_hex_literal, parseInt.
  destruct (chars s) as [| z [| x [| d ds]]]; try discriminate.
  intros H. apply andb_prop in H. destruct H as [H Hd].
  apply andb_prop in H. destruct H as [Hz Hx].
  unfold is_char in Hz, Hx. apply Z.eqb_eq in Hz. apply Z.eqb_eq in Hx.
  rewrite code_lower in Hx.
  assert (Ez : is_ws z = false) by (unfold is_ws; rewrite Hz; reflexivity).
  cbn [drop_ws]. rewrite Ez. unfold is_char. rewrite Hz.
  change (48 =? 45) with false. change (48 =? 43) with false.
  change (16 =? 16) with true. cbv beta iota zeta.
  assert (Ex : (code x =? 120) || (code x =? 88) = true).
  { destruct ((65 <=? code x) && (code x <=? 90)) eqn:E.
    - replace (code x) with 88 by lia. reflexivity.
    - rewrite Hx. reflexivity. }
  rewrite Ex, Hz. change (48 =? 48) with true. cbn [andb]. cbv iota.
  cbn [forallb] in Hd. apply andb_prop in Hd. destruct Hd as [Hd _].
  unfold is_radix_digit in Hd. cbn [take_digits].
  destruct (digit_val d) as [dv |]; [| discriminate Hd]. rewrite Hd.
  pose proof (take_digits_count 16 ds (0 * 16 + dv) (0 + 1)) as C.
  destruct (take_digits 16 ds (0 * 16 + dv) (0 + 1)) as [[v n] rest].
  cbn [fst snd] in C.
  replace (0 <? n) with true by (symmetry; apply Z.ltb_lt; lia).
  apply normalize_not_nan.
Qed.

(** [parseInt] with radix 2 stops at the letter of a binary literal: it
    reads the leading zero and nothing else. *)
Lemma parseInt_bin_literal (s : string) :
  is_bin_literal s = true -> parseInt s 2 = pzero.
Proof.
  unfold is_bin_literal, parseInt.
  destruct (chars s) as [| z [| b [| d ds]]]; try discriminate.
  intros H. apply andb_prop in H. destruct H as [H Hd].
  apply andb_prop in H. destruct H as [Hz Hb].
  unfold is_char in Hz, Hb. apply Z.eqb_eq in Hz. apply Z.eqb_eq in Hb.
  rewrite code_lower in Hb.
  assert (Ez : is_ws z = false) by (unfold is_ws; rewrite Hz; reflexivity).
  cbn [drop_ws]. rewrite Ez. unfold is_char. rewrite Hz.
  change (48 =? 45) with false. change (48 =? 43) with false.
  change (2 =? 16) with false. cbv beta iota zeta.
  cbn [take_digits]. rewrite (digit_val_code z). cbv zeta. rewrite Hz.
  change ((48 <=? 48) && (48 <=? 57)) with true. cbv iota.
  change (48 - 48 <? 2) with true. cbv iota.
  assert (Eb : digit_val b = Some 11).
  { rewrite digit_val_code. cbv zeta.
    destruct ((65 <=? code b) && (code b <=? 90)) eqn:E.
    - replace (code b) with 66 by lia. reflexivity.
    - rewrite Hb. reflexivity. }
  rewrite Eb. reflexivity.
Qed.

Lemma hex_not_bin (s : string) :
  is_bin_literal s = true -> is_hex_literal s = false.
Proof.
  unfold is_bin_literal, is_hex_literal.
  destruct (chars s) as [| z [| b [| d ds]]]; try discriminate.
  intros H. apply andb_prop in H. destruct H as [H _].
  apply andb_prop in H. destruct H as [_ Hb].
  unfold is_char in *. apply Z.eqb_eq in Hb. rewrite Hb.
  now rewrite andb_false_r.
Qed.

Lemma bin_first (s : string) (z : Z) :
  is_bin_literal s = true -> z <> 48 -> first_is z s = false.
Proof.
  unfold is_bin_literal, first_is, first_char, chars.
  destruct s as [| c s']; [discriminate |]. cbn [list_ascii_of_string].
  destruct (list_ascii_of_string s') as [| b [| d ds]]; try discriminate.
  intros H N. apply andb_prop in H. destruct H as [H _].
  apply andb_prop in H. destruct H as [Hz _].
  unfold is_char in *. apply Z.eqb_eq in Hz. rewrite Hz.
  apply Z.eqb_neq. congruence.
Qed.

Lemma bin_nonempty (s : string) :
  is_bin_literal s = true -> is_empty s = false.
Proof. destruct s; [discriminate | reflexivity]. Qed.

Lemma sign_finite (b : bool) :
  exists s m e, (if b then of_Z (-1) else of_Z 1) = S754_finite s m e.
Proof. destruct b; vm_compute; eauto. Qed.

(** The calculators' reader never answers NaN. *)
Lemma token_not_nan (tok : value) (x : number) :
  parseSingleNumberToken tok = Some x -> isNaN x = false.
Proof.
  unfold parseSingleNumberToken.
  set (s := trim (toString tok)).
  set (unsigned := if first_is 45 s || first_is 43 s then drop 1 s else s).
  destruct (sign_finite (first_is 45 s)) as [sg [m [e Es]]].
  assert (G : forall y, isNaN y = false ->
                isNaN (mul (if first_is 45 s then of_Z (-1) else of_Z 1) y)
                = false)
    by (intros y Hy; rewrite Es; now apply mul_not_nan).
  assert (M : (if is_empty s then None
               else if is_hex_literal unsigned
                    then Some (mul (if first_is 45 s then of_Z (-1)
                                    else of_Z 1) (parseInt unsigned 16))
                    else if is_bin_literal unsigned
                         then Some (mul (if first_is 45 s then of_Z (-1)
                                         else of_Z 1) (parseInt unsigned 2))
                         else if isFinite (of_string unsigned)
                              then Some (mul (if first_is 45 s
                                              then of_Z (-1) else of_Z 1)
                                             (trunc (of_string unsigned)))
                              else None) = Some x -> isNaN x = false).
  { destruct (is_empty s); [discriminate |].
    destruct (is_hex_literal unsigned) eqn:Eh.
    - intros H. injection H as <-. apply G.
      now apply parseInt_hex_literal.
    - destruct (is_bin_literal unsigned) eqn:Eb.
      + intros H. injection H as <-. apply G.
        now rewrite parseInt_bin_literal.
      + destruct (isFinite (of_string unsigned)) eqn:Ef; [| discriminate].
        intros H. injection H as <-. apply G. apply trunc_not_nan.
        destruct (of_string unsigned); try reflexivity; discriminate Ef. }
  destruct tok; try discriminate; exact M.
Qed.

End TokenFacts.

Module BitFacts.
Import JSString JSNumber JSValue Tokens Exact ExactFacts Calculators.
Import NumberFacts CalcSpec.

Lemma truncZ_opp (x : number) : truncZ (SFopp x) = - truncZ x.
Proof.
  destruct x as [s | s | | s m e]; try reflexivity.
  cbn [SFopp truncZ]. destruct s; cbn [negb cond_Zopp]; lia.
Qed.

Lemma truncZ_canon (p : positive) :
  truncZ (canon (Zpos p)) = ival (canon (Zpos p)).
Proof. reflexivity. Qed.

Lemma truncZ_of_Z (k : Z) : - 2 ^ 53 < k < 2 ^ 53 -> truncZ (of_Z k) = k.
Proof.
  intros H. destruct k as [| p | p].
  - reflexivity.
  - rewrite of_Z_canon, truncZ_canon, <- of_Z_canon by lia.
    apply ival_of_Z. lia.
  - rewrite of_Z_opp, truncZ_opp.
    rewrite of_Z_canon, truncZ_canon, <- of_Z_canon by lia.
    rewrite ival_of_Z by lia. reflexivity.
Qed.

Lemma toInt32_range (x : number) : int32 (toInt32 x).
Proof.
  unfold toInt32, int32.
  pose proof (Z.mod_pos_bound (truncZ x) (2 ^ 32) ltac:(lia)) as B.
  destruct (Z.leb_spec (2 ^ 31) (truncZ x mod 2 ^ 32)); lia.
Qed.

(** A signed 32-bit integer goes through [Number] and [ToInt32]
    unchanged. *)
Lemma toInt32_of_Z (k : Z) : int32 k -> toInt32 (of_Z k) = k.
Proof.
  unfold int32. intros H. unfold toInt32.
  rewrite truncZ_of_Z by lia.
  destruct (Z.le_gt_cases 0 k) as [P | N].
  - rewrite Z.mod_small by lia.
    destruct (Z.leb_spec (2 ^ 31) k); lia.
  - replace (k mod 2 ^ 32) with (k + 2 ^ 32).
    + destruct (Z.leb_spec (2 ^ 31) (k + 2 ^ 32)); lia.
    + apply Z.mod_unique with (-1); lia.
Qed.

Lemma int32_shift (k : Z) :
  int32 k <-> Z.shiftr k 31 = 0 \/ Z.shiftr k 31 = -1.
Proof.
  unfold int32. rewrite Z.shiftr_div_pow2 by lia.
  pose proof (Z.div_mod k (2 ^ 31) ltac:(lia)) as D.
  pose proof (Z.mod_pos_bound k (2 ^ 31) ltac:(lia)) as B.
  split; intros H; lia.
Qed.

Lemma int32_land (a b : Z) : int32 a -> int32 b -> int32 (Z.land a b).
Proof.
  rewrite !int32_shift, Z.shiftr_land.
  intros [-> | ->] [-> | ->]; cbn; auto.
Qed.

Lemma int32_lor (a b : Z) : int32 a -> int32 b -> int32 (Z.lor a b).
Proof.
  rewrite !int32_shift, Z.shiftr_lor.
  intros [-> | ->] [-> | ->]; cbn; auto.
Qed.

Lemma int32_lxor (a b : Z) : int32 a -> int32 b -> int32 (Z.lxor a b).
Proof.
  rewrite !int32_shift, Z.shiftr_lxor.
  intros [-> | ->] [-> | ->]; cbn; auto.
Qed.

Section Fold.
Variable op : Z -> Z -> Z.
Hypothesis op_int32 : forall a b, int32 a -> int32 b -> int32 (op a b).

Local Abbreviation reducer := (bit_reducer op).

Lemma fold_int32 (l : list Z) :
  forall k, int32 k -> Forall int32 l -> int32 (fold_left op l k).
Proof.
  induction l as [| x l IH]; intros k Hk Hl; [exact Hk |].
  inversion Hl; subst. cbn [fold_left]. apply IH; [| assumption].
  now apply op_int32.
Qed.

Lemma all_int32 (l : list number) : Forall int32 (map toInt32 l).
Proof.
  induction l; constructor; [apply toInt32_range | assumption].
Qed.

Lemma fold_reducer (rest : list number) :
  forall k, int32 k ->
    fold_left reducer rest (of_Z k)
    = of_Z (fold_left op (map toInt32 rest) k).
Proof.
  induction rest as [| y rest IH]; intros k Hk; [reflexivity |].
  cbn [fold_left map]. unfold bit_reducer at 2.
  rewrite (toInt32_of_Z k Hk). apply IH.
  apply op_int32; [exact Hk | apply toInt32_range].
Qed.

(** Two numbers or more: the result is the operator applied to the 32-bit
    values, itself a 32-bit integer. *)
Lemma fold_two (first second : number) (rest : list number) :
  fold_left reducer (second :: rest) first
  = of_Z (fold_bits op first (second :: rest)) /\
  int32 (fold_bits op first (second :: rest)).
Proof.
  unfold fold_bits. cbn [fold_left map]. split.
  - unfold bit_reducer at 2. apply fold_reducer.
    apply op_int32; apply toInt32_range.
  - apply fold_int32; [| apply all_int32].
    apply op_int32; apply toInt32_range.
Qed.

End Fold.

(** What [read_tokens] returns: one number per token, each what the reader
    makes of it. *)
Lemma read_tokens_Nums (tokens : list string) :
  forall acc nums,
    read_tokens tokens acc = Nums nums ->
    exists ns, nums = (acc ++ ns)%list /\
      Forall2 (fun tok n => parseSingleNumberToken (VStr tok) = Some n)
              tokens ns.
Proof.
  induction tokens as [| tok r IH]; intros acc nums H; cbn [read_tokens] in H.
  - injection H as <-. exists []. split; [now rewrite app_nil_r | constructor].
  - destruct (parseSingleNumberToken (VStr tok)) as [n |] eqn:E;
      [| discriminate H].
    destruct (IH _ _ H) as [ns [-> F]]. exists (n :: ns).
    split; [now rewrite <- app_assoc | now constructor].
Qed.

Lemma read_tokens_shape (tokens : list string) :
  forall acc,
    (exists nums, read_tokens tokens acc = Nums nums) \/
    (exists msg, read_tokens tokens acc = Failed msg).
Proof.
  induction tokens as [| tok r IH]; intros acc; cbn [read_tokens].
  - left. eauto.
  - destruct (parseSingleNumberToken (VStr tok)); [apply IH | right; eauto].
Qed.

(** [parsePlainList] answers numbers or a message. *)
Lemma parsePlainList_shape (raw : option string) :
  (exists nums, parsePlainList raw = Nums nums) \/
  (exists msg, parsePlainList raw = Failed msg).
Proof.
  unfold parsePlainList. destruct raw as [text |]; [| right; eauto].
  destruct (filter_nonempty (map trim (Calculators.split_sep text)))
    as [| t ts]; [right; eauto |].
  apply read_tokens_shape.
Qed.

Lemma parsePlainList_Nums (raw : option string) (nums : list number) :
  parsePlainList raw = Nums nums ->
  exists text,
    raw = Some text /\
    nums <> [] /\
    Forall2 (fun tok n => parseSingleNumberToken (VStr tok) = Some n)
            (filter_nonempty (map trim (Calculators.split_sep text))) nums.
Proof.
  unfold parsePlainList. destruct raw as [text |]; [| discriminate].
  intros H. exists text. split; [reflexivity |].
  destruct (filter_nonempty (map trim (Calculators.split_sep text)))
    as [| t ts] eqn:E; [discriminate H |].
  destruct (read_tokens_Nums _ _ _ H) as [ns [-> F]]. cbn [app].
  split; [| exact F].
  inversion F; subst. discriminate.
Qed.

Lemma combineList_Combined (raw : option string)
      (reducer : number -> number -> number) (r : number)
      (inputs : list number) :
  combineList raw reducer = Combined r inputs ->
  parsePlainList raw = Nums inputs /\
  exists first rest, inputs = first :: rest /\
                     r = fold_left reducer rest first.
Proof.
  unfold combineList.
  destruct (parsePlainList_shape raw) as [[nums E] | [msg E]]; rewrite E;
    [| discriminate].
  destruct nums as [| first rest]; [discriminate |].
  intros H. injection H as <- <-. split; [reflexivity |].
  now exists first, rest.
Qed.

End BitFacts.
Module RadixFacts.
Import JSString JSNumber JSValue Tokens Exact ExactFacts Calculators.
Import NumberFacts TokenFacts.

(** Multiplying by the sign +1 or -1 keeps, or flips, an integer below
    2^53. *)
Lemma mul_one_canon (c : positive) :
  Zpos c < 2 ^ 53 -> mul (of_Z 1) (canon (Zpos c)) = canon (Zpos c).
Proof.
  intros Hc. pose proof (log2_bounds c Hc) as Hl.
  destruct (canon_mantissa c Hc) as [m [Em Hm]].
  set (dc := Z.log2 (Zpos c) + 1) in *.
  set (k := 105 - dc).
  assert (HM : Zpos (4503599627370496 * m) = Zpos c * 2 ^ k).
  { rewrite Pos2Z.inj_mul, Hm. change (Zpos 4503599627370496) with (2 ^ 52).
    rewrite Z.mul_comm, <- Z.mul_assoc, <- Z.pow_add_r by lia.
    f_equal. f_equal. unfold k. lia. }
  rewrite <- (binary_round_exact c k) at 2 by (unfold k; lia).
  rewrite <- HM, Pos2Z.id. rewrite Em.
  change (of_Z 1) with (S754_finite false 4503599627370496 (-52)).
  unfold mul. cbn [SFmul xorb]. unfold binary_round.
  assert (Hd : Zpos (digits2_pos (4503599627370496 * m)) = dc + k).
  { rewrite digits2_log2, HM, log2_shift by (unfold k; lia).
    unfold dc. lia. }
  rewrite Hd. replace (dc + k + - k) with dc by lia.
  rewrite fexp_normal by lia. unfold shl_align.
  replace (dc - 53 - - k) with 52 by (unfold k; lia).
  replace (-52 + (dc - 53)) with (- k) by (unfold k; lia).
  reflexivity.
Qed.

Lemma mul_sign_of_Z (k : Z) :
  0 <= k < 2 ^ 53 ->
  mul (of_Z 1) (of_Z k) = of_Z k /\
  (0 < k -> mul (of_Z (-1)) (of_Z k) = of_Z (- k)).
Proof.
  intros H. destruct k as [| p | p]; [split; [reflexivity | lia] | | lia].
  rewrite (of_Z_canon (Zpos p)) by lia.
  pose proof (mul_one_canon p ltac:(lia)) as E.
  split; [exact E |]. intros _.
  change (- Zpos p) with (Zneg p).
  rewrite (of_Z_opp p), (of_Z_canon (Zpos p)) by lia.
  assert (G : mul (of_Z (-1)) (canon (Zpos p))
              = SFopp (mul (of_Z 1) (canon (Zpos p)))).
  { destruct (canon_mantissa p ltac:(lia)) as [m [-> _]].
    change (of_Z (-1)) with (S754_finite true 4503599627370496 (-52)).
    change (of_Z 1) with (S754_finite false 4503599627370496 (-52)).
    unfold mul. cbn [SFmul xorb]. apply round_aux_opp. }
  rewrite G. f_equal. exact E.
Qed.

(** *** Binary digits *)

Lemma bits_pos_app (p : positive) :
  forall acc, bits_pos p acc = (bits_pos p [] ++ acc)%list.
Proof.
  induction p as [p IH | p IH |]; intros acc; cbn [bits_pos].
  - rewrite (IH (_ :: acc)), (IH [_]), <- app_assoc. reflexivity.
  - rewrite (IH (_ :: acc)), (IH [_]), <- app_assoc. reflexivity.
  - reflexivity.
Qed.

Lemma bits_pos_head (p : positive) :
  forall acc, exists r, bits_pos p acc = char_of_code 49 :: r.
Proof.
  induction p as [p IH | p IH |]; intros acc; cbn [bits_pos]; eauto.
Qed.

Lemma bits_pos_digits (p : positive) :
  forall acc, forallb (is_radix_digit 2) acc = true ->
              forallb (is_radix_digit 2) (bits_pos p acc) = true.
Proof.
  induction p as [p IH | p IH |]; intros acc H; cbn [bits_pos].
  - apply IH. cbn [forallb]. now rewrite H.
  - apply IH. cbn [forallb]. now rewrite H.
  - cbn [forallb]. now rewrite H.
Qed.

(** One more digit at the end of a numeral. *)
Lemma take_digits_snoc (r : Z) (c : ascii) (d : Z) (l : list ascii) :
  digit_val c = Some d -> (d <? r) = true ->
  forall acc n v n',
    take_digits r l acc n = (v, n', []) ->
    take_digits r (l ++ [c]) acc n = (v * r + d, n' + 1, []).
Proof.
  intros Hc Hd. induction l as [| c0 l IH]; intros acc n v n' H.
  - cbn [take_digits] in H. injection H as <- <-.
    cbn [app take_digits]. now rewrite Hc, Hd.
  - cbn [app take_digits] in *.
    destruct (digit_val c0) as [d0 |]; [| discriminate H].
    destruct (d0 <? r); [| discriminate H].
    now apply IH.
Qed.

(** [parseInt(.., 2)] reads the binary digits of a number back. *)
Lemma take_bits (p : positive) :
  exists n, 0 < n /\ take_digits 2 (bits_pos p []) 0 0 = (Zpos p, n, []).
Proof.
  induction p as [p [n [Hn IH]] | p [n [Hn IH]] |]; cbn [bits_pos].
  - exists (n + 1). split; [lia |]. rewrite bits_pos_app.
    rewrite (take_digits_snoc 2 (char_of_code 49) 1 _ eq_refl eq_refl
                              _ _ _ _ IH).
    f_equal. f_equal. lia.
  - exists (n + 1). split; [lia |]. rewrite bits_pos_app.
    rewrite (take_digits_snoc 2 (char_of_code 48) 0 _ eq_refl eq_refl
                              _ _ _ _ IH).
    f_equal. f_equal. lia.
  - exists 1. split; [lia | reflexivity].
Qed.

(** The binary numeral of a positive integer below 2^53. *)
Lemma to_radix2_canon (p : positive) :
  Zpos p < 2 ^ 53 ->
  to_radix2 (canon (Zpos p)) = of_chars (bits_pos p []).
Proof.
  intros Hp. pose proof (log2_bounds p Hp) as Hl.
  destruct (canon_mantissa p Hp) as [m [-> Hm]].
  set (j := 53 - (Z.log2 (Zpos p) + 1)) in *.
  replace (Z.log2 (Zpos p) + 1 - 53) with (- j) by (unfold j; lia).
  assert (Hj : 0 <= j) by (unfold j; lia).
  assert (P : 0 < 2 ^ j) by (apply Z.pow_pos_nonneg; lia).
  unfold to_radix2.
  destruct (Z.leb_spec 0 (- j)) as [E | E].
  - assert (j = 0) by lia. replace (- j) with 0 by lia.
    rewrite Hm. replace j with 0 by lia. rewrite Z.pow_0_r, !Z.mul_1_r.
    reflexivity.
  - rewrite Z.opp_involutive, Hm.
    rewrite Z.mod_mul by lia. rewrite Z.div_mul by lia. reflexivity.
Qed.

(** *** Strings without white space and separators *)

Lemma chars_of_chars (l : list ascii) : chars (of_chars l) = l.
Proof. apply list_ascii_of_string_of_list_ascii. Qed.

Lemma of_chars_chars (s : string) : of_chars (chars s) = s.
Proof. apply string_of_list_ascii_of_string. Qed.

Lemma drop_ws_clean (l : list ascii) :
  Forall (fun c => is_ws c = false) l -> drop_ws l = l.
Proof.
  intros F. destruct F as [| c l Hc _]; [reflexivity |].
  cbn [drop_ws]. now rewrite Hc.
Qed.

Lemma trim_clean (l : list ascii) :
  Forall (fun c => is_ws c = false) l -> trim (of_chars l) = of_chars l.
Proof.
  intros F. unfold trim. rewrite chars_of_chars.
  rewrite (drop_ws_clean l F).
  rewrite (drop_ws_clean (rev l)) by now apply Forall_rev.
  now rewrite rev_involutive.
Qed.

Lemma split_sep_clean (l : list ascii) :
  Forall (fun c => Calculators.is_sep c = false) l ->
  forall cur, Calculators.split_sep_chars l cur false
              = [(rev cur ++ l)%list].
Proof.
  induction 1 as [| c l Hc _ IH]; intros cur; cbn [split_sep_chars].
  - now rewrite app_nil_r.
  - rewrite Hc, IH. cbn [rev]. now rewrite <- app_assoc.
Qed.

Lemma first_piece_clean (c : ascii) (l : list ascii) :
  Forall (fun c => Calculators.is_sep c = false) (c :: l) ->
  first_piece (of_chars (c :: l)) = of_chars (c :: l).
Proof.
  intros F. unfold first_piece, Calculators.split_sep.
  change (of_chars (c :: l)) with (String c (of_chars l)) at 1.
  cbv iota. change (String c (of_chars l)) with (of_chars (c :: l)).
  rewrite chars_of_chars, (split_sep_clean _ F []). reflexivity.
Qed.

(** Binary digits and the minus sign are neither white space nor
    separators. *)
Lemma digits_clean (l : list ascii) :
  forallb (is_radix_digit 2) l = true ->
  Forall (fun c => is_ws c = false) l /\
  Forall (fun c => Calculators.is_sep c = false) l.
Proof.
  induction l as [| c l IH]; intros H; [split; constructor |].
  cbn [forallb] in H. apply andb_prop in H. destruct H as [Hc Hl].
  destruct (IH Hl) as [F1 F2].
  assert (R : code c = 48 \/ code c = 49).
  { unfold is_radix_digit in Hc. rewrite digit_val_code in Hc.
    cbv zeta in Hc. pose proof (code_range c) as B.
    destruct ((48 <=? code c) && (code c <=? 57)) eqn:E1.
    - apply andb_prop in E1. destruct E1 as [E1 E2].
      apply Z.leb_le in E1. apply Z.leb_le in E2.
      apply Z.ltb_lt in Hc. lia.
    - destruct ((97 <=? code c) && (code c <=? 122)) eqn:E2.
      + apply andb_prop in E2. destruct E2 as [E2 _].
        apply Z.leb_le in E2. apply Z.ltb_lt in Hc. lia.
      + destruct ((65 <=? code c) && (code c <=? 90)) eqn:E3;
          [| discriminate Hc].
        apply andb_prop in E3. destruct E3 as [E3 _].
        apply Z.leb_le in E3. apply Z.ltb_lt in Hc. lia. }
  split; constructor; try assumption; unfold is_ws, Calculators.is_sep;
    destruct R as [-> | ->]; reflexivity.
Qed.

(** [binToDecimal] of the binary numeral of a positive integer, with or
    without a minus sign. *)
Lemma binToDecimal_bits (p : positive) :
  Zpos p < 2 ^ 53 ->
  binToDecimal (Some (of_chars (bits_pos p [])))
  = Decimal (of_chars (bits_pos p [])) (of_Z (Zpos p)) /\
  binToDecimal (Some ("-" ++ of_chars (bits_pos p [])))
  = Decimal ("-" ++ of_chars (bits_pos p [])) (of_Z (Zneg p)).
Proof.
  intros Hp.
  pose proof (bits_pos_digits p [] eq_refl) as Hd.
  destruct (digits_clean _ Hd) as [Fw Fs].
  destruct (take_bits p) as [n [Hn Ht]].
  destruct (bits_pos_head p []) as [r Er].
  destruct (mul_sign_of_Z (Zpos p) ltac:(lia)) as [M1 M2].
  specialize (M2 ltac:(lia)). change (- Zpos p) with (Zneg p) in M2.
  set (l := bits_pos p []) in *.
  assert (Pi : parseInt (of_chars l) 2 = of_Z (Zpos p)).
  { unfold parseInt. rewrite chars_of_chars, (drop_ws_clean l Fw).
    rewrite Er at 1. change (is_char 45 (char_of_code 49)) with false.
    change (is_char 43 (char_of_code 49)) with false. cbv iota.
    change (2 =? 16) with false. cbv iota. rewrite Ht.
    replace (0 <? n) with true by (symmetry; apply Z.ltb_lt; lia).
    reflexivity. }
  assert (Bi : is_bits (of_chars l) = true).
  { unfold is_bits. rewrite chars_of_chars. rewrite Er at 1.
    rewrite <- Er. exact Hd. }
  split.
  - unfold binToDecimal. rewrite (trim_clean l Fw).
    rewrite Er. rewrite (first_piece_clean _ _ ltac:(rewrite <- Er; exact Fs)).
    rewrite <- Er.
    replace (is_empty (of_chars l)) with false by (rewrite Er; reflexivity).
    replace (first_is 45 (of_chars l)) with false
      by (rewrite Er; reflexivity).
    replace (first_is 43 (of_chars l)) with false
      by (rewrite Er; reflexivity).
    cbn [orb].
    replace (starts_with "0b" (of_chars l)) with false
      by (rewrite Er; reflexivity).
    replace (starts_with "0B" (of_chars l)) with false
      by (rewrite Er; reflexivity).
    cbn [orb]. rewrite Bi, Pi, M1. reflexivity.
  - change ("-" ++ of_chars l) with (of_chars (char_of_code 45 :: l)).
    assert (Fw' : Forall (fun c => is_ws c = false) (char_of_code 45 :: l))
      by (constructor; [reflexivity | exact Fw]).
    assert (Fs' : Forall (fun c => Calculators.is_sep c = false)
                         (char_of_code 45 :: l))
      by (constructor; [reflexivity | exact Fs]).
    unfold binToDecimal. rewrite (trim_clean _ Fw').
    rewrite (first_piece_clean _ _ Fs').
    change (is_empty (of_chars (char_of_code 45 :: l))) with false.
    change (first_is 45 (of_chars (char_of_code 45 :: l))) with true.
    cbn [orb]. cbv iota.
    change (drop 1 (of_chars (char_of_code 45 :: l))) with (of_chars l).
    replace (starts_with "0b" (of_chars l)) with false
      by (rewrite Er; reflexivity).
    replace (starts_with "0B" (of_chars l)) with false
      by (rewrite Er; reflexivity).
    cbn [orb]. rewrite Bi, Pi, M2. reflexivity.
Qed.

End RadixFacts.

(** * Further properties of the code *)

(** ** The shortest-path engine *)

(** Every entry of the sample graphs weighs 4, 1 or 2. *)
Ltac sample_weights :=
  let u := fresh "u" in
  let e := fresh "e" in
  let es := fresh "es" in
  let G := fresh "G" in
  let Hi := fresh "Hi" in
  intros u e [es [G Hi]]; apply DictFacts.get_Own_In in G; cbn in G;
  repeat (destruct G as [G | G]; [| try contradiction]);
  try (injection G as <- <-; cbn in Hi;
       repeat (destruct Hi as [<- | Hi]); try contradiction; cbn [weight];
       first [ exists 4; split; [lia | vm_compute; reflexivity]
             | exists 1; split; [lia | vm_compute; reflexivity]
             | exists 2; split; [lia | vm_compute; reflexivity] ]).

(** The names of the sample graphs are the adjacency map's own. *)
Ltac sample_own :=
  let u := fresh "u" in
  let Hu := fresh "Hu" in
  intros u Hu; cbn in Hu;
  repeat (destruct Hu as [<- | Hu]; [vm_compute; discriminate |]);
  contradiction.

(** X1: on a parsed graph, directed or not, whose node names are the
    adjacency map's own and whose weights are natural numbers small enough
    to add exactly, a call of the shortest-path engine from a node to a node
    it can reach returns (for every fuel from some bound on) a path that
    starts at the source, ends at the target, follows adjacency entries, and
    whose entry weights add up to the distance returned. *)
Theorem X1_path_realises_distance (rawText : string) (o : options)
        (m : model) (maxw : Z) (source target : string) :
  parseGraphInput rawText o = Return m ->
  own_names (m_adjacency m) (map node_id (nodesArr m)) ->
  natural_weights (m_adjacency m) maxw ->
  (Z.of_nat (List.length (nodesArr m)) + 1) * maxw < 2 ^ 53 ->
  In source (map node_id (nodesArr m)) ->
  In target (map node_id (nodesArr m)) ->
  is_empty source = false -> is_empty target = false ->
  walk (m_adjacency m) any_edge source target ->
  exists fuel0 r l,
    (forall fuel, (fuel0 <= fuel)%nat ->
       Dijkstra.shortestPath fuel m source target = Return r) /\
    Dijkstra.path r = map Dijkstra.CNode l /\
    hd_error l = Some source /\ last l "" = target /\
    Exact.exact (Dijkstra.distance r) /\
    DijkstraSpec.chain (m_adjacency m) l (Exact.ival (Dijkstra.distance r)).
Proof.
  intros Hp Ho Hn Hb Hs Ht Es Et W. unfold Dijkstra.shortestPath.
  destruct (ModelFacts.parsed_graph _ _ _ Hp) as [Hnd Hc].
  rewrite <- (length_map node_id) in Hb.
  destruct (DijkstraFacts.engine_shortest
              (m_adjacency m) (map node_id (nodesArr m)) (m_edgeKeyToId m)
              (isDirected m) maxw source target Hnd Hc Ho Hn Hb Hs Ht Es Et W)
    as [f0 [r [l [Hr [Hpath [_ [Hh [Hl [Ex [C _]]]]]]]]]].
  exists f0, r, l. repeat (split; [assumption |]). exact C.
Qed.

Lemma X1_path_realises_distance_witness :
  exists m,
    parseGraphInput triangle_text (mkOptions true false Plain) = Return m /\
    exists fuel0 r l,
      (forall fuel, (fuel0 <= fuel)%nat ->
         Dijkstra.shortestPath fuel m "A" "B" = Return r) /\
      Dijkstra.path r = map Dijkstra.CNode l /\
      hd_error l = Some "A" /\ last l "" = "B" /\
      Exact.exact (Dijkstra.distance r) /\
      DijkstraSpec.chain (m_adjacency m) l
                         (Exact.ival (Dijkstra.distance r)).
Proof.
  exists_parsed.
  match goal with
  | |- context [Dijkstra.shortestPath _ ?x] => set (m := x)
  end.
  assert (Hp : parseGraphInput triangle_text (mkOptions true false Plain)
               = Return m) by (vm_compute; reflexivity).
  apply (X1_path_realises_distance _ _ m 4 "A" "B" Hp).
  - sample_own.
  - sample_weights.
  - vm_compute. reflexivity.
  - cbn. tauto.
  - cbn. tauto.
  - reflexivity.
  - reflexivity.
  - PathGraph.first_entry. constructor.
Defined.

(** X2: under the same conditions the distance returned is the least: no
    sequence of adjacency entries that leads from the source to the target
    has a smaller total weight. *)
Theorem X2_distance_is_least (rawText : string) (o : options)
        (m : model) (maxw : Z) (source target : string) :
  parseGraphInput rawText o = Return m ->
  own_names (m_adjacency m) (map node_id (nodesArr m)) ->
  natural_weights (m_adjacency m) maxw ->
  (Z.of_nat (List.length (nodesArr m)) + 1) * maxw < 2 ^ 53 ->
  In source (map node_id (nodesArr m)) ->
  In target (map node_id (nodesArr m)) ->
  is_empty source = false -> is_empty target = false ->
  walk (m_adjacency m) any_edge source target ->
  exists fuel0 r,
    (forall fuel, (fuel0 <= fuel)%nat ->
       Dijkstra.shortestPath fuel m source target = Return r) /\
    Exact.exact (Dijkstra.distance r) /\
    forall l L,
      DijkstraSpec.chain (m_adjacency m) l L ->
      hd_error l = Some source -> last l "" = target ->
      Exact.ival (Dijkstra.distance r) <= L.
Proof.
  intros Hp Ho Hn Hb Hs Ht Es Et W. unfold Dijkstra.shortestPath.
  destruct (ModelFacts.parsed_graph _ _ _ Hp) as [Hnd Hc].
  rewrite <- (length_map node_id) in Hb.
  destruct (DijkstraFacts.engine_shortest
              (m_adjacency m) (map node_id (nodesArr m)) (m_edgeKeyToId m)
              (isDirected m) maxw source target Hnd Hc Ho Hn Hb Hs Ht Es Et W)
    as [f0 [r [l [Hr [_ [_ [_ [_ [Ex [_ M]]]]]]]]]].
  exists f0, r. split; [exact Hr |]. split; [exact Ex | exact M].
Qed.

Lemma X2_distance_is_least_witness :
  exists m,
    parseGraphInput triangle_text (mkOptions true false Plain) = Return m /\
    exists fuel0 r,
      (forall fuel, (fuel0 <= fuel)%nat ->
         Dijkstra.shortestPath fuel m "A" "B" = Return r) /\
      Exact.exact (Dijkstra.distance r) /\
      forall l L,
        DijkstraSpec.chain (m_adjacency m) l L ->
        hd_error l = Some "A" -> last l "" = "B" ->
        Exact.ival (Dijkstra.distance r) <= L.
Proof.
  exists_parsed.
  match goal with
  | |- context [Dijkstra.shortestPath _ ?x] => set (m := x)
  end.
  assert (Hp : parseGraphInput triangle_text (mkOptions true false Plain)
               = Return m) by (vm_compute; reflexivity).
  apply (X2_distance_is_least _ _ m 4 "A" "B" Hp).
  - sample_own.
  - sample_weights.
  - vm_compute. reflexivity.
  - cbn. tauto.
  - cbn. tauto.
  - reflexivity.
  - reflexivity.
  - PathGraph.first_entry. constructor.
Defined.

(** X3: under the same conditions on the graph, when no walk along
    adjacency entries leads from the source to the target, the engine
    returns distance Infinity, an empty path and no edge ids. *)
Theorem X3_unreachable_target (rawText : string) (o : options)
        (m : model) (maxw : Z) (source target : string) :
  parseGraphInput rawText o = Return m ->
  own_names (m_adjacency m) (map node_id (nodesArr m)) ->
  natural_weights (m_adjacency m) maxw ->
  (Z.of_nat (List.length (nodesArr m)) + 1) * maxw < 2 ^ 53 ->
  In source (map node_id (nodesArr m)) ->
  ~ walk (m_adjacency m) any_edge source target ->
  exists fuel0,
    forall fuel, (fuel0 <= fuel)%nat ->
      Dijkstra.shortestPath fuel m source target
      = Return (Dijkstra.mkResult Infinity [] []).
Proof.
  intros Hp Ho Hn Hb Hs Hno. unfold Dijkstra.shortestPath.
  destruct (ModelFacts.parsed_graph _ _ _ Hp) as [Hnd Hc].
  rewrite <- (length_map node_id) in Hb.
  exact (DijkstraFacts.engine_unreachable
           (m_adjacency m) (map node_id (nodesArr m)) (m_edgeKeyToId m)
           (isDirected m) maxw source target Hnd Hc Ho Hn Hb Hs Hno).
Qed.

Lemma X3_unreachable_target_witness :
  exists m,
    parseGraphInput two_parts_text (mkOptions true false Plain) = Return m /\
    exists fuel0,
      forall fuel, (fuel0 <= fuel)%nat ->
        Dijkstra.shortestPath fuel m "A" "C"
        = Return (Dijkstra.mkResult Infinity [] []).
Proof.
  exists_parsed.
  match goal with
  | |- context [Dijkstra.shortestPath _ ?x] => set (m := x)
  end.
  assert (Hp : parseGraphInput two_parts_text (mkOptions true false Plain)
               = Return m) by (vm_compute; reflexivity).
  apply (X3_unreachable_target _ _ m 4 "A" "C" Hp).
  - sample_own.
  - sample_weights.
  - vm_compute. reflexivity.
  - cbn. tauto.
  - intros W.
    assert (Hin : In "C" ["A"; "B"]).
    { apply (PrimFacts.walk_inside (m_adjacency m) ["A"; "B"] "A" "C");
        [| exact W | now left].
      intros u e Hu [es [G Hi]]. cbn in Hu.
      destruct Hu as [<- | [<- | []]]; vm_compute in G; injection G as <-;
        cbn in Hi; destruct Hi as [<- | []]; cbn; tauto. }
    cbn in Hin. destruct Hin as [E | [E | []]]; discriminate E.
Defined.

(** X4: asked for the way from a node to itself, the engine returns
    distance 0, the path holding that node alone and no edge id, whatever
    the entries and their weights are (negative, fractional or not numbers
    at all); the node has to be one of the nodes given, not the empty string
    and not the name of the prototype slot. *)
Theorem X4_source_is_target (adjacency : dict (list adjEntry))
        (edgeKeyToId : dict nat) (isDirected : bool)
        (nodes : list string) (s : string) (fuel : nat) :
  In s nodes -> is_empty s = false -> s <> "__proto__" ->
  Dijkstra.dijkstraPQ (S fuel) (Some adjacency) edgeKeyToId isDirected
                      s s nodes
  = Return (Dijkstra.mkResult pzero [Dijkstra.CNode s] []).
Proof.
  intros Hs Es Np. unfold Dijkstra.dijkstraPQ. rewrite Es. cbn [orb].
  unfold Dijkstra.init_tables.
  change (MinHeap.push [] (MinHeap.mkItem s pzero))
    with [MinHeap.mkItem s pzero].
  assert (Hd : Dijkstra.dist_at
                 (set (fold_left (fun d n => set d n Infinity) nodes [])
                      s pzero) s = pzero).
  { unfold Dijkstra.dist_at.
    now rewrite DijkstraFacts.get_own_set_same. }
  assert (Hp : get (fold_left (fun p n => set p n (@None string)) nodes []) s
               = Own None).
  { pose proof (DijkstraFacts.get_own_fold [] (@None string) nodes s Np Hs)
      as G.
    rewrite DijkstraFacts.get_own_of_get in G.
    destruct (get (fold_left (fun p n => set p n None) nodes []) s)
      as [v | |]; [| discriminate G | discriminate G].
    now injection G as ->. }
  cbn [Dijkstra.main_loop].
  change (MinHeap.pop [MinHeap.mkItem s pzero])
    with (Some (MinHeap.mkItem s pzero, @nil MinHeap.item)).
  cbn [MinHeap.node MinHeap.priority]. rewrite Hd.
  change (gt pzero pzero) with false. cbv iota. rewrite String.eqb_refl.
  cbn [bind]. rewrite Hd. change (negb (isFinite pzero)) with false.
  cbv iota. cbn [Dijkstra.walk]. unfold Dijkstra.prev_at.
  cbn [Dijkstra.cursor_key]. rewrite Hp. destruct fuel; reflexivity.
Qed.

Lemma X4_source_is_target_witness :
  Dijkstra.dijkstraPQ 1 (Some [("A", [mkAdj "B" NaN 0%nat])]) [] false
                      "A" "A" ["A"; "B"]
  = Return (Dijkstra.mkResult pzero [Dijkstra.CNode "A"] []).
Proof.
  apply (X4_source_is_target [("A", [mkAdj "B" NaN 0%nat])] [] false
                             ["A"; "B"] "A" 0%nat).
  - now left.
  - reflexivity.
  - discriminate.
Defined.

(** X5: on a parsed model with the conditions of X1, the edge ids returned
    with a shortest path are, step by step, the ids that the key table
    holds under the keys of the consecutive node pairs of the path: one id
    for every step, found at the first lookup. *)
Theorem X5_edge_ids_follow_path (rawText : string) (o : options)
        (m : model) (maxw : Z) (source target : string) :
  parseGraphInput rawText o = Return m ->
  own_names (m_adjacency m) (map node_id (nodesArr m)) ->
  natural_weights (m_adjacency m) maxw ->
  (Z.of_nat (List.length (nodesArr m)) + 1) * maxw < 2 ^ 53 ->
  In source (map node_id (nodesArr m)) ->
  In target (map node_id (nodesArr m)) ->
  is_empty source = false -> is_empty target = false ->
  walk (m_adjacency m) any_edge source target ->
  exists fuel0 r l,
    (forall fuel, (fuel0 <= fuel)%nat ->
       Dijkstra.shortestPath fuel m source target = Return r) /\
    Dijkstra.path r = map Dijkstra.CNode l /\
    Forall2 (fun ab j =>
               get_own (m_edgeKeyToId m)
                       (normalizeEdgeKey (fst ab) (snd ab) (isDirected m))
               = Some j)
            (DijkstraSpec.steps l) (Dijkstra.edgeIds r).
Proof.
  intros Hp Ho Hn Hb Hs Ht Es Et W. unfold Dijkstra.shortestPath.
  destruct (ModelFacts.parsed_graph _ _ _ Hp) as [Hnd Hc].
  rewrite <- (length_map node_id) in Hb.
  destruct (DijkstraFacts.engine_shortest
              (m_adjacency m) (map node_id (nodesArr m)) (m_edgeKeyToId m)
              (isDirected m) maxw source target Hnd Hc Ho Hn Hb Hs Ht Es Et W)
    as [f0 [r [l [Hr [Hpath [Hi [_ [_ [_ [C _]]]]]]]]]].
  exists f0, r, l. split; [exact Hr |]. split; [exact Hpath |].
  rewrite Hi.
  apply (DijkstraFacts.edge_ids_chain (m_adjacency m) (m_edgeKeyToId m)
           (isDirected m)) with (L := Exact.ival (Dijkstra.distance r));
    [| exact C].
  unfold parseGraphInput in Hp.
  apply bind_Return in Hp. destruct Hp as [st [Hst Hm]].
  inversion Hm; subst; clear Hm. cbn [model_of m_adjacency m_edgeKeyToId
                                      Parser.isDirected].
  exact (EdgeFacts.entry_key _ _ _ (EdgeFacts.parse_state_kinv _ _ _ Hst)).
Qed.

Lemma X5_edge_ids_follow_path_witness :
  exists m,
    parseGraphInput triangle_text (mkOptions true false Plain) = Return m /\
    exists fuel0 r l,
      (forall fuel, (fuel0 <= fuel)%nat ->
         Dijkstra.shortestPath fuel m "A" "B" = Return r) /\
      Dijkstra.path r = map Dijkstra.CNode l /\
      Forall2 (fun ab j =>
                 get_own (m_edgeKeyToId m)
                         (normalizeEdgeKey (fst ab) (snd ab) (isDirected m))
                 = Some j)
              (DijkstraSpec.steps l) (Dijkstra.edgeIds r).
Proof.
  exists_parsed.
  match goal with
  | |- context [Dijkstra.shortestPath _ ?x] => set (m := x)
  end.
  assert (Hp : parseGraphInput triangle_text (mkOptions true false Plain)
               = Return m) by (vm_compute; reflexivity).
  apply (X5_edge_ids_follow_path _ _ m 4 "A" "B" Hp).
  - sample_own.
  - sample_weights.
  - vm_compute. reflexivity.
  - cbn. tauto.
  - cbn. tauto.
  - reflexivity.
  - reflexivity.
  - PathGraph.first_entry. constructor.
Defined.

(** ** The graph parser *)

(** X6: in a parsed model the edge at position i of the edge list has id i
    and is stored in the adjacency map: as an entry of its [from] node that
    leads to its [to] node under the id i, and, in an undirected graph, as
    the mirrored entry with the same weight as well; in a weighted graph its
    label is the text of that weight and otherwise it has none; it has the
    arrow "to" exactly in a directed graph. *)
Theorem X6_edges_are_stored (rawText : string) (o : options) (m : model)
        (i : nat) (ed : edge) :
  parseGraphInput rawText o = Return m ->
  nth_error (m_edgesArr m) i = Some ed ->
  id ed = i /\
  (exists w,
     entry_at (m_adjacency m) (from ed) (mkAdj (to ed) w i) /\
     (directed o = false ->
      entry_at (m_adjacency m) (to ed) (mkAdj (from ed) w i)) /\
     label ed = (if weighted o then Some (to_string w) else None)) /\
  arrows ed = (if directed o then Some "to" else None).
Proof.
  unfold parseGraphInput. intros Hp Hi.
  apply bind_Return in Hp. destruct Hp as [st [Hst Hm]].
  inversion Hm; subst; clear Hm.
  cbn [model_of m_adjacency m_edgesArr] in *.
  exact (ParserSpec.k_edge _ _ _ (EdgeFacts.parse_state_kinv _ _ _ Hst)
                           i ed Hi).
Qed.

Lemma X6_edges_are_stored_witness :
  exists m,
    parseGraphInput triangle_text (mkOptions true false Plain) = Return m /\
    id (mkEdge 1 "B" "C" (Some "1") None) = 1%nat /\
    (exists w,
       entry_at (m_adjacency m) "B" (mkAdj "C" w 1) /\
       (false = false -> entry_at (m_adjacency m) "C" (mkAdj "B" w 1)) /\
       Some "1" = Some (to_string w)) /\
    @None string = None.
Proof.
  exists_parsed.
  match goal with
  | |- context [m_adjacency ?x] => set (m := x)
  end.
  assert (Hp : parseGraphInput triangle_text (mkOptions true false Plain)
               = Return m) by (vm_compute; reflexivity).
  exact (X6_edges_are_stored _ _ m 1 (mkEdge 1 "B" "C" (Some "1") None) Hp
                             eq_refl).
Defined.

(** X7: conversely, every adjacency entry of a parsed model belongs to an
    edge of the edge list: its edge id is the position of an edge whose ends
    are the node that owns the entry and the node the entry leads to (in
    this order, or, in an undirected graph, swapped), and in a weighted
    graph the label of that edge is the text of the entry's weight. *)
Theorem X7_entries_come_from_edges (rawText : string) (o : options)
        (m : model) (u : string) (e : adjEntry) :
  parseGraphInput rawText o = Return m ->
  entry_at (m_adjacency m) u e ->
  exists ed,
    nth_error (m_edgesArr m) (edgeId e) = Some ed /\
    ((from ed = u /\ to ed = adj_to e) \/
     (directed o = false /\ from ed = adj_to e /\ to ed = u)) /\
    (weighted o = true -> label ed = Some (to_string (weight e))).
Proof.
  unfold parseGraphInput. intros Hp He.
  apply bind_Return in Hp. destruct Hp as [st [Hst Hm]].
  inversion Hm; subst; clear Hm.
  cbn [model_of m_adjacency m_edgesArr] in *.
  exact (ParserSpec.k_entry _ _ _ (EdgeFacts.parse_state_kinv _ _ _ Hst)
                            u e He).
Qed.

Lemma X7_entries_come_from_edges_witness :
  exists m,
    parseGraphInput triangle_text (mkOptions true false Plain) = Return m /\
    exists ed,
      nth_error (m_edgesArr m) 2 = Some ed /\
      ((from ed = "C" /\ to ed = "A") \/
       (false = false /\ from ed = "A" /\ to ed = "C")) /\
      (true = true -> label ed = Some (to_string (of_Z 2))).
Proof.
  exists_parsed.
  match goal with
  | |- context [m_edgesArr ?x] => set (m := x)
  end.
  assert (Hp : parseGraphInput triangle_text (mkOptions true false Plain)
               = Return m) by (vm_compute; reflexivity).
  apply (X7_entries_come_from_edges _ _ m "C" (mkAdj "A" (of_Z 2) 2) Hp).
  eexists. split; [reflexivity |]. right. left. reflexivity.
Defined.

(** X8: the key table of a parsed model maps the key of every edge to the
    id of the last edge of the edge list that has this key, and holds
    nothing else: every id in it is the position of an edge filed under
    that key. *)
Theorem X8_key_table (rawText : string) (o : options) (m : model) :
  parseGraphInput rawText o = Return m ->
  (forall i ed,
     nth_error (m_edgesArr m) i = Some ed ->
     exists j ed',
       get_own (m_edgeKeyToId m) (ParserSpec.edge_key (directed o) ed)
       = Some j /\
       (i <= j)%nat /\
       nth_error (m_edgesArr m) j = Some ed' /\
       ParserSpec.edge_key (directed o) ed'
       = ParserSpec.edge_key (directed o) ed) /\
  (forall k j,
     get_own (m_edgeKeyToId m) k = Some j ->
     exists ed,
       nth_error (m_edgesArr m) j = Some ed /\
       ParserSpec.edge_key (directed o) ed = k).
Proof.
  unfold parseGraphInput. intros Hp.
  apply bind_Return in Hp. destruct Hp as [st [Hst Hm]].
  inversion Hm; subst; clear Hm.
  cbn [model_of m_edgeKeyToId m_edgesArr].
  pose proof (EdgeFacts.parse_state_kinv _ _ _ Hst) as K.
  split.
  - intros i ed Hi.
    destruct (ParserSpec.k_listed _ _ _ K i ed Hi) as [j [Hj Hij]].
    destruct (ParserSpec.k_key _ _ _ K _ j Hj) as [ed' [Hj' Hk]].
    exists j, ed'. repeat split; assumption.
  - exact (ParserSpec.k_key _ _ _ K).
Qed.

Lemma X8_key_table_witness :
  exists m,
    parseGraphInput triangle_text (mkOptions true false Plain) = Return m /\
    (forall i ed,
       nth_error (m_edgesArr m) i = Some ed ->
       exists j ed',
         get_own (m_edgeKeyToId m) (ParserSpec.edge_key false ed) = Some j /\
         (i <= j)%nat /\
         nth_error (m_edgesArr m) j = Some ed' /\
         ParserSpec.edge_key false ed' = ParserSpec.edge_key false ed) /\
    (forall k j,
       get_own (m_edgeKeyToId m) k = Some j ->
       exists ed,
         nth_error (m_edgesArr m) j = Some ed /\
         ParserSpec.edge_key false ed = k).
Proof.
  exists_parsed.
  match goal with
  | |- context [m_edgesArr ?x] => set (m := x)
  end.
  assert (Hp : parseGraphInput triangle_text (mkOptions true false Plain)
               = Return m) by (vm_compute; reflexivity).
  exact (X8_key_table _ _ m Hp).
Defined.

(** X9: in a parsed undirected model every adjacency entry has its mirror
    image: an entry of u that leads to v is matched by an entry of v that
    leads to u with the same weight and the same edge id. *)
Theorem X9_undirected_entries_mirrored (rawText : string) (o : options)
        (m : model) (u : string) (e : adjEntry) :
  parseGraphInput rawText o = Return m ->
  directed o = false ->
  entry_at (m_adjacency m) u e ->
  entry_at (m_adjacency m) (adj_to e) (mkAdj u (weight e) (edgeId e)).
Proof.
  intros Hp Hd He.
  destruct (ModelFacts.parsed_undirected_model _ _ _ Hp Hd)
    as [_ Hmirror _ _ _].
  exact (Hmirror u e He).
Qed.

Lemma X9_undirected_entries_mirrored_witness :
  exists m,
    parseGraphInput triangle_text (mkOptions true false Plain) = Return m /\
    entry_at (m_adjacency m) "C" (mkAdj "A" (of_Z 2) 2).
Proof.
  exists_parsed.
  match goal with
  | |- context [m_adjacency ?x] => set (m := x)
  end.
  assert (Hp : parseGraphInput triangle_text (mkOptions true false Plain)
               = Return m) by (vm_compute; reflexivity).
  apply (X9_undirected_entries_mirrored _ _ m "A" (mkAdj "C" (of_Z 2) 2) Hp).
  - reflexivity.
  - eexists. split; [reflexivity |]. right. left. reflexivity.
Defined.

(** X10: the nodes of a parsed model are pairwise distinct, each is
    labelled with its own id, and both ends of every edge and of every
    adjacency entry are among them. *)
Theorem X10_nodes_cover_edges (rawText : string) (o : options) (m : model) :
  parseGraphInput rawText o = Return m ->
  NoDup (map node_id (nodesArr m)) /\
  (forall n, In n (nodesArr m) -> node_label n = node_id n) /\
  (forall ed, In ed (m_edgesArr m) ->
     In (from ed) (map node_id (nodesArr m)) /\
     In (to ed) (map node_id (nodesArr m))) /\
  (forall u e, entry_at (m_adjacency m) u e ->
     In u (map node_id (nodesArr m)) /\
     In (adj_to e) (map node_id (nodesArr m))).
Proof.
  intros Hp. destruct (ModelFacts.parsed_graph _ _ _ Hp) as [Hnd Hc].
  split; [exact Hnd |]. split; [| split; [| exact Hc]].
  - unfold parseGraphInput in Hp.
    apply bind_Return in Hp. destruct Hp as [st [_ Hm]].
    inversion Hm; subst; clear Hm. cbn [model_of nodesArr].
    intros n Hn. apply in_map_iff in Hn. destruct Hn as [x [<- _]].
    reflexivity.
  - intros ed Hed. apply In_nth_error in Hed. destruct Hed as [i Hi].
    assert (Hst : exists w, entry_at (m_adjacency m) (from ed)
                                     (mkAdj (to ed) w i)).
    { unfold parseGraphInput in Hp.
      apply bind_Return in Hp. destruct Hp as [st [Hst Hm]].
      inversion Hm; subst; clear Hm.
      cbn [model_of m_adjacency m_edgesArr] in *.
      destruct (ParserSpec.k_edge _ _ _
                  (EdgeFacts.parse_state_kinv _ _ _ Hst) i ed Hi)
        as [_ [[w [He _]] _]].
      now exists w. }
    destruct Hst as [w He]. exact (Hc _ _ He).
Qed.

Lemma X10_nodes_cover_edges_witness :
  exists m,
    parseGraphInput triangle_text (mkOptions true false Plain) = Return m /\
    NoDup (map node_id (nodesArr m)) /\
    (forall n, In n (nodesArr m) -> node_label n = node_id n) /\
    (forall ed, In ed (m_edgesArr m) ->
       In (from ed) (map node_id (nodesArr m)) /\
       In (to ed) (map node_id (nodesArr m))) /\
    (forall u e, entry_at (m_adjacency m) u e ->
       In u (map node_id (nodesArr m)) /\
       In (adj_to e) (map node_id (nodesArr m))).
Proof.
  exists_parsed.
  match goal with
  | |- context [m_adjacency ?x] => set (m := x)
  end.
  assert (Hp : parseGraphInput triangle_text (mkOptions true false Plain)
               = Return m) by (vm_compute; reflexivity).
  exact (X10_nodes_cover_edges _ _ m Hp).
Defined.

(** X11: the key of an undirected edge is the same for both orders of its
    ends, so that an edge filed as (u, v) is found when asked for as
    (v, u). *)
Theorem X11_undirected_key_symmetric (u v : string) :
  normalizeEdgeKey u v false = normalizeEdgeKey v u false.
Proof.
  unfold normalizeEdgeKey.
  destruct (JSString.ltb v u) eqn:E1.
  - now rewrite (KeyFacts.ltb_asym _ _ E1).
  - destruct (JSString.ltb u v) eqn:E2; [reflexivity |].
    now rewrite (KeyFacts.ltb_total _ _ E1 E2).
Qed.

(** ** The binary heap *)

(** X12: the heap sorts.  When items with finite priorities (integers or
    not, negative or not) are pushed onto an empty heap and the heap is
    then popped until it is empty, the items come out rearranged, none lost
    and none added, and the priority of each is [<=] the priority of every
    item that comes out after it. *)
Theorem X12_heap_sorts (l : list MinHeap.item) :
  Forall HeapSpec.finite_item l ->
  Permutation l
    (HeapSpec.pop_all (List.length l) (HeapSpec.push_all [] l)) /\
  StronglySorted HeapSpec.le_item
    (HeapSpec.pop_all (List.length l) (HeapSpec.push_all [] l)).
Proof.
  intros F.
  destruct (HeapSort.push_all_ok l [] (Forall_nil _) HeapSort.heapOrdered_nil
                                 F) as [Ho P].
  cbn [app] in P.
  assert (Hl : List.length (HeapSpec.push_all [] l) = List.length l)
    by (symmetry; now apply Permutation_length).
  assert (F' : Forall HeapSpec.finite_item (HeapSpec.push_all [] l))
    by exact (Permutation_Forall P F).
  destruct (HeapSort.pop_all_ok (List.length l) _ Hl F' Ho) as [P' S'].
  split; [| exact S'].
  eapply Permutation_trans; [exact P | exact P'].
Qed.

Lemma X12_heap_sorts_witness :
  Permutation
    [MinHeap.mkItem "a" (of_Z 3); MinHeap.mkItem "b" (of_string "0.5");
     MinHeap.mkItem "c" (of_Z (-2)); MinHeap.mkItem "d" (of_Z 3)]
    [MinHeap.mkItem "c" (of_Z (-2)); MinHeap.mkItem "b" (of_string "0.5");
     MinHeap.mkItem "d" (of_Z 3); MinHeap.mkItem "a" (of_Z 3)] /\
  StronglySorted HeapSpec.le_item
    [MinHeap.mkItem "c" (of_Z (-2)); MinHeap.mkItem "b" (of_string "0.5");
     MinHeap.mkItem "d" (of_Z 3); MinHeap.mkItem "a" (of_Z 3)].
Proof.
  apply (X12_heap_sorts
           [MinHeap.mkItem "a" (of_Z 3); MinHeap.mkItem "b" (of_string "0.5");
            MinHeap.mkItem "c" (of_Z (-2)); MinHeap.mkItem "d" (of_Z 3)]).
  repeat constructor.
Defined.

(** X13: in every heap made of the empty heap by pushes of finite
    priorities and by pops, in any order, [pop] takes out exactly one item,
    leaves the others, and the priority of the item taken is [<=] that of
    every item that was in the heap. *)
Theorem X13_pop_takes_a_least_item (d d' : MinHeap.heap)
        (it : MinHeap.item) :
  HeapSpec.built d ->
  MinHeap.pop d = Some (it, d') ->
  Permutation d (it :: d') /\
  forall x, In x d -> HeapSpec.le_item it x.
Proof.
  intros B E. destruct (HeapSort.built_ok d B) as [F Ho].
  destruct (HeapFacts.pop_ok HeapSpec.dkey HeapSpec.finite_item
                             HeapSort.dkey_lt d d' it F Ho E)
    as [P [_ Hmin]].
  split; [exact P |]. intros x Hx. unfold HeapSpec.le_item.
  assert (Fi : HeapSpec.finite_item it).
  { pose proof (Permutation_Forall P F) as F'. now inversion F'. }
  rewrite Forall_forall in F.
  rewrite (HeapSort.dkey_le it x Fi (F x Hx)).
  apply Z.leb_le. now apply Hmin.
Qed.

Lemma X13_pop_takes_a_least_item_witness :
  Permutation
    [MinHeap.mkItem "b" (of_Z 1); MinHeap.mkItem "a" (of_Z 2)]
    [MinHeap.mkItem "b" (of_Z 1); MinHeap.mkItem "a" (of_Z 2)] /\
  forall x,
    In x [MinHeap.mkItem "b" (of_Z 1); MinHeap.mkItem "a" (of_Z 2)] ->
    HeapSpec.le_item (MinHeap.mkItem "b" (of_Z 1)) x.
Proof.
  apply (X13_pop_takes_a_least_item
           (MinHeap.push (MinHeap.push [] (MinHeap.mkItem "a" (of_Z 2)))
                         (MinHeap.mkItem "b" (of_Z 1)))
           [MinHeap.mkItem "a" (of_Z 2)] (MinHeap.mkItem "b" (of_Z 1))).
  - apply HeapSpec.built_push;
      [apply HeapSpec.built_push; [apply HeapSpec.built_nil |] |];
      split; reflexivity.
  - reflexivity.
Defined.

(** ** The spanning-tree engine *)

(** X14: on a parsed undirected graph, connected or not, whose node names
    are the adjacency map's own, primMST returns, and what it returns is a
    spanning tree of the part of the graph that the start node can reach:
    the start is the node asked for when that is a non-empty node id, and
    the first node otherwise; the chosen edge ids are distinct, one fewer
    than the nodes that the start reaches; every such node is joined to the
    start by chosen edges alone; and both ends of every chosen edge are
    among these nodes. *)
Theorem X14_prim_spans_component (rawText : string) (o : options)
        (m : model) (startNode : option string) :
  parseGraphInput rawText o = Return m ->
  directed o = false ->
  map node_id (nodesArr m) <> [] ->
  own_names (m_adjacency m) (map node_id (nodesArr m)) ->
  exists r start comp,
    Prim.minimumSpanningTree m startNode = Return r /\
    start = match startNode with
            | Some s =>
                if negb (is_empty s) && Prim.has (map node_id (nodesArr m)) s
                then s else hd "" (map node_id (nodesArr m))
            | None => hd "" (map node_id (nodesArr m))
            end /\
    NoDup comp /\
    (forall x, In x comp <-> walk (m_adjacency m) any_edge start x) /\
    NoDup (Prim.edgeIds r) /\
    S (List.length (Prim.edgeIds r)) = List.length comp /\
    (forall x, In x comp ->
       walk (m_adjacency m) (fun i => In i (Prim.edgeIds r)) start x) /\
    (forall i u e, In i (Prim.edgeIds r) -> entry_at (m_adjacency m) u e ->
                   edgeId e = i -> In u comp /\ In (adj_to e) comp).
Proof.
  intros Hp Hd Hne Hown. unfold Prim.minimumSpanningTree.
  pose proof (ModelFacts.parsed_undirected_model _ _ _ Hp Hd) as U.
  destruct (PrimSpanning.primMST_component _ _ startNode Hne U Hown)
    as [start [a [Hr [Hs [[P1 P2 P3 P4 P5 P6 P7 P8 P9 P10] Hall]]]]].
  exists (Prim.mkResult (Prim.total a) (Prim.chosenEdgeIds a)), start,
         (Prim.inMST a).
  cbn [Prim.edgeIds].
  split; [exact Hr |]. split; [exact Hs |]. split; [exact P1 |].
  split; [| split; [exact P6 | split; [exact P5 | split; [exact P4 |
                                                           exact P7]]]].
  intros x. split.
  - intros Hx.
    exact (PrimFacts.walk_weaken (m_adjacency m) _ any_edge start x
                                 (fun _ _ => I) (P4 x Hx)).
  - intros W.
    exact (PrimFacts.walk_inside (m_adjacency m) (Prim.inMST a) start x
                                 Hall W P3).
Qed.

Lemma X14_prim_spans_component_witness :
  exists m,
    parseGraphInput two_parts_text (mkOptions true false Plain) = Return m /\
    exists r start comp,
      Prim.minimumSpanningTree m (Some "D") = Return r /\
      start = (if negb (is_empty "D")
                  && Prim.has (map node_id (nodesArr m)) "D"
               then "D" else hd "" (map node_id (nodesArr m))) /\
      NoDup comp /\
      (forall x, In x comp <-> walk (m_adjacency m) any_edge start x) /\
      NoDup (Prim.edgeIds r) /\
      S (List.length (Prim.edgeIds r)) = List.length comp /\
      (forall x, In x comp ->
         walk (m_adjacency m) (fun i => In i (Prim.edgeIds r)) start x) /\
      (forall i u e, In i (Prim.edgeIds r) -> entry_at (m_adjacency m) u e ->
                     edgeId e = i -> In u comp /\ In (adj_to e) comp).
Proof.
  exists_parsed.
  match goal with
  | |- context [Prim.minimumSpanningTree ?x] => set (m := x)
  end.
  assert (Hp : parseGraphInput two_parts_text (mkOptions true false Plain)
               = Return m) by (vm_compute; reflexivity).
  apply (X14_prim_spans_component _ _ m (Some "D") Hp).
  - reflexivity.
  - discriminate.
  - sample_own.
Defined.

(** ** The calculators *)

(** X15: both number readers take every binary literal (0b or 0B followed
    by binary digits, white space around it allowed) for zero: [parseInt]
    with radix 2 stops at the letter and reads the leading zero alone. *)
Theorem X15_binary_literal_reads_as_zero (s : string) :
  is_bin_literal (trim s) = true ->
  parseSingleNumberToken (VStr s) = Some pzero /\
  toNumberIfPossible (VStr s) = Some pzero.
Proof.
  intros H. unfold parseSingleNumberToken, toNumberIfPossible.
  cbn [toString].
  rewrite (TokenFacts.bin_nonempty _ H), (TokenFacts.bin_first _ 45 H),
    (TokenFacts.bin_first _ 43 H) by discriminate.
  cbn [orb].
  rewrite (TokenFacts.hex_not_bin _ H), H,
    (TokenFacts.parseInt_bin_literal _ H).
  split; reflexivity.
Qed.

Lemma X15_binary_literal_reads_as_zero_witness :
  parseSingleNumberToken (VStr " 0b1011") = Some pzero /\
  toNumberIfPossible (VStr " 0b1011") = Some pzero.
Proof.
  apply (X15_binary_literal_reads_as_zero " 0b1011"). reflexivity.
Defined.

(** X16: the three list calculators answer alike.  Where the list cannot
    be read, all three return the reader's message.  Where it can, each
    returns the numbers read as inputs and, for one number, that number
    unchanged (not even brought to 32 bits), and for two or more, the
    operator applied from left to right to the signed 32-bit values of the
    numbers, which is again a signed 32-bit integer. *)
Theorem X16_list_calculators (raw : option string) :
  match Calculators.parsePlainList raw with
  | Calculators.Nums inputs =>
      exists a o x,
        Calculators.computeAndList raw = Calculators.Combined a inputs /\
        Calculators.computeOrList raw = Calculators.Combined o inputs /\
        Calculators.computeXorList raw = Calculators.Combined x inputs /\
        CalcSpec.combined_by Z.land a inputs /\
        CalcSpec.combined_by Z.lor o inputs /\
        CalcSpec.combined_by Z.lxor x inputs
  | Calculators.Failed message =>
      Calculators.computeAndList raw = Calculators.Failed message /\
      Calculators.computeOrList raw = Calculators.Failed message /\
      Calculators.computeXorList raw = Calculators.Failed message
  | _ => False
  end.
Proof.
  unfold Calculators.computeAndList, Calculators.computeOrList,
    Calculators.computeXorList, Calculators.combineList.
  destruct (BitFacts.parsePlainList_shape raw) as [[nums E] | [msg E]];
    rewrite E; [| repeat split].
  destruct (BitFacts.parsePlainList_Nums raw nums E) as [_ [_ [Hne _]]].
  destruct nums as [| first [| second rest]]; [congruence | |].
  - exists first, first, first. repeat split.
  - do 3 eexists.
    split; [reflexivity |]. split; [reflexivity |]. split; [reflexivity |].
    split; [| split].
    + exact (BitFacts.fold_two Z.land BitFacts.int32_land first second rest).
    + exact (BitFacts.fold_two Z.lor BitFacts.int32_lor first second rest).
    + exact (BitFacts.fold_two Z.lxor BitFacts.int32_lxor first second rest).
Qed.

(** X17: when [parsePlainList] returns numbers there is at least one, and
    none of them is NaN: a token that does not read as a number makes the
    whole list fail. *)
Theorem X17_numbers_read (raw : option string) (nums : list number) :
  Calculators.parsePlainList raw = Calculators.Nums nums ->
  nums <> [] /\ Forall (fun x => isNaN x = false) nums.
Proof.
  intros H.
  destruct (BitFacts.parsePlainList_Nums raw nums H) as [text [_ [Hne F]]].
  split; [exact Hne |]. clear H Hne.
  induction F as [| tok n toks ns Hn _ IH]; constructor.
  - exact (TokenFacts.token_not_nan _ _ Hn).
  - exact IH.
Qed.

Lemma X17_numbers_read_witness :
  [of_Z 12; of_Z (-3)] <> [] /\
  Forall (fun x => isNaN x = false) [of_Z 12; of_Z (-3)].
Proof.
  apply (X17_numbers_read (Some "12, -3.7") [of_Z 12; of_Z (-3)]).
  vm_compute. reflexivity.
Defined.

(** X18: the two converters are inverse on integers of magnitude below
    2^53.  When [decToBinary] reads such an integer k from its input, the
    binary text it returns is read back by [binToDecimal] as k. *)
Theorem X18_binary_round_trip (raw : option string) (k : Z) (b : string) :
  Calculators.decToBinary raw = Calculators.Binary (of_Z k) b ->
  - 2 ^ 53 < k < 2 ^ 53 ->
  Calculators.binToDecimal (Some b) = Calculators.Decimal b (of_Z k).
Proof.
  intros H Hk. unfold Calculators.decToBinary in H.
  destruct raw as [text |]; [| discriminate H].
  destruct (is_empty (trim text)); [discriminate H |].
  destruct (parseSingleNumberToken
              (VStr (Calculators.first_piece (trim text)))) as [n |];
    [| discriminate H].
  destruct (lt n pzero) eqn:L; injection H as -> <-.
  - destruct k as [| p | p].
    + discriminate L.
    + exfalso. rewrite ExactFacts.of_Z_canon in L by lia.
      destruct (ExactFacts.canon_mantissa p ltac:(lia)) as [m [E _]].
      rewrite E in L. discriminate L.
    + assert (Eb : Calculators.to_radix2 (Calculators.abs (of_Z (Zneg p)))
                   = of_chars (Calculators.bits_pos p [])).
      { rewrite (NumberFacts.of_Z_opp p).
        rewrite (ExactFacts.of_Z_canon (Zpos p)) by lia.
        destruct (ExactFacts.canon_mantissa p ltac:(lia)) as [m [E _]].
        rewrite E. cbn [SFopp Calculators.abs]. rewrite <- E.
        apply RadixFacts.to_radix2_canon. lia. }
      rewrite Eb.
      exact (proj2 (RadixFacts.binToDecimal_bits p ltac:(lia))).
  - destruct k as [| p | p].
    + reflexivity.
    + assert (Eb : Calculators.to_radix2 (of_Z (Zpos p))
                   = of_chars (Calculators.bits_pos p [])).
      { rewrite (ExactFacts.of_Z_canon (Zpos p)) by lia.
        apply RadixFacts.to_radix2_canon. lia. }
      rewrite Eb.
      exact (proj1 (RadixFacts.binToDecimal_bits p ltac:(lia))).
    + exfalso. rewrite (NumberFacts.of_Z_opp p) in L.
      rewrite (ExactFacts.of_Z_canon (Zpos p)) in L by lia.
      destruct (ExactFacts.canon_mantissa p ltac:(lia)) as [m [E _]].
      rewrite E in L. discriminate L.
Qed.

Lemma X18_binary_round_trip_witness :
  Calculators.binToDecimal (Some "-1010")
  = Calculators.Decimal "-1010" (of_Z (-10)).
Proof.
  apply (X18_binary_round_trip (Some " -10.9, 4") (-10) "-1010").
  - vm_compute. reflexivity.
  - lia.
Defined.

(** ** The option [weighted] *)

(** X19: the option [weighted] decides the labels of the edges and nothing
    else.  Parsing a text with and without it either throws the same error
    both times, or returns two models with the same nodes, the same
    adjacency map (weights included: a third field that reads as a number
    is kept as the weight either way), the same key table and the same
    edges up to their labels, of which the model read without the option
    has none.  So the shortest-path engine and the spanning-tree engine
    answer the same on both models. *)
Theorem X19_weighted_changes_labels_only (rawText : string)
        (directed : bool) (mode : Parser.mode) :
  match parseGraphInput rawText (mkOptions true directed mode),
        parseGraphInput rawText (mkOptions false directed mode) with
  | Return m1, Return m2 =>
      nodesArr m1 = nodesArr m2 /\
      m_adjacency m1 = m_adjacency m2 /\
      m_edgeKeyToId m1 = m_edgeKeyToId m2 /\
      isDirected m1 = isDirected m2 /\
      map ParserSpec.unlabelled (m_edgesArr m1)
      = map ParserSpec.unlabelled (m_edgesArr m2) /\
      Forall (fun ed => label ed = None) (m_edgesArr m2) /\
      (forall fuel source target,
         Dijkstra.shortestPath fuel m1 source target
         = Dijkstra.shortestPath fuel m2 source target) /\
      (forall startNode,
         Prim.minimumSpanningTree m1 startNode
         = Prim.minimumSpanningTree m2 startNode)
  | Throw e1, Throw e2 => e1 = e2
  | _, _ => False
  end.
Proof.
  unfold parseGraphInput.
  pose proof (WeightedFacts.parse_state_same directed rawText mode) as H.
  destruct (parse_state rawText (mkOptions true directed mode))
    as [s1 | e1 |];
    destruct (parse_state rawText (mkOptions false directed mode))
    as [s2 | e2 |]; cbn [ParserSpec.same_outcome] in H; try contradiction;
    cbn [bind]; [| exact H].
  destruct H as [Ha [Hk [Hn [He [Hc Hl]]]]].
  unfold Dijkstra.shortestPath, Prim.minimumSpanningTree, model_of.
  cbn [nodesArr m_adjacency m_edgeKeyToId isDirected m_edgesArr
       Parser.directed].
  rewrite Ha, Hk, Hn. repeat split; assumption.
Qed.

(** X20: [calculate] of the first page.  It works on the pieces of the
    input that [Number] converts to something other than NaN, skipping the
    others without an error.  With no such piece it returns 0; with one, it
    returns that number unchanged; with two or more, under the operations
    AND, OR and XOR it returns the operator applied from left to right to
    the signed 32-bit values of the numbers, itself a signed 32-bit
    integer, and under any other operation the first number. *)
Theorem X20_calculate (operation inputString : string) :
  match MainPage.numbers_of inputString with
  | [] => MainPage.calculate operation inputString = pzero
  | first :: rest =>
      (operation = "AND" ->
       CalcSpec.combined_by Z.land
         (MainPage.calculate operation inputString) (first :: rest)) /\
      (operation = "OR" ->
       CalcSpec.combined_by Z.lor
         (MainPage.calculate operation inputString) (first :: rest)) /\
      (operation = "XOR" ->
       CalcSpec.combined_by Z.lxor
         (MainPage.calculate operation inputString) (first :: rest)) /\
      (operation <> "AND" -> operation <> "OR" -> operation <> "XOR" ->
       MainPage.calculate operation inputString = first)
  end.
Proof.
  unfold MainPage.calculate.
  destruct (MainPage.numbers_of inputString) as [| first [| second rest]];
    [reflexivity | repeat split |].
  split; [| split; [| split]].
  - intros ->.
    exact (BitFacts.fold_two Z.land BitFacts.int32_land first second rest).
  - intros ->.
    exact (BitFacts.fold_two Z.lor BitFacts.int32_lor first second rest).
  - intros ->.
    exact (BitFacts.fold_two Z.lxor BitFacts.int32_lxor first second rest).
  - intros N1 N2 N3.
    assert (E : forall acc cur, MainPage.step operation acc cur = acc).
    { intros acc cur. unfold MainPage.step.
      apply String.eqb_neq in N1. apply String.eqb_neq in N2.
      apply String.eqb_neq in N3. now rewrite N1, N2, N3. }
    generalize (second :: rest). intros l.
    induction l as [| x l IH]; [reflexivity |].
    cbn [fold_left]. now rewrite E.
Qed.

(** ** Array mode *)

(** X21: the helper that reads the first bracketed expression.  On a text
    without an opening bracket it throws the error "No '[' found".  What
    precedes the first opening bracket and what follows the bracket that
    closes it is not read: the helper answers what [JSON.parse] answers on
    the bracketed part alone. *)
Theorem X21_first_bracketed_expression (pre : string) :
  Forall (fun c => is_char 91 c = false) (chars pre) ->
  extractAndParseFirstBracketed pre = Throw (Error "No '[' found") /\
  forall body post,
    ParserSpec.bracketed body ->
    extractAndParseFirstBracketed (pre ++ body ++ post) = JSON.parse body.
Proof.
  intros Hpre. split.
  - unfold extractAndParseFirstBracketed.
    rewrite <- (app_nil_r (chars pre)).
    rewrite (ArrayFacts.from_first_skip 91 _ [] Hpre). reflexivity.
  - intros body post Hb. now apply ArrayFacts.extract_bracketed.
Qed.

Lemma X21_first_bracketed_expression_witness :
  extractAndParseFirstBracketed "edges = " = Throw (Error "No '[' found") /\
  forall body post,
    ParserSpec.bracketed body ->
    extractAndParseFirstBracketed ("edges = " ++ body ++ post)
    = JSON.parse body.
Proof.
  apply (X21_first_bracketed_expression "edges = ").
  repeat constructor.
Defined.

(** X22: an edge list in array mode.  When the whole text is the JSON of
    an array whose elements are all arrays of two or more elements, and the
    parser returns, the edges of the model are the entries of the array, in
    their order: the ends of each edge are the first two elements of its
    entry, as strings. *)
Theorem X22_edge_list_entries (rawText : string) (weighted directed : bool)
        (m : model) (l : list value) :
  parseGraphInput rawText (mkOptions weighted directed Array) = Return m ->
  JSON.parse rawText = Return (VArr l) ->
  forallb is_edge_entry l = true ->
  endpoints m = map ParserSpec.entry_ends l.
Proof.
  unfold parseGraphInput, parse_state, endpoints.
  cbn [inputMode Parser.weighted Parser.directed]. intros H Hj Hl.
  apply bind_Return in H. destruct H as [st [Hst Hm]].
  injection Hm as <-. cbn [model_of m_edgesArr].
  unfold parse_array, read_array_text in Hst. rewrite Hj in Hst.
  cbn [truthy negb unwrap_object bind] in Hst. rewrite Hl in Hst.
  destruct l as [| entry r]; [discriminate Hst |].
  change ((0 <? List.length (entry :: r))%nat) with true in Hst.
  cbn [andb] in Hst.
  exact (ArrayFacts.add_entries_endpoints _ _ _ Hl _ _ Hst).
Qed.

Lemma X22_edge_list_entries_witness :
  exists m,
    parseGraphInput "[[1,2],[2,3,7]]" (mkOptions true true Array)
    = Return m /\
    endpoints m
    = map ParserSpec.entry_ends
          [VArr [VNum (of_Z 1); VNum (of_Z 2)];
           VArr [VNum (of_Z 2); VNum (of_Z 3); VNum (of_Z 7)]].
Proof.
  exists_parsed.
  match goal with
  | |- endpoints ?x = _ => set (m := x)
  end.
  apply (X22_edge_list_entries "[[1,2],[2,3,7]]" true true m).
  - vm_compute. reflexivity.
  - vm_compute. reflexivity.
  - reflexivity.
Defined.

(** ** Plain-text mode *)

(** X23: an edge list in plain text.  When no line of the text holds a
    colon and the parser returns, the edges of the model are the lines
    with two fields or more, in their order, the ends of each edge being
    the first two fields of its line; a line with a single field adds
    nothing, so that every node of the model is an end of an edge. *)
Theorem X23_plain_edge_list (rawText : string) (weighted directed : bool)
        (m : model) :
  parseGraphInput rawText (mkOptions weighted directed Plain) = Return m ->
  Forall (fun line => contains_char ":" line = false)
         (plain_lines rawText) ->
  endpoints m = flat_map ParserSpec.line_ends (plain_lines rawText) /\
  forall x, In x (map node_id (nodesArr m)) ->
    exists ed, In ed (m_edgesArr m) /\ (from ed = x \/ to ed = x).
Proof.
  unfold parseGraphInput, parse_state, endpoints.
  cbn [inputMode Parser.weighted Parser.directed]. intros H Hc.
  apply bind_Return in H. destruct H as [st [Hst Hm]].
  injection Hm as <-. rewrite ModelFacts.model_nodes.
  cbn [model_of m_edgesArr].
  destruct (PlainFacts.parse_lines_edge_list _ _ _ Hc _ _ Hst) as [E Q].
  split; [exact E |]. apply Q. intros x [].
Qed.

Lemma X23_plain_edge_list_witness :
  exists m,
    parseGraphInput ("A B 4" ++ nl ++ "C" ++ nl ++ "B D")
                    (mkOptions true false Plain) = Return m /\
    endpoints m
    = flat_map ParserSpec.line_ends
               (plain_lines ("A B 4" ++ nl ++ "C" ++ nl ++ "B D")) /\
    forall x, In x (map node_id (nodesArr m)) ->
      exists ed, In ed (m_edgesArr m) /\ (from ed = x \/ to ed = x).
Proof.
  exists_parsed.
  match goal with
  | |- endpoints ?x = _ /\ _ => set (m := x)
  end.
  apply (X23_plain_edge_list ("A B 4" ++ nl ++ "C" ++ nl ++ "B D")
                             true false m).
  - vm_compute. reflexivity.
  - repeat constructor.
Defined.
